(** * cc4.h: the containers [map], [set], [vec] and [list]

    A shallow embedding of [src/cc4.h]: the Robin Hood hash table shared by
    [map] and [set] (bucket layout, insertion with displacement, lookup,
    backward-shift deletion, capacity policy, iteration, the default hash
    and comparison functions), the vector and the doubly linked list,
    together with the properties proved about them.

    Conventions of the embedding.
    - A container handle is a pointer; a map, set or vector value here
      carries the block of its handle next to the header fields and the
      array behind the header, so that pointer-iterators and sentinels can be
      computed as the code computes them.  A pointer is a block and an
      offset in bytes; a [void *] that may be [NULL] is an [option].  The
      nodes of a list are blocks of their own; the list functions work on a
      heap that maps the live blocks to their contents.
    - [size_t] counters (size, capacity, bucket indices) and probe lengths
      are natural numbers: they count buckets of one allocated array and are
      bounded by its capacity ([plen_le_cap] below).  A capacity or a byte
      count computed from an argument of the caller ([reserve], [resize])
      is the number itself: the model is the code as long as it stays
      below [2 ^ 64], and the theorems about these two functions assume
      that it does.  Hash values are integers and are reduced with the same
      bit mask as in the code.
    - The key and element callbacks [hash] and [cmpr] are section variables;
      destructor and [free_] calls are recorded as events in program order.
    - The maximum load factor is a [double] in the code.  Capacities are
      powers of two, so [cap * max_load] is exact in binary floating point
      and the comparison [n > cap * max_load] is the comparison of the
      mathematical values; [max_load] is therefore a rational here.
    - A loop whose number of iterations depends on the container runs on a
      counter that bounds its iterations; the result [None] stands for a run
      that leaves the array or the live blocks, or exceeds the bound, and
      the theorems show that it does not occur on the containers the
      library can build. *)

From stdpp Require Import base numbers option list strings gmap.
From Stdlib.Strings Require Import Byte.
From Stdlib Require Import QArith.
Close Scope Q_scope.


(** * Part I: the embedding *)

(** ** Default hash and comparison functions *)

(** A byte of a C string read through [(unsigned char)]. *)
Definition uchar (b : byte) : Z := Z.of_N (Byte.to_N b).

(** [cc4_hash_c_string], branch [SIZE_MAX == 0xFFFFFFFF].  The argument is
    the memory at [val]: the loop [while( *val )] stops at the first zero
    byte, or at the end of the list, where the terminator sits. *)
Fixpoint cc4_hash_c_string_32_loop (val : list byte) (hash : Z) : Z :=
  match val with
  | [] => hash
  | c :: val' =>
      if (uchar c =? 0)%Z then hash
      else cc4_hash_c_string_32_loop val'
             ((Z.lxor (uchar c) hash * 0x811c9dc5) mod 2 ^ 32)%Z
  end.

Definition cc4_hash_c_string_32 (val : list byte) : Z :=
  cc4_hash_c_string_32_loop val 0x01000193%Z.

(** [cc4_hash_c_string], branch [SIZE_MAX == 0xFFFFFFFFFFFFFFFF]. *)
Fixpoint cc4_hash_c_string_64_loop (val : list byte) (hash : Z) : Z :=
  match val with
  | [] => hash
  | c :: val' =>
      if (uchar c =? 0)%Z then hash
      else cc4_hash_c_string_64_loop val'
             ((Z.lxor (uchar c) hash * 0x100000001b3) mod 2 ^ 64)%Z
  end.

Definition cc4_hash_c_string_64 (val : list byte) : Z :=
  cc4_hash_c_string_64_loop val 0xcbf29ce484222325%Z.

(** FNV-1a in the words of the specification: start from the offset basis;
    XOR each byte into the hash and multiply the result by the FNV prime
    (modulo the word size). *)
Fixpoint fnv1a_from (bits prime : Z) (s : list byte) (h : Z) : Z :=
  match s with
  | [] => h
  | c :: s' =>
      if (uchar c =? 0)%Z then h
      else fnv1a_from bits prime s' ((Z.lxor h (uchar c) * prime) mod 2 ^ bits)%Z
  end.

Definition fnv1a_32 (s : list byte) : Z :=
  fnv1a_from 32 0x01000193 s 0x811c9dc5%Z.

Definition fnv1a_64 (s : list byte) : Z :=
  fnv1a_from 64 0x100000001b3 s 0xcbf29ce484222325%Z.

(** [cc4_hash_unsigned_long_long] and [cc4_cmpr_unsigned_long_long]
    (64-bit [size_t]); keys are the values pointed to. *)
Definition cc4_hash_unsigned_long_long (val : Z) : Z :=
  (val * 2654435761 mod 2 ^ 64)%Z.

Definition cc4_cmpr_unsigned_long_long (val_1 val_2 : Z) : Z :=
  (Z.b2z (val_2 <? val_1) - Z.b2z (val_1 <? val_2))%Z.

(** ** Bucket layout *)

Definition sizeof_cc4_probelen_ty : Z := 4.
Definition alignof_cc4_probelen_ty : Z := 4.

(** [sizeof( cc4_map_hdr_ty )]: two [size_t] aligned to [max_align_t]
    (LP64). *)
Definition sizeof_cc4_map_hdr_ty : Z := 16.

Definition uint8_t (x : Z) : Z := Z.land x (Z.ones 8).
Definition uint32_t (x : Z) : Z := Z.land x (Z.ones 32).

Definition CC4_PADDING (size align : Z) : Z :=
  Z.land ((Z.lnot size + 1) mod 2 ^ 64) (align - 1).

Definition CC4_MAX (a b : Z) : Z := if (b <? a)%Z then a else b.

Definition CC4_MAP_EL_PADDING (el_size key_align : Z) : Z :=
  CC4_PADDING el_size key_align.

Definition CC4_MAP_KEY_PADDING (el_size key_size key_align : Z) : Z :=
  CC4_PADDING (el_size + CC4_MAP_EL_PADDING el_size key_align + key_size)
    alignof_cc4_probelen_ty.

Definition CC4_MAP_PROBELEN_PADDING (el_size el_align key_size key_align : Z) : Z :=
  CC4_PADDING
    (el_size + CC4_MAP_EL_PADDING el_size key_align + key_size +
     CC4_MAP_KEY_PADDING el_size key_size key_align + sizeof_cc4_probelen_ty)
    (CC4_MAX key_align (CC4_MAX el_align alignof_cc4_probelen_ty)).

(** [cc4_layout] for [cntr_id == CC4_MAP]. *)
Definition cc4_layout_map (el_size el_align key_size key_align : Z) : Z :=
  Z.lor key_size
    (Z.lor (Z.shiftl (CC4_MAP_EL_PADDING el_size key_align) 32)
       (Z.lor (Z.shiftl (CC4_MAP_KEY_PADDING el_size key_size key_align) 40)
          (Z.shiftl (CC4_MAP_PROBELEN_PADDING el_size el_align key_size key_align) 48))).

Definition CC4_KEY_SIZE (layout : Z) : Z := uint32_t layout.

Definition CC4_KEY_OFFSET (el_size layout : Z) : Z :=
  el_size + uint8_t (Z.shiftr layout 32).

Definition CC4_PROBELEN_OFFSET (el_size layout : Z) : Z :=
  CC4_KEY_OFFSET el_size layout + uint32_t layout + uint8_t (Z.shiftr layout 40).

Definition CC4_BUCKET_SIZE (el_size layout : Z) : Z :=
  CC4_PROBELEN_OFFSET el_size layout + sizeof_cc4_probelen_ty
  + uint8_t (Z.shiftr layout 48).

(** ** Memory objects, pointers and calls through function pointers *)

(** The objects a pointer can point into: the static placeholder header,
    the static [cc4_dummy_true], and the blocks handed out by [realloc_]. *)
Inductive block : Type :=
  | blk_map_placeholder
  | blk_dummy_true
  | blk_heap (id : nat).

#[global] Instance block_eq_dec : EqDecision block.
Proof. solve_decision. Defined.

(** A pointer is an object and a byte offset into it. *)
Definition ptr : Type := (block * Z)%type.

Definition cc4_dummy_true_ptr : ptr := (blk_dummy_true, 0%Z).

(** Destructors are called for their effect only; a destructor is known
    by its name, and [None] is the [NULL] function pointer. *)
Definition cc4_dtor_fnptr_ty : Type := option string.

(** [realloc_( NULL, size )] answers with a fresh block or with [NULL]. *)
Definition cc4_realloc_fnptr_ty : Type := option ptr -> Z -> option nat.

Inductive event : Type :=
  | call_dtor (f : string) (arg : ptr)
  | call_free (p : ptr).

(** [if( dtor ) dtor( arg );] *)
Definition call_if (dtor : cc4_dtor_fnptr_ty) (arg : ptr) : list event :=
  match dtor with
  | Some f => [call_dtor f arg]
  | None => []
  end.

(** ** Buckets and containers *)

Record bucket (K E : Type) : Type := Bucket {
  b_el : E;
  b_key : K;
  b_probelen : nat
}.
Arguments Bucket {K E} _ _ _.
Arguments b_el {K E} _.
Arguments b_key {K E} _.
Arguments b_probelen {K E} _.

(** The block a handle points to: the header ([size], [cap]) followed by
    the bucket array. *)
Record cntr_ty (K E : Type) : Type := Cntr {
  hndl : block;
  size : nat;
  cap : nat;
  bkts : list (bucket K E)
}.
Arguments Cntr {K E} _ _ _ _.
Arguments hndl {K E} _.
Arguments size {K E} _.
Arguments cap {K E} _.
Arguments bkts {K E} _.

Record cc4_allocing_fn_result_ty (K E : Type) : Type := cc4_make_allocing_fn_result {
  new_cntr : cntr_ty K E;
  other_ptr : option ptr
}.
Arguments cc4_make_allocing_fn_result {K E} _ _.
Arguments new_cntr {K E} _.
Arguments other_ptr {K E} _.

Definition cc4_map_placeholder {K E : Type} : cntr_ty K E :=
  Cntr blk_map_placeholder 0 0 [].

Definition cc4_map_size {K E} (cntr : cntr_ty K E) : nat := size cntr.
Definition cc4_map_cap {K E} (cntr : cntr_ty K E) : nat := cap cntr.
Definition cc4_map_is_placeholder {K E} (cntr : cntr_ty K E) : bool :=
  cc4_map_cap cntr =? 0.

Definition cc4_map_el {K E} (cntr : cntr_ty K E) (i : nat) (el_size layout : Z) : ptr :=
  (hndl cntr, sizeof_cc4_map_hdr_ty + CC4_BUCKET_SIZE el_size layout * Z.of_nat i)%Z.

Definition cc4_map_key {K E} (cntr : cntr_ty K E) (i : nat) (el_size layout : Z) : ptr :=
  (hndl cntr, snd (cc4_map_el cntr i el_size layout) + CC4_KEY_OFFSET el_size layout)%Z.

(** [x & ( cap - 1 )], the reduction of a hash or of [i + 1] to a bucket
    index.  For [cap = 0] the mask is [SIZE_MAX] in the code and [-1] here;
    both leave [x] as it is. *)
Definition mask (x : Z) (cap : nat) : nat :=
  Z.to_nat (Z.land x (Z.of_nat cap - 1)).

(** [*cc4_map_probelen( cntr, i, ... ) = probelen] *)
Definition set_probelen {K E} (bs : list (bucket K E)) (i probelen : nat)
  : list (bucket K E) :=
  match bs !! i with
  | Some b => <[i := Bucket (b_el b) (b_key b) probelen]> bs
  | None => bs
  end.

(** ** Insertion *)

(** The inner loop of [cc4_map_insert_raw] (and of
    [cc4_map_insert_raw_unique]): the candidate [el]/[key] with probe length
    [probelen] is written into the first empty bucket; on the way it is
    swapped with every resident whose probe length is smaller. *)
Fixpoint cc4_map_insert_raw_steal {K E} (fuel : nat) (cap : nat)
    (bs : list (bucket K E)) (i : nat) (el : E) (key : K) (probelen : nat)
  : option (list (bucket K E)) :=
  match fuel with
  | O => None
  | S fuel' =>
      b ← bs !! i;
      if b_probelen b =? 0 then
        Some (<[i := Bucket el key probelen]> bs)
      else if b_probelen b <? probelen then
        cc4_map_insert_raw_steal fuel' cap (<[i := Bucket el key probelen]> bs)
          (mask (Z.of_nat i + 1) cap) (b_el b) (b_key b) (S (b_probelen b))
      else
        cc4_map_insert_raw_steal fuel' cap bs
          (mask (Z.of_nat i + 1) cap) el key (S probelen)
  end.

(** The outer loop of [cc4_map_insert_raw]. *)
Fixpoint cc4_map_insert_raw_loop {K E} (fuel : nat) (cntr : cntr_ty K E)
    (el : E) (key : K) (replace : bool) (el_size layout : Z)
    (cmpr : K -> K -> Z) (el_dtor key_dtor : cc4_dtor_fnptr_ty)
    (i probelen : nat)
  : option (cntr_ty K E * ptr * list event) :=
  match fuel with
  | O => None
  | S fuel' =>
      b ← bkts cntr !! i;
      if b_probelen b <? probelen then
        (* Empty bucket, or stealing occupied bucket. *)
        let to_return := cc4_map_el cntr i el_size layout in
        bs' ← cc4_map_insert_raw_steal (S (cap cntr)) (cap cntr) (bkts cntr)
                i el key probelen;
        Some (Cntr (hndl cntr) (S (size cntr)) (cap cntr) bs', to_return, [])
      else if (probelen =? b_probelen b) && (cmpr (b_key b) key =? 0)%Z then
        (* Same key. *)
        if replace then
          Some (Cntr (hndl cntr) (size cntr) (cap cntr)
                  (<[i := Bucket el key (b_probelen b)]> (bkts cntr)),
                cc4_map_el cntr i el_size layout,
                call_if key_dtor (cc4_map_key cntr i el_size layout)
                ++ call_if el_dtor (cc4_map_el cntr i el_size layout))
        else
          Some (cntr, cc4_map_el cntr i el_size layout, [])
      else
        cc4_map_insert_raw_loop fuel' cntr el key replace el_size layout cmpr
          el_dtor key_dtor (mask (Z.of_nat i + 1) (cap cntr)) (S probelen)
  end.

Definition cc4_map_insert_raw {K E} (cntr : cntr_ty K E) (el : E) (key : K)
    (replace : bool) (el_size layout : Z) (hash : K -> Z) (cmpr : K -> K -> Z)
    (el_dtor key_dtor : cc4_dtor_fnptr_ty)
  : option (cntr_ty K E * ptr * list event) :=
  cc4_map_insert_raw_loop (S (cap cntr)) cntr el key replace el_size layout cmpr
    el_dtor key_dtor (mask (hash key) (cap cntr)) 1.

(** The outer loop of [cc4_map_insert_raw_unique]: no comparison of keys. *)
Fixpoint cc4_map_insert_raw_unique_loop {K E} (fuel : nat) (cntr : cntr_ty K E)
    (el : E) (key : K) (el_size layout : Z) (i probelen : nat)
  : option (cntr_ty K E * ptr) :=
  match fuel with
  | O => None
  | S fuel' =>
      b ← bkts cntr !! i;
      if b_probelen b <? probelen then
        let to_return := cc4_map_el cntr i el_size layout in
        bs' ← cc4_map_insert_raw_steal (S (cap cntr)) (cap cntr) (bkts cntr)
                i el key probelen;
        Some (Cntr (hndl cntr) (S (size cntr)) (cap cntr) bs', to_return)
      else
        cc4_map_insert_raw_unique_loop fuel' cntr el key el_size layout
          (mask (Z.of_nat i + 1) (cap cntr)) (S probelen)
  end.

Definition cc4_map_insert_raw_unique {K E} (cntr : cntr_ty K E) (el : E) (key : K)
    (el_size layout : Z) (hash : K -> Z)
  : option (cntr_ty K E * ptr) :=
  cc4_map_insert_raw_unique_loop (S (cap cntr)) cntr el key el_size layout
    (mask (hash key) (cap cntr)) 1.

(** ** Capacity policy *)

(** [n > cap * max_load] *)
Definition exceeds_load (n cap : nat) (max_load : Q) : bool :=
  negb (Qle_bool (inject_Z (Z.of_nat n)) (inject_Z (Z.of_nat cap) * max_load)).

(** [while( n > cap * max_load ) cap *= 2;].  The capacity is a [nat]:
    the loop of the model is the loop of the code as long as the capacity
    it ends with is below [2 ^ 64]; beyond, the [size_t] of the code wraps
    around to zero and its loop does not end. *)
Fixpoint cc4_map_min_cap_loop (fuel : nat) (n cap : nat) (max_load : Q)
  : option nat :=
  match fuel with
  | O => None
  | S fuel' =>
      if exceeds_load n cap max_load
      then cc4_map_min_cap_loop fuel' n (cap * 2) max_load
      else Some cap
  end.

(** The doubling loop runs at most [n * den] times when
    [max_load = num / den > 0]. *)
Definition cc4_map_min_cap_for_n_els (n : nat) (max_load : Q) : option nat :=
  if n =? 0 then Some 0
  else cc4_map_min_cap_loop (S (n * Pos.to_nat (Qden max_load))) n 8 max_load.

(** The second loop of [cc4_map_make_rehash]: every occupied bucket of the
    old array, in index order, goes into the new container. *)
Fixpoint cc4_map_make_rehash_loop {K E} (old : list (bucket K E))
    (new_cntr : cntr_ty K E) (el_size layout : Z) (hash : K -> Z)
  : option (cntr_ty K E) :=
  match old with
  | [] => Some new_cntr
  | b :: old' =>
      if b_probelen b =? 0 then
        cc4_map_make_rehash_loop old' new_cntr el_size layout hash
      else
        '(new_cntr', _) ← cc4_map_insert_raw_unique new_cntr (b_el b) (b_key b)
                            el_size layout hash;
        cc4_map_make_rehash_loop old' new_cntr' el_size layout hash
  end.

(** [cc4_map_make_rehash]; the inner [None] is the [NULL] returned when the
    allocation fails.  The new block holds whatever the allocator left
    there ([inhabitant]) with every probe length set to zero.  The byte
    count passed to [realloc_] is the number itself; the code computes it
    in [size_t], which gives the same number as long as it is below
    [2 ^ 64]. *)
Definition cc4_map_make_rehash {K E} `{Inhabited K, Inhabited E}
    (cntr : cntr_ty K E) (cap : nat) (el_size layout : Z) (hash : K -> Z)
    (realloc_ : cc4_realloc_fnptr_ty)
  : option (option (cntr_ty K E)) :=
  match realloc_ None
          (sizeof_cc4_map_hdr_ty + CC4_BUCKET_SIZE el_size layout * Z.of_nat cap)%Z with
  | None => Some None
  | Some id =>
      let new_cntr :=
        Cntr (blk_heap id) 0 cap (replicate cap (Bucket inhabitant inhabitant 0)) in
      new_cntr' ← cc4_map_make_rehash_loop (bkts cntr) new_cntr el_size layout hash;
      Some (Some new_cntr')
  end.

(** [if( !cc4_map_is_placeholder( cntr ) ) free_( cntr );] *)
Definition free_unless_placeholder {K E} (cntr : cntr_ty K E) : list event :=
  if cc4_map_is_placeholder cntr then [] else [call_free (hndl cntr, 0%Z)].

Definition cc4_map_reserve {K E} `{Inhabited K, Inhabited E}
    (cntr : cntr_ty K E) (n : nat) (el_size layout : Z) (hash : K -> Z)
    (max_load : Q) (realloc_ : cc4_realloc_fnptr_ty)
  : option (cc4_allocing_fn_result_ty K E * list event) :=
  cap ← cc4_map_min_cap_for_n_els n max_load;
  if cap <=? cc4_map_cap cntr then
    Some (cc4_make_allocing_fn_result cntr (Some cc4_dummy_true_ptr), [])
  else
    new_cntr ← cc4_map_make_rehash cntr cap el_size layout hash realloc_;
    match new_cntr with
    | None => Some (cc4_make_allocing_fn_result cntr None, [])
    | Some new_cntr =>
        Some (cc4_make_allocing_fn_result new_cntr (Some cc4_dummy_true_ptr),
              free_unless_placeholder cntr)
    end.

Definition cc4_map_insert {K E} `{Inhabited K, Inhabited E}
    (cntr : cntr_ty K E) (el : E) (key : K) (replace : bool)
    (el_size layout : Z) (hash : K -> Z) (cmpr : K -> K -> Z) (max_load : Q)
    (el_dtor key_dtor : cc4_dtor_fnptr_ty) (realloc_ : cc4_realloc_fnptr_ty)
  : option (cc4_allocing_fn_result_ty K E * list event) :=
  if exceeds_load (cc4_map_size cntr + 1) (cc4_map_cap cntr) max_load then
    '(result, evs) ← cc4_map_reserve cntr (cc4_map_size cntr + 1) el_size layout
                       hash max_load realloc_;
    match other_ptr result with
    | None => Some (result, evs)
    | Some _ =>
        '(cntr', new_el, evs') ← cc4_map_insert_raw (new_cntr result) el key replace
                                   el_size layout hash cmpr el_dtor key_dtor;
        Some (cc4_make_allocing_fn_result cntr' (Some new_el), evs ++ evs')
    end
  else
    '(cntr', new_el, evs') ← cc4_map_insert_raw cntr el key replace el_size layout
                               hash cmpr el_dtor key_dtor;
    Some (cc4_make_allocing_fn_result cntr' (Some new_el), evs').

Definition cc4_map_shrink {K E} `{Inhabited K, Inhabited E}
    (cntr : cntr_ty K E) (el_size layout : Z) (hash : K -> Z)
    (max_load : Q) (realloc_ : cc4_realloc_fnptr_ty)
  : option (cc4_allocing_fn_result_ty K E * list event) :=
  cap ← cc4_map_min_cap_for_n_els (cc4_map_size cntr) max_load;
  if cap =? cc4_map_cap cntr then
    (* Shrink unnecessary. *)
    Some (cc4_make_allocing_fn_result cntr (Some cc4_dummy_true_ptr), [])
  else if cap =? 0 then
    (* Restore placeholder. *)
    Some (cc4_make_allocing_fn_result cc4_map_placeholder (Some cc4_dummy_true_ptr),
          free_unless_placeholder cntr)
  else
    new_cntr ← cc4_map_make_rehash cntr cap el_size layout hash realloc_;
    match new_cntr with
    | None => Some (cc4_make_allocing_fn_result cntr None, [])
    | Some new_cntr =>
        Some (cc4_make_allocing_fn_result new_cntr (Some cc4_dummy_true_ptr),
              free_unless_placeholder cntr)
    end.

(** ** Lookup *)

Fixpoint cc4_map_get_loop {K E} (fuel : nat) (cntr : cntr_ty K E) (key : K)
    (el_size layout : Z) (cmpr : K -> K -> Z) (i probelen : nat)
  : option (option ptr) :=
  match fuel with
  | O => None
  | S fuel' =>
      b ← bkts cntr !! i;
      if probelen <=? b_probelen b then
        if (probelen =? b_probelen b) && (cmpr (b_key b) key =? 0)%Z then
          Some (Some (cc4_map_el cntr i el_size layout))
        else
          cc4_map_get_loop fuel' cntr key el_size layout cmpr
            (mask (Z.of_nat i + 1) (cap cntr)) (S probelen)
      else Some None
  end.

Definition cc4_map_get {K E} (cntr : cntr_ty K E) (key : K) (el_size layout : Z)
    (hash : K -> Z) (cmpr : K -> K -> Z)
  : option (option ptr) :=
  if cc4_map_size cntr =? 0 then Some None
  else cc4_map_get_loop (S (cap cntr)) cntr key el_size layout cmpr
         (mask (hash key) (cap cntr)) 1.

Definition cc4_map_key_for (itr : ptr) (el_size layout : Z) : ptr :=
  (fst itr, snd itr + CC4_KEY_OFFSET el_size layout)%Z.

(** ** Erasure *)

(** The backward-shift loop of [cc4_map_erase_itr]. *)
Fixpoint cc4_map_erase_itr_loop {K E} (fuel : nat) (cap : nat)
    (bs : list (bucket K E)) (i : nat)
  : option (list (bucket K E)) :=
  match fuel with
  | O => None
  | S fuel' =>
      let next := mask (Z.of_nat i + 1) cap in
      b ← bs !! next;
      if b_probelen b <=? 1 then
        (* Empty slot or key already in its home bucket, so all done. *)
        Some bs
      else
        (* Bump backwards. *)
        _ ← bs !! i;
        cc4_map_erase_itr_loop fuel' cap
          (set_probelen (<[i := Bucket (b_el b) (b_key b) (b_probelen b - 1)]> bs) next 0)
          next
  end.

(** The bucket index of a pointer-iterator:
    [( itr - cc4_map_el( cntr, 0 ) ) / CC4_BUCKET_SIZE]; the subtraction is
    defined only inside the container's block.  The difference is a
    [ptrdiff_t] and the bucket size a [size_t], so the difference is
    converted to [size_t] before the division: a negative one, as for the
    iterator [r_end], becomes a number just below [2 ^ 64]. *)
Definition index_of_itr {K E} (cntr : cntr_ty K E) (itr : ptr) (el_size layout : Z)
  : option nat :=
  if decide (fst itr = hndl cntr) then
    let diff := (snd itr - snd (cc4_map_el cntr 0 el_size layout))%Z in
    Some (Z.to_nat ((if (diff <? 0)%Z then diff + 2 ^ 64 else diff)
                    / CC4_BUCKET_SIZE el_size layout))
  else None.

Definition cc4_map_erase_itr {K E} (cntr : cntr_ty K E) (itr : ptr)
    (el_size layout : Z) (el_dtor key_dtor : cc4_dtor_fnptr_ty)
  : option (cntr_ty K E * list event) :=
  i ← index_of_itr cntr itr el_size layout;
  _ ← bkts cntr !! i;
  bs' ← cc4_map_erase_itr_loop (S (cap cntr)) (cap cntr)
          (set_probelen (bkts cntr) i 0) i;
  Some (Cntr (hndl cntr) (size cntr - 1) (cap cntr) bs',
        call_if key_dtor (cc4_map_key cntr i el_size layout)
        ++ call_if el_dtor (cc4_map_el cntr i el_size layout)).

Fixpoint cc4_map_erase_loop {K E} (fuel : nat) (cntr : cntr_ty K E) (key : K)
    (el_size layout : Z) (cmpr : K -> K -> Z)
    (el_dtor key_dtor : cc4_dtor_fnptr_ty) (i probelen : nat)
  : option (cntr_ty K E * option ptr * list event) :=
  match fuel with
  | O => None
  | S fuel' =>
      b ← bkts cntr !! i;
      if probelen <=? b_probelen b then
        if (probelen =? b_probelen b) && (cmpr (b_key b) key =? 0)%Z then
          '(cntr', evs) ← cc4_map_erase_itr cntr (cc4_map_el cntr i el_size layout)
                            el_size layout el_dtor key_dtor;
          Some (cntr', Some cc4_dummy_true_ptr, evs)
        else
          cc4_map_erase_loop fuel' cntr key el_size layout cmpr el_dtor key_dtor
            (mask (Z.of_nat i + 1) (cap cntr)) (S probelen)
      else Some (cntr, None, [])
  end.

Definition cc4_map_erase {K E} (cntr : cntr_ty K E) (key : K) (el_size layout : Z)
    (hash : K -> Z) (cmpr : K -> K -> Z) (el_dtor key_dtor : cc4_dtor_fnptr_ty)
  : option (cntr_ty K E * option ptr * list event) :=
  if cc4_map_size cntr =? 0 then Some (cntr, None, [])
  else cc4_map_erase_loop (S (cap cntr)) cntr key el_size layout cmpr el_dtor key_dtor
         (mask (hash key) (cap cntr)) 1.

(** ** Clone, clear, cleanup *)

(** [cc4_map_init_clone]; [None] is the [NULL] of an allocation failure.
    The [memcpy] copies the header and the whole bucket array. *)
Definition cc4_map_init_clone {K E} (src : cntr_ty K E) (el_size layout : Z)
    (realloc_ : cc4_realloc_fnptr_ty)
  : option (cntr_ty K E) :=
  if cc4_map_size src =? 0 then
    (* Also handles placeholder. *)
    Some cc4_map_placeholder
  else
    match realloc_ None
            (sizeof_cc4_map_hdr_ty
             + CC4_BUCKET_SIZE el_size layout * Z.of_nat (cc4_map_cap src))%Z with
    | None => None
    | Some id => Some (Cntr (blk_heap id) (size src) (cap src) (bkts src))
    end.

(** The loop of [cc4_map_clear], from index [i] over the remaining
    buckets [bs]. *)
Fixpoint cc4_map_clear_loop {K E} (cntr : cntr_ty K E) (el_size layout : Z)
    (el_dtor key_dtor : cc4_dtor_fnptr_ty) (i : nat) (bs : list (bucket K E))
  : list (bucket K E) * list event :=
  match bs with
  | [] => ([], [])
  | b :: bs' =>
      let '(rest, evs) :=
        cc4_map_clear_loop cntr el_size layout el_dtor key_dtor (S i) bs' in
      if b_probelen b =? 0 then (b :: rest, evs)
      else
        (Bucket (b_el b) (b_key b) 0 :: rest,
         call_if key_dtor (cc4_map_key cntr i el_size layout)
         ++ call_if el_dtor (cc4_map_el cntr i el_size layout)
         ++ evs)
  end.

Definition cc4_map_clear {K E} (cntr : cntr_ty K E) (el_size layout : Z)
    (el_dtor key_dtor : cc4_dtor_fnptr_ty)
  : cntr_ty K E * list event :=
  if cc4_map_size cntr =? 0 then
    (* Also handles placeholder map. *)
    (cntr, [])
  else
    let '(bs', evs) :=
      cc4_map_clear_loop cntr el_size layout el_dtor key_dtor 0 (bkts cntr) in
    (Cntr (hndl cntr) 0 (cap cntr) bs', evs).

(** [cc4_map_cleanup]: the call of [cc4_map_clear] passes [key_dtor] and
    [el_dtor] in this order. *)
Definition cc4_map_cleanup {K E} (cntr : cntr_ty K E) (el_size layout : Z)
    (el_dtor key_dtor : cc4_dtor_fnptr_ty)
  : list event :=
  let '(_, evs) := cc4_map_clear cntr el_size layout key_dtor el_dtor in
  evs ++ free_unless_placeholder cntr.

(** The API macro [cc4_cleanup] on a map: [cc4_map_cleanup], then
    [cc4_init], which makes the handle point to the placeholder. *)
Definition cc4_cleanup {K E} (cntr : cntr_ty K E) (el_size layout : Z)
    (el_dtor key_dtor : cc4_dtor_fnptr_ty)
  : cntr_ty K E * list event :=
  (cc4_map_placeholder, cc4_map_cleanup cntr el_size layout el_dtor key_dtor).

(** ** Iteration sentinels, first and last *)

Definition cc4_map_r_end {K E} (cntr : cntr_ty K E) : ptr := (hndl cntr, 0%Z).

Definition cc4_map_end {K E} (cntr : cntr_ty K E) (el_size layout : Z) : ptr :=
  cc4_map_el cntr (cap cntr) el_size layout.

(** The loop of [cc4_map_first]: [n] buckets remain from index [i]; a
    bucket outside the array counts as empty. *)
Fixpoint cc4_map_first_loop {K E} (cntr : cntr_ty K E) (el_size layout : Z)
    (n i : nat) : option ptr :=
  match n with
  | O => None
  | S n' =>
      match bkts cntr !! i with
      | Some b =>
          if b_probelen b =? 0
          then cc4_map_first_loop cntr el_size layout n' (S i)
          else Some (cc4_map_el cntr i el_size layout)
      | None => cc4_map_first_loop cntr el_size layout n' (S i)
      end
  end.

Definition cc4_map_first {K E} (cntr : cntr_ty K E) (el_size layout : Z) : ptr :=
  match cc4_map_first_loop cntr el_size layout (cap cntr) 0 with
  | Some itr => itr
  | None => cc4_map_end cntr 0 (* Dummy *) layout
  end.

(** The loop of [cc4_map_last]: [for( i = cap; i-- > 0; )]. *)
Fixpoint cc4_map_last_loop {K E} (cntr : cntr_ty K E) (el_size layout : Z)
    (i : nat) : option ptr :=
  match i with
  | O => None
  | S i' =>
      match bkts cntr !! i' with
      | Some b =>
          if b_probelen b =? 0
          then cc4_map_last_loop cntr el_size layout i'
          else Some (cc4_map_el cntr i' el_size layout)
      | None => cc4_map_last_loop cntr el_size layout i'
      end
  end.

Definition cc4_map_last {K E} (cntr : cntr_ty K E) (el_size layout : Z) : ptr :=
  match cc4_map_last_loop cntr el_size layout (cap cntr) with
  | Some itr => itr
  | None => cc4_map_r_end cntr
  end.

(** [cc4_map_next]: the bucket after [itr], skipping empty ones. *)
Fixpoint cc4_map_next_loop {K E} (cntr : cntr_ty K E) (n j : nat) : nat :=
  match n with
  | O => j
  | S n' =>
      match bkts cntr !! j with
      | Some b => if b_probelen b =? 0 then cc4_map_next_loop cntr n' (S j) else j
      | None => j
      end
  end.

Definition cc4_map_next {K E} (cntr : cntr_ty K E) (itr : ptr) (el_size layout : Z)
  : option ptr :=
  j ← index_of_itr cntr itr el_size layout;
  Some (cc4_map_el cntr
          (cc4_map_next_loop cntr (cap cntr - S j) (S j)) el_size layout).

(** ** Vocabulary of the specification *)

(** The bucket after [i] in probe order: [( i + 1 ) & ( cap - 1 )]. *)
Abbreviation next cap i := (mask (Z.of_nat i + 1) cap).

(** Number of probe steps that lead from bucket [h] to bucket [j]. *)
Definition dist (cap h j : nat) : nat :=
  if h <=? j then j - h else j + cap - h.

(** The bucket reached from [h] after [m] probe steps. *)
Fixpoint walk (cap h m : nat) : nat :=
  match m with
  | O => h
  | S m' => next cap (walk cap h m')
  end.

(** The probe length stored in bucket [i] (0 outside the array). *)
Definition plen {K E} (bs : list (bucket K E)) (i : nat) : nat :=
  from_option b_probelen 0 (bs !! i).

(** The key and element of an occupied bucket. *)
Definition live {K E} (b : bucket K E) : option (K * E) :=
  if b_probelen b =? 0 then None else Some (b_key b, b_el b).

(** The key/element pairs a bucket array holds, in index order. *)
Definition entries {K E} (bs : list (bucket K E)) : list (K * E) :=
  omap live bs.

Definition pow2 (cap : nat) : Prop := ∃ n : nat, cap = 2 ^ n.

(** Every occupied bucket stores its distance from the home bucket of its
    key, plus one. *)
Definition homes {K E} (hash : K -> Z) (cap : nat) (bs : list (bucket K E)) : Prop :=
  ∀ j b, bs !! j = Some b → b_probelen b ≠ 0 →
         b_probelen b = S (dist cap (mask (hash (b_key b)) cap) j).

(** Probe lengths grow by at most one from a bucket to the next. *)
Definition ordered {K E} (cap : nat) (bs : list (bucket K E)) : Prop :=
  ∀ j, j < cap → plen bs (next cap j) ≤ S (plen bs j).

(** No probe path runs across bucket [e] into the bucket after it. *)
Definition unbroken {K E} (cap : nat) (bs : list (bucket K E)) (e : nat) : Prop :=
  e < cap ∧ ∀ x, x < cap → plen bs x + dist cap x e ≤ cap.

(** The representation invariant of a map. *)
Record wf {K E} (hash : K -> Z) (cntr : cntr_ty K E) : Prop := {
  wf_len : length (bkts cntr) = cap cntr;
  wf_pow2 : cap cntr = 0 ∨ pow2 (cap cntr);
  wf_homes : homes hash (cap cntr) (bkts cntr);
  wf_ordered : ordered (cap cntr) (bkts cntr);
  wf_unbroken : cap cntr ≠ 0 → ∃ e, unbroken (cap cntr) (bkts cntr) e;
  wf_nodup : NoDup (entries (bkts cntr)).*1;
  wf_size : size cntr = length (entries (bkts cntr))
}.

(** [size <= cap * max_load] *)
Definition within_load {K E} (max_load : Q) (cntr : cntr_ty K E) : Prop :=
  exceeds_load (size cntr) (cap cntr) max_load = false.

(** Bucket [i] of [cntr] is occupied by [key] with element [el]. *)
Definition holds {K E} (cntr : cntr_ty K E) (i : nat) (key : K) (el : E) : Prop :=
  ∃ b, bkts cntr !! i = Some b ∧ b_probelen b ≠ 0 ∧ b_key b = key ∧ b_el b = el.

(** [key] is associated with [el] in [cntr]. *)
Definition maps_to {K E} (cntr : cntr_ty K E) (key : K) (el : E) : Prop :=
  ∃ i, holds cntr i key el.

(** The pairs [l'] of a map after [key] has been inserted with [el] into a
    map with pairs [l]: a new key adds a pair; a key already there has its
    element replaced, or left as it is when [replace] is false. *)
Definition inserted {K E} (key : K) (el : E) (replace : bool)
    (l l' : list (K * E)) : Prop :=
  ((key ∉ l.*1) ∧ (l' ≡ₚ (key, el) :: l))
  ∨ (∃ el0, (key, el0) ∈ l
            ∧ if replace then (key, el0) :: l' ≡ₚ (key, el) :: l else l' ≡ₚ l).

(** A sequence of insertions [(key, el, replace)] carried out one after
    the other; [None] when one of them fails or does not return. *)
Fixpoint insert_sequence {K E} `{Inhabited K, Inhabited E}
    (cntr : cntr_ty K E) (ops : list (K * E * bool)) (el_size layout : Z)
    (hash : K -> Z) (cmpr : K -> K -> Z) (max_load : Q)
    (el_dtor key_dtor : cc4_dtor_fnptr_ty) (realloc_ : cc4_realloc_fnptr_ty)
  : option (cntr_ty K E) :=
  match ops with
  | [] => Some cntr
  | (key, el, replace) :: ops' =>
      '(result, _) ← cc4_map_insert cntr el key replace el_size layout hash cmpr
                       max_load el_dtor key_dtor realloc_;
      match other_ptr result with
      | None => None
      | Some _ =>
          insert_sequence (new_cntr result) ops' el_size layout hash cmpr
            max_load el_dtor key_dtor realloc_
      end
  end.

(** [el] is the element of the last insertion with [key] in [ops]. *)
Definition last_inserted {K E} (ops : list (K * E * bool)) (key : K) (el : E)
  : Prop :=
  ∃ ops1 replace ops2,
    ops = ops1 ++ (key, el, replace) :: ops2 ∧ key ∉ ops2.*1.*1.

(** Every insertion that does not replace uses a key not inserted before
    (insertions that replace may repeat keys). *)
Definition replaces_or_fresh {K E} (ops : list (K * E * bool)) : Prop :=
  ∀ ops1 key el ops2,
    ops = ops1 ++ (key, el, false) :: ops2 → key ∉ ops1.*1.*1.

(** The containers that the operations of the library build from the
    placeholder, for one key and element type (fixed [hash], [cmpr],
    [max_load], [el_size] and [layout]). *)
Inductive reachable {K E} `{Inhabited K, Inhabited E}
    (hash : K -> Z) (cmpr : K -> K -> Z) (max_load : Q) (el_size layout : Z)
  : cntr_ty K E -> Prop :=
  | reach_init :
      reachable hash cmpr max_load el_size layout cc4_map_placeholder
  | reach_insert cntr el key replace el_dtor key_dtor realloc_ result evs :
      reachable hash cmpr max_load el_size layout cntr →
      cc4_map_insert cntr el key replace el_size layout hash cmpr max_load
        el_dtor key_dtor realloc_ = Some (result, evs) →
      reachable hash cmpr max_load el_size layout (new_cntr result)
  | reach_erase cntr key el_dtor key_dtor cntr' res evs :
      reachable hash cmpr max_load el_size layout cntr →
      cc4_map_erase cntr key el_size layout hash cmpr el_dtor key_dtor
        = Some (cntr', res, evs) →
      reachable hash cmpr max_load el_size layout cntr'
  | reach_erase_itr cntr i key el el_dtor key_dtor cntr' evs :
      reachable hash cmpr max_load el_size layout cntr →
      holds cntr i key el →
      cc4_map_erase_itr cntr (cc4_map_el cntr i el_size layout) el_size layout
        el_dtor key_dtor = Some (cntr', evs) →
      reachable hash cmpr max_load el_size layout cntr'
  | reach_reserve cntr n realloc_ result evs :
      reachable hash cmpr max_load el_size layout cntr →
      cc4_map_reserve cntr n el_size layout hash max_load realloc_
        = Some (result, evs) →
      reachable hash cmpr max_load el_size layout (new_cntr result)
  | reach_shrink cntr realloc_ result evs :
      reachable hash cmpr max_load el_size layout cntr →
      cc4_map_shrink cntr el_size layout hash max_load realloc_
        = Some (result, evs) →
      reachable hash cmpr max_load el_size layout (new_cntr result)
  | reach_clear cntr el_dtor key_dtor :
      reachable hash cmpr max_load el_size layout cntr →
      reachable hash cmpr max_load el_size layout
        (cc4_map_clear cntr el_size layout el_dtor key_dtor).1
  | reach_init_clone cntr realloc_ cntr' :
      reachable hash cmpr max_load el_size layout cntr →
      cc4_map_init_clone cntr el_size layout realloc_ = Some cntr' →
      reachable hash cmpr max_load el_size layout cntr'.

(** The probe walk shared by [cc4_map_get], [cc4_map_erase] and the outer
    loops of the two insertion functions: from bucket [i] with counter
    [probelen], stop at the first bucket whose stored probe length is
    smaller than the counter, or at a bucket with equal probe length and an
    equal key. *)
Inductive probe_result : Type :=
  | probe_found (i : nat)
  | probe_stop (i probelen : nat).

Fixpoint probe {K E} (fuel : nat) (cap : nat) (bs : list (bucket K E))
    (cmpr : K -> K -> Z) (key : K) (i probelen : nat) : option probe_result :=
  match fuel with
  | O => None
  | S fuel' =>
      b ← bs !! i;
      if b_probelen b <? probelen then Some (probe_stop i probelen)
      else if (probelen =? b_probelen b) && (cmpr (b_key b) key =? 0)%Z
      then Some (probe_found i)
      else probe fuel' cap bs cmpr key (next cap i) (S probelen)
  end.

(** ** Example maps *)

(** Maps from [unsigned long long] to [unsigned long long]: element size 8,
    key size and alignment 8, default hash and comparison functions, maximum
    load factor 0.75. *)
Definition ull_el_size : Z := 8.
Definition ull_layout : Z := Eval vm_compute in cc4_layout_map 8 8 8 8.
Definition ull_max_load : Q := 3 # 4.

(** Allocators that always hand out block [id], or always fail. *)
Definition alloc_at (id : nat) : cc4_realloc_fnptr_ty := fun _ _ => Some id.
Definition alloc_fail : cc4_realloc_fnptr_ty := fun _ _ => None.

Definition ull_insert (cntr : cntr_ty Z Z) (key el : Z)
    (realloc_ : cc4_realloc_fnptr_ty)
  : option (cc4_allocing_fn_result_ty Z Z * list event) :=
  cc4_map_insert cntr el key true ull_el_size ull_layout
    cc4_hash_unsigned_long_long cc4_cmpr_unsigned_long_long ull_max_load
    (Some "el_dtor") (Some "key_dtor") realloc_.

Definition ull_inserts (ops : list (Z * Z * bool)) (realloc_ : cc4_realloc_fnptr_ty)
  : option (cntr_ty Z Z) :=
  insert_sequence cc4_map_placeholder ops ull_el_size ull_layout
    cc4_hash_unsigned_long_long cc4_cmpr_unsigned_long_long ull_max_load
    (Some "el_dtor") (Some "key_dtor") realloc_.

(** The map after [insert( 1, 10 )] into an empty map. *)
Definition one_entry_map : cntr_ty Z Z :=
  Eval vm_compute in
    default cc4_map_placeholder (ull_inserts [(1, 10, true)]%Z (alloc_at 1)).

(** The same map after [erase( 1 )]: capacity 8, no entry. *)
Definition emptied_map : cntr_ty Z Z :=
  Eval vm_compute in
    match cc4_map_erase one_entry_map 1%Z ull_el_size ull_layout
            cc4_hash_unsigned_long_long cc4_cmpr_unsigned_long_long
            (Some "el_dtor") (Some "key_dtor") with
    | Some (cntr, _, _) => cntr
    | None => cc4_map_placeholder
    end.

(** The map after the insertion of the keys 1 to 6: capacity 8, the
    largest size that the load factor 0.75 allows in it. *)
Definition six_entry_map : cntr_ty Z Z :=
  Eval vm_compute in
    default cc4_map_placeholder
      (ull_inserts [(1, 10, true); (2, 20, true); (3, 30, true);
                    (4, 40, true); (5, 50, true); (6, 60, true)]%Z (alloc_at 1)).

(** The one-entry map after [reserve( 7 )] with the new block at
    another address: capacity 16. *)
Definition grown_map : cntr_ty Z Z :=
  Eval vm_compute in
    match cc4_map_reserve one_entry_map 7 ull_el_size ull_layout
            cc4_hash_unsigned_long_long ull_max_load (alloc_at 2) with
    | Some (result, _) => new_cntr result
    | None => cc4_map_placeholder
    end.

(** Insertions with a repeated key: the second insertion of key 1
    replaces. *)
Definition example_ops : list (Z * Z * bool) :=
  [(1, 10, true); (2, 20, false); (1, 11, true)]%Z.

(** ** Backward iteration and the iteration macros *)

(** The loop of [cc4_map_prev]: from bucket index [j] downwards to the
    first occupied bucket, or to [r_end] when [j] reaches zero. *)
Fixpoint cc4_map_prev_loop {K E} (cntr : cntr_ty K E) (el_size layout : Z)
    (j : nat) : ptr :=
  match j with
  | O => cc4_map_r_end cntr
  | S j' =>
      match bkts cntr !! j' with
      | Some b =>
          if b_probelen b =? 0
          then cc4_map_prev_loop cntr el_size layout j'
          else cc4_map_el cntr j' el_size layout
      | None => cc4_map_prev_loop cntr el_size layout j'
      end
  end.

Definition cc4_map_prev {K E} (cntr : cntr_ty K E) (itr : ptr) (el_size layout : Z)
  : option ptr :=
  j ← index_of_itr cntr itr el_size layout;
  Some (cc4_map_prev_loop cntr el_size layout j).

(** [for( i_name = first; i_name != end_; i_name = next( i_name ) )], the
    loop of the macros [cc4_for_each] and (with [last], [r_end] and [prev])
    [cc4_r_for_each]: the values that [i_name] takes in the loop body, in
    order.  [None] when the loop is still running after [fuel] tests of
    its condition, or when [next] is not defined on an iterator. *)
Fixpoint cc4_for_each_loop {P : Type} `{EqDecision P} (fuel : nat) (end_ : P)
    (next : P -> option P) (i_name : P) : option (list P) :=
  match fuel with
  | O => None
  | S fuel' =>
      if decide (i_name = end_) then Some []
      else
        i_name' ← next i_name;
        rest ← cc4_for_each_loop fuel' end_ next i_name';
        Some (i_name :: rest)
  end.

(** [cc4_for_each( &map, i_name )] *)
Definition cc4_map_for_each {K E} (fuel : nat) (cntr : cntr_ty K E)
    (el_size layout : Z) : option (list ptr) :=
  cc4_for_each_loop fuel (cc4_map_end cntr el_size layout)
    (fun itr => cc4_map_next cntr itr el_size layout)
    (cc4_map_first cntr el_size layout).

(** [cc4_r_for_each( &map, i_name )] *)
Definition cc4_map_r_for_each {K E} (fuel : nat) (cntr : cntr_ty K E)
    (el_size layout : Z) : option (list ptr) :=
  cc4_for_each_loop fuel (cc4_map_r_end cntr)
    (fun itr => cc4_map_prev cntr itr el_size layout)
    (cc4_map_last cntr el_size layout).

(** The indices of the occupied buckets of an array whose first bucket has
    index [i], in increasing order. *)
Fixpoint occupied {K E} (i : nat) (bs : list (bucket K E)) : list nat :=
  match bs with
  | [] => []
  | b :: bs' =>
      if b_probelen b =? 0 then occupied (S i) bs' else i :: occupied (S i) bs'
  end.

(** ** Sets *)

Definition CC4_SET_EL_PADDING (el_size : Z) : Z :=
  CC4_PADDING el_size alignof_cc4_probelen_ty.

Definition CC4_SET_PROBELEN_PADDING (el_size el_align : Z) : Z :=
  CC4_PADDING (el_size + CC4_SET_EL_PADDING el_size + sizeof_cc4_probelen_ty)
    (CC4_MAX el_align alignof_cc4_probelen_ty).

(** [cc4_layout] for [cntr_id == CC4_SET]. *)
Definition cc4_layout_set (el_size el_align : Z) : Z :=
  Z.lor el_size
    (Z.lor (Z.shiftl 0 32)
       (Z.lor (Z.shiftl (CC4_SET_EL_PADDING el_size) 40)
          (Z.shiftl (CC4_SET_PROBELEN_PADDING el_size el_align) 48))).

(** A set is a map whose buckets hold the key alone: the element passed to
    the map functions has size zero ([unit] here).  The parameter [el_size]
    of the set functions is unused in the code. *)
Definition cc4_set_size {K} (cntr : cntr_ty K unit) : nat := cc4_map_size cntr.
Definition cc4_set_cap {K} (cntr : cntr_ty K unit) : nat := cc4_map_cap cntr.

Definition cc4_set_reserve {K} `{Inhabited K} (cntr : cntr_ty K unit) (n : nat)
    (el_size layout : Z) (hash : K -> Z) (max_load : Q)
    (realloc_ : cc4_realloc_fnptr_ty)
  : option (cc4_allocing_fn_result_ty K unit * list event) :=
  cc4_map_reserve cntr n 0 (* Zero element size *) layout hash max_load realloc_.

Definition cc4_set_insert {K} `{Inhabited K} (cntr : cntr_ty K unit) (key : K)
    (replace : bool) (layout : Z) (hash : K -> Z) (cmpr : K -> K -> Z)
    (max_load : Q) (el_dtor : cc4_dtor_fnptr_ty) (realloc_ : cc4_realloc_fnptr_ty)
  : option (cc4_allocing_fn_result_ty K unit * list event) :=
  cc4_map_insert cntr tt key replace 0 (* Zero element size. *) layout hash cmpr
    max_load el_dtor None (* Only one dtor. *) realloc_.

Definition cc4_set_get {K} (cntr : cntr_ty K unit) (key : K) (el_size layout : Z)
    (hash : K -> Z) (cmpr : K -> K -> Z)
  : option (option ptr) :=
  cc4_map_get cntr key 0 (* Dummy *) layout hash cmpr.

Definition cc4_set_erase_itr {K} (cntr : cntr_ty K unit) (itr : ptr)
    (el_size layout : Z) (el_dtor key_dtor : cc4_dtor_fnptr_ty)
  : option (cntr_ty K unit * list event) :=
  cc4_map_erase_itr cntr itr 0 (* Zero element size *) layout el_dtor
    None (* Only one dtor *).

Definition cc4_set_erase {K} (cntr : cntr_ty K unit) (key : K) (el_size layout : Z)
    (hash : K -> Z) (cmpr : K -> K -> Z) (el_dtor key_dtor : cc4_dtor_fnptr_ty)
  : option (cntr_ty K unit * option ptr * list event) :=
  cc4_map_erase cntr key 0 (* Zero element size. *) layout hash cmpr el_dtor
    None (* Only one dtor. *).

Definition cc4_set_shrink {K} `{Inhabited K} (cntr : cntr_ty K unit)
    (el_size layout : Z) (hash : K -> Z) (max_load : Q)
    (realloc_ : cc4_realloc_fnptr_ty)
  : option (cc4_allocing_fn_result_ty K unit * list event) :=
  cc4_map_shrink cntr 0 (* Zero element size *) layout hash max_load realloc_.

Definition cc4_set_init_clone {K} (src : cntr_ty K unit) (el_size layout : Z)
    (realloc_ : cc4_realloc_fnptr_ty)
  : option (cntr_ty K unit) :=
  cc4_map_init_clone src 0 (* Zero element size *) layout realloc_.

Definition cc4_set_clear {K} (cntr : cntr_ty K unit) (el_size layout : Z)
    (el_dtor key_dtor : cc4_dtor_fnptr_ty)
  : cntr_ty K unit * list event :=
  cc4_map_clear cntr 0 (* Zero element size *) layout el_dtor
    None (* Only one dtor *).

Definition cc4_set_cleanup {K} (cntr : cntr_ty K unit) (el_size layout : Z)
    (el_dtor key_dtor : cc4_dtor_fnptr_ty)
  : list event :=
  cc4_map_cleanup cntr 0 (* Zero element size *) layout el_dtor
    None (* Only one dtor *).

Definition cc4_set_r_end {K} (cntr : cntr_ty K unit) : ptr := cc4_map_r_end cntr.

Definition cc4_set_end {K} (cntr : cntr_ty K unit) (el_size layout : Z) : ptr :=
  cc4_map_end cntr 0 (* Zero element size *) layout.

Definition cc4_set_first {K} (cntr : cntr_ty K unit) (el_size layout : Z) : ptr :=
  cc4_map_first cntr 0 (* Zero element size *) layout.

Definition cc4_set_last {K} (cntr : cntr_ty K unit) (el_size layout : Z) : ptr :=
  cc4_map_last cntr 0 (* Zero element size *) layout.

Definition cc4_set_prev {K} (cntr : cntr_ty K unit) (itr : ptr) (el_size layout : Z)
  : option ptr :=
  cc4_map_prev cntr itr 0 (* Zero element size *) layout.

Definition cc4_set_next {K} (cntr : cntr_ty K unit) (itr : ptr) (el_size layout : Z)
  : option ptr :=
  cc4_map_next cntr itr 0 (* Zero element size *) layout.

(** [cc4_for_each( &set, i_name )] *)
Definition cc4_set_for_each {K} (fuel : nat) (cntr : cntr_ty K unit)
    (el_size layout : Z) : option (list ptr) :=
  cc4_for_each_loop fuel (cc4_set_end cntr el_size layout)
    (fun itr => cc4_set_next cntr itr el_size layout)
    (cc4_set_first cntr el_size layout).

(** ** Signed integer keys *)

(** [cc4_hash_long_long]: the [long long] is converted to
    [unsigned long long] for the multiplication. *)
Definition cc4_hash_long_long (val : Z) : Z :=
  ((val mod 2 ^ 64) * 2654435761 mod 2 ^ 64)%Z.

Definition cc4_cmpr_long_long (val_1 val_2 : Z) : Z :=
  (Z.b2z (val_2 <? val_1) - Z.b2z (val_1 <? val_2))%Z.

(** ** Vectors *)

(** [sizeof( cc4_vec_hdr_ty )]: two [size_t] aligned to [max_align_t]
    (LP64). *)
Definition sizeof_cc4_vec_hdr_ty : Z := 16.

(** The objects a pointer of the vector code can point into. *)
Inductive vec_block : Type :=
  | blk_vec_placeholder
  | blk_vec_dummy_true
  | blk_vec_heap (id : nat).

#[global] Instance vec_block_eq_dec : EqDecision vec_block.
Proof. solve_decision. Defined.

Definition vec_ptr : Type := (vec_block * Z)%type.

Definition cc4_vec_dummy_true_ptr : vec_ptr := (blk_vec_dummy_true, 0%Z).

(** [realloc_( ptr, size )] answers with a block or with [NULL]; the
    block keeps the contents of the old one as far as both reach. *)
Definition cc4_vec_realloc_fnptr_ty : Type := option vec_ptr -> Z -> option nat.

Inductive vec_event : Type :=
  | vec_call_dtor (f : string) (arg : vec_ptr)
  | vec_call_free (p : vec_ptr).

(** The block a vector handle points to: the header ([size], [cap]) and
    behind it the [cap] element slots, of which the first [size] hold the
    elements. *)
Record vec_ty (E : Type) : Type := Vec {
  v_hndl : vec_block;
  v_size : nat;
  v_cap : nat;
  v_slots : list E
}.
Arguments Vec {E} _ _ _ _.
Arguments v_hndl {E} _.
Arguments v_size {E} _.
Arguments v_cap {E} _.
Arguments v_slots {E} _.

Record cc4_vec_allocing_fn_result_ty (E : Type) : Type :=
  cc4_vec_make_allocing_fn_result {
    v_new_cntr : vec_ty E;
    v_other_ptr : option vec_ptr
  }.
Arguments cc4_vec_make_allocing_fn_result {E} _ _.
Arguments v_new_cntr {E} _.
Arguments v_other_ptr {E} _.

Definition cc4_vec_placeholder {E : Type} : vec_ty E :=
  Vec blk_vec_placeholder 0 0 [].

Definition cc4_vec_size {E} (cntr : vec_ty E) : nat := v_size cntr.
Definition cc4_vec_cap {E} (cntr : vec_ty E) : nat := v_cap cntr.
Definition cc4_vec_is_placeholder {E} (cntr : vec_ty E) : bool := v_cap cntr =? 0.

(** [cntr + sizeof( cc4_vec_hdr_ty ) + el_size * index] *)
Definition cc4_vec_get {E} (cntr : vec_ty E) (key : nat) (el_size : Z) : vec_ptr :=
  (v_hndl cntr, sizeof_cc4_vec_hdr_ty + el_size * Z.of_nat key)%Z.

(** [memcpy] of the elements [els] to the slots from index [dst]; [None]
    when the copy leaves the array. *)
Definition memcpy_slots {E} (slots : list E) (dst : nat) (els : list E)
  : option (list E) :=
  if dst + length els <=? length slots
  then Some (take dst slots ++ els ++ drop (dst + length els) slots)
  else None.

(** [memmove] of [n] slots from index [src] to index [dst]. *)
Definition memmove_slots {E} (slots : list E) (dst src n : nat) : option (list E) :=
  if src + n <=? length slots
  then memcpy_slots slots dst (take n (drop src slots))
  else None.

(** The slots of a block resized by [realloc_] to [n] slots: the old
    slots as far as the new block reaches, then whatever the allocator
    left there. *)
Definition realloc_slots {E} `{Inhabited E} (slots : list E) (n : nat) : list E :=
  take n slots ++ replicate (n - length slots) inhabitant.

(** [cc4_vec_reserve].  The byte count passed to [realloc_] is the number
    itself; the code computes it in [size_t], which gives the same number
    as long as it is below [2 ^ 64]. *)
Definition cc4_vec_reserve {E} `{Inhabited E} (cntr : vec_ty E) (n : nat)
    (el_size : Z) (realloc_ : cc4_vec_realloc_fnptr_ty)
  : cc4_vec_allocing_fn_result_ty E :=
  if n <=? cc4_vec_cap cntr then
    cc4_vec_make_allocing_fn_result cntr (Some cc4_vec_dummy_true_ptr)
  else
    let is_placeholder := cc4_vec_is_placeholder cntr in
    match realloc_ (if is_placeholder then None else Some (v_hndl cntr, 0%Z))
            (sizeof_cc4_vec_hdr_ty + el_size * Z.of_nat n)%Z with
    | None => cc4_vec_make_allocing_fn_result cntr None
    | Some id =>
        cc4_vec_make_allocing_fn_result
          (Vec (blk_vec_heap id) (if is_placeholder then 0 else v_size cntr) n
             (realloc_slots (v_slots cntr) n))
          (Some cc4_vec_dummy_true_ptr)
    end.

(** [while( cap < cc4_vec_size( cntr ) + n ) cap *= 2;] *)
Fixpoint cc4_vec_insert_n_cap_loop (fuel cap target : nat) : option nat :=
  match fuel with
  | O => None
  | S fuel' =>
      if cap <? target
      then cc4_vec_insert_n_cap_loop fuel' (cap * 2) target
      else Some cap
  end.

(** The end of [cc4_vec_insert_n]: the elements from [index] on move up
    by [n] slots and [els] is copied into the gap.  [size - index] wraps
    around for an index beyond the size. *)
Definition cc4_vec_insert_n_place {E} (cntr : vec_ty E) (index : nat)
    (els : list E) (el_size : Z)
  : option (cc4_vec_allocing_fn_result_ty E) :=
  let n := length els in
  let new_els := cc4_vec_get cntr index el_size in
  if index <=? v_size cntr then
    slots1 ← memmove_slots (v_slots cntr) (index + n) index (v_size cntr - index);
    slots2 ← memcpy_slots slots1 index els;
    Some (cc4_vec_make_allocing_fn_result
            (Vec (v_hndl cntr) (v_size cntr + n) (v_cap cntr) slots2)
            (Some new_els))
  else None.

(** [cc4_vec_insert_n]; [els] holds the [n] elements to insert. *)
Definition cc4_vec_insert_n {E} `{Inhabited E} (cntr : vec_ty E) (index : nat)
    (els : list E) (el_size : Z) (realloc_ : cc4_vec_realloc_fnptr_ty)
  : option (cc4_vec_allocing_fn_result_ty E) :=
  let n := length els in
  if n =? 0 then Some (cc4_vec_make_allocing_fn_result cntr None)
  else if cc4_vec_cap cntr <? cc4_vec_size cntr + n then
    cap ← cc4_vec_insert_n_cap_loop (S (cc4_vec_size cntr + n))
             (if cc4_vec_cap cntr =? 0 then 2 else cc4_vec_cap cntr)
             (cc4_vec_size cntr + n);
    let result := cc4_vec_reserve cntr cap el_size realloc_ in
    match v_other_ptr result with
    | None => Some result
    | Some _ => cc4_vec_insert_n_place (v_new_cntr result) index els el_size
    end
  else cc4_vec_insert_n_place cntr index els el_size.

Definition cc4_vec_insert {E} `{Inhabited E} (cntr : vec_ty E) (el : E) (key : nat)
    (el_size : Z) (realloc_ : cc4_vec_realloc_fnptr_ty)
  : option (cc4_vec_allocing_fn_result_ty E) :=
  cc4_vec_insert_n cntr key [el] el_size realloc_.

Definition cc4_vec_push_n {E} `{Inhabited E} (cntr : vec_ty E) (els : list E)
    (el_size : Z) (realloc_ : cc4_vec_realloc_fnptr_ty)
  : option (cc4_vec_allocing_fn_result_ty E) :=
  cc4_vec_insert_n cntr (cc4_vec_size cntr) els el_size realloc_.

Definition cc4_vec_push {E} `{Inhabited E} (cntr : vec_ty E) (el : E)
    (el_size : Z) (realloc_ : cc4_vec_realloc_fnptr_ty)
  : option (cc4_vec_allocing_fn_result_ty E) :=
  cc4_vec_push_n cntr [el] el_size realloc_.

(** [if( el_dtor ) for( j = 0; j < n; ++j ) el_dtor( ... + el_size * ( index + j ) );] *)
Definition cc4_vec_erase_n_dtors {E} (cntr : vec_ty E) (index n : nat) (el_size : Z)
    (el_dtor : cc4_dtor_fnptr_ty) : list vec_event :=
  match el_dtor with
  | Some f =>
      (fun j => vec_call_dtor f (cc4_vec_get cntr (index + j) el_size)) <$> seq 0 n
  | None => []
  end.

(** [cc4_vec_erase_n]; [size - n - index] wraps around when the range
    to erase leaves the elements. *)
Definition cc4_vec_erase_n {E} (cntr : vec_ty E) (index n : nat) (el_size : Z)
    (el_dtor : cc4_dtor_fnptr_ty)
  : option (vec_ty E * vec_ptr * list vec_event) :=
  if n =? 0 then Some (cntr, cc4_vec_get cntr index el_size, [])
  else if index + n <=? v_size cntr then
    slots' ← memmove_slots (v_slots cntr) index (index + n) (v_size cntr - n - index);
    Some (Vec (v_hndl cntr) (v_size cntr - n) (v_cap cntr) slots',
          cc4_vec_get cntr index el_size,
          cc4_vec_erase_n_dtors cntr index n el_size el_dtor)
  else None.

Definition cc4_vec_erase {E} (cntr : vec_ty E) (key : nat) (el_size : Z)
    (el_dtor : cc4_dtor_fnptr_ty)
  : option (vec_ty E * vec_ptr * list vec_event) :=
  cc4_vec_erase_n cntr key 1 el_size el_dtor.

Definition cc4_vec_resize {E} `{Inhabited E} (cntr : vec_ty E) (n : nat)
    (el_size : Z) (el_dtor : cc4_dtor_fnptr_ty) (realloc_ : cc4_vec_realloc_fnptr_ty)
  : option (cc4_vec_allocing_fn_result_ty E * list vec_event) :=
  if n =? cc4_vec_size cntr then
    (* No resize necessary (also handles placeholder). *)
    Some (cc4_vec_make_allocing_fn_result cntr (Some cc4_vec_dummy_true_ptr), [])
  else if n <? cc4_vec_size cntr then
    (* Downsizing. *)
    '(cntr', _, evs) ← cc4_vec_erase_n cntr n (cc4_vec_size cntr - n) el_size el_dtor;
    Some (cc4_vec_make_allocing_fn_result cntr' (Some cc4_vec_dummy_true_ptr), evs)
  else
    (* Up-sizing. *)
    let result := cc4_vec_reserve cntr n el_size realloc_ in
    match v_other_ptr result with
    | None => Some (result, [])
    | Some _ =>
        let new_cntr := v_new_cntr result in
        Some (cc4_vec_make_allocing_fn_result
                (Vec (v_hndl new_cntr) n (v_cap new_cntr) (v_slots new_cntr))
                (v_other_ptr result), [])
    end.

Definition cc4_vec_shrink {E} `{Inhabited E} (cntr : vec_ty E) (el_size : Z)
    (realloc_ : cc4_vec_realloc_fnptr_ty)
  : cc4_vec_allocing_fn_result_ty E * list vec_event :=
  if cc4_vec_size cntr =? cc4_vec_cap cntr then
    (* Also handles placeholder. *)
    (cc4_vec_make_allocing_fn_result cntr (Some cc4_vec_dummy_true_ptr), [])
  else if cc4_vec_size cntr =? 0 then
    (* Restore placeholder. *)
    (cc4_vec_make_allocing_fn_result cc4_vec_placeholder
       (Some cc4_vec_dummy_true_ptr),
     [vec_call_free (v_hndl cntr, 0%Z)])
  else
    match realloc_ (Some (v_hndl cntr, 0%Z))
            (sizeof_cc4_vec_hdr_ty + el_size * Z.of_nat (cc4_vec_size cntr))%Z with
    | None => (cc4_vec_make_allocing_fn_result cntr None, [])
    | Some id =>
        (cc4_vec_make_allocing_fn_result
           (Vec (blk_vec_heap id) (v_size cntr) (cc4_vec_size cntr)
              (realloc_slots (v_slots cntr) (cc4_vec_size cntr)))
           (Some cc4_vec_dummy_true_ptr), [])
    end.

(** [cc4_vec_init_clone]; the inner [None] is the [NULL] of an allocation
    failure. *)
Definition cc4_vec_init_clone {E} `{Inhabited E} (src : vec_ty E) (el_size : Z)
    (realloc_ : cc4_vec_realloc_fnptr_ty)
  : option (option (vec_ty E)) :=
  if cc4_vec_size src =? 0 then Some (Some cc4_vec_placeholder)
  else
    '(result, _) ← cc4_vec_resize cc4_vec_placeholder (cc4_vec_size src) el_size
                     None (* dtor unused. *) realloc_;
    match v_other_ptr result with
    | None => Some None
    | Some _ =>
        let new_cntr := v_new_cntr result in
        if cc4_vec_size src <=? length (v_slots src) then
          slots' ← memcpy_slots (v_slots new_cntr) 0
                     (take (cc4_vec_size src) (v_slots src));
          Some (Some (Vec (v_hndl new_cntr) (v_size new_cntr) (v_cap new_cntr) slots'))
        else None
    end.

Definition cc4_vec_clear {E} (cntr : vec_ty E) (el_size : Z)
    (el_dtor : cc4_dtor_fnptr_ty)
  : option (vec_ty E * list vec_event) :=
  '(cntr', _, evs) ← cc4_vec_erase_n cntr 0 (cc4_vec_size cntr) el_size el_dtor;
  Some (cntr', evs).

Definition cc4_vec_cleanup {E} (cntr : vec_ty E) (el_size : Z)
    (el_dtor : cc4_dtor_fnptr_ty)
  : option (list vec_event) :=
  '(_, evs) ← cc4_vec_clear cntr el_size el_dtor;
  Some (evs ++ if cc4_vec_is_placeholder cntr then []
               else [vec_call_free (v_hndl cntr, 0%Z)]).

Definition cc4_vec_end {E} (cntr : vec_ty E) (el_size : Z) : vec_ptr :=
  (v_hndl cntr, sizeof_cc4_vec_hdr_ty + el_size * Z.of_nat (cc4_vec_size cntr))%Z.

Definition cc4_vec_next (itr : vec_ptr) (el_size : Z) : vec_ptr :=
  (fst itr, snd itr + el_size)%Z.

Definition cc4_vec_first {E} (cntr : vec_ty E) : vec_ptr :=
  (v_hndl cntr, sizeof_cc4_vec_hdr_ty).

(** [cc4_for_each( &vec, i_name )] *)
Definition cc4_vec_for_each {E} (fuel : nat) (cntr : vec_ty E) (el_size : Z)
  : option (list vec_ptr) :=
  cc4_for_each_loop fuel (cc4_vec_end cntr el_size)
    (fun itr => Some (cc4_vec_next itr el_size))
    (cc4_vec_first cntr).

(** The elements of a vector, and what the vector code keeps true of a
    block. *)
Definition vec_els {E} (cntr : vec_ty E) : list E := take (v_size cntr) (v_slots cntr).

Definition vec_wf {E} (cntr : vec_ty E) : Prop :=
  length (v_slots cntr) = v_cap cntr ∧ v_size cntr ≤ v_cap cntr.

(** [while( cap < target ) cap *= 2;] ends with [c]: [cap] doubled until
    it is at least [target], and not once more. *)
Definition doubled_until (cap target c : nat) : Prop :=
  ∃ k, c = cap * 2 ^ k ∧ target ≤ c ∧ ∀ j, j < k → cap * 2 ^ j < target.

(** A set of [unsigned long long] with three elements: the layout of
    [cc4_layout] for element size and alignment 8. *)
Definition ull_set_layout : Z := Eval vm_compute in cc4_layout_set 8 (2 ^ 3).

Definition three_element_set : cntr_ty Z unit :=
  Eval vm_compute in
    default cc4_map_placeholder
      (insert_sequence cc4_map_placeholder
         [(1, tt, true); (2, tt, true); (3, tt, true)]%Z 0 ull_set_layout
         cc4_hash_unsigned_long_long cc4_cmpr_unsigned_long_long ull_max_load
         (Some "el_dtor") None (alloc_at 1)).

(** A set with six elements, as many as the load factor 0.75 admits in
    its capacity 8. *)
Definition six_element_set : cntr_ty Z unit :=
  Eval vm_compute in
    default cc4_map_placeholder
      (insert_sequence cc4_map_placeholder
         [(1, tt, true); (2, tt, true); (3, tt, true);
          (4, tt, true); (5, tt, true); (6, tt, true)]%Z 0 ull_set_layout
         cc4_hash_unsigned_long_long cc4_cmpr_unsigned_long_long ull_max_load
         (Some "el_dtor") None (alloc_at 1)).

(** A vector with the elements 10, 20, 30 in a block of four slots. *)
Definition three_element_vec : vec_ty Z :=
  Vec (blk_vec_heap 1) 3 4 [10; 20; 30; 0]%Z.

(** Allocators of the vector code that always hand out block [id], or
    always fail. *)
Definition vec_alloc_at (id : nat) : cc4_vec_realloc_fnptr_ty := fun _ _ => Some id.
Definition vec_alloc_fail : cc4_vec_realloc_fnptr_ty := fun _ _ => None.

(** ** Lists *)

(** [sizeof( cc4_listnode_hdr_ty )]: two pointers aligned to [max_align_t];
    [cc4_list_hdr_ty] is a [size_t] followed by the node headers [r_end], at
    offset 16, and [end], at offset 32 (LP64). *)
Definition sizeof_cc4_listnode_hdr_ty : Z := 16.
Definition sizeof_cc4_list_hdr_ty : Z := 48.
Definition offsetof_r_end : Z := 16.
Definition offsetof_end : Z := 32.

(** The objects a pointer of the list code can point into: the global
    placeholder, the dummy that stands for true, and the blocks from
    [realloc_] (list headers and nodes). *)
Inductive list_block : Type :=
  | blk_list_placeholder
  | blk_list_dummy_true
  | blk_list_heap (id : nat).

#[global] Instance list_block_eq_dec : EqDecision list_block.
Proof. solve_decision. Defined.

Definition list_ptr : Type := (list_block * Z)%type.

Definition cc4_list_dummy_true_ptr : list_ptr := (blk_list_dummy_true, 0%Z).

Record cc4_listnode_hdr_ty : Type := ListNodeHdr {
  ln_prev : list_ptr;
  ln_next : list_ptr
}.

(** What a block from [realloc_] holds: a list header, or a node header
    with its element behind it. *)
Inductive list_obj (E : Type) : Type :=
  | obj_list_hdr (size : nat) (r_end end_ : cc4_listnode_hdr_ty)
  | obj_list_node (hdr : cc4_listnode_hdr_ty) (el : E).
Arguments obj_list_hdr {E} _ _ _.
Arguments obj_list_node {E} _ _.

(** The heap is a [gmap nat (list_obj E)]: the live blocks by their
    identifiers. *)

(** [realloc_( NULL, size )] answers with a block or with [NULL]; which block
    may depend on the blocks that are live. *)
Definition cc4_list_realloc_fnptr_ty (E : Type) : Type :=
  gmap nat (list_obj E) -> Z -> option nat.

Inductive list_event : Type :=
  | list_call_dtor (f : string) (arg : list_ptr)
  | list_call_free (p : list_ptr).

Record cc4_list_allocing_fn_result_ty : Type :=
  cc4_list_make_allocing_fn_result {
    l_new_cntr : list_block;
    l_other_ptr : option list_ptr
  }.

(** [cc4_list_placeholder]: [r_end.prev] points to [r_end] and [end.next]
    to [end] (the circular links). *)
Definition cc4_list_placeholder_r_end : cc4_listnode_hdr_ty :=
  ListNodeHdr (blk_list_placeholder, offsetof_r_end)
    (blk_list_placeholder, offsetof_end).

Definition cc4_list_placeholder_end : cc4_listnode_hdr_ty :=
  ListNodeHdr (blk_list_placeholder, offsetof_r_end)
    (blk_list_placeholder, offsetof_end).

(** [&cc4_list_hdr( cntr )->r_end] and [&cc4_list_hdr( cntr )->end] *)
Definition list_r_end_of (cntr : list_block) : list_ptr := (cntr, offsetof_r_end).
Definition list_end_of (cntr : list_block) : list_ptr := (cntr, offsetof_end).

(** Reading the header of the list at [cntr]: [size], [r_end], [end]. *)
Definition cc4_list_hdr {E} (h : gmap nat (list_obj E)) (cntr : list_block)
  : option (nat * cc4_listnode_hdr_ty * cc4_listnode_hdr_ty) :=
  match cntr with
  | blk_list_placeholder =>
      Some (0, cc4_list_placeholder_r_end, cc4_list_placeholder_end)
  | blk_list_heap id =>
      match h !! id with
      | Some (obj_list_hdr size r_end end_) => Some (size, r_end, end_)
      | _ => None
      end
  | blk_list_dummy_true => None
  end.

(** Reading a node header through a [cc4_listnode_hdr_ty *]: the header
    of a node, or the [r_end] or [end] of a list header. *)
Definition load_listnode {E} (h : gmap nat (list_obj E)) (p : list_ptr)
  : option cc4_listnode_hdr_ty :=
  match fst p with
  | blk_list_placeholder =>
      if (snd p =? offsetof_r_end)%Z then Some cc4_list_placeholder_r_end
      else if (snd p =? offsetof_end)%Z then Some cc4_list_placeholder_end
      else None
  | blk_list_heap id =>
      match h !! id with
      | Some (obj_list_hdr _ r_end end_) =>
          if (snd p =? offsetof_r_end)%Z then Some r_end
          else if (snd p =? offsetof_end)%Z then Some end_
          else None
      | Some (obj_list_node hdr _) => if (snd p =? 0)%Z then Some hdr else None
      | None => None
      end
  | blk_list_dummy_true => None
  end.

(** Writing a node header; the placeholder is [const]. *)
Definition store_listnode {E} (h : gmap nat (list_obj E)) (p : list_ptr)
    (v : cc4_listnode_hdr_ty) : option (gmap nat (list_obj E)) :=
  match fst p with
  | blk_list_heap id =>
      match h !! id with
      | Some (obj_list_hdr size r_end end_) =>
          if (snd p =? offsetof_r_end)%Z
          then Some (<[id := obj_list_hdr size v end_]> h)
          else if (snd p =? offsetof_end)%Z
          then Some (<[id := obj_list_hdr size r_end v]> h)
          else None
      | Some (obj_list_node _ el) =>
          if (snd p =? 0)%Z then Some (<[id := obj_list_node v el]> h) else None
      | None => None
      end
  | _ => None
  end.

(** [p->prev = v;] and [p->next = v;] *)
Definition set_prev {E} (h : gmap nat (list_obj E)) (p v : list_ptr) : option (gmap nat (list_obj E)) :=
  hdr ← load_listnode h p;
  store_listnode h p (ListNodeHdr v (ln_next hdr)).

Definition set_next {E} (h : gmap nat (list_obj E)) (p v : list_ptr) : option (gmap nat (list_obj E)) :=
  hdr ← load_listnode h p;
  store_listnode h p (ListNodeHdr (ln_prev hdr) v).

(** [cc4_list_hdr( cntr )->size = size;] *)
Definition set_list_size {E} (h : gmap nat (list_obj E)) (cntr : list_block) (size : nat)
  : option (gmap nat (list_obj E)) :=
  match cntr with
  | blk_list_heap id =>
      match h !! id with
      | Some (obj_list_hdr _ r_end end_) =>
          Some (<[id := obj_list_hdr size r_end end_]> h)
      | _ => None
      end
  | _ => None
  end.

(** The element a pointer-iterator points to. *)
Definition list_el_at {E} (h : gmap nat (list_obj E)) (itr : list_ptr) : option E :=
  match fst itr with
  | blk_list_heap id =>
      match h !! id with
      | Some (obj_list_node _ el) =>
          if (snd itr =? sizeof_cc4_listnode_hdr_ty)%Z then Some el else None
      | _ => None
      end
  | _ => None
  end.

Definition cc4_listnode_hdr (itr : list_ptr) : list_ptr :=
  (fst itr, snd itr - sizeof_cc4_listnode_hdr_ty)%Z.

Definition cc4_list_el (hdr : list_ptr) : list_ptr :=
  (fst hdr, snd hdr + sizeof_cc4_listnode_hdr_ty)%Z.

Definition cc4_list_is_placeholder {E} (h : gmap nat (list_obj E)) (cntr : list_block)
  : option bool :=
  '(_, r_end, _) ← cc4_list_hdr h cntr;
  Some (bool_decide (ln_prev r_end = list_r_end_of cntr)).

Definition cc4_list_size {E} (h : gmap nat (list_obj E)) (cntr : list_block) : option nat :=
  '(size, _, _) ← cc4_list_hdr h cntr;
  Some size.

Definition cc4_list_r_end {E} (h : gmap nat (list_obj E)) (cntr : list_block)
  : option list_ptr :=
  '(_, r_end, _) ← cc4_list_hdr h cntr;
  Some (cc4_list_el (ln_prev r_end)).

Definition cc4_list_end {E} (h : gmap nat (list_obj E)) (cntr : list_block)
  : option list_ptr :=
  '(_, _, end_) ← cc4_list_hdr h cntr;
  Some (cc4_list_el (ln_next end_)).

Definition cc4_list_prev {E} (h : gmap nat (list_obj E)) (cntr : list_block) (itr : list_ptr)
  : option list_ptr :=
  hdr ← load_listnode h (cc4_listnode_hdr itr);
  let prev := ln_prev hdr in
  (* If itr is r_end, the iterator is decremented once more. *)
  if decide (prev = list_r_end_of cntr) then
    hdr' ← load_listnode h prev;
    Some (cc4_list_el (ln_prev hdr'))
  else Some (cc4_list_el prev).

Definition cc4_list_next {E} (h : gmap nat (list_obj E)) (cntr : list_block) (itr : list_ptr)
  : option list_ptr :=
  hdr ← load_listnode h (cc4_listnode_hdr itr);
  let next := ln_next hdr in
  if decide (next = list_end_of cntr) then
    hdr' ← load_listnode h next;
    Some (cc4_list_el (ln_next hdr'))
  else Some (cc4_list_el next).

Definition cc4_list_first {E} (h : gmap nat (list_obj E)) (cntr : list_block)
  : option list_ptr :=
  cc4_list_next h cntr (cc4_list_el (list_r_end_of cntr)).

Definition cc4_list_last {E} (h : gmap nat (list_obj E)) (cntr : list_block)
  : option list_ptr :=
  cc4_list_prev h cntr (cc4_list_el (list_end_of cntr)).

(** [cc4_list_alloc_hdr]: the new header, linked with the [r_end] and
    [end] of the placeholder at [cntr]. *)
Definition cc4_list_alloc_hdr {E} (h : gmap nat (list_obj E)) (cntr : list_block)
    (realloc_ : cc4_list_realloc_fnptr_ty E)
  : gmap nat (list_obj E) * option list_block :=
  match realloc_ h sizeof_cc4_list_hdr_ty with
  | None => (h, None)
  | Some id =>
      let new_cntr := blk_list_heap id in
      (<[id := obj_list_hdr 0
                 (ListNodeHdr (list_r_end_of cntr) (list_end_of new_cntr))
                 (ListNodeHdr (list_r_end_of new_cntr) (list_end_of cntr))]> h,
       Some new_cntr)
  end.

(** The [r_end] or [end] of the placeholder becomes that of the list. *)
Definition list_local_itr {E} (h : gmap nat (list_obj E)) (cntr : list_block) (itr : list_ptr)
  : option list_ptr :=
  r_end ← cc4_list_r_end h cntr;
  end_ ← cc4_list_end h cntr;
  Some (if decide (itr = r_end) then cc4_list_el (list_r_end_of cntr)
        else if decide (itr = end_) then cc4_list_el (list_end_of cntr)
        else itr).

Definition cc4_list_attach {E} (h : gmap nat (list_obj E)) (cntr : list_block)
    (itr node : list_ptr) : option (gmap nat (list_obj E)) :=
  itr ← list_local_itr h cntr itr;
  (* Link node. *)
  h ← set_next h node (cc4_listnode_hdr itr);
  node_hdr ← load_listnode h node;
  next_hdr ← load_listnode h (ln_next node_hdr);
  h ← set_prev h node (ln_prev next_hdr);
  node_hdr ← load_listnode h node;
  h ← set_prev h (ln_next node_hdr) node;
  node_hdr ← load_listnode h node;
  set_next h (ln_prev node_hdr) node.

(** A pointer that the allocator left in a fresh block. *)
Definition list_uninit : list_ptr := (blk_list_dummy_true, 0%Z).

Definition cc4_list_insert {E} (h : gmap nat (list_obj E)) (cntr : list_block) (el : E)
    (key : list_ptr) (el_size : Z) (realloc_ : cc4_list_realloc_fnptr_ty E)
  : option (gmap nat (list_obj E) * cc4_list_allocing_fn_result_ty) :=
  is_placeholder ← cc4_list_is_placeholder h cntr;
  let alloced : gmap nat (list_obj E) * option list_block :=
    if (is_placeholder : bool) then cc4_list_alloc_hdr h cntr realloc_
    else (h, Some cntr) in
  let h := fst alloced in
  match snd alloced with
  | None => Some (h, cc4_list_make_allocing_fn_result cntr None)
  | Some cntr =>
      match realloc_ h (sizeof_cc4_listnode_hdr_ty + el_size)%Z with
      | None => Some (h, cc4_list_make_allocing_fn_result cntr None)
      | Some id =>
          let new_node := (blk_list_heap id, 0%Z) in
          let h := <[id := obj_list_node (ListNodeHdr list_uninit list_uninit) el]> h in
          key ← list_local_itr h cntr key;
          h ← cc4_list_attach h cntr key new_node;
          '(size, _, _) ← cc4_list_hdr h cntr;
          h ← set_list_size h cntr (size + 1);
          Some (h, cc4_list_make_allocing_fn_result cntr
                     (Some (cc4_list_el new_node)))
      end
  end.

Definition cc4_list_push {E} (h : gmap nat (list_obj E)) (cntr : list_block) (el : E)
    (el_size : Z) (realloc_ : cc4_list_realloc_fnptr_ty E)
  : option (gmap nat (list_obj E) * cc4_list_allocing_fn_result_ty) :=
  end_ ← cc4_list_end h cntr;
  cc4_list_insert h cntr el end_ el_size realloc_.

(** [free_( p )]: the block at [p] is live no longer. *)
Definition list_free {E} (h : gmap nat (list_obj E)) (p : list_ptr) : option (gmap nat (list_obj E)) :=
  match p with
  | (blk_list_heap id, 0%Z) =>
      match h !! id with
      | Some _ => Some (delete id h)
      | None => None
      end
  | _ => None
  end.

(** [--cc4_list_hdr( cntr )->size;] on a [size_t]. *)
Definition list_size_decr (size : nat) : nat :=
  if size =? 0 then Z.to_nat (2 ^ 64 - 1) else size - 1.
Arguments list_size_decr : simpl never.

Definition cc4_list_erase {E} (h : gmap nat (list_obj E)) (cntr : list_block) (key : list_ptr)
    (el_dtor : cc4_dtor_fnptr_ty)
  : option (gmap nat (list_obj E) * list_ptr * list list_event) :=
  let hdr := cc4_listnode_hdr key in
  node ← load_listnode h hdr;
  let next := ln_next node in
  h ← set_next h (ln_prev node) next;
  node ← load_listnode h hdr;
  h ← set_prev h next (ln_prev node);
  let evs := match el_dtor with
             | Some f => [list_call_dtor f key]
             | None => []
             end in
  h ← list_free h hdr;
  '(size, _, _) ← cc4_list_hdr h cntr;
  h ← set_list_size h cntr (list_size_decr size);
  (* If next is end, the end of the placeholder is returned. *)
  next' ← (if decide (next = list_end_of cntr)
            then ln_next <$> load_listnode h next
            else Some next);
  Some (h, cc4_list_el next', evs ++ [list_call_free hdr]).

Definition cc4_list_splice {E} (h : gmap nat (list_obj E)) (cntr : list_block)
    (itr : list_ptr) (src : list_block) (src_itr : list_ptr)
    (realloc_ : cc4_list_realloc_fnptr_ty E)
  : option (gmap nat (list_obj E) * cc4_list_allocing_fn_result_ty) :=
  is_placeholder ← cc4_list_is_placeholder h cntr;
  let alloced : gmap nat (list_obj E) * option list_block :=
    if (is_placeholder : bool) then cc4_list_alloc_hdr h cntr realloc_
    else (h, Some cntr) in
  let h := fst alloced in
  match snd alloced with
  | None => Some (h, cc4_list_make_allocing_fn_result cntr None)
  | Some cntr =>
      let src_hdr := cc4_listnode_hdr src_itr in
      node ← load_listnode h src_hdr;
      h ← set_next h (ln_prev node) (ln_next node);
      node ← load_listnode h src_hdr;
      h ← set_prev h (ln_next node) (ln_prev node);
      h ← cc4_list_attach h cntr itr src_hdr;
      '(size, _, _) ← cc4_list_hdr h src;
      h ← set_list_size h src (list_size_decr size);
      '(size, _, _) ← cc4_list_hdr h cntr;
      h ← set_list_size h cntr (size + 1);
      Some (h, cc4_list_make_allocing_fn_result cntr
                 (Some cc4_list_dummy_true_ptr))
  end.

(** The loop of [cc4_list_init_clone] that erases an incomplete clone
    without invoking destructors. *)
Fixpoint cc4_list_init_clone_undo {E} (fuel : nat) (h : gmap nat (list_obj E))
    (cntr : list_block) (j : list_ptr) : option (gmap nat (list_obj E) * list list_event) :=
  match fuel with
  | O => None
  | S fuel' =>
      end_ ← cc4_list_end h cntr;
      if decide (j = end_) then Some (h, [])
      else
        next ← cc4_list_next h cntr j;
        h ← list_free h (cc4_listnode_hdr j);
        '(h, evs) ← cc4_list_init_clone_undo fuel' h cntr next;
        Some (h, list_call_free (cc4_listnode_hdr j) :: evs)
  end.

(** The loop of [cc4_list_init_clone] over the source, from [i] on; the
    inner [None] is the [NULL] of an allocation failure. *)
Fixpoint cc4_list_init_clone_loop {E} (fuel fuel_undo : nat) (h : gmap nat (list_obj E))
    (src : list_block) (i : list_ptr) (result : cc4_list_allocing_fn_result_ty)
    (el_size : Z) (realloc_ : cc4_list_realloc_fnptr_ty E)
  : option (gmap nat (list_obj E) * option list_block * list list_event) :=
  match fuel with
  | O => None
  | S fuel' =>
      end_ ← cc4_list_end h src;
      if decide (i = end_) then Some (h, Some (l_new_cntr result), [])
      else
        el ← list_el_at h i;
        key ← cc4_list_end h (l_new_cntr result);
        '(h, result) ← cc4_list_insert h (l_new_cntr result) el key el_size realloc_;
        match l_other_ptr result with
        | None =>
            j ← cc4_list_first h (l_new_cntr result);
            '(h, evs) ← cc4_list_init_clone_undo fuel_undo h (l_new_cntr result) j;
            is_placeholder ← cc4_list_is_placeholder h (l_new_cntr result);
            if (is_placeholder : bool) then Some (h, None, evs)
            else
              h' ← list_free h (l_new_cntr result, 0%Z);
              Some (h', None, evs ++ [list_call_free (l_new_cntr result, 0%Z)])
        | Some _ =>
            i ← cc4_list_next h src i;
            cc4_list_init_clone_loop fuel' fuel_undo h src i result el_size realloc_
        end
  end.

Definition cc4_list_init_clone {E} (fuel : nat) (h : gmap nat (list_obj E))
    (src : list_block) (el_size : Z) (realloc_ : cc4_list_realloc_fnptr_ty E)
  : option (gmap nat (list_obj E) * option list_block * list list_event) :=
  i ← cc4_list_first h src;
  cc4_list_init_clone_loop fuel fuel h src i
    (cc4_list_make_allocing_fn_result blk_list_placeholder
       (Some cc4_list_dummy_true_ptr))
    el_size realloc_.

(** [cc4_list_clear]: [while( first != end ) erase( first );] *)
Fixpoint cc4_list_clear {E} (fuel : nat) (h : gmap nat (list_obj E)) (cntr : list_block)
    (el_dtor : cc4_dtor_fnptr_ty) : option (gmap nat (list_obj E) * list list_event) :=
  match fuel with
  | O => None
  | S fuel' =>
      first ← cc4_list_first h cntr;
      end_ ← cc4_list_end h cntr;
      if decide (first = end_) then Some (h, [])
      else
        '(h, _, evs) ← cc4_list_erase h cntr first el_dtor;
        '(h, evs') ← cc4_list_clear fuel' h cntr el_dtor;
        Some (h, evs ++ evs')
  end.

Definition cc4_list_cleanup {E} (fuel : nat) (h : gmap nat (list_obj E)) (cntr : list_block)
    (el_dtor : cc4_dtor_fnptr_ty) : option (gmap nat (list_obj E) * list list_event) :=
  '(h, evs) ← cc4_list_clear fuel h cntr el_dtor;
  is_placeholder ← cc4_list_is_placeholder h cntr;
  if (is_placeholder : bool) then Some (h, evs)
  else
    h' ← list_free h (cntr, 0%Z);
    Some (h', evs ++ [list_call_free (cntr, 0%Z)]).

(** [cc4_for_each( &list, i_name )] and [cc4_r_for_each( &list, i_name )] *)
Definition cc4_list_for_each {E} (fuel : nat) (h : gmap nat (list_obj E)) (cntr : list_block)
  : option (list list_ptr) :=
  first ← cc4_list_first h cntr;
  end_ ← cc4_list_end h cntr;
  cc4_for_each_loop fuel end_ (fun itr => cc4_list_next h cntr itr) first.

Definition cc4_list_r_for_each {E} (fuel : nat) (h : gmap nat (list_obj E)) (cntr : list_block)
  : option (list list_ptr) :=
  last ← cc4_list_last h cntr;
  r_end ← cc4_list_r_end h cntr;
  cc4_for_each_loop fuel r_end (fun itr => cc4_list_prev h cntr itr) last.

(** The pointers of a list with the nodes [ids], in list order: the node
    headers from [r_end] to [end], and the pointer-iterators. *)
Definition list_node_ptr (id : nat) : list_ptr := (blk_list_heap id, 0%Z).

Definition list_itr (id : nat) : list_ptr := cc4_list_el (list_node_ptr id).

Definition list_end_itr : list_ptr :=
  cc4_list_el (list_end_of blk_list_placeholder).

Definition list_r_end_itr : list_ptr :=
  cc4_list_el (list_r_end_of blk_list_placeholder).

Definition list_chain (cntr : list_block) (ids : list nat) : list list_ptr :=
  list_r_end_of cntr :: (list_node_ptr <$> ids) ++ [list_end_of cntr].

(** The pointer-iterator of the element at index [k]; [end] behind the
    last element. *)
Definition list_itr_at (ids : list nat) (k : nat) : list_ptr :=
  match ids !! k with
  | Some id => list_itr id
  | None => list_end_itr
  end.

Definition adjacent {A} (l : list A) : list (A * A) := zip l (tail l).

Definition next_of {E} (h : gmap nat (list_obj E)) (p : list_ptr) : option list_ptr :=
  ln_next <$> load_listnode h p.

Definition prev_of {E} (h : gmap nat (list_obj E)) (p : list_ptr) : option list_ptr :=
  ln_prev <$> load_listnode h p.

Definition list_link {E} (h : gmap nat (list_obj E)) (pq : list_ptr * list_ptr) : Prop :=
  next_of h pq.1 = Some pq.2 ∧ prev_of h pq.2 = Some pq.1.

(** What the list code keeps true of the list at [cntr]: its nodes are
    the blocks [ids], linked in both directions between the [r_end] and the
    [end] of its header, which lead on to those of the placeholder; the
    header counts them; and they hold the elements [els]. *)
Definition list_wf {E} (h : gmap nat (list_obj E)) (cntr : list_block) (ids : list nat)
    (els : list E) : Prop :=
  NoDup ids
  ∧ cc4_list_size h cntr = Some (length ids)
  ∧ prev_of h (list_r_end_of cntr) = Some (list_r_end_of blk_list_placeholder)
  ∧ next_of h (list_end_of cntr) = Some (list_end_of blk_list_placeholder)
  ∧ Forall (list_link h) (adjacent (list_chain cntr ids))
  ∧ Forall2 (λ id el, list_el_at h (list_itr id) = Some el) ids els.

(** An allocator never hands out a live block. *)
Definition list_alloc_ok {E} (realloc_ : cc4_list_realloc_fnptr_ty E) : Prop :=
  ∀ h size id, realloc_ h size = Some id → h !! id = None.

(** A heap [h'] that differs from [h] in links only: the same blocks are
    live, with the same sizes and elements. *)
Definition relinked {E} (h h' : gmap nat (list_obj E)) : Prop :=
  (∀ cntr, cc4_list_size h' cntr = cc4_list_size h cntr)
  ∧ (∀ itr, list_el_at h' itr = list_el_at h itr)
  ∧ (∀ i, h' !! i = None ↔ h !! i = None).

(** [if( el_dtor ) el_dtor( itr );] *)
Definition list_dtor_call (el_dtor : cc4_dtor_fnptr_ty) (itr : list_ptr)
  : list list_event :=
  match el_dtor with
  | Some f => [list_call_dtor f itr]
  | None => []
  end.


(** A list with the elements 10, 20, 30 in the nodes 1, 2, 3 and its
    header in block 0. *)
Definition three_element_list : gmap nat (list_obj Z) :=
  list_to_map
    [(0, obj_list_hdr 3
           (ListNodeHdr (list_r_end_of blk_list_placeholder) (list_node_ptr 1))
           (ListNodeHdr (list_node_ptr 3) (list_end_of blk_list_placeholder)));
     (1, obj_list_node
           (ListNodeHdr (list_r_end_of (blk_list_heap 0)) (list_node_ptr 2))
           10%Z);
     (2, obj_list_node (ListNodeHdr (list_node_ptr 1) (list_node_ptr 3)) 20%Z);
     (3, obj_list_node
           (ListNodeHdr (list_node_ptr 2) (list_end_of (blk_list_heap 0)))
           30%Z)].

(** An allocator of the list code that hands out a block that is not
    live, and one that always fails. *)
Definition list_alloc_fresh {E} : cc4_list_realloc_fnptr_ty E :=
  fun h _ => Some (fresh (dom h)).

Definition list_alloc_fail {E} : cc4_list_realloc_fnptr_ty E := fun _ _ => None.

(** The heap with that list and a second one, with the elements 50, 60 in
    the nodes 5, 6 and its header in block 4. *)
Definition two_lists : gmap nat (list_obj Z) :=
  <[4 := obj_list_hdr 2
           (ListNodeHdr (list_r_end_of blk_list_placeholder) (list_node_ptr 5))
           (ListNodeHdr (list_node_ptr 6) (list_end_of blk_list_placeholder))]>
  (<[5 := obj_list_node
            (ListNodeHdr (list_r_end_of (blk_list_heap 4)) (list_node_ptr 6))
            50%Z]>
   (<[6 := obj_list_node
             (ListNodeHdr (list_node_ptr 5) (list_end_of (blk_list_heap 4)))
             60%Z]>
    three_element_list)).

(** * Part II: properties *)

(** ** Probe arithmetic *)

Lemma mask_pow2 (x : Z) (n : nat) :
  mask x (2 ^ n) = Z.to_nat (x mod 2 ^ Z.of_nat n).
Proof.
  unfold mask. f_equal.
  rewrite Nat2Z.inj_pow. change (Z.of_nat 2) with 2%Z.
  rewrite <- Z.land_ones by lia. f_equal.
  rewrite Z.ones_equiv. lia.
Qed.

Lemma mask_lt (x : Z) (cap : nat) : pow2 cap → mask x cap < cap.
Proof.
  intros [n ->]. rewrite mask_pow2.
  assert (0 <= x mod 2 ^ Z.of_nat n < 2 ^ Z.of_nat n)%Z as Hr
    by (apply Z.mod_pos_bound; lia).
  apply Nat2Z.inj_lt. rewrite Z2Nat.id by lia.
  rewrite Nat2Z.inj_pow. change (Z.of_nat 2) with 2%Z. lia.
Qed.

Lemma next_spec (cap i : nat) :
  pow2 cap → i < cap → next cap i = if S i =? cap then 0 else S i.
Proof.
  intros [n ->] Hi. rewrite mask_pow2.
  assert (Z.of_nat (2 ^ n) = 2 ^ Z.of_nat n)%Z as Hp
    by (rewrite Nat2Z.inj_pow; reflexivity).
  destruct (Nat.eqb_spec (S i) (2 ^ n)) as [Heq|Hne].
  - replace (Z.of_nat i + 1)%Z with (2 ^ Z.of_nat n)%Z by lia.
    rewrite Z.mod_same by lia. reflexivity.
  - rewrite Z.mod_small by lia. lia.
Qed.

Lemma next_lt (cap i : nat) : pow2 cap → next cap i < cap.
Proof. apply mask_lt. Qed.

Ltac cyc_next :=
  repeat match goal with
  | H : pow2 ?cap |- context [mask (Z.of_nat ?i + 1) ?cap] =>
      rewrite (next_spec cap i H) by lia
  | H : pow2 ?cap, H' : context [mask (Z.of_nat ?i + 1) ?cap] |- _ =>
      rewrite (next_spec cap i H) in H' by lia
  end.

Ltac cyc_cases :=
  repeat match goal with
  | |- context [?a =? ?b] => destruct (Nat.eqb_spec a b)
  | |- context [?a <=? ?b] => destruct (Nat.leb_spec a b)
  | H : context [?a =? ?b] |- _ => destruct (Nat.eqb_spec a b)
  | H : context [?a <=? ?b] |- _ => destruct (Nat.leb_spec a b)
  end.

(** Goals about [next] and [dist] on indices below a power-of-two
    capacity reduce to linear arithmetic by cases. *)
Ltac cyc := cyc_next; unfold dist in *; cyc_cases; try lia.

Lemma dist_lt (cap h j : nat) : h < cap → j < cap → dist cap h j < cap.
Proof. intros. cyc. Qed.

Lemma dist_self (cap h : nat) : dist cap h h = 0.
Proof. cyc. Qed.

Lemma dist_0 (cap h j : nat) : h < cap → j < cap → dist cap h j = 0 → h = j.
Proof. intros. cyc. Qed.

Lemma dist_next_l (cap i j : nat) :
  pow2 cap → i < cap → j < cap → i ≠ j →
  dist cap i j = S (dist cap (next cap i) j).
Proof. intros. cyc. Qed.

Lemma dist_next_r (cap h i : nat) :
  pow2 cap → h < cap → i < cap → dist cap h i + 1 < cap →
  dist cap h (next cap i) = S (dist cap h i).
Proof. intros. cyc. Qed.

Lemma dist_next_back (cap h i : nat) :
  pow2 cap → h < cap → i < cap → dist cap h (next cap i) ≠ 0 →
  dist cap h (next cap i) = S (dist cap h i).
Proof. intros. cyc. Qed.

Lemma next_inj (cap i j : nat) :
  pow2 cap → i < cap → j < cap → next cap i = next cap j → i = j.
Proof. intros. cyc. Qed.

Lemma dist_next_self (cap i : nat) :
  pow2 cap → i < cap → dist cap (next cap i) i = cap - 1.
Proof. intros. cyc. Qed.

Lemma dist_round (cap h j : nat) :
  h < cap → j < cap → h ≠ j → dist cap h j + dist cap j h = cap.
Proof. intros. cyc. Qed.

Lemma walk_lt (cap h m : nat) : pow2 cap → h < cap → walk cap h m < cap.
Proof. intros Hc Hh. destruct m; simpl; [done|]. by apply next_lt. Qed.

Lemma dist_walk (cap h m : nat) :
  pow2 cap → h < cap → m < cap → dist cap h (walk cap h m) = m.
Proof.
  intros Hc Hh. induction m as [|m IH]; intros Hm; simpl.
  - apply dist_self.
  - rewrite dist_next_r; auto using walk_lt; rewrite IH; lia.
Qed.

Lemma dist_inj_r (cap h a b : nat) :
  h < cap → a < cap → b < cap → dist cap h a = dist cap h b → a = b.
Proof. intros. cyc. Qed.

Lemma walk_dist (cap h j : nat) :
  pow2 cap → h < cap → j < cap → walk cap h (dist cap h j) = j.
Proof.
  intros Hc Hh Hj. apply (dist_inj_r cap h); auto using walk_lt.
  apply dist_walk; auto using dist_lt.
Qed.

(** ** Bucket arrays *)

Section bucket_arrays.
Context {K E : Type}.
Implicit Types (bs : list (bucket K E)) (b : bucket K E).

Lemma plen_lookup bs i b : bs !! i = Some b → plen bs i = b_probelen b.
Proof. unfold plen. by intros ->. Qed.

Lemma plen_ge bs i : length bs ≤ i → plen bs i = 0.
Proof. intros Hi. unfold plen. by rewrite lookup_ge_None_2. Qed.

Lemma plen_pos_lt bs i : plen bs i ≠ 0 → i < length bs.
Proof.
  intros Hp. destruct (decide (i < length bs)); [done|].
  rewrite plen_ge in Hp by lia. done.
Qed.

Lemma plen_insert bs i j b :
  plen (<[i:=b]> bs) j
  = if decide (i = j ∧ i < length bs) then b_probelen b else plen bs j.
Proof. unfold plen. rewrite list_lookup_insert. by case_decide. Qed.

Lemma plen_insert_eq bs i b : i < length bs → plen (<[i:=b]> bs) i = b_probelen b.
Proof. intros. rewrite plen_insert. case_decide; [done|lia]. Qed.

Lemma plen_insert_ne bs i j b : i ≠ j → plen (<[i:=b]> bs) j = plen bs j.
Proof. intros. rewrite plen_insert. case_decide; [lia|done]. Qed.

Lemma length_set_probelen bs i p : length (set_probelen bs i p) = length bs.
Proof. unfold set_probelen. case_match; [apply length_insert|done]. Qed.

Lemma plen_set_probelen bs i j p :
  plen (set_probelen bs i p) j
  = if decide (i = j ∧ i < length bs) then p else plen bs j.
Proof.
  unfold set_probelen. destruct (bs !! i) as [b|] eqn:Hb.
  - by rewrite plen_insert.
  - apply lookup_ge_None in Hb. case_decide; [lia|done].
Qed.

Lemma entries_cons b bs : entries (b :: bs) = option_list (live b) ++ entries bs.
Proof. unfold entries. simpl. by destruct (live b). Qed.

Lemma entries_app bs1 bs2 : entries (bs1 ++ bs2) = entries bs1 ++ entries bs2.
Proof. apply omap_app. Qed.

(** Overwriting bucket [i]: its old pair leaves, its new pair enters. *)
Lemma entries_insert bs i b b' :
  bs !! i = Some b →
  option_list (live b) ++ entries (<[i:=b']> bs)
  ≡ₚ option_list (live b') ++ entries bs.
Proof.
  intros Hb. rewrite insert_take_drop by (by eapply lookup_lt_Some).
  rewrite <- (take_drop_middle bs i b Hb) at 3.
  rewrite !entries_app, !entries_cons.
  generalize (entries (take i bs)) (entries (drop (S i) bs)).
  intros l1 l2. destruct (live b), (live b'); simpl; solve_Permutation.
Qed.

Lemma entries_set_probelen_0 bs i b :
  bs !! i = Some b →
  option_list (live b) ++ entries (set_probelen bs i 0) ≡ₚ entries bs.
Proof.
  intros Hb. unfold set_probelen. rewrite Hb.
  by rewrite (entries_insert bs i b _ Hb).
Qed.

Lemma elem_of_entries bs k e :
  (k, e) ∈ entries bs ↔
  ∃ i b, bs !! i = Some b ∧ b_probelen b ≠ 0 ∧ b_key b = k ∧ b_el b = e.
Proof.
  unfold entries. rewrite list_elem_of_omap. split.
  - intros (b & Hin & Hl). apply list_elem_of_lookup in Hin as [i Hi].
    exists i, b. unfold live in Hl. destruct (Nat.eqb_spec (b_probelen b) 0); [done|].
    by inversion Hl.
  - intros (i & b & Hi & Hp & <- & <-). exists b. split.
    + apply list_elem_of_lookup. eauto.
    + unfold live. by destruct (Nat.eqb_spec (b_probelen b) 0).
Qed.

Lemma length_entries_le bs : length (entries bs) ≤ length bs.
Proof.
  induction bs as [|b bs IH]; [done|]. rewrite entries_cons, length_app.
  simpl. destruct (live b); simpl; lia.
Qed.

(** An array with fewer pairs than buckets has an empty bucket. *)
Lemma exists_empty bs :
  length (entries bs) < length bs → ∃ e, e < length bs ∧ plen bs e = 0.
Proof.
  induction bs as [|b bs IH]; [simpl; lia|].
  rewrite entries_cons, length_app. unfold live at 1.
  destruct (Nat.eqb_spec (b_probelen b) 0) as [H0|H0]; simpl; intros Hlt.
  - exists 0. split; [lia|]. done.
  - destruct IH as (e & He & Hp); [lia|]. exists (S e). split; [lia|]. done.
Qed.

Lemma entries_replicate_empty n (k : K) (e : E) :
  entries (replicate n (Bucket e k 0)) = [].
Proof. induction n; [done|]. cbn [replicate]. by rewrite entries_cons, IHn. Qed.

End bucket_arrays.

(** ** Structure of Robin Hood arrays *)

Section robin_hood.
Context {K E : Type} (hash : K -> Z) (cap : nat) (Hcap : pow2 cap).
Implicit Types (bs : list (bucket K E)) (b : bucket K E).

Lemma live_empty b : b_probelen b = 0 → live b = None.
Proof. unfold live. by intros ->. Qed.

Lemma live_occupied b : b_probelen b ≠ 0 → live b = Some (b_key b, b_el b).
Proof. unfold live. by destruct (Nat.eqb_spec (b_probelen b) 0). Qed.

Lemma entries_insert_occupied bs i b k el c :
  bs !! i = Some b → c ≠ 0 →
  option_list (live b) ++ entries (<[i:=Bucket el k c]> bs)
  ≡ₚ (k, el) :: entries bs.
Proof.
  intros Hb Hc. rewrite (entries_insert bs i b _ Hb).
  by rewrite live_occupied.
Qed.

(** Along a probe path the stored probe lengths cannot drop faster than
    the path advances. *)
Lemma ordered_dist bs d x j :
  ordered cap bs → x < cap → j < cap → dist cap x j = d →
  plen bs j ≤ plen bs x + d.
Proof.
  intros Ho. revert x. induction d as [|d IH]; intros x Hx Hj Hd.
  - apply dist_0 in Hd; auto. subst. lia.
  - assert (x ≠ j) by (intros ->; rewrite dist_self in Hd; lia).
    rewrite (dist_next_l cap x j) in Hd by auto. injection Hd as Hd.
    pose proof (IH (next cap x) (next_lt cap x Hcap) Hj Hd).
    pose proof (Ho x Hx). lia.
Qed.

Lemma unbroken_of_empty bs e :
  ordered cap bs → e < cap → plen bs e = 0 → unbroken cap bs e.
Proof.
  intros Ho He Hp. split; [done|]. intros x Hx.
  destruct (decide (x = e)) as [->|Hne].
  - rewrite Hp, dist_self. lia.
  - pose proof (ordered_dist bs _ e x Ho He Hx eq_refl).
    pose proof (dist_round cap x e Hx He Hne). lia.
Qed.

Lemma unbroken_plen_le bs e x : unbroken cap bs e → x < cap → plen bs x ≤ cap.
Proof. intros [He Hu] Hx. specialize (Hu x Hx). lia. Qed.

Lemma homes_insert bs i b' :
  homes hash cap bs →
  (b_probelen b' ≠ 0 →
   b_probelen b' = S (dist cap (mask (hash (b_key b')) cap) i)) →
  homes hash cap (<[i:=b']> bs).
Proof.
  intros Hh Hb j b Hl Hp. rewrite list_lookup_insert in Hl.
  case_decide as Hd.
  - destruct Hd as [-> _]. injection Hl as <-. auto.
  - by apply Hh.
Qed.

Lemma ordered_insert bs i b' :
  ordered cap bs → length bs = cap → i < cap →
  plen bs i ≤ b_probelen b' →
  (∀ j, j < cap → next cap j = i → b_probelen b' ≤ S (plen bs j)) →
  ordered cap (<[i:=b']> bs).
Proof.
  intros Ho Hlen Hi Hup Hfit j Hj. rewrite !plen_insert.
  pose proof (Ho j Hj). pose proof (Hfit j Hj).
  repeat case_decide; destruct_and?; simplify_eq; lia.
Qed.

Lemma unbroken_insert bs i b' e :
  unbroken cap bs e → b_probelen b' + dist cap i e ≤ cap →
  unbroken cap (<[i:=b']> bs) e.
Proof.
  intros [He Hu] Hb. split; [done|]. intros x Hx. rewrite plen_insert.
  case_decide as Hd; [destruct Hd as [-> _]; done|auto].
Qed.

(** The displacement loop: started on a bucket where the candidate may
    sit, it ends in an array that holds the candidate in addition. *)
Lemma steal_spec fuel bs i el k c e :
  length bs = cap → i < cap →
  homes hash cap bs → ordered cap bs → unbroken cap bs e → plen bs e = 0 →
  c = S (dist cap (mask (hash k) cap) i) →
  c + dist cap i e ≤ cap →
  (∀ j, j < cap → next cap j = i → c ≤ S (plen bs j)) →
  dist cap i e < fuel →
  ∃ bs', cc4_map_insert_raw_steal fuel cap bs i el k c = Some bs'
         ∧ length bs' = cap ∧ homes hash cap bs' ∧ ordered cap bs'
         ∧ unbroken cap bs' e
         ∧ entries bs' ≡ₚ (k, el) :: entries bs.
Proof.
  revert bs i el k c.
  induction fuel as [|fuel IH]; intros bs i el k c Hlen Hi Hh Ho Hu He Hc Hce Hfit Hf;
    [lia|].
  destruct (lookup_lt_is_Some_2 bs i) as [b Hb]; [lia|].
  pose proof (plen_lookup bs i b Hb) as Hpi.
  pose proof Hu as [Hecap Hub].
  cbn [cc4_map_insert_raw_steal]. rewrite Hb. cbn [mbind option_bind].
  set (b' := Bucket el k c).
  assert (homes hash cap (<[i:=b']> bs)) as Hh'
    by (apply homes_insert; [done|intros _; exact Hc]).
  assert (unbroken cap (<[i:=b']> bs) e) as Hu'
    by (apply unbroken_insert; [done|exact Hce]).
  assert (length (<[i:=b']> bs) = cap) as Hlen' by (by rewrite length_insert).
  destruct (Nat.eqb_spec (b_probelen b) 0) as [H0|H0].
  { (* empty bucket: the candidate is stored *)
    eexists. split; [done|]. split_and!; auto.
    - apply ordered_insert; auto. simpl. lia.
    - pose proof (entries_insert_occupied bs i b k el c Hb) as Hp.
      rewrite (live_empty b H0) in Hp. apply Hp. lia. }
  assert (i ≠ e) as Hie by (intros ->; lia).
  pose proof (dist_next_l cap i e Hcap Hi Hecap Hie) as Hde.
  pose proof (next_lt cap i Hcap) as Hni.
  destruct (Nat.ltb_spec (b_probelen b) c) as [Hlt|Hge].
  - (* the resident is displaced and becomes the candidate *)
    assert (ordered cap (<[i:=b']> bs)) as Ho'
      by (apply ordered_insert; auto; simpl; lia).
    pose proof (Hh i b Hb H0) as Hhb.
    pose proof (Hub i Hi) as Hubi.
    destruct (IH (<[i:=b']> bs) (next cap i) (b_el b) (b_key b) (S (b_probelen b)))
      as (bs' & Hrun & Hl' & Hh'' & Ho'' & Hu'' & Hp''); auto.
    + rewrite plen_insert_ne by done. done.
    + rewrite Hhb. f_equal. rewrite dist_next_r; auto.
      * apply mask_lt; auto.
      * lia.
    + lia.
    + intros j Hj Hnj. apply next_inj in Hnj; auto. subst j.
      rewrite plen_insert_eq by lia. simpl. lia.
    + lia.
    + exists bs'. split; [done|]. split_and!; auto.
      rewrite Hp''.
      pose proof (entries_insert_occupied bs i b k el c Hb) as Hp.
      rewrite (live_occupied b H0) in Hp. apply Hp. lia.
  - (* the candidate moves on *)
    destruct (IH bs (next cap i) el k (S c))
      as (bs' & Hrun & Hl' & Hh'' & Ho'' & Hu'' & Hp''); auto.
    + rewrite Hc. f_equal. rewrite dist_next_r; auto.
      * apply mask_lt; auto.
      * lia.
    + lia.
    + intros j Hj Hnj. apply next_inj in Hnj; auto. subst j. lia.
    + lia.
    + exists bs'. split; [done|]. split_and!; auto.
Qed.


(** *** The probe walk *)

Context (cmpr : K -> K -> Z).

(** Without an equal key on the way, the walk stops at a bucket where the
    searched key may be stored. *)
Lemma probe_stop_spec fuel bs key i c e :
  length bs = cap → i < cap → e < cap → plen bs e = 0 →
  (∀ j b, bs !! j = Some b → b_probelen b ≠ 0 → cmpr (b_key b) key ≠ 0%Z) →
  c = S (dist cap (mask (hash key) cap) i) →
  c + dist cap i e ≤ cap →
  (∀ j, j < cap → next cap j = i → c ≤ S (plen bs j)) →
  dist cap i e < fuel →
  ∃ i' c', probe fuel cap bs cmpr key i c = Some (probe_stop i' c')
           ∧ i' < cap ∧ plen bs i' < c'
           ∧ c' = S (dist cap (mask (hash key) cap) i')
           ∧ c' + dist cap i' e ≤ cap
           ∧ (∀ j, j < cap → next cap j = i' → c' ≤ S (plen bs j)).
Proof.
  intros Hlen. revert i c.
  induction fuel as [|fuel IH]; intros i c Hi He Hpe Hne Hc Hce Hfit Hf; [lia|].
  destruct (lookup_lt_is_Some_2 bs i) as [b Hb]; [lia|].
  pose proof (plen_lookup bs i b Hb) as Hpi.
  cbn [probe]. rewrite Hb. cbn [mbind option_bind].
  destruct (Nat.ltb_spec (b_probelen b) c) as [Hlt|Hge].
  { exists i, c. split_and!; auto. lia. }
  assert (b_probelen b ≠ 0) as Hocc by lia.
  destruct (Z.eqb_spec (cmpr (b_key b) key) 0) as [Heq|_];
    [by destruct (Hne i b Hb Hocc)|].
  rewrite andb_false_r.
  assert (i ≠ e) as Hie by (intros ->; lia).
  pose proof (dist_next_l cap i e Hcap Hi He Hie) as Hde.
  apply IH; auto using next_lt.
  - rewrite Hc. f_equal. rewrite dist_next_r; auto; [by apply mask_lt|lia].
  - lia.
  - intros j Hj Hnj. apply next_inj in Hnj; auto. subst j. lia.
  - lia.
Qed.

(** A stored key is found before the walk can stop. *)
Lemma probe_found_spec fuel bs key i c j bj :
  length bs = cap → i < cap → j < cap → ordered cap bs →
  bs !! j = Some bj → cmpr (b_key bj) key = 0%Z →
  c + dist cap i j = b_probelen bj → c ≠ 0 →
  dist cap i j < fuel →
  ∃ x bx, probe fuel cap bs cmpr key i c = Some (probe_found x)
          ∧ bs !! x = Some bx ∧ b_probelen bx ≠ 0
          ∧ cmpr (b_key bx) key = 0%Z.
Proof.
  intros Hlen Hi Hj Ho Hbj Heqj. revert i c Hi.
  induction fuel as [|fuel IH]; intros i c Hi Hc Hc0 Hf; [lia|].
  destruct (lookup_lt_is_Some_2 bs i) as [b Hb]; [lia|].
  pose proof (plen_lookup bs i b Hb) as Hpi.
  pose proof (plen_lookup bs j bj Hbj) as Hpj.
  pose proof (ordered_dist bs _ i j Ho Hi Hj eq_refl) as Hod.
  cbn [probe]. rewrite Hb. cbn [mbind option_bind].
  destruct (Nat.ltb_spec (b_probelen b) c) as [Hlt|Hge]; [lia|].
  destruct (Nat.eqb_spec c (b_probelen b)) as [Hcb|Hcb];
    destruct (Z.eqb_spec (cmpr (b_key b) key) 0) as [Heq|Hneq]; cbn [andb].
  1: { exists i, b. split_and!; auto. lia. }
  all: assert (i ≠ j) as Hij
      by (intros ->; rewrite dist_self in Hc; simplify_eq; lia).
  all: pose proof (dist_next_l cap i j Hcap Hi Hj Hij) as Hd.
  all: apply IH; auto using next_lt; lia.
Qed.

Lemma probe_found_inv fuel bs key i c x :
  probe fuel cap bs cmpr key i c = Some (probe_found x) → c ≠ 0 →
  ∃ bx, bs !! x = Some bx ∧ b_probelen bx ≠ 0 ∧ cmpr (b_key bx) key = 0%Z.
Proof.
  revert i c. induction fuel as [|fuel IH]; intros i c Hp Hc; [done|].
  cbn [probe] in Hp. destruct (bs !! i) as [b|] eqn:Hb; [|done].
  cbn [mbind option_bind] in Hp.
  destruct (Nat.ltb_spec (b_probelen b) c); [done|].
  destruct (Nat.eqb_spec c (b_probelen b)) as [Hcb|Hcb];
    destruct (Z.eqb_spec (cmpr (b_key b) key) 0) as [Heq|Hneq]; cbn [andb] in Hp.
  1: { injection Hp as <-. exists b. split_and!; auto. lia. }
  all: eapply IH; eauto.
Qed.

(** The walk ends within [cap + 1] steps when no probe length exceeds the
    capacity. *)
Lemma probe_total fuel bs key i c :
  length bs = cap → i < cap → (∀ x, x < cap → plen bs x ≤ cap) →
  0 < fuel → cap + 2 ≤ fuel + c →
  is_Some (probe fuel cap bs cmpr key i c).
Proof.
  intros Hlen. revert i c.
  induction fuel as [|fuel IH]; intros i c Hi Hle Hf0 Hf; [lia|].
  destruct (lookup_lt_is_Some_2 bs i) as [b Hb]; [lia|].
  pose proof (plen_lookup bs i b Hb). pose proof (Hle i Hi).
  cbn [probe]. rewrite Hb. cbn [mbind option_bind].
  destruct (Nat.ltb_spec (b_probelen b) c); [done|].
  destruct ((c =? b_probelen b) && (cmpr (b_key b) key =? 0)%Z); [done|].
  apply IH; auto using next_lt; lia.
Qed.

End robin_hood.

(** ** The loops of the code are probe walks *)

Section loops_as_probes.
Context {K E : Type}.
Implicit Types (cntr : cntr_ty K E).

Lemma get_loop_probe fuel cntr key el_size layout cmpr i c :
  cc4_map_get_loop fuel cntr key el_size layout cmpr i c
  = match probe fuel (cap cntr) (bkts cntr) cmpr key i c with
    | Some (probe_found x) => Some (Some (cc4_map_el cntr x el_size layout))
    | Some (probe_stop _ _) => Some None
    | None => None
    end.
Proof.
  revert i c. induction fuel as [|fuel IH]; intros i c; [done|].
  cbn [cc4_map_get_loop probe]. destruct (bkts cntr !! i) as [b|]; [|done].
  cbn [mbind option_bind].
  destruct (Nat.leb_spec c (b_probelen b)), (Nat.ltb_spec (b_probelen b) c);
    try lia; [|done].
  destruct ((c =? b_probelen b) && (cmpr (b_key b) key =? 0)%Z); [done|].
  apply IH.
Qed.

Lemma insert_raw_loop_probe fuel cntr el key replace el_size layout cmpr
    el_dtor key_dtor i c :
  cc4_map_insert_raw_loop fuel cntr el key replace el_size layout cmpr
    el_dtor key_dtor i c
  = match probe fuel (cap cntr) (bkts cntr) cmpr key i c with
    | Some (probe_stop i' c') =>
        bs' ← cc4_map_insert_raw_steal (S (cap cntr)) (cap cntr) (bkts cntr)
                i' el key c';
        Some (Cntr (hndl cntr) (S (size cntr)) (cap cntr) bs',
              cc4_map_el cntr i' el_size layout, [])
    | Some (probe_found x) =>
        b ← bkts cntr !! x;
        if replace then
          Some (Cntr (hndl cntr) (size cntr) (cap cntr)
                  (<[x := Bucket el key (b_probelen b)]> (bkts cntr)),
                cc4_map_el cntr x el_size layout,
                call_if key_dtor (cc4_map_key cntr x el_size layout)
                ++ call_if el_dtor (cc4_map_el cntr x el_size layout))
        else Some (cntr, cc4_map_el cntr x el_size layout, [])
    | None => None
    end.
Proof.
  revert i c. induction fuel as [|fuel IH]; intros i c; [done|].
  cbn [cc4_map_insert_raw_loop probe].
  destruct (bkts cntr !! i) as [b|] eqn:Hb; [|done].
  cbn [mbind option_bind].
  destruct (b_probelen b <? c); [done|].
  destruct ((c =? b_probelen b) && (cmpr (b_key b) key =? 0)%Z).
  - by rewrite Hb.
  - apply IH.
Qed.

Lemma insert_raw_unique_loop_probe fuel cntr el key el_size layout i c :
  cc4_map_insert_raw_unique_loop fuel cntr el key el_size layout i c
  = match probe fuel (cap cntr) (bkts cntr) (λ _ _, 1%Z) key i c with
    | Some (probe_stop i' c') =>
        bs' ← cc4_map_insert_raw_steal (S (cap cntr)) (cap cntr) (bkts cntr)
                i' el key c';
        Some (Cntr (hndl cntr) (S (size cntr)) (cap cntr) bs',
              cc4_map_el cntr i' el_size layout)
    | Some (probe_found x) => None
    | None => None
    end.
Proof.
  revert i c. induction fuel as [|fuel IH]; intros i c; [done|].
  cbn [cc4_map_insert_raw_unique_loop probe].
  destruct (bkts cntr !! i) as [b|] eqn:Hb; [|done].
  cbn [mbind option_bind].
  destruct (b_probelen b <? c); [done|].
  rewrite andb_false_r. apply IH.
Qed.

Lemma erase_loop_probe fuel cntr key el_size layout cmpr el_dtor key_dtor i c :
  cc4_map_erase_loop fuel cntr key el_size layout cmpr el_dtor key_dtor i c
  = match probe fuel (cap cntr) (bkts cntr) cmpr key i c with
    | Some (probe_found x) =>
        '(cntr', evs) ← cc4_map_erase_itr cntr (cc4_map_el cntr x el_size layout)
                          el_size layout el_dtor key_dtor;
        Some (cntr', Some cc4_dummy_true_ptr, evs)
    | Some (probe_stop _ _) => Some (cntr, None, [])
    | None => None
    end.
Proof.
  revert i c. induction fuel as [|fuel IH]; intros i c; [done|].
  cbn [cc4_map_erase_loop probe]. destruct (bkts cntr !! i) as [b|]; [|done].
  cbn [mbind option_bind].
  destruct (Nat.leb_spec c (b_probelen b)), (Nat.ltb_spec (b_probelen b) c);
    try lia; [|done].
  destruct ((c =? b_probelen b) && (cmpr (b_key b) key =? 0)%Z); [done|].
  apply IH.
Qed.

End loops_as_probes.

(** ** Insertion preserves the invariant *)

Section insertion.
Context {K E : Type} (hash : K -> Z).
Implicit Types (cntr : cntr_ty K E) (b : bucket K E).

Lemma wf_cap_pow2 cntr : wf hash cntr → cap cntr ≠ 0 → pow2 (cap cntr).
Proof. intros Hwf Hc. by destruct (wf_pow2 _ _ Hwf). Qed.

Lemma wf_plen_le_cap cntr x : wf hash cntr → plen (bkts cntr) x ≤ cap cntr.
Proof.
  intros Hwf. destruct (decide (x < cap cntr)) as [Hx|Hx].
  - destruct (wf_unbroken _ _ Hwf) as [e He]; [lia|].
    eapply unbroken_plen_le; eauto.
  - rewrite plen_ge; [lia|]. rewrite (wf_len _ _ Hwf). lia.
Qed.

Lemma wf_empty_slot cntr :
  wf hash cntr → size cntr < cap cntr →
  ∃ e, e < cap cntr ∧ plen (bkts cntr) e = 0.
Proof.
  intros Hwf Hs. rewrite <- (wf_len _ _ Hwf).
  apply exists_empty. rewrite <- (wf_size _ _ Hwf), (wf_len _ _ Hwf). done.
Qed.

Lemma nodup_fst_functional (l : list (K * E)) k e1 e2 :
  NoDup l.*1 → (k, e1) ∈ l → (k, e2) ∈ l → e1 = e2.
Proof.
  induction l as [|[k' e'] l IH]; intros Hnd H1 H2;
    [by apply elem_of_nil in H1|].
  rewrite fmap_cons in Hnd. apply NoDup_cons in Hnd as [Hnotin Hnd].
  apply elem_of_cons in H1, H2.
  destruct H1 as [H1|H1], H2 as [H2|H2]; [congruence| | |by apply IH].
  - injection H1 as -> ->. destruct Hnotin.
    apply list_elem_of_fmap. by exists (k', e2).
  - injection H2 as -> ->. destruct Hnotin.
    apply list_elem_of_fmap. by exists (k', e1).
Qed.

Lemma wf_functional cntr k e1 e2 :
  wf hash cntr → (k, e1) ∈ entries (bkts cntr) → (k, e2) ∈ entries (bkts cntr) →
  e1 = e2.
Proof. intros Hwf. apply nodup_fst_functional, Hwf. Qed.

(** Storing a new key from a bucket where the probe walk stopped. *)
Lemma steal_wf cntr el key i c e :
  wf hash cntr → pow2 (cap cntr) → e < cap cntr → plen (bkts cntr) e = 0 →
  i < cap cntr →
  c = S (dist (cap cntr) (mask (hash key) (cap cntr)) i) →
  c + dist (cap cntr) i e ≤ cap cntr →
  (∀ j, j < cap cntr → next (cap cntr) j = i → c ≤ S (plen (bkts cntr) j)) →
  key ∉ (entries (bkts cntr)).*1 →
  ∃ bs', cc4_map_insert_raw_steal (S (cap cntr)) (cap cntr) (bkts cntr) i el key c
         = Some bs'
         ∧ wf hash (Cntr (hndl cntr) (S (size cntr)) (cap cntr) bs')
         ∧ entries bs' ≡ₚ (key, el) :: entries (bkts cntr).
Proof.
  intros Hwf Hp He Hpe Hi Hc Hce Hfit Hnew.
  destruct (steal_spec hash (cap cntr) Hp (S (cap cntr)) (bkts cntr) i el key c e)
    as (bs' & Hrun & Hlen & Hh & Ho & Hu & Hperm); auto.
  - apply Hwf.
  - apply Hwf.
  - apply Hwf.
  - apply unbroken_of_empty; auto. apply Hwf.
  - pose proof (dist_lt (cap cntr) i e Hi He). lia.
  - exists bs'. split_and!; auto. constructor; cbn [bkts cap size hndl]; auto.
    + eauto.
    + rewrite Hperm. rewrite fmap_cons. apply NoDup_cons. split; [done|apply Hwf].
    + rewrite Hperm. cbn [length]. f_equal. apply Hwf.
Qed.

(** Overwriting the key and element of an occupied bucket with an equal
    key. *)
Lemma replace_wf cntr x b el key :
  wf hash cntr → bkts cntr !! x = Some b → b_probelen b ≠ 0 → b_key b = key →
  wf hash (Cntr (hndl cntr) (size cntr) (cap cntr)
             (<[x := Bucket el key (b_probelen b)]> (bkts cntr)))
  ∧ (key, b_el b) :: entries (<[x := Bucket el key (b_probelen b)]> (bkts cntr))
    ≡ₚ (key, el) :: entries (bkts cntr).
Proof.
  intros Hwf Hb Hocc Hk.
  pose proof (entries_insert_occupied (bkts cntr) x b key el (b_probelen b) Hb Hocc)
    as Hperm.
  rewrite (live_occupied b Hocc), Hk in Hperm. cbn [option_list app] in Hperm.
  split; [|done].
  assert (x < cap cntr) as Hx
    by (rewrite <- (wf_len _ _ Hwf); by eapply lookup_lt_Some).
  assert ((entries (<[x := Bucket el key (b_probelen b)]> (bkts cntr))).*1
          ≡ₚ (entries (bkts cntr)).*1) as Hkeys.
  { apply (Permutation_cons_inv (a := key)).
    change (((key, b_el b) :: entries (<[x:=Bucket el key (b_probelen b)]> (bkts cntr))).*1
            ≡ₚ ((key, el) :: entries (bkts cntr)).*1).
    by rewrite Hperm. }
  pose proof (plen_lookup _ _ _ Hb) as Hpx.
  constructor; cbn [bkts cap size hndl].
  - rewrite length_insert. apply Hwf.
  - apply Hwf.
  - apply homes_insert; [apply Hwf|]. cbn [b_probelen b_key]. intros _.
    rewrite <- Hk. by apply (wf_homes _ _ Hwf).
  - destruct (wf_pow2 _ _ Hwf) as [H0|Hp]; [lia|].
    apply ordered_insert; auto; try apply Hwf; cbn [b_probelen]; [lia|].
    intros j Hj Hn. pose proof (wf_ordered _ _ Hwf j Hj) as Ho.
    rewrite Hn in Ho. lia.
  - intros Hc. destruct (wf_unbroken _ _ Hwf Hc) as [e Hu]. exists e.
    apply unbroken_insert; [done|]. cbn [b_probelen]. rewrite <- Hpx.
    by apply Hu.
  - rewrite Hkeys. apply Hwf.
  - rewrite (wf_size _ _ Hwf).
    rewrite <- (length_fmap fst (entries (bkts cntr))), <- Hkeys.
    by rewrite length_fmap.
Qed.

Lemma insert_raw_unique_spec cntr el key el_size layout :
  wf hash cntr → size cntr < cap cntr → key ∉ (entries (bkts cntr)).*1 →
  ∃ cntr' p, cc4_map_insert_raw_unique cntr el key el_size layout hash
             = Some (cntr', p)
             ∧ wf hash cntr' ∧ hndl cntr' = hndl cntr ∧ cap cntr' = cap cntr
             ∧ entries (bkts cntr') ≡ₚ (key, el) :: entries (bkts cntr).
Proof.
  intros Hwf Hs Hnew.
  assert (pow2 (cap cntr)) as Hp by (apply wf_cap_pow2; [done|lia]).
  destruct (wf_empty_slot cntr Hwf Hs) as (e & He & Hpe).
  pose proof (mask_lt (hash key) (cap cntr) Hp) as Hh.
  destruct (probe_stop_spec hash (cap cntr) Hp (λ _ _, 1%Z) (S (cap cntr))
              (bkts cntr) key (mask (hash key) (cap cntr)) 1 e)
    as (i & c & Hprobe & Hi & Hlt & Hc & Hce & Hfit);
    [apply Hwf|done|done|done|intros; lia|by rewrite dist_self|
     pose proof (dist_lt (cap cntr) _ e Hh He); lia|intros; lia|
     pose proof (dist_lt (cap cntr) _ e Hh He); lia|].
  destruct (steal_wf cntr el key i c e) as (bs' & Hrun & Hwf' & Hperm); auto.
  unfold cc4_map_insert_raw_unique.
  rewrite insert_raw_unique_loop_probe, Hprobe. rewrite Hrun.
  cbn [mbind option_bind]. eexists _, _. split; [done|]. split_and!; auto.
Qed.

Context (cmpr : K -> K -> Z) (cmpr_eq : ∀ k1 k2, cmpr k1 k2 = 0%Z ↔ k1 = k2).

Lemma absent_no_equal_key cntr key :
  key ∉ (entries (bkts cntr)).*1 →
  ∀ j b, bkts cntr !! j = Some b → b_probelen b ≠ 0 → cmpr (b_key b) key ≠ 0%Z.
Proof.
  intros Hnew j b Hb Hocc Heq. apply cmpr_eq in Heq. apply Hnew.
  apply list_elem_of_fmap. exists (key, b_el b). split; [done|].
  apply elem_of_entries. eauto 6.
Qed.

(** [cc4_map_insert_raw] with a key that is not in the map. *)
Lemma insert_raw_new_spec cntr el key replace el_size layout el_dtor key_dtor :
  wf hash cntr → size cntr < cap cntr → key ∉ (entries (bkts cntr)).*1 →
  ∃ cntr' p, cc4_map_insert_raw cntr el key replace el_size layout hash cmpr
               el_dtor key_dtor = Some (cntr', p, [])
             ∧ wf hash cntr' ∧ hndl cntr' = hndl cntr ∧ cap cntr' = cap cntr
             ∧ entries (bkts cntr') ≡ₚ (key, el) :: entries (bkts cntr).
Proof.
  intros Hwf Hs Hnew.
  assert (pow2 (cap cntr)) as Hp by (apply wf_cap_pow2; [done|lia]).
  destruct (wf_empty_slot cntr Hwf Hs) as (e & He & Hpe).
  pose proof (mask_lt (hash key) (cap cntr) Hp) as Hh.
  pose proof (dist_lt (cap cntr) _ e Hh He).
  destruct (probe_stop_spec hash (cap cntr) Hp cmpr (S (cap cntr))
              (bkts cntr) key (mask (hash key) (cap cntr)) 1 e)
    as (i & c & Hprobe & Hi & Hlt & Hc & Hce & Hfit);
    [apply Hwf|done|done|done|by apply absent_no_equal_key|by rewrite dist_self|
     lia|intros; lia|lia|].
  destruct (steal_wf cntr el key i c e) as (bs' & Hrun & Hwf' & Hperm); auto.
  unfold cc4_map_insert_raw.
  rewrite insert_raw_loop_probe, Hprobe. rewrite Hrun.
  cbn [mbind option_bind]. eexists _, _. split; [done|]. split_and!; auto.
Qed.

(** The probe walk for a stored key ends on the bucket of that key. *)
Lemma probe_present cntr key el0 :
  wf hash cntr → (key, el0) ∈ entries (bkts cntr) →
  ∃ x b, probe (S (cap cntr)) (cap cntr) (bkts cntr) cmpr key
           (mask (hash key) (cap cntr)) 1 = Some (probe_found x)
         ∧ bkts cntr !! x = Some b ∧ b_probelen b ≠ 0
         ∧ b_key b = key ∧ b_el b = el0.
Proof.
  intros Hwf Hin. pose proof Hin as Hin'.
  apply elem_of_entries in Hin as (j & bj & Hbj & Hocc & Hk & He).
  assert (j < cap cntr) as Hj
    by (rewrite <- (wf_len _ _ Hwf); by eapply lookup_lt_Some).
  assert (pow2 (cap cntr)) as Hp by (apply wf_cap_pow2; [done|lia]).
  pose proof (mask_lt (hash key) (cap cntr) Hp) as Hh.
  pose proof (dist_lt (cap cntr) _ j Hh Hj).
  destruct (probe_found_spec (cap cntr) Hp cmpr (S (cap cntr)) (bkts cntr) key
              (mask (hash key) (cap cntr)) 1 j bj)
    as (x & bx & Hprobe & Hbx & Hoccx & Heqx);
    [apply Hwf|done|done|apply Hwf|done|by apply cmpr_eq|
     rewrite (wf_homes _ _ Hwf j bj Hbj Hocc), Hk; lia|lia|lia|].
  exists x, bx. apply cmpr_eq in Heqx. split_and!; auto.
    apply (wf_functional cntr key _ _ Hwf); [|done].
    apply elem_of_entries. eauto 6.
Qed.

(** The probe walk for a key that is not stored stops. *)
Lemma probe_absent cntr key :
  wf hash cntr → cap cntr ≠ 0 → key ∉ (entries (bkts cntr)).*1 →
  ∃ i c, probe (S (cap cntr)) (cap cntr) (bkts cntr) cmpr key
           (mask (hash key) (cap cntr)) 1 = Some (probe_stop i c).
Proof.
  intros Hwf Hc Hnew.
  assert (pow2 (cap cntr)) as Hp by (by apply wf_cap_pow2).
  pose proof (mask_lt (hash key) (cap cntr) Hp) as Hh.
  destruct (probe_total (cap cntr) Hp cmpr (S (cap cntr)) (bkts cntr) key
              (mask (hash key) (cap cntr)) 1) as [r Hr];
    [apply Hwf|done|intros x _; by apply wf_plen_le_cap|lia|lia|].
  destruct r as [x|i c]; [|eauto].
  apply probe_found_inv in Hr as (bx & Hbx & Hocc & Heq); [|lia].
  by destruct (absent_no_equal_key cntr key Hnew x bx).
Qed.

(** [cc4_map_insert_raw] with a key that is in the map. *)
Lemma insert_raw_present_spec cntr el key el0 replace el_size layout
    el_dtor key_dtor :
  wf hash cntr → (key, el0) ∈ entries (bkts cntr) →
  ∃ cntr' p evs,
    cc4_map_insert_raw cntr el key replace el_size layout hash cmpr
      el_dtor key_dtor = Some (cntr', p, evs)
    ∧ wf hash cntr' ∧ hndl cntr' = hndl cntr ∧ cap cntr' = cap cntr
    ∧ size cntr' = size cntr
    ∧ (replace = false → cntr' = cntr)
    ∧ (replace = true →
       (key, el0) :: entries (bkts cntr') ≡ₚ (key, el) :: entries (bkts cntr)).
Proof.
  intros Hwf Hin.
  destruct (probe_present cntr key el0 Hwf Hin)
    as (x & b & Hprobe & Hb & Hocc & Hk & He).
  unfold cc4_map_insert_raw. rewrite insert_raw_loop_probe, Hprobe, Hb.
  cbn [mbind option_bind].
  destruct replace.
  - destruct (replace_wf cntr x b el key Hwf Hb Hocc Hk) as [Hwf' Hperm].
    eexists _, _, _. split; [done|]. split_and!; auto; [done|].
    intros _. cbn [bkts]. by rewrite <- He.
  - eexists _, _, _. split; [done|]. split_and!; auto. done.
Qed.

End insertion.

(** ** Capacity policy *)

Section capacity.
Context (max_load : Q).

Lemma exceeds_load_spec n cap :
  exceeds_load n cap max_load = true
  ↔ (Z.of_nat cap * Qnum max_load < Z.of_nat n * Z.pos (Qden max_load))%Z.
Proof.
  unfold exceeds_load, Qle_bool. destruct max_load as [num den]. simpl.
  rewrite negb_true_iff, Z.leb_gt. lia.
Qed.

Lemma within_load_spec n cap :
  exceeds_load n cap max_load = false
  ↔ (Z.of_nat n * Z.pos (Qden max_load) <= Z.of_nat cap * Qnum max_load)%Z.
Proof.
  rewrite <- not_true_iff_false, exceeds_load_spec. lia.
Qed.

Context (Hpos : (0 < max_load)%Q).

Lemma max_load_num_pos : (0 < Qnum max_load)%Z.
Proof. unfold Qlt in Hpos. simpl in Hpos. lia. Qed.

Lemma within_load_mono n n' cap cap' :
  exceeds_load n cap max_load = false → n' ≤ n → cap ≤ cap' →
  exceeds_load n' cap' max_load = false.
Proof.
  rewrite !within_load_spec. pose proof max_load_num_pos. nia.
Qed.

Lemma exceeds_load_cap_lt n cap cap' :
  exceeds_load n cap max_load = true → exceeds_load n cap' max_load = false →
  cap < cap'.
Proof.
  rewrite exceeds_load_spec, within_load_spec. pose proof max_load_num_pos. nia.
Qed.

Lemma pow2_pos cap : pow2 cap → 0 < cap.
Proof. intros [n ->]. apply Nat.neq_0_lt_0, Nat.pow_nonzero. lia. Qed.

Lemma pow2_double cap : pow2 cap → pow2 (cap * 2).
Proof. intros [n ->]. exists (S n). simpl. lia. Qed.

Lemma pow2_lt_double a b : pow2 a → pow2 b → a < b → a * 2 ≤ b.
Proof.
  intros [n ->] [m ->] Hlt.
  assert (n < m) as Hnm by (by apply (Nat.pow_lt_mono_r_iff 2); [lia|]).
  replace (2 ^ n * 2) with (2 ^ S n) by (simpl; lia).
  apply Nat.pow_le_mono_r; lia.
Qed.

(** The doubling loop ends, on the least power of two from [cap] upwards
    that keeps [n] within the load factor. *)
Lemma min_cap_loop_spec fuel n cap :
  pow2 cap → 0 < fuel → n * Pos.to_nat (Qden max_load) + 1 ≤ fuel + cap →
  ∃ c, cc4_map_min_cap_loop fuel n cap max_load = Some c
       ∧ pow2 c ∧ cap ≤ c ∧ exceeds_load n c max_load = false
       ∧ (∀ c', pow2 c' → cap ≤ c' → exceeds_load n c' max_load = false → c ≤ c').
Proof.
  revert cap. induction fuel as [|fuel IH]; intros cap Hp Hf0 Hf; [lia|].
  cbn [cc4_map_min_cap_loop].
  destruct (exceeds_load n cap max_load) eqn:Hex.
  - assert (cap < n * Pos.to_nat (Qden max_load)) as Hlt.
    { apply exceeds_load_spec in Hex. pose proof max_load_num_pos. nia. }
    pose proof (pow2_pos cap Hp).
    destruct (IH (cap * 2)) as (c & Hrun & Hpc & Hcc & Hin & Hmin);
      [by apply pow2_double|lia|lia|].
    exists c. split_and!; auto; [lia|].
    intros c' Hpc' Hc' Hin'. apply Hmin; auto.
    apply pow2_lt_double; auto.
    by apply (exceeds_load_cap_lt n).
  - exists cap. split_and!; auto.
Qed.

Lemma min_cap_for_n_els_spec n :
  n ≠ 0 →
  ∃ c, cc4_map_min_cap_for_n_els n max_load = Some c
       ∧ pow2 c ∧ 8 ≤ c ∧ exceeds_load n c max_load = false
       ∧ (∀ c', pow2 c' → 8 ≤ c' → exceeds_load n c' max_load = false → c ≤ c').
Proof.
  intros Hn. unfold cc4_map_min_cap_for_n_els.
  destruct (Nat.eqb_spec n 0); [done|].
  apply min_cap_loop_spec; [by exists 3|lia|lia].
Qed.

Lemma min_cap_for_0 : cc4_map_min_cap_for_n_els 0 max_load = Some 0.
Proof. done. Qed.

Context (Hle1 : (max_load <= 1)%Q).

Lemma max_load_num_le_den : (Qnum max_load <= Z.pos (Qden max_load))%Z.
Proof. unfold Qle in Hle1. simpl in Hle1. lia. Qed.

(** Within the load factor, the size is at most the capacity. *)
Lemma within_load_le_cap n cap :
  exceeds_load n cap max_load = false → n ≤ cap.
Proof.
  rewrite within_load_spec. pose proof max_load_num_pos.
  pose proof max_load_num_le_den. nia.
Qed.

End capacity.

(** ** Rehashing *)

Section rehash.
Context {K E : Type} `{Inhabited K, Inhabited E} (hash : K -> Z).
Implicit Types (cntr : cntr_ty K E) (b : bucket K E).

Lemma wf_placeholder : wf hash (@cc4_map_placeholder K E).
Proof.
  constructor; cbn [cc4_map_placeholder bkts cap size].
  - done.
  - by left.
  - intros j b Hj. by rewrite lookup_nil in Hj.
  - intros j Hj. lia.
  - done.
  - constructor.
  - done.
Qed.

Lemma plen_replicate_empty n (k : K) (e : E) x :
  plen (replicate n (Bucket e k 0)) x = 0.
Proof.
  unfold plen. destruct (replicate n (Bucket e k 0) !! x) as [b|] eqn:Hb; [|done].
  apply lookup_replicate in Hb as [-> _]. done.
Qed.

(** The block set up by [cc4_map_make_rehash] before the entries move. *)
Lemma wf_fresh blk cap' (k : K) (e : E) :
  pow2 cap' → wf hash (Cntr blk 0 cap' (replicate cap' (Bucket e k 0))).
Proof.
  intros Hp. pose proof (pow2_pos cap' Hp).
  constructor; cbn [bkts cap size hndl].
  - apply length_replicate.
  - by right.
  - intros j b Hb Hocc. apply lookup_replicate in Hb as [-> _]. done.
  - intros j Hj. rewrite !plen_replicate_empty. lia.
  - intros _. exists 0. split; [lia|]. intros x Hx.
    rewrite plen_replicate_empty. pose proof (dist_lt cap' x 0 Hx). lia.
  - rewrite entries_replicate_empty. constructor.
  - by rewrite entries_replicate_empty.
Qed.

Lemma make_rehash_loop_spec old cntr el_size layout :
  wf hash cntr → size cntr + length (entries old) ≤ cap cntr →
  NoDup ((entries old).*1 ++ (entries (bkts cntr)).*1) →
  ∃ cntr', cc4_map_make_rehash_loop old cntr el_size layout hash = Some cntr'
           ∧ wf hash cntr' ∧ hndl cntr' = hndl cntr ∧ cap cntr' = cap cntr
           ∧ entries (bkts cntr') ≡ₚ entries old ++ entries (bkts cntr).
Proof.
  revert cntr. induction old as [|b old IH]; intros cntr Hwf Hroom Hnd.
  { exists cntr. split_and!; auto. }
  cbn [cc4_map_make_rehash_loop]. rewrite entries_cons in Hroom, Hnd |- *.
  destruct (Nat.eqb_spec (b_probelen b) 0) as [Hb0|Hb0].
  - rewrite (live_empty b Hb0) in Hroom, Hnd |- *. by apply IH.
  - rewrite (live_occupied b Hb0) in Hroom, Hnd |- *.
    change (option_list (Some (b_key b, b_el b))) with [(b_key b, b_el b)] in *.
    cbn [app length fmap list_fmap fst] in Hroom, Hnd |- *.
    apply NoDup_cons in Hnd as [Hnotin Hnd].
    destruct (insert_raw_unique_spec hash cntr (b_el b) (b_key b) el_size layout)
      as (cntr1 & p & Hrun & Hwf1 & Hh1 & Hc1 & Hperm1); [done|lia| |].
    { intros Hin. apply Hnotin. apply elem_of_app. by right. }
    rewrite Hrun. cbn [mbind option_bind].
    assert (size cntr1 = S (size cntr)) as Hs1.
    { by rewrite (wf_size _ _ Hwf1), Hperm1, (wf_size _ _ Hwf). }
    destruct (IH cntr1) as (cntr' & Hrun' & Hwf' & Hh' & Hc' & Hperm');
      [done|lia| |].
    { rewrite Hperm1. rewrite fmap_cons. cbn [fst].
      eapply NoDup_Permutation_proper; [|apply NoDup_cons; split; [exact Hnotin|exact Hnd]].
      by rewrite Permutation_middle. }
    exists cntr'. split_and!; auto; try congruence.
    rewrite Hperm', Hperm1. by rewrite Permutation_middle.
Qed.

Lemma make_rehash_fail cntr cap' el_size layout realloc_ :
  realloc_ None
    (sizeof_cc4_map_hdr_ty + CC4_BUCKET_SIZE el_size layout * Z.of_nat cap')%Z
  = None →
  cc4_map_make_rehash cntr cap' el_size layout hash realloc_ = Some None.
Proof. intros Hr. unfold cc4_map_make_rehash. by rewrite Hr. Qed.

Lemma make_rehash_spec cntr cap' el_size layout realloc_ id :
  wf hash cntr → pow2 cap' → size cntr ≤ cap' →
  realloc_ None
    (sizeof_cc4_map_hdr_ty + CC4_BUCKET_SIZE el_size layout * Z.of_nat cap')%Z
  = Some id →
  ∃ cntr', cc4_map_make_rehash cntr cap' el_size layout hash realloc_
           = Some (Some cntr')
           ∧ wf hash cntr' ∧ hndl cntr' = blk_heap id ∧ cap cntr' = cap'
           ∧ size cntr' = size cntr
           ∧ entries (bkts cntr') ≡ₚ entries (bkts cntr).
Proof.
  intros Hwf Hp Hs Hr. unfold cc4_map_make_rehash. rewrite Hr.
  destruct (make_rehash_loop_spec (bkts cntr)
              (Cntr (blk_heap id) 0 cap' (replicate cap' (Bucket inhabitant inhabitant 0)))
              el_size layout)
    as (cntr' & Hrun & Hwf' & Hh' & Hc' & Hperm').
  - by apply wf_fresh.
  - cbn [size cap]. rewrite <- (wf_size _ _ Hwf). lia.
  - cbn [bkts]. rewrite entries_replicate_empty, app_nil_r. apply Hwf.
  - rewrite Hrun. cbn [mbind option_bind]. exists cntr'.
    cbn [bkts] in Hperm'. rewrite entries_replicate_empty, app_nil_r in Hperm'.
    split_and!; auto.
    by rewrite (wf_size _ _ Hwf'), (wf_size _ _ Hwf), Hperm'.
Qed.

Context (max_load : Q) (Hpos : (0 < max_load)%Q) (Hle1 : (max_load <= 1)%Q).

(** The three outcomes of [cc4_map_reserve]. *)
Lemma reserve_spec cntr n el_size layout realloc_ :
  wf hash cntr → within_load max_load cntr →
  ∃ c, cc4_map_min_cap_for_n_els n max_load = Some c
    ∧ ((c ≤ cap cntr
        ∧ cc4_map_reserve cntr n el_size layout hash max_load realloc_
          = Some (cc4_make_allocing_fn_result cntr (Some cc4_dummy_true_ptr), []))
       ∨ (cap cntr < c
          ∧ realloc_ None
              (sizeof_cc4_map_hdr_ty + CC4_BUCKET_SIZE el_size layout * Z.of_nat c)%Z
            = None
          ∧ cc4_map_reserve cntr n el_size layout hash max_load realloc_
            = Some (cc4_make_allocing_fn_result cntr None, []))
       ∨ (cap cntr < c
          ∧ ∃ id cntr',
              realloc_ None
                (sizeof_cc4_map_hdr_ty + CC4_BUCKET_SIZE el_size layout * Z.of_nat c)%Z
              = Some id
              ∧ cc4_map_reserve cntr n el_size layout hash max_load realloc_
                = Some (cc4_make_allocing_fn_result cntr' (Some cc4_dummy_true_ptr),
                        free_unless_placeholder cntr)
              ∧ wf hash cntr' ∧ within_load max_load cntr'
              ∧ hndl cntr' = blk_heap id ∧ cap cntr' = c
              ∧ size cntr' = size cntr
              ∧ entries (bkts cntr') ≡ₚ entries (bkts cntr))).
Proof.
  intros Hwf Hload.
  assert (∃ c, cc4_map_min_cap_for_n_els n max_load = Some c
               ∧ (c = 0 ∨ pow2 c)) as (c & Hc & Hcp).
  { destruct (decide (n = 0)) as [->|Hn].
    - exists 0. split; [done|by left].
    - destruct (min_cap_for_n_els_spec max_load Hpos n Hn)
        as (c & Hc & Hp & _). exists c. split; [done|by right]. }
  exists c. split; [done|]. unfold cc4_map_reserve. rewrite Hc.
  cbn [mbind option_bind]. unfold cc4_map_cap.
  destruct (Nat.leb_spec c (cap cntr)) as [Hle|Hlt]; [by left|right].
  destruct Hcp as [->|Hp]; [lia|].
  destruct (realloc_ None
              (sizeof_cc4_map_hdr_ty + CC4_BUCKET_SIZE el_size layout * Z.of_nat c)%Z)
    as [id|] eqn:Hr.
  - right. split; [done|].
    pose proof (within_load_le_cap max_load Hpos Hle1 _ _ Hload) as Hsc.
    destruct (make_rehash_spec cntr c el_size layout realloc_ id)
      as (cntr' & Hrun & Hwf' & Hh' & Hc' & Hs' & Hperm'); [done|done|lia|done|].
    rewrite Hrun. exists id, cntr'. split_and!; auto.
    unfold within_load. rewrite Hs', Hc'.
    apply (within_load_mono max_load Hpos (size cntr) _ (cap cntr)); [done|lia|lia].
  - left. split; [done|]. split; [done|].
    by rewrite (make_rehash_fail cntr c el_size layout realloc_ Hr).
Qed.

(** The outcomes of [cc4_map_shrink]. *)
Lemma shrink_spec cntr el_size layout realloc_ result evs :
  wf hash cntr → within_load max_load cntr →
  cc4_map_shrink cntr el_size layout hash max_load realloc_ = Some (result, evs) →
  wf hash (new_cntr result) ∧ within_load max_load (new_cntr result)
  ∧ size (new_cntr result) = size cntr
  ∧ entries (bkts (new_cntr result)) ≡ₚ entries (bkts cntr)
  ∧ (cap (new_cntr result) = cap cntr → new_cntr result = cntr)
  ∧ (cap (new_cntr result) ≠ cap cntr →
     new_cntr result = cc4_map_placeholder
     ∨ ∃ id, realloc_ None
               (sizeof_cc4_map_hdr_ty
                + CC4_BUCKET_SIZE el_size layout
                  * Z.of_nat (cap (new_cntr result)))%Z = Some id
             ∧ hndl (new_cntr result) = blk_heap id).
Proof.
  intros Hwf Hload. unfold cc4_map_shrink, cc4_map_size, cc4_map_cap.
  destruct (decide (size cntr = 0)) as [Hs0|Hs0].
  - rewrite Hs0, min_cap_for_0. cbn [mbind option_bind].
    destruct (Nat.eqb_spec 0 (cap cntr)) as [Hc0|Hc0].
    + intros [= <- <-]. cbn [new_cntr]. split_and!; auto. done.
    + cbn [Nat.eqb]. intros [= <- <-]. cbn [new_cntr].
      split_and!; [apply wf_placeholder|done|done| |cbn; lia|by left].
      cbn [cc4_map_placeholder bkts].
      pose proof (wf_size _ _ Hwf) as Hsz. rewrite Hs0 in Hsz.
      symmetry in Hsz. apply length_zero_iff_nil in Hsz. by rewrite Hsz.
  - destruct (min_cap_for_n_els_spec max_load Hpos (size cntr) Hs0)
      as (c & Hc & Hp & H8 & Hin & _).
    rewrite Hc. cbn [mbind option_bind].
    destruct (Nat.eqb_spec c (cap cntr)) as [Hcc|Hcc].
    { intros [= <- <-]. cbn [new_cntr]. split_and!; auto. done. }
    destruct (Nat.eqb_spec c 0) as [?|_]; [lia|].
    destruct (realloc_ None
                (sizeof_cc4_map_hdr_ty + CC4_BUCKET_SIZE el_size layout * Z.of_nat c)%Z)
      as [id|] eqn:Hr.
    + pose proof (within_load_le_cap max_load Hpos Hle1 _ _ Hin) as Hsc.
      destruct (make_rehash_spec cntr c el_size layout realloc_ id)
        as (cntr' & Hrun & Hwf' & Hh' & Hc' & Hs' & Hperm'); [done|done|lia|done|].
      rewrite Hrun. intros [= <- <-]. cbn [new_cntr]. split_and!; auto.
      * unfold within_load. by rewrite Hs', Hc'.
      * intros. lia.
      * intros _. right. exists id. by rewrite Hc'.
    + rewrite (make_rehash_fail cntr c el_size layout realloc_ Hr).
      intros [= <- <-]. cbn [new_cntr]. split_and!; auto. done.
Qed.

End rehash.

(** ** Lookup and insertion on well-formed maps *)

Section lookup_insert.
Context {K E : Type} `{Inhabited K, Inhabited E} (hash : K -> Z).
Context (cmpr : K -> K -> Z) (cmpr_eq : ∀ k1 k2, cmpr k1 k2 = 0%Z ↔ k1 = k2).
Implicit Types (cntr : cntr_ty K E) (b : bucket K E).

Lemma key_present_or_absent (l : list (K * E)) key :
  (∃ el0, (key, el0) ∈ l) ∨ key ∉ l.*1.
Proof.
  induction l as [|[k e] l IH].
  - right. apply not_elem_of_nil.
  - destruct (Z.eq_dec (cmpr k key) 0) as [Heq|Hne].
    + apply cmpr_eq in Heq as ->. left. exists e. apply elem_of_cons. by left.
    + destruct IH as [[el0 Hin]|Hout].
      * left. exists el0. apply elem_of_cons. by right.
      * right. rewrite fmap_cons. apply not_elem_of_cons. split; [|done].
        cbn [fst]. intros ->. apply Hne. by apply cmpr_eq.
Qed.

Lemma maps_to_entries cntr key el :
  maps_to cntr key el ↔ (key, el) ∈ entries (bkts cntr).
Proof.
  unfold maps_to, holds. rewrite elem_of_entries.
  split; intros (i & b & Hb & Hocc & Hk & He); exists i, b; auto.
Qed.

Lemma wf_size_le_cap cntr : wf hash cntr → size cntr ≤ cap cntr.
Proof.
  intros Hwf. rewrite (wf_size _ _ Hwf), <- (wf_len _ _ Hwf).
  apply length_entries_le.
Qed.

(** [cc4_map_get] returns the bucket of a stored key. *)
Lemma get_present cntr key el el_size layout :
  wf hash cntr → (key, el) ∈ entries (bkts cntr) →
  ∃ x, cc4_map_get cntr key el_size layout hash cmpr
       = Some (Some (cc4_map_el cntr x el_size layout))
       ∧ holds cntr x key el.
Proof.
  intros Hwf Hin.
  destruct (probe_present hash cmpr cmpr_eq cntr key el Hwf Hin)
    as (x & b & Hprobe & Hb & Hocc & Hk & He).
  unfold cc4_map_get, cc4_map_size.
  destruct (Nat.eqb_spec (size cntr) 0) as [Hs|Hs].
  { rewrite (wf_size _ _ Hwf) in Hs. apply length_zero_iff_nil in Hs.
    rewrite Hs in Hin. by apply elem_of_nil in Hin. }
  rewrite get_loop_probe, Hprobe. exists x. split; [done|].
  exists b. auto.
Qed.

(** [cc4_map_get] returns [NULL] for a key that is not stored. *)
Lemma get_absent cntr key el_size layout :
  wf hash cntr → key ∉ (entries (bkts cntr)).*1 →
  cc4_map_get cntr key el_size layout hash cmpr = Some None.
Proof.
  intros Hwf Hout. unfold cc4_map_get, cc4_map_size.
  destruct (Nat.eqb_spec (size cntr) 0) as [Hs|Hs]; [done|].
  pose proof (wf_size_le_cap cntr Hwf).
  destruct (probe_absent hash cmpr cmpr_eq cntr key Hwf) as (i & c & Hprobe);
    [lia|done|].
  by rewrite get_loop_probe, Hprobe.
Qed.

Lemma inserted_perm key el replace (l1 l2 l' : list (K * E)) :
  l1 ≡ₚ l2 → inserted key el replace l2 l' → inserted key el replace l1 l'.
Proof.
  intros Hp [[Hout Hl']|(el0 & Hin & Hl')]; [left|right].
  - by rewrite Hp.
  - exists el0. split; [by rewrite Hp|]. destruct replace; by rewrite Hp.
Qed.

Lemma inserted_length key el replace (l l' : list (K * E)) :
  inserted key el replace l l' → length l ≤ length l' ≤ S (length l).
Proof.
  intros [[Hout Hl']|(el0 & Hin & Hl')].
  - rewrite Hl'. cbn [length]. lia.
  - destruct replace.
    + apply Permutation_length in Hl'. cbn [length] in Hl'. lia.
    + rewrite Hl'. lia.
Qed.

(** [cc4_map_insert_raw] on a map with room for one more entry. *)
Lemma insert_raw_spec cntr el key replace el_size layout el_dtor key_dtor :
  wf hash cntr → size cntr < cap cntr →
  ∃ cntr' p evs,
    cc4_map_insert_raw cntr el key replace el_size layout hash cmpr
      el_dtor key_dtor = Some (cntr', p, evs)
    ∧ wf hash cntr' ∧ hndl cntr' = hndl cntr ∧ cap cntr' = cap cntr
    ∧ inserted key el replace (entries (bkts cntr)) (entries (bkts cntr')).
Proof.
  intros Hwf Hs.
  destruct (key_present_or_absent (entries (bkts cntr)) key) as [[el0 Hin]|Hout].
  - destruct (insert_raw_present_spec hash cmpr cmpr_eq cntr el key el0 replace
                el_size layout el_dtor key_dtor Hwf Hin)
      as (cntr' & p & evs & Hrun & Hwf' & Hh & Hc & Hsz & Hno & Hyes).
    exists cntr', p, evs. split_and!; auto. right. exists el0. split; [done|].
    destruct replace; [by apply Hyes|by rewrite Hno].
  - destruct (insert_raw_new_spec hash cmpr cmpr_eq cntr el key replace
                el_size layout el_dtor key_dtor Hwf Hs Hout)
      as (cntr' & p & Hrun & Hwf' & Hh & Hc & Hperm).
    exists cntr', p, []. split_and!; auto. by left.
Qed.

Context (max_load : Q) (Hpos : (0 < max_load)%Q) (Hle1 : (max_load <= 1)%Q).

(** [cc4_map_insert]: either the allocation of a larger array fails and
    nothing changes, or the pair is inserted, after a rehash into the
    minimal capacity when the load factor requires it. *)
Lemma insert_spec cntr el key replace el_size layout el_dtor key_dtor realloc_ :
  wf hash cntr → within_load max_load cntr →
  ∃ result evs,
    cc4_map_insert cntr el key replace el_size layout hash cmpr max_load
      el_dtor key_dtor realloc_ = Some (result, evs)
    ∧ wf hash (new_cntr result) ∧ within_load max_load (new_cntr result)
    ∧ match other_ptr result with
      | None =>
          new_cntr result = cntr ∧ evs = []
          ∧ exceeds_load (size cntr + 1) (cap cntr) max_load = true
          ∧ ∃ c, cc4_map_min_cap_for_n_els (size cntr + 1) max_load = Some c
                 ∧ realloc_ None
                     (sizeof_cc4_map_hdr_ty
                      + CC4_BUCKET_SIZE el_size layout * Z.of_nat c)%Z = None
      | Some _ =>
          inserted key el replace (entries (bkts cntr))
            (entries (bkts (new_cntr result)))
          ∧ (if exceeds_load (size cntr + 1) (cap cntr) max_load
             then cc4_map_min_cap_for_n_els (size cntr + 1) max_load
                  = Some (cap (new_cntr result))
             else cap (new_cntr result) = cap cntr
                  ∧ hndl (new_cntr result) = hndl cntr)
      end.
Proof.
  intros Hwf Hload. unfold cc4_map_insert, cc4_map_size, cc4_map_cap.
  assert (∀ cntr1, wf hash cntr1 →
            exceeds_load (size cntr1 + 1) (cap cntr1) max_load = false →
            ∃ cntr' p evs,
              cc4_map_insert_raw cntr1 el key replace el_size layout hash cmpr
                el_dtor key_dtor = Some (cntr', p, evs)
              ∧ wf hash cntr' ∧ within_load max_load cntr'
              ∧ hndl cntr' = hndl cntr1 ∧ cap cntr' = cap cntr1
              ∧ inserted key el replace (entries (bkts cntr1)) (entries (bkts cntr')))
    as Hraw.
  { intros cntr1 Hwf1 Hroom.
    pose proof (within_load_le_cap max_load Hpos Hle1 _ _ Hroom).
    destruct (insert_raw_spec cntr1 el key replace el_size layout el_dtor key_dtor)
      as (cntr' & p & evs & Hrun & Hwf' & Hh & Hc & Hins); [done|lia|].
    exists cntr', p, evs. split_and!; auto.
    unfold within_load. rewrite Hc.
    apply (within_load_mono max_load Hpos _ _ _ _ Hroom); [|lia].
    apply inserted_length in Hins.
    rewrite (wf_size _ _ Hwf'), (wf_size _ _ Hwf1). lia. }
  destruct (exceeds_load (size cntr + 1) (cap cntr) max_load) eqn:Hex.
  - destruct (reserve_spec hash max_load Hpos Hle1 cntr (size cntr + 1)
                el_size layout realloc_ Hwf Hload)
      as (c & Hc & [[Hle Hrun]|[(Hlt & Hr & Hrun)|(Hlt & id & cntr1 & Hr & Hrun
            & Hwf1 & Hload1 & Hh1 & Hc1 & Hs1 & Hperm1)]]).
    + destruct (min_cap_for_n_els_spec max_load Hpos (size cntr + 1))
        as (c' & Hc' & _ & _ & Hin & _); [lia|].
      assert (c' = c) as -> by congruence.
      pose proof (exceeds_load_cap_lt max_load Hpos _ _ _ Hex Hin). lia.
    + rewrite Hrun. cbn [mbind option_bind other_ptr].
      eexists _, _. split; [done|]. cbn [new_cntr other_ptr].
      split_and!; eauto.
    + rewrite Hrun. cbn [mbind option_bind other_ptr new_cntr].
      destruct (min_cap_for_n_els_spec max_load Hpos (size cntr + 1))
        as (c' & Hc' & _ & _ & Hin & _); [lia|].
      assert (c' = c) as -> by congruence.
      destruct (Hraw cntr1) as (cntr' & p & evs & Hrun' & Hwf' & Hload' & Hh' & Hcap' & Hins);
        [done|by rewrite Hs1, Hc1|].
      rewrite Hrun'. cbn [mbind option_bind].
      eexists _, _. split; [done|]. cbn [new_cntr other_ptr].
      split_and!; auto.
      * by apply (inserted_perm _ _ _ _ (entries (bkts cntr1))).
      * by rewrite Hcap', Hc1.
  - destruct (Hraw cntr) as (cntr' & p & evs & Hrun' & Hwf' & Hload' & Hh' & Hcap' & Hins);
      [done|done|].
    rewrite Hrun'. cbn [mbind option_bind].
    eexists _, _. split; [done|]. cbn [new_cntr other_ptr]. split_and!; auto.
Qed.

(** [cc4_map_insert] is decided by the allocator: with room it succeeds;
    without room it calls [realloc_] once, for the bytes of the least
    capacity that admits one more entry, and fails exactly when that call
    returns no block. *)
Lemma insert_by_allocation cntr el key replace el_size layout el_dtor key_dtor
    realloc_ result evs :
  wf hash cntr → within_load max_load cntr →
  cc4_map_insert cntr el key replace el_size layout hash cmpr max_load
    el_dtor key_dtor realloc_ = Some (result, evs) →
  (exceeds_load (size cntr + 1) (cap cntr) max_load = false →
   other_ptr result ≠ None)
  ∧ (exceeds_load (size cntr + 1) (cap cntr) max_load = true →
     ∃ c, cc4_map_min_cap_for_n_els (size cntr + 1) max_load = Some c
          ∧ match realloc_ None
                    (sizeof_cc4_map_hdr_ty
                     + CC4_BUCKET_SIZE el_size layout * Z.of_nat c)%Z with
            | None => result = cc4_make_allocing_fn_result cntr None ∧ evs = []
            | Some id =>
                other_ptr result ≠ None
                ∧ hndl (new_cntr result) = blk_heap id
                ∧ cap (new_cntr result) = c
            end).
Proof.
  intros Hwf Hload Hrun. split.
  - intros Hex Hnone.
    destruct (insert_spec cntr el key replace el_size layout el_dtor key_dtor
                realloc_ Hwf Hload) as (result' & evs' & Hrun' & _ & _ & Hres).
    rewrite Hrun in Hrun'. simplify_eq. rewrite Hnone in Hres.
    destruct Hres as (_ & _ & Hex' & _). congruence.
  - intros Hex.
    destruct (min_cap_for_n_els_spec max_load Hpos (size cntr + 1))
      as (c & Hc & _ & _ & Hin & _); [lia|].
    exists c. split; [done|].
    pose proof (exceeds_load_cap_lt max_load Hpos _ _ _ Hex Hin) as Hlt.
    pose proof (within_load_le_cap max_load Hpos Hle1 _ _ Hin) as Hsc.
    unfold cc4_map_insert, cc4_map_size, cc4_map_cap in Hrun.
    rewrite Hex in Hrun.
    destruct (reserve_spec hash max_load Hpos Hle1 cntr (size cntr + 1) el_size
                layout realloc_ Hwf Hload)
      as (c' & Hc' & [[Hle Hrun']|[(_ & Hr & Hrun')|(_ & id & cntr1 & Hr & Hrun'
            & Hwf1 & _ & Hh1 & Hc1 & Hs1 & _)]]);
      assert (c' = c) as -> by congruence; [lia| |]; rewrite Hr;
      rewrite Hrun' in Hrun; cbn [mbind option_bind other_ptr new_cntr] in Hrun.
    + by simplify_eq.
    + destruct (insert_raw_spec cntr1 el key replace el_size layout el_dtor
                  key_dtor Hwf1)
        as (cntr' & p & evs' & Hraw & _ & Hh' & Hcap' & _); [lia|].
      rewrite Hraw in Hrun. cbn [mbind option_bind] in Hrun. simplify_eq.
      cbn [other_ptr new_cntr]. split_and!; [done|congruence|congruence].
Qed.

End lookup_insert.

(** ** Backward-shift deletion *)

Section erase_loop.
Context {K E : Type} (hash : K -> Z) (cap : nat) (Hcap : pow2 cap).
Implicit Types (bs : list (bucket K E)) (b : bucket K E).

(** The shift loop with the hole at [i].  [g] is the probe length that the
    entry last taken out of bucket [i] had: with [g] put back in the hole
    the probe lengths are ordered and no probe path crosses [e0]. *)
Lemma erase_itr_loop_spec fuel bs i g e0 :
  length bs = cap → i < cap → plen bs i = 0 →
  homes hash cap bs →
  (∀ j, j < cap →
        (if decide (next cap j = i) then g else plen bs (next cap j))
        ≤ S (if decide (j = i) then g else plen bs j)) →
  e0 < cap →
  (∀ x, x < cap →
        (if decide (x = i) then g else plen bs x) + dist cap x e0 ≤ cap) →
  dist cap i e0 < fuel →
  ∃ bs', cc4_map_erase_itr_loop fuel cap bs i = Some bs'
         ∧ length bs' = cap ∧ homes hash cap bs' ∧ ordered cap bs'
         ∧ entries bs' ≡ₚ entries bs
         ∧ ∃ h, h < cap ∧ plen bs' h = 0.
Proof.
  revert bs i g.
  induction fuel as [|fuel IH]; intros bs i g Hlen Hi Hpi Hh Ho He0 Hu Hf; [lia|].
  pose proof (next_lt cap i Hcap) as Hn.
  destruct (lookup_lt_is_Some_2 bs (next cap i)) as [b Hb]; [lia|].
  destruct (lookup_lt_is_Some_2 bs i) as [bi Hbi]; [lia|].
  pose proof (plen_lookup _ _ _ Hb) as Hpn.
  pose proof (plen_lookup _ _ _ Hbi) as Hpbi.
  cbn [cc4_map_erase_itr_loop]. rewrite Hb. cbn [mbind option_bind].
  destruct (Nat.leb_spec (b_probelen b) 1) as [Hle|Hgt].
  { exists bs. split_and!; auto; [|eauto].
    intros j Hj. specialize (Ho j Hj).
    repeat case_decide; subst; lia. }
  assert (next cap i ≠ i) as Hni by (intros Heq; rewrite Heq in Hpn; lia).
  rewrite Hbi. cbn [mbind option_bind].
  set (b1 := Bucket (b_el b) (b_key b) (b_probelen b - 1)).
  set (bs1 := <[i:=b1]> bs).
  assert (bs1 !! next cap i = Some b) as Hb1
    by (unfold bs1; by rewrite list_lookup_insert_ne).
  unfold set_probelen. rewrite Hb1.
  set (b2 := Bucket (b_el b) (b_key b) 0).
  set (bs2 := <[next cap i:=b2]> bs1).
  assert (∀ x, plen bs2 x
               = if decide (x = next cap i) then 0
                 else if decide (x = i) then b_probelen b - 1 else plen bs x)
    as Hp2.
  { intros x. unfold bs2, bs1. rewrite !plen_insert, !length_insert.
    repeat case_decide; destruct_and?; subst; try done; lia. }
  pose proof (Ho i Hi) as Hoi. rewrite decide_False, decide_True in Hoi by done.
  assert (i ≠ e0) as Hie.
  { intros ->. specialize (Hu (next cap e0) Hn).
    rewrite decide_False in Hu by done.
    rewrite (dist_next_self cap e0 Hcap He0) in Hu. lia. }
  pose proof (dist_next_l cap i e0 Hcap Hi He0 Hie) as Hd.
  destruct (IH bs2 (next cap i) (b_probelen b))
    as (bs' & Hrun & Hlen' & Hh' & Ho' & Hperm' & Hhole).
  - unfold bs2, bs1. by rewrite !length_insert.
  - done.
  - rewrite Hp2. by rewrite decide_True.
  - unfold bs2, bs1.
    apply homes_insert;
      [apply homes_insert; [done|]|intros Hc0; exfalso; by apply Hc0].
    cbn [b1 b_probelen b_key]. intros _.
    assert (b_probelen b ≠ 0) as Hocc by lia.
    pose proof (Hh _ _ Hb Hocc) as Hhb.
    pose proof (mask_lt (hash (b_key b)) cap Hcap).
    rewrite (dist_next_back cap _ i) in Hhb by (auto; lia). lia.
  - intros j Hj. specialize (Ho j Hj). rewrite !Hp2.
    pose proof (next_lt cap j Hcap).
    destruct (decide (next cap j = next cap i)) as [Hjj|Hjj].
    + apply next_inj in Hjj; auto. subst j.
      repeat case_decide; try lia; congruence.
    + assert (j ≠ i) by (by intros ->).
      rewrite (decide_False (P := j = i)) in Ho |- * by done.
      repeat case_decide; subst; lia.
  - done.
  - intros x Hx. specialize (Hu x Hx). rewrite !Hp2.
    repeat case_decide; subst; lia.
  - lia.
  - exists bs'. split_and!; auto.
    rewrite Hperm'.
    pose proof (entries_insert bs i bi b1 Hbi) as Hp1.
    rewrite (live_empty bi) in Hp1 by lia.
    rewrite (live_occupied b1) in Hp1 by (cbn; lia).
    pose proof (entries_insert bs1 (next cap i) b b2 Hb1) as Hp3.
    rewrite (live_occupied b) in Hp3 by lia.
    rewrite (live_empty b2) in Hp3 by done.
    cbn in Hp1, Hp3. fold bs1 in Hp1. fold bs2 in Hp3.
    rewrite Hp1 in Hp3. by apply Permutation_cons_inv in Hp3.
Qed.

End erase_loop.

(** ** Pointer-iterators *)

Lemma uint8_t_nonneg (x : Z) : (0 <= uint8_t x)%Z.
Proof. unfold uint8_t. apply Z.land_nonneg. right. done. Qed.

Lemma uint32_t_nonneg (x : Z) : (0 <= uint32_t x)%Z.
Proof. unfold uint32_t. apply Z.land_nonneg. right. done. Qed.

Lemma CC4_BUCKET_SIZE_pos (el_size layout : Z) :
  (0 <= el_size)%Z → (0 < CC4_BUCKET_SIZE el_size layout)%Z.
Proof.
  intros Hel.
  unfold CC4_BUCKET_SIZE, CC4_PROBELEN_OFFSET, CC4_KEY_OFFSET,
    sizeof_cc4_probelen_ty.
  pose proof (uint8_t_nonneg (Z.shiftr layout 32)).
  pose proof (uint8_t_nonneg (Z.shiftr layout 40)).
  pose proof (uint8_t_nonneg (Z.shiftr layout 48)).
  pose proof (uint32_t_nonneg layout). lia.
Qed.

(** The bucket sizes computed with the element size and with a zero
    element size differ by the element size. *)
Lemma CC4_BUCKET_SIZE_dummy (el_size layout : Z) :
  CC4_BUCKET_SIZE el_size layout = (el_size + CC4_BUCKET_SIZE 0 layout)%Z.
Proof.
  unfold CC4_BUCKET_SIZE, CC4_PROBELEN_OFFSET, CC4_KEY_OFFSET. lia.
Qed.

Lemma index_of_itr_el {K E} (cntr : cntr_ty K E) (i : nat) (el_size layout : Z) :
  (0 <= el_size)%Z →
  index_of_itr cntr (cc4_map_el cntr i el_size layout) el_size layout = Some i.
Proof.
  intros Hel. unfold index_of_itr, cc4_map_el. cbn [fst snd]. cbn zeta.
  rewrite decide_True by done. f_equal.
  pose proof (CC4_BUCKET_SIZE_pos el_size layout Hel).
  replace (sizeof_cc4_map_hdr_ty + CC4_BUCKET_SIZE el_size layout * Z.of_nat i
           - (sizeof_cc4_map_hdr_ty + CC4_BUCKET_SIZE el_size layout * Z.of_nat 0))%Z
    with (Z.of_nat i * CC4_BUCKET_SIZE el_size layout)%Z by lia.
  destruct (Z.ltb_spec (Z.of_nat i * CC4_BUCKET_SIZE el_size layout) 0); [nia|].
  rewrite Z.div_mul by lia. lia.
Qed.

(** ** Erasure on well-formed maps *)

Section erase.
Context {K E : Type} (hash : K -> Z).
Implicit Types (cntr : cntr_ty K E) (b : bucket K E).

Lemma erase_itr_spec cntr i key el el_size layout el_dtor key_dtor :
  wf hash cntr → holds cntr i key el → (0 <= el_size)%Z →
  ∃ cntr',
    cc4_map_erase_itr cntr (cc4_map_el cntr i el_size layout) el_size layout
      el_dtor key_dtor
    = Some (cntr',
            call_if key_dtor (cc4_map_key cntr i el_size layout)
            ++ call_if el_dtor (cc4_map_el cntr i el_size layout))
    ∧ wf hash cntr' ∧ hndl cntr' = hndl cntr ∧ cap cntr' = cap cntr
    ∧ S (size cntr') = size cntr
    ∧ (key, el) :: entries (bkts cntr') ≡ₚ entries (bkts cntr).
Proof.
  intros Hwf (b & Hb & Hocc & Hk & He) Hel.
  assert (i < cap cntr) as Hi
    by (rewrite <- (wf_len _ _ Hwf); by eapply lookup_lt_Some).
  assert (pow2 (cap cntr)) as Hp by (apply (wf_cap_pow2 hash); [done|lia]).
  destruct (wf_unbroken _ _ Hwf) as [e0 [He0 Hu]]; [lia|].
  pose proof (plen_lookup _ _ _ Hb) as Hpi.
  pose proof (entries_set_probelen_0 (bkts cntr) i b Hb) as Hperm0.
  rewrite (live_occupied b Hocc), Hk, He in Hperm0. cbn in Hperm0.
  pose proof (dist_lt (cap cntr) i e0 Hi He0).
  assert (∀ x, (if decide (x = i) then b_probelen b
                else plen (set_probelen (bkts cntr) i 0) x)
               = plen (bkts cntr) x) as Hvirt.
  { intros x. rewrite plen_set_probelen.
    repeat case_decide; destruct_and?; subst; done. }
  destruct (erase_itr_loop_spec hash (cap cntr) Hp (S (cap cntr))
              (set_probelen (bkts cntr) i 0) i (b_probelen b) e0)
    as (bs' & Hrun & Hlen' & Hh' & Ho' & Hperm' & h & Hh & Hph).
  - rewrite length_set_probelen. apply Hwf.
  - done.
  - rewrite plen_set_probelen. rewrite decide_True; [done|].
    split; [done|]. by rewrite (wf_len _ _ Hwf).
  - unfold set_probelen. rewrite Hb. apply homes_insert; [apply Hwf|done].
  - intros j Hj. rewrite !Hvirt. by apply (wf_ordered _ _ Hwf).
  - done.
  - intros x Hx. rewrite Hvirt. by apply Hu.
  - lia.
  - unfold cc4_map_erase_itr. rewrite index_of_itr_el by done.
    cbn [mbind option_bind]. rewrite Hb. cbn [mbind option_bind].
    rewrite Hrun. cbn [mbind option_bind].
    eexists. split; [done|].
    assert ((key, el) :: entries bs' ≡ₚ entries (bkts cntr)) as Hperm
      by (by rewrite Hperm').
    split_and!; auto; cbn [bkts cap size hndl].
    + constructor; cbn [bkts cap size hndl].
      * done.
      * apply Hwf.
      * done.
      * done.
      * intros _. exists h. by apply unbroken_of_empty.
      * pose proof (wf_nodup _ _ Hwf) as Hnd. rewrite <- Hperm in Hnd.
        rewrite fmap_cons in Hnd. by apply NoDup_cons in Hnd as [_ Hnd].
      * rewrite (wf_size _ _ Hwf), <- Hperm. cbn [length]. lia.
    + rewrite (wf_size _ _ Hwf), <- Hperm. cbn [length]. lia.
Qed.

Context (cmpr : K -> K -> Z) (cmpr_eq : ∀ k1 k2, cmpr k1 k2 = 0%Z ↔ k1 = k2).

(** [cc4_map_erase] of a stored key. *)
Lemma erase_present cntr key el el_size layout el_dtor key_dtor :
  wf hash cntr → (key, el) ∈ entries (bkts cntr) → (0 <= el_size)%Z →
  ∃ cntr' evs,
    cc4_map_erase cntr key el_size layout hash cmpr el_dtor key_dtor
    = Some (cntr', Some cc4_dummy_true_ptr, evs)
    ∧ wf hash cntr' ∧ hndl cntr' = hndl cntr ∧ cap cntr' = cap cntr
    ∧ S (size cntr') = size cntr
    ∧ (key, el) :: entries (bkts cntr') ≡ₚ entries (bkts cntr).
Proof.
  intros Hwf Hin Hel.
  destruct (probe_present hash cmpr cmpr_eq cntr key el Hwf Hin)
    as (x & b & Hprobe & Hb & Hocc & Hk & He).
  destruct (erase_itr_spec cntr x key el el_size layout el_dtor key_dtor)
    as (cntr' & Hrun & Hrest); [done|by exists b|done|].
  unfold cc4_map_erase, cc4_map_size.
  destruct (Nat.eqb_spec (size cntr) 0) as [Hs|Hs].
  { rewrite (wf_size _ _ Hwf) in Hs. apply length_zero_iff_nil in Hs.
    rewrite Hs in Hin. by apply elem_of_nil in Hin. }
  rewrite erase_loop_probe, Hprobe, Hrun. cbn [mbind option_bind].
  eexists _, _. split; [done|]. done.
Qed.

(** [cc4_map_erase] of a key that is not stored. *)
Lemma erase_absent cntr key el_size layout el_dtor key_dtor :
  wf hash cntr → key ∉ (entries (bkts cntr)).*1 →
  cc4_map_erase cntr key el_size layout hash cmpr el_dtor key_dtor
  = Some (cntr, None, []).
Proof.
  intros Hwf Hout. unfold cc4_map_erase, cc4_map_size.
  destruct (Nat.eqb_spec (size cntr) 0) as [Hs|Hs]; [done|].
  pose proof (wf_size_le_cap hash cntr Hwf).
  destruct (probe_absent hash cmpr cmpr_eq cntr key Hwf) as (i & c & Hprobe);
    [lia|done|].
  by rewrite erase_loop_probe, Hprobe.
Qed.

End erase.

(** ** Clearing and cloning *)

Section clear_clone.
Context {K E : Type} (hash : K -> Z).
Implicit Types (cntr : cntr_ty K E) (b : bucket K E) (bs : list (bucket K E)).

Lemma clear_loop_spec cntr el_size layout el_dtor key_dtor i bs :
  let bs' := (cc4_map_clear_loop cntr el_size layout el_dtor key_dtor i bs).1 in
  length bs' = length bs ∧ (∀ x, plen bs' x = 0) ∧ entries bs' = [].
Proof.
  revert i. induction bs as [|b bs IH]; intros i; cbn zeta.
  { split_and!; done. }
  cbn [cc4_map_clear_loop]. specialize (IH (S i)). cbn zeta in IH.
  destruct (cc4_map_clear_loop cntr el_size layout el_dtor key_dtor (S i) bs)
    as [rest evs]. cbn [fst] in IH. destruct IH as (Hlen & Hpl & Hent).
  destruct (Nat.eqb_spec (b_probelen b) 0) as [Hb0|Hb0]; cbn [fst].
  - split_and!.
    + cbn [length]. by rewrite Hlen.
    + intros [|x]; [done|]. apply Hpl.
    + by rewrite entries_cons, Hent, (live_empty b Hb0).
  - split_and!.
    + cbn [length]. by rewrite Hlen.
    + intros [|x]; [done|]. apply Hpl.
    + by rewrite entries_cons, Hent.
Qed.

(** An array without occupied buckets is well formed. *)
Lemma wf_all_empty blk cap' bs :
  cap' = 0 ∨ pow2 cap' → length bs = cap' → (∀ x, plen bs x = 0) →
  wf hash (Cntr blk 0 cap' bs).
Proof.
  intros Hp Hlen Hpl.
  assert (entries bs = []) as Hent.
  { clear Hlen. induction bs as [|b bs IH]; [done|].
    rewrite entries_cons, IH, (live_empty b); [done| |].
    - apply (Hpl 0).
    - intros x. apply (Hpl (S x)). }
  constructor; cbn [bkts cap size hndl].
  - done.
  - done.
  - intros j b Hb Hocc. pose proof (plen_lookup _ _ _ Hb) as Hpb.
    rewrite Hpl in Hpb. lia.
  - intros j Hj. rewrite !Hpl. lia.
  - intros Hc. exists 0. split; [lia|]. intros x Hx. rewrite Hpl.
    pose proof (dist_lt cap' x 0 Hx). lia.
  - rewrite Hent. constructor.
  - by rewrite Hent.
Qed.

Lemma clear_wf cntr el_size layout el_dtor key_dtor :
  wf hash cntr →
  wf hash (cc4_map_clear cntr el_size layout el_dtor key_dtor).1
  ∧ size (cc4_map_clear cntr el_size layout el_dtor key_dtor).1 = 0
  ∧ cap (cc4_map_clear cntr el_size layout el_dtor key_dtor).1 = cap cntr
  ∧ hndl (cc4_map_clear cntr el_size layout el_dtor key_dtor).1 = hndl cntr.
Proof.
  intros Hwf. unfold cc4_map_clear, cc4_map_size.
  destruct (Nat.eqb_spec (size cntr) 0) as [Hs|Hs]; [done|].
  pose proof (clear_loop_spec cntr el_size layout el_dtor key_dtor 0 (bkts cntr))
    as Hloop. cbn zeta in Hloop.
  destruct (cc4_map_clear_loop cntr el_size layout el_dtor key_dtor 0 (bkts cntr))
    as [bs' evs]. cbn [fst] in Hloop |- *. destruct Hloop as (Hlen & Hpl & _).
  split_and!; try done.
  apply wf_all_empty; [apply Hwf| |done].
  rewrite Hlen. apply Hwf.
Qed.

Lemma init_clone_wf cntr el_size layout realloc_ cntr' :
  wf hash cntr → cc4_map_init_clone cntr el_size layout realloc_ = Some cntr' →
  wf hash cntr' ∧ size cntr' = size cntr
  ∧ (size cntr ≠ 0 → cap cntr' = cap cntr ∧ bkts cntr' = bkts cntr)
  ∧ (size cntr = 0 → cntr' = cc4_map_placeholder).
Proof.
  intros Hwf. unfold cc4_map_init_clone, cc4_map_size, cc4_map_cap.
  destruct (Nat.eqb_spec (size cntr) 0) as [Hs|Hs].
  - intros [= <-]. split_and!; try done. apply wf_placeholder.
  - destruct (realloc_ None _) as [id|]; [|done]. intros [= <-].
    split_and!; try done. destruct Hwf. by constructor.
Qed.

End clear_clone.

(** ** Every reachable map is well formed and within its load factor *)

Section reachable_maps.
Context {K E : Type} `{Inhabited K, Inhabited E}.
Context (hash : K -> Z) (cmpr : K -> K -> Z).
Context (max_load : Q) (el_size layout : Z).
Context (cmpr_eq : ∀ k1 k2, cmpr k1 k2 = 0%Z ↔ k1 = k2).
Context (Hpos : (0 < max_load)%Q) (Hle1 : (max_load <= 1)%Q).
Context (Hel : (0 <= el_size)%Z).
Implicit Types (cntr : cntr_ty K E).

Lemma within_load_empty cap' : exceeds_load 0 cap' max_load = false.
Proof.
  apply within_load_spec. pose proof (max_load_num_pos max_load Hpos). lia.
Qed.

Lemma reachable_wf cntr :
  reachable hash cmpr max_load el_size layout cntr →
  wf hash cntr ∧ within_load max_load cntr.
Proof.
  induction 1 as
    [ | cntr el key replace el_dtor key_dtor realloc_ result evs _ [Hwf Hload] Hrun
      | cntr key el_dtor key_dtor cntr' res evs _ [Hwf Hload] Hrun
      | cntr i key el el_dtor key_dtor cntr' evs _ [Hwf Hload] Hholds Hrun
      | cntr n realloc_ result evs _ [Hwf Hload] Hrun
      | cntr realloc_ result evs _ [Hwf Hload] Hrun
      | cntr el_dtor key_dtor _ [Hwf Hload]
      | cntr realloc_ cntr' _ [Hwf Hload] Hrun ].
  - split; [apply wf_placeholder|apply within_load_empty].
  - destruct (insert_spec hash cmpr cmpr_eq max_load Hpos Hle1 cntr el key replace
                el_size layout el_dtor key_dtor realloc_ Hwf Hload)
      as (result' & evs' & Hrun' & Hwf' & Hload' & _).
    rewrite Hrun in Hrun'. by simplify_eq.
  - destruct (key_present_or_absent cmpr cmpr_eq (entries (bkts cntr)) key)
      as [[el Hin]|Hout].
    + destruct (erase_present hash cmpr cmpr_eq cntr key el el_size layout
                  el_dtor key_dtor Hwf Hin Hel)
        as (cntr'' & evs' & Hrun' & Hwf' & Hh & Hc & Hs & _).
      rewrite Hrun in Hrun'. simplify_eq. split; [done|].
      unfold within_load. rewrite Hc.
      apply (within_load_mono max_load Hpos _ _ _ _ Hload); lia.
    + rewrite (erase_absent hash cmpr cmpr_eq cntr key el_size layout
                 el_dtor key_dtor Hwf Hout) in Hrun.
      by simplify_eq.
  - destruct (erase_itr_spec hash cntr i key el el_size layout el_dtor key_dtor
                Hwf Hholds Hel)
      as (cntr'' & Hrun' & Hwf' & Hh & Hc & Hs & _).
    rewrite Hrun in Hrun'. simplify_eq. split; [done|].
    unfold within_load. rewrite Hc.
    apply (within_load_mono max_load Hpos _ _ _ _ Hload); lia.
  - destruct (reserve_spec hash max_load Hpos Hle1 cntr n el_size layout realloc_
                Hwf Hload)
      as (c & Hc & [[Hle Hrun']|[(Hlt & Hr & Hrun')|(Hlt & id & cntr1 & Hr & Hrun'
            & Hwf1 & Hload1 & _)]]);
      rewrite Hrun in Hrun'; by simplify_eq.
  - destruct (shrink_spec hash max_load Hpos Hle1 cntr el_size layout realloc_
                result evs Hwf Hload Hrun) as (Hwf' & Hload' & _). done.
  - destruct (clear_wf hash cntr el_size layout el_dtor key_dtor Hwf)
      as (Hwf' & Hs & Hc & _). split; [done|].
    unfold within_load. rewrite Hs. apply within_load_empty.
  - destruct (init_clone_wf hash cntr el_size layout realloc_ cntr' Hwf Hrun)
      as (Hwf' & Hs & Hne & Heq). split; [done|].
    destruct (decide (size cntr = 0)) as [Hs0|Hs0].
    + rewrite (Heq Hs0). apply within_load_empty.
    + destruct (Hne Hs0) as [Hc _]. unfold within_load. by rewrite Hs, Hc.
Qed.

End reachable_maps.

(** ** Sequences of insertions *)

Section insert_sequences.
Context {K E : Type} `{Inhabited K, Inhabited E}.
Context (hash : K -> Z) (cmpr : K -> K -> Z).
Context (max_load : Q) (el_size layout : Z).
Context (cmpr_eq : ∀ k1 k2, cmpr k1 k2 = 0%Z ↔ k1 = k2).
Context (Hpos : (0 < max_load)%Q) (Hle1 : (max_load <= 1)%Q).
Implicit Types (cntr : cntr_ty K E) (ops : list (K * E * bool)).

(** On duplicate-free maps, an insertion that replaces (or uses a new key)
    is the update of a finite map. *)
Lemma inserted_update (l l' : list (K * E)) key el replace :
  NoDup l.*1 → inserted key el replace l l' →
  (replace = false → key ∉ l.*1) →
  ∀ k e, (k, e) ∈ l' ↔ (k = key ∧ e = el) ∨ (k ≠ key ∧ (k, e) ∈ l).
Proof.
  intros Hnd Hins Hflag k e.
  assert (∀ rest : list (K * E), key ∉ rest.*1 →
            ((k, e) ∈ (key, el) :: rest
             ↔ (k = key ∧ e = el) ∨ (k ≠ key ∧ (k, e) ∈ rest))) as Hrest.
  { intros rest Hout. rewrite elem_of_cons. split.
    - intros [[= -> ->]|Hin]; [by left|right]. split; [|done].
      intros ->. apply Hout. apply list_elem_of_fmap. by exists (key, e).
    - intros [[-> ->]|[_ Hin]]; [by left|by right]. }
  destruct Hins as [[Hout Hl']|(el0 & Hin & Hl')].
  - rewrite Hl'. by apply Hrest.
  - destruct replace.
    2: { destruct (Hflag eq_refl). apply list_elem_of_fmap. by exists (key, el0). }
    apply elem_of_Permutation in Hin as [rest Hl].
    rewrite Hl in Hl', Hnd. rewrite fmap_cons in Hnd.
    apply NoDup_cons in Hnd as [Hout _]. cbn [fst] in Hout.
    rewrite (Permutation_swap (key, el0) (key, el)) in Hl'.
    apply Permutation_cons_inv in Hl'.
    rewrite Hl', Hl, (Hrest rest Hout). rewrite elem_of_cons.
    split.
    + intros [?|[Hne Hr]]; [by left|right]. split; [done|by right].
    + intros [?|[Hne [[= ? ?]|Hr]]]; [by left|done|by right].
Qed.

Lemma inserted_keys (l l' : list (K * E)) key el replace :
  inserted key el replace l l' →
  ∀ k, k ∈ l'.*1 ↔ k = key ∨ k ∈ l.*1.
Proof.
  intros [[Hout Hl']|(el0 & Hin & Hl')] k.
  - rewrite Hl', fmap_cons, elem_of_cons. done.
  - assert (key ∈ l.*1) as Hkin
      by (apply list_elem_of_fmap; by exists (key, el0)).
    destruct replace.
    + assert (key :: l'.*1 ≡ₚ key :: l.*1) as Hk.
      { change ((((key, el0) :: l').*1) ≡ₚ (((key, el) :: l).*1)).
        by rewrite Hl'. }
      apply Permutation_cons_inv in Hk. rewrite Hk.
      split; [by right|]. by intros [->|?].
    + rewrite Hl'. split; [by right|]. by intros [->|?].
Qed.

Lemma last_inserted_nil key el : ¬ last_inserted (@nil (K * E * bool)) key el.
Proof. intros (ops1 & r & ops2 & Heq & _). by destruct ops1. Qed.

Lemma last_inserted_snoc ops key0 el0 replace0 key el :
  last_inserted (ops ++ [(key0, el0, replace0)]) key el
  ↔ (key = key0 ∧ el = el0) ∨ (key ≠ key0 ∧ last_inserted ops key el).
Proof.
  split.
  - intros (ops1 & r & ops2 & Heq & Hout).
    destruct ops2 as [|op ops2 _] using rev_ind.
    + apply app_inj_tail in Heq as [_ [= <- <- _]]. by left.
    + rewrite app_comm_cons, app_assoc in Heq.
      apply app_inj_tail in Heq as [-> <-]. right.
      rewrite !fmap_app in Hout. cbn in Hout.
      apply not_elem_of_app in Hout as [Hout2 Hne].
      split.
      * intros ->. apply Hne. apply list_elem_of_singleton. done.
      * by exists ops1, r, ops2.
  - intros [[-> ->]|[Hne (ops1 & r & ops2 & -> & Hout)]].
    + exists ops, replace0, []. split; [done|]. cbn. apply not_elem_of_nil.
    + exists ops1, r, (ops2 ++ [(key0, el0, replace0)]). split.
      * by rewrite <- app_assoc.
      * rewrite !fmap_app. cbn. apply not_elem_of_app. split; [done|].
        intros Hin. apply list_elem_of_singleton in Hin. done.
Qed.

Lemma replaces_or_fresh_snoc ops key el replace :
  replaces_or_fresh (ops ++ [(key, el, replace)]) →
  replaces_or_fresh ops ∧ (replace = false → key ∉ ops.*1.*1).
Proof.
  intros Hok. split.
  - intros ops1 k e ops2 ->. apply (Hok ops1 k e (ops2 ++ [(key, el, replace)])).
    by rewrite <- app_assoc.
  - intros ->. by apply (Hok ops key el []).
Qed.

Lemma insert_sequence_snoc cntr ops key el replace el_dtor key_dtor realloc_ :
  insert_sequence cntr (ops ++ [(key, el, replace)]) el_size layout hash cmpr
    max_load el_dtor key_dtor realloc_
  = cntr1 ← insert_sequence cntr ops el_size layout hash cmpr max_load
              el_dtor key_dtor realloc_;
    insert_sequence cntr1 [(key, el, replace)] el_size layout hash cmpr
      max_load el_dtor key_dtor realloc_.
Proof.
  revert cntr. induction ops as [|[[k e] r] ops IH]; intros cntr; [done|].
  cbn [app insert_sequence].
  destruct (cc4_map_insert cntr e k r el_size layout hash cmpr max_load
              el_dtor key_dtor realloc_) as [[result evs]|]; [|done].
  cbn [mbind option_bind]. destruct (other_ptr result); [apply IH|done].
Qed.

(** A sequence of insertions builds the finite map of its last
    insertions. *)
Lemma insert_sequence_spec ops el_dtor key_dtor realloc_ :
  (∀ p n, realloc_ p n ≠ None) → replaces_or_fresh ops →
  ∃ cntr,
    insert_sequence cc4_map_placeholder ops el_size layout hash cmpr max_load
      el_dtor key_dtor realloc_ = Some cntr
    ∧ wf hash cntr ∧ within_load max_load cntr
    ∧ (∀ k e, (k, e) ∈ entries (bkts cntr) ↔ last_inserted ops k e)
    ∧ (∀ k, k ∈ (entries (bkts cntr)).*1 ↔ k ∈ ops.*1.*1).
Proof.
  intros Halloc. induction ops as [|[[key el] replace] ops IH] using rev_ind;
    intros Hok.
  { exists cc4_map_placeholder. split_and!.
    - done.
    - apply wf_placeholder.
    - apply (within_load_empty max_load Hpos).
    - intros k e. cbn. split; [by intros ?%elem_of_nil|].
      by intros ?%last_inserted_nil.
    - done. }
  apply replaces_or_fresh_snoc in Hok as [Hok Hfresh].
  destruct (IH Hok) as (cntr & Hrun & Hwf & Hload & Hent & Hkeys).
  rewrite insert_sequence_snoc, Hrun. cbn [mbind option_bind insert_sequence].
  destruct (insert_spec hash cmpr cmpr_eq max_load Hpos Hle1 cntr el key replace
              el_size layout el_dtor key_dtor realloc_ Hwf Hload)
    as (result & evs & Hins & Hwf' & Hload' & Hres).
  rewrite Hins. cbn [mbind option_bind].
  destruct (other_ptr result) as [p|].
  2: { destruct Hres as (_ & _ & _ & c & _ & Hfail). by destruct (Halloc _ _ Hfail). }
  destruct Hres as [Hinserted _].
  exists (new_cntr result). split_and!; try done.
  - intros k e. rewrite last_inserted_snoc, <- Hent.
    apply (inserted_update _ _ key el replace); [apply Hwf|done|].
    intros Hr. rewrite Hkeys. by apply Hfresh.
  - intros k. rewrite (inserted_keys _ _ _ _ _ Hinserted), Hkeys.
    rewrite !fmap_app. cbn. rewrite elem_of_app, list_elem_of_singleton.
    split; intros [?|?]; auto.
Qed.

End insert_sequences.

(** * Part III: the claims *)

Section claims.
Context {K E : Type} `{Inhabited K, Inhabited E}.
Context (hash : K -> Z) (cmpr : K -> K -> Z).
Context (max_load : Q) (el_size layout : Z).
Context (cmpr_eq : ∀ k1 k2, cmpr k1 k2 = 0%Z ↔ k1 = k2).
Context (Hpos : (0 < max_load)%Q) (Hle1 : (max_load <= 1)%Q).
Context (Hel : (0 <= el_size)%Z).
Implicit Types (cntr : cntr_ty K E) (ops : list (K * E * bool)).

Lemma nodup_keys_index (bs : list (bucket K E)) i j bi bj :
  NoDup (entries bs).*1 → bs !! i = Some bi → bs !! j = Some bj →
  b_probelen bi ≠ 0 → b_probelen bj ≠ 0 → b_key bi = b_key bj → i = j.
Proof.
  revert i j. induction bs as [|b bs IH]; intros i j Hnd Hi Hj Hoi Hoj Hk;
    [by rewrite lookup_nil in Hi|].
  rewrite entries_cons in Hnd.
  assert (∀ x bx, bs !! x = Some bx → b_probelen bx ≠ 0 →
            b_key bx ∈ (entries bs).*1) as Hin.
  { intros x bx Hx Hox. apply list_elem_of_fmap. exists (b_key bx, b_el bx).
    split; [done|]. apply elem_of_entries. eauto 6. }
  assert (NoDup (entries bs).*1) as Hnd'.
  { rewrite fmap_app in Hnd. by apply NoDup_app in Hnd as (_ & _ & Hnd). }
  destruct i as [|i], j as [|j]; cbn in Hi, Hj; simplify_eq; [done| | |].
  - rewrite (live_occupied _ Hoi) in Hnd. cbn in Hnd.
    apply NoDup_cons in Hnd as [Hout _]. destruct Hout. rewrite Hk. eauto.
  - rewrite (live_occupied _ Hoj) in Hnd. cbn in Hnd.
    apply NoDup_cons in Hnd as [Hout _]. destruct Hout. rewrite <- Hk. eauto.
  - f_equal. by apply IH.
Qed.

Lemma dist_split (c h x j : nat) :
  h < c → x < c → j < c → dist c h x ≤ dist c h j →
  dist c h x + dist c x j = dist c h j.
Proof. intros. cyc. Qed.

Lemma maps_to_functional cntr key el1 el2 :
  wf hash cntr → maps_to cntr key el1 → maps_to cntr key el2 → el1 = el2.
Proof.
  intros Hwf H1 H2. apply maps_to_entries in H1, H2.
  by apply (wf_functional hash cntr key).
Qed.

Lemma absent_not_in_keys cntr key :
  (∀ el, ¬ maps_to cntr key el) → key ∉ (entries (bkts cntr)).*1.
Proof.
  intros Hno Hin. apply list_elem_of_fmap in Hin as ([k e] & -> & Hin).
  apply (Hno e). by apply maps_to_entries.
Qed.

(** C1.  Round trip.  Insertions into an empty map, carried out one after
    the other, each either replacing or using a key not inserted before
    (so: any insertions with pairwise distinct keys, and any insertions that
    replace), all succeed when the allocator does; afterwards [cc4_map_get]
    finds every inserted key in a bucket that holds the element of the last
    insertion with that key, and [cc4_map_size] is the number of distinct
    keys inserted. *)
Theorem insert_then_get_round_trip ops el_dtor key_dtor realloc_ :
  (∀ p n, realloc_ p n ≠ None) → replaces_or_fresh ops →
  ∃ cntr,
    insert_sequence cc4_map_placeholder ops el_size layout hash cmpr max_load
      el_dtor key_dtor realloc_ = Some cntr
    ∧ (∀ key el, last_inserted ops key el →
         ∃ i, cc4_map_get cntr key el_size layout hash cmpr
              = Some (Some (cc4_map_el cntr i el_size layout))
              ∧ holds cntr i key el)
    ∧ (∀ keys : list K, NoDup keys → (∀ key, key ∈ keys ↔ key ∈ ops.*1.*1) →
         cc4_map_size cntr = length keys).
Proof.
  intros Halloc Hok.
  destruct (insert_sequence_spec hash cmpr max_load el_size layout cmpr_eq Hpos Hle1
              ops el_dtor key_dtor realloc_ Halloc Hok)
    as (cntr & Hrun & Hwf & Hload & Hent & Hkeys).
  exists cntr. split_and!; [done| |].
  - intros key el Hlast. apply Hent in Hlast.
    by apply (get_present hash cmpr cmpr_eq).
  - intros keys Hnd Hks. unfold cc4_map_size.
    rewrite (wf_size _ _ Hwf), <- (length_fmap fst (entries (bkts cntr))).
    apply Permutation_length, NoDup_Permutation; [apply Hwf|done|].
    intros key. by rewrite Hkeys, Hks.
Qed.

(** C2.  Deletion.  On every map the library can build, erasing a key that
    is present returns true; afterwards [cc4_map_get] does not find the key,
    the size is smaller by exactly one, and every other key is found with
    the element it had. *)
Theorem erase_removes_only_the_key cntr key el el_dtor key_dtor :
  reachable hash cmpr max_load el_size layout cntr → maps_to cntr key el →
  ∃ cntr' evs,
    cc4_map_erase cntr key el_size layout hash cmpr el_dtor key_dtor
    = Some (cntr', Some cc4_dummy_true_ptr, evs)
    ∧ cc4_map_get cntr' key el_size layout hash cmpr = Some None
    ∧ S (cc4_map_size cntr') = cc4_map_size cntr
    ∧ ∀ key' el', key' ≠ key → maps_to cntr key' el' →
        ∃ i', cc4_map_get cntr' key' el_size layout hash cmpr
              = Some (Some (cc4_map_el cntr' i' el_size layout))
              ∧ holds cntr' i' key' el'.
Proof.
  intros Hreach Hmaps.
  destruct (reachable_wf hash cmpr max_load el_size layout cmpr_eq Hpos Hle1 Hel
              cntr Hreach) as [Hwf Hload].
  apply maps_to_entries in Hmaps.
  destruct (erase_present hash cmpr cmpr_eq cntr key el el_size layout el_dtor
              key_dtor Hwf Hmaps Hel)
    as (cntr' & evs & Hrun & Hwf' & Hh & Hc & Hs & Hperm).
  exists cntr', evs. split_and!; [done| |done|].
  - apply (get_absent hash cmpr cmpr_eq); [done|].
    pose proof (wf_nodup _ _ Hwf) as Hnd. rewrite <- Hperm in Hnd.
    rewrite fmap_cons in Hnd. by apply NoDup_cons in Hnd as [Hout _].
  - intros key' el' Hne Hmaps'. apply maps_to_entries in Hmaps'.
    apply (get_present hash cmpr cmpr_eq); [done|].
    rewrite <- Hperm in Hmaps'. apply elem_of_cons in Hmaps' as [[= ? ?]|?];
      done.
Qed.

(** C3.  Load factor.  On every map the library can build [cc4_map_insert]
    returns; when it succeeds the new size is within the load factor of the
    new capacity.  When [size + 1] exceeded the load factor of the old
    capacity, the map was first moved by [cc4_map_reserve] into the least
    power-of-two capacity from 8 upwards whose load factor admits
    [size + 1], and the probe walk of [cc4_map_insert_raw] ran on the new
    array; otherwise the capacity is unchanged.  An insert with room
    always succeeds.  A growing insert calls [realloc_] once, for a new
    block with the bytes of that least capacity: when the call returns no
    block the insert fails, the map is unchanged and no destructor ran;
    when it returns a block the insert succeeds and the map is in that
    block, with that capacity.  So the insert fails only in the growing
    case, and only because that allocation failed. *)
Theorem insert_keeps_load_factor cntr el key replace el_dtor key_dtor realloc_ :
  reachable hash cmpr max_load el_size layout cntr →
  ∃ result evs,
    cc4_map_insert cntr el key replace el_size layout hash cmpr max_load
      el_dtor key_dtor realloc_ = Some (result, evs)
    ∧ (other_ptr result ≠ None →
       within_load max_load (new_cntr result)
       ∧ (exceeds_load (cc4_map_size cntr + 1) (cc4_map_cap cntr) max_load = false →
          cc4_map_cap (new_cntr result) = cc4_map_cap cntr)
       ∧ (exceeds_load (cc4_map_size cntr + 1) (cc4_map_cap cntr) max_load = true →
          pow2 (cc4_map_cap (new_cntr result))
          ∧ 8 ≤ cc4_map_cap (new_cntr result)
          ∧ exceeds_load (cc4_map_size cntr + 1) (cc4_map_cap (new_cntr result))
              max_load = false
          ∧ (∀ c, pow2 c → 8 ≤ c →
                  exceeds_load (cc4_map_size cntr + 1) c max_load = false →
                  cc4_map_cap (new_cntr result) ≤ c)
          ∧ ∃ reserved evs1 new_el evs2,
              cc4_map_reserve cntr (cc4_map_size cntr + 1) el_size layout hash
                max_load realloc_ = Some (reserved, evs1)
              ∧ cc4_map_cap (new_cntr reserved) = cc4_map_cap (new_cntr result)
              ∧ cc4_map_insert_raw (new_cntr reserved) el key replace el_size
                  layout hash cmpr el_dtor key_dtor
                = Some (new_cntr result, new_el, evs2)))
    ∧ (exceeds_load (cc4_map_size cntr + 1) (cc4_map_cap cntr) max_load = false →
       other_ptr result ≠ None)
    ∧ (exceeds_load (cc4_map_size cntr + 1) (cc4_map_cap cntr) max_load = true →
       ∃ c, cc4_map_min_cap_for_n_els (cc4_map_size cntr + 1) max_load = Some c
            ∧ match realloc_ None
                      (sizeof_cc4_map_hdr_ty
                       + CC4_BUCKET_SIZE el_size layout * Z.of_nat c)%Z with
              | None => result = cc4_make_allocing_fn_result cntr None ∧ evs = []
              | Some id =>
                  other_ptr result ≠ None
                  ∧ hndl (new_cntr result) = blk_heap id
                  ∧ cc4_map_cap (new_cntr result) = c
              end)
    ∧ (other_ptr result = None →
       new_cntr result = cntr ∧ evs = []
       ∧ exceeds_load (cc4_map_size cntr + 1) (cc4_map_cap cntr) max_load = true
       ∧ ∃ c, cc4_map_min_cap_for_n_els (cc4_map_size cntr + 1) max_load = Some c
              ∧ realloc_ None
                  (sizeof_cc4_map_hdr_ty
                   + CC4_BUCKET_SIZE el_size layout * Z.of_nat c)%Z = None).
Proof.
  intros Hreach.
  destruct (reachable_wf hash cmpr max_load el_size layout cmpr_eq Hpos Hle1 Hel
              cntr Hreach) as [Hwf Hload].
  destruct (insert_spec hash cmpr cmpr_eq max_load Hpos Hle1 cntr el key replace
              el_size layout el_dtor key_dtor realloc_ Hwf Hload)
    as (result & evs & Hrun & Hwf' & Hload' & Hres).
  exists result, evs. split; [done|].
  destruct (insert_by_allocation hash cmpr cmpr_eq max_load Hpos Hle1 cntr el key
              replace el_size layout el_dtor key_dtor realloc_ result evs Hwf
              Hload Hrun) as [Hroom Hgrow].
  split; [|split; [exact Hroom|split; [exact Hgrow|]]];
    [|by intros Hnone; rewrite Hnone in Hres].
  intros Hok.
  destruct (other_ptr result) as [p|] eqn:Hp; [|done].
  destruct Hres as [_ Hcap]. unfold cc4_map_size, cc4_map_cap in *.
  split_and!; [done| |].
  - intros Hex. rewrite Hex in Hcap. apply Hcap.
  - intros Hex. rewrite Hex in Hcap.
    destruct (min_cap_for_n_els_spec max_load Hpos (size cntr + 1))
      as (c & Hc & Hpc & H8 & Hin & Hmin); [lia|].
    assert (c = cap (new_cntr result)) as -> by congruence.
    split_and!; try done.
    unfold cc4_map_insert in Hrun. unfold cc4_map_size, cc4_map_cap in Hrun.
    rewrite Hex in Hrun.
    destruct (cc4_map_reserve cntr (size cntr + 1) el_size layout hash max_load
                realloc_) as [[reserved evs1]|] eqn:Hres; [|done].
    cbn [mbind option_bind] in Hrun.
    destruct (other_ptr reserved) eqn:Hpr; [|simplify_eq; congruence].
    destruct (cc4_map_insert_raw (new_cntr reserved) el key replace el_size layout
                hash cmpr el_dtor key_dtor) as [[[cntr' new_el] evs2]|] eqn:Hraw;
      [|done].
    cbn [mbind option_bind] in Hrun. simplify_eq. cbn [new_cntr].
    exists reserved, evs1, new_el, evs2. split_and!; try done.
    destruct (reserve_spec hash max_load Hpos Hle1 cntr (size cntr + 1) el_size
                layout realloc_ Hwf Hload)
      as (c & Hc' & [[Hle Hrun']|[(Hlt & Hr & Hrun')|(Hlt & id & cntr1 & Hr & Hrun'
            & Hwf1 & Hload1 & Hh1 & Hc1 & _)]]);
      rewrite Hres in Hrun'; simplify_eq.
    + pose proof (exceeds_load_cap_lt max_load Hpos _ _ _ Hex Hin). lia.
    + cbn [new_cntr] in *. congruence.
Qed.

(** C4.  Probe order.  On every map the library can build, an occupied
    bucket is reached from the home bucket of its key after exactly as many
    probe steps as its stored probe length says; every bucket passed on the
    way has a stored probe length that is not smaller than the counter of
    the walk there, so the walk does not stop early, and [cc4_map_get]
    returns that bucket.  A key that is in no bucket is reported as not
    found. *)
Theorem probe_order_invariant cntr :
  reachable hash cmpr max_load el_size layout cntr →
  (∀ i key el, holds cntr i key el →
     ∃ b, bkts cntr !! i = Some b ∧ 1 ≤ b_probelen b
          ∧ walk (cap cntr) (mask (hash key) (cap cntr)) (b_probelen b - 1) = i
          ∧ (∀ c, 1 ≤ c → c < b_probelen b →
                  c ≤ plen (bkts cntr)
                        (walk (cap cntr) (mask (hash key) (cap cntr)) (c - 1)))
          ∧ cc4_map_get cntr key el_size layout hash cmpr
            = Some (Some (cc4_map_el cntr i el_size layout)))
  ∧ (∀ key, (∀ el, ¬ maps_to cntr key el) →
            cc4_map_get cntr key el_size layout hash cmpr = Some None).
Proof.
  intros Hreach.
  destruct (reachable_wf hash cmpr max_load el_size layout cmpr_eq Hpos Hle1 Hel
              cntr Hreach) as [Hwf Hload].
  split.
  - intros i key el (b & Hb & Hocc & Hk & He).
    assert (i < cap cntr) as Hi
      by (rewrite <- (wf_len _ _ Hwf); by eapply lookup_lt_Some).
    assert (pow2 (cap cntr)) as Hp by (apply (wf_cap_pow2 hash); [done|lia]).
    pose proof (mask_lt (hash key) (cap cntr) Hp) as Hh.
    pose proof (wf_homes _ _ Hwf i b Hb Hocc) as Hhome. rewrite Hk in Hhome.
    pose proof (dist_lt (cap cntr) _ i Hh Hi) as Hdl.
    exists b. split_and!; [done|lia| | |].
    + rewrite Hhome. cbn. rewrite Nat.sub_0_r. by apply walk_dist.
    + intros c Hc1 Hcp.
      set (x := walk (cap cntr) (mask (hash key) (cap cntr)) (c - 1)).
      assert (x < cap cntr) as Hx by (by apply walk_lt).
      assert (dist (cap cntr) (mask (hash key) (cap cntr)) x = c - 1) as Hdx
        by (apply dist_walk; auto; lia).
      pose proof (dist_split (cap cntr) _ x i Hh Hx Hi) as Hsplit.
      pose proof (ordered_dist (cap cntr) Hp (bkts cntr) _ x i
                    (wf_ordered _ _ Hwf) Hx Hi eq_refl) as Hord.
      rewrite (plen_lookup _ _ _ Hb) in Hord. lia.
    + destruct (get_present hash cmpr cmpr_eq cntr key el el_size layout Hwf)
        as (x & Hget & bx & Hbx & Hoccx & Hkx & Hex).
      { apply elem_of_entries. eauto 6. }
      rewrite Hget. do 3 f_equal.
      apply (nodup_keys_index (bkts cntr) x i bx b); auto; [apply Hwf|congruence].
  - intros key Hno. apply (get_absent hash cmpr cmpr_eq); [done|].
    by apply absent_not_in_keys.
Qed.


Lemma inserted_present_length (l l' : list (K * E)) key el el0 replace :
  inserted key el replace l l' → (key, el0) ∈ l → length l' = length l.
Proof.
  intros [[Hout _]|(el1 & _ & Hl')] Hin.
  - destruct Hout. apply list_elem_of_fmap. by exists (key, el0).
  - destruct replace.
    + apply Permutation_length in Hl'. cbn [length] in Hl'. lia.
    + by rewrite Hl'.
Qed.

(** C5.  Growth comes first.  When [size + 1] exceeds the load factor of
    the capacity, [cc4_map_insert] asks for a larger array before it looks
    for the key: if the allocator fails, the call reports failure ([NULL])
    and returns the map as it was, without any destructor or [free_] call,
    whatever the key (on every map, present key or not); if the allocator
    succeeds, a map the library can build is rehashed into a larger capacity
    even though the key is present and the size stays the same. *)
Theorem insert_grows_before_searching cntr el key replace el_dtor key_dtor realloc_ :
  exceeds_load (cc4_map_size cntr + 1) (cc4_map_cap cntr) max_load = true →
  ((∀ n, realloc_ None n = None) →
   cc4_map_insert cntr el key replace el_size layout hash cmpr max_load
     el_dtor key_dtor realloc_
   = Some (cc4_make_allocing_fn_result cntr None, []))
  ∧ ((∀ n, realloc_ None n ≠ None) →
     reachable hash cmpr max_load el_size layout cntr →
     ∀ el0, maps_to cntr key el0 →
     ∃ result evs,
       cc4_map_insert cntr el key replace el_size layout hash cmpr max_load
         el_dtor key_dtor realloc_ = Some (result, evs)
       ∧ other_ptr result ≠ None
       ∧ cc4_map_cap cntr < cc4_map_cap (new_cntr result)
       ∧ cc4_map_size (new_cntr result) = cc4_map_size cntr).
Proof.
  unfold cc4_map_size, cc4_map_cap. intros Hex.
  destruct (min_cap_for_n_els_spec max_load Hpos (size cntr + 1))
    as (c & Hc & Hpc & H8 & Hin & Hmin); [lia|].
  pose proof (exceeds_load_cap_lt max_load Hpos _ _ _ Hex Hin) as Hlt.
  split.
  - intros Hfail. unfold cc4_map_insert, cc4_map_size, cc4_map_cap.
    rewrite Hex. unfold cc4_map_reserve, cc4_map_cap. rewrite Hc.
    cbn [mbind option_bind].
    destruct (Nat.leb_spec c (cap cntr)); [lia|].
    by rewrite (make_rehash_fail hash cntr c el_size layout realloc_ (Hfail _)).
  - intros Halloc Hreach el0 Hmaps.
    destruct (reachable_wf hash cmpr max_load el_size layout cmpr_eq Hpos Hle1 Hel
                cntr Hreach) as [Hwf Hload].
    destruct (insert_spec hash cmpr cmpr_eq max_load Hpos Hle1 cntr el key replace
                el_size layout el_dtor key_dtor realloc_ Hwf Hload)
      as (result & evs & Hrun & Hwf' & Hload' & Hres).
    exists result, evs. split; [done|].
    destruct (other_ptr result) as [p|].
    2: { destruct Hres as (_ & _ & _ & c' & _ & Hfail). by destruct (Halloc _ Hfail). }
    destruct Hres as [Hins Hcap]. rewrite Hex in Hcap.
    split_and!; [done|congruence|].
    apply maps_to_entries in Hmaps.
    rewrite (wf_size _ _ Hwf'), (wf_size _ _ Hwf).
    by apply (inserted_present_length _ _ key el el0 replace).
Qed.

(** C9, as the code has it.  The sentinels are computed from the handle:
    [r_end] is the handle, [end] is the handle plus the header size plus
    bucket size times capacity.  On every map the library can build, a
    [cc4_map_reserve] or [cc4_map_shrink] that leaves the capacity as it is
    returns the same handle and sentinels; one that changes the capacity
    returns the placeholder (shrinking an empty map) or the block handed out
    by [realloc_], and the sentinels are those of that block: they differ
    from the old ones whenever the block differs from the old one. *)
Theorem sentinels_follow_handle cntr :
  reachable hash cmpr max_load el_size layout cntr →
  ∀ realloc_ result evs,
    (∃ n, cc4_map_reserve cntr n el_size layout hash max_load realloc_
          = Some (result, evs))
    ∨ cc4_map_shrink cntr el_size layout hash max_load realloc_
      = Some (result, evs) →
    (cc4_map_cap (new_cntr result) = cc4_map_cap cntr →
     cc4_map_r_end (new_cntr result) = cc4_map_r_end cntr
     ∧ cc4_map_end (new_cntr result) el_size layout
       = cc4_map_end cntr el_size layout)
    ∧ (cc4_map_cap (new_cntr result) ≠ cc4_map_cap cntr →
       (new_cntr result = cc4_map_placeholder
        ∨ ∃ id,
            realloc_ None
              (sizeof_cc4_map_hdr_ty
               + CC4_BUCKET_SIZE el_size layout
                 * Z.of_nat (cc4_map_cap (new_cntr result)))%Z = Some id
            ∧ cc4_map_r_end (new_cntr result) = (blk_heap id, 0%Z)
            ∧ cc4_map_end (new_cntr result) el_size layout
              = (blk_heap id,
                 (sizeof_cc4_map_hdr_ty
                  + CC4_BUCKET_SIZE el_size layout
                    * Z.of_nat (cc4_map_cap (new_cntr result)))%Z))
       ∧ (hndl (new_cntr result) ≠ hndl cntr →
          cc4_map_r_end (new_cntr result) ≠ cc4_map_r_end cntr
          ∧ cc4_map_end (new_cntr result) el_size layout
            ≠ cc4_map_end cntr el_size layout)).
Proof.
  intros Hreach realloc_ result evs Hrun.
  destruct (reachable_wf hash cmpr max_load el_size layout cmpr_eq Hpos Hle1 Hel
              cntr Hreach) as [Hwf Hload].
  unfold cc4_map_cap, cc4_map_r_end, cc4_map_end, cc4_map_el.
  assert ((cap (new_cntr result) = cap cntr → new_cntr result = cntr)
          ∧ (cap (new_cntr result) ≠ cap cntr →
             new_cntr result = cc4_map_placeholder
             ∨ ∃ id, realloc_ None
                       (sizeof_cc4_map_hdr_ty
                        + CC4_BUCKET_SIZE el_size layout
                          * Z.of_nat (cap (new_cntr result)))%Z = Some id
                     ∧ hndl (new_cntr result) = blk_heap id)) as [Hsame Hmoved].
  { destruct Hrun as [[n Hrun]|Hrun].
    - destruct (reserve_spec hash max_load Hpos Hle1 cntr n el_size layout realloc_
                  Hwf Hload)
        as (c & Hc & [[Hle Hrun']|[(Hlt & Hr & Hrun')|(Hlt & id & cntr1 & Hr & Hrun'
              & Hwf1 & Hload1 & Hh1 & Hc1 & _)]]);
        rewrite Hrun in Hrun'; simplify_eq; cbn [new_cntr]; split; try done.
      + intros ?. lia.
      + intros _. right. by exists id.
    - destruct (shrink_spec hash max_load Hpos Hle1 cntr el_size layout realloc_
                  result evs Hwf Hload Hrun) as (_ & _ & _ & _ & Hs & Hm). done. }
  split.
  - intros Hc. by rewrite (Hsame Hc).
  - intros Hc. split.
    + destruct (Hmoved Hc) as [Hph|(id & Hr & Hh)]; [by left|right].
      exists id. by rewrite Hh.
    + intros Hne. split; intros Heq; apply Hne; congruence.
Qed.

End claims.

(** C10.  Cloning.  A source of size 0, whatever its capacity, is cloned as
    the placeholder (capacity 0) and the allocator plays no part; a source
    that is not empty is cloned into the block that [realloc_] hands out,
    with the size, the capacity and the bucket array of the source, and the
    clone fails ([NULL]) exactly when the allocation does. *)
Theorem init_clone_of_empty_is_placeholder {K E : Type} (src : cntr_ty K E)
    (el_size layout : Z) (realloc_ : cc4_realloc_fnptr_ty) :
  (cc4_map_size src = 0 →
   cc4_map_init_clone src el_size layout realloc_ = Some cc4_map_placeholder
   ∧ cc4_map_cap (@cc4_map_placeholder K E) = 0)
  ∧ (cc4_map_size src ≠ 0 →
     match realloc_ None
             (sizeof_cc4_map_hdr_ty
              + CC4_BUCKET_SIZE el_size layout * Z.of_nat (cc4_map_cap src))%Z with
     | None => cc4_map_init_clone src el_size layout realloc_ = None
     | Some id =>
         ∃ clone, cc4_map_init_clone src el_size layout realloc_ = Some clone
                  ∧ hndl clone = blk_heap id
                  ∧ cc4_map_size clone = cc4_map_size src
                  ∧ cc4_map_cap clone = cc4_map_cap src
                  ∧ bkts clone = bkts src
     end).
Proof.
  unfold cc4_map_init_clone, cc4_map_size, cc4_map_cap. split.
  - intros ->. done.
  - intros Hs. destruct (Nat.eqb_spec (size src) 0) as [?|_]; [done|].
    destruct (realloc_ None _) as [id|]; [|done]. eexists. split; [done|]. done.
Qed.

(** ** The default string hash *)

Lemma cc4_hash_c_string_64_loop_fnv (s : list byte) (h : Z) :
  cc4_hash_c_string_64_loop s h = fnv1a_from 64 0x100000001b3 s h.
Proof.
  revert h. induction s as [|c s IH]; intros h; simpl; [reflexivity|].
  destruct (uchar c =? 0)%Z; [reflexivity|].
  rewrite (Z.lxor_comm (uchar c) h). apply IH.
Qed.

(** The 64-bit branch is FNV-1a with the 64-bit offset basis and prime. *)
Lemma cc4_hash_c_string_64_is_fnv1a (s : list byte) :
  cc4_hash_c_string_64 s = fnv1a_64 s.
Proof. apply cc4_hash_c_string_64_loop_fnv. Qed.

(** The 32-bit branch is the same loop started from the FNV prime and
    multiplying by the FNV offset basis. *)
Lemma cc4_hash_c_string_32_loop_fnv (s : list byte) (h : Z) :
  cc4_hash_c_string_32_loop s h = fnv1a_from 32 0x811c9dc5 s h.
Proof.
  revert h. induction s as [|c s IH]; intros h; simpl; [reflexivity|].
  destruct (uchar c =? 0)%Z; [reflexivity|].
  rewrite (Z.lxor_comm (uchar c) h). apply IH.
Qed.

(** C6.  The default string hash is documented as FNV-1a; the 32-bit
    branch starts from the FNV prime [0x01000193] and multiplies by the
    offset basis [0x811c9dc5], the two constants exchanged.  On the empty
    string it returns [0x01000193] where FNV-1a returns [0x811c9dc5]; on
    the string ["a"] it returns [0xeeaae93a] where FNV-1a returns
    [0xe40c292c]. *)
Theorem cc4_hash_c_string_32_swaps_basis_and_prime :
  cc4_hash_c_string_32 [] = 0x01000193%Z
  ∧ fnv1a_32 [] = 0x811c9dc5%Z
  ∧ cc4_hash_c_string_32 ["a"%byte] = 0xeeaae93a%Z
  ∧ fnv1a_32 ["a"%byte] = 0xe40c292c%Z
  ∧ (∀ s, cc4_hash_c_string_32 s = fnv1a_from 32 0x811c9dc5 s 0x01000193%Z).
Proof.
  split; [reflexivity|]. split; [reflexivity|].
  split; [vm_compute; reflexivity|]. split; [vm_compute; reflexivity|].
  intros s. apply cc4_hash_c_string_32_loop_fnv.
Qed.

(** ** The example maps *)

Lemma cc4_cmpr_unsigned_long_long_eq (val_1 val_2 : Z) :
  cc4_cmpr_unsigned_long_long val_1 val_2 = 0%Z ↔ val_1 = val_2.
Proof.
  unfold cc4_cmpr_unsigned_long_long.
  destruct (Z.ltb_spec val_2 val_1), (Z.ltb_spec val_1 val_2); simpl; lia.
Qed.

Lemma ull_max_load_pos : (0 < ull_max_load)%Q.
Proof. reflexivity. Qed.

Lemma ull_max_load_le_1 : (ull_max_load <= 1)%Q.
Proof. unfold Qle. simpl. lia. Qed.

Lemma insert_sequence_reachable {K E : Type} `{Inhabited K, Inhabited E}
    (hash : K -> Z) (cmpr : K -> K -> Z) (max_load : Q) (el_size layout : Z)
    (ops : list (K * E * bool)) (cntr0 cntr : cntr_ty K E)
    (el_dtor key_dtor : cc4_dtor_fnptr_ty) (realloc_ : cc4_realloc_fnptr_ty) :
  reachable hash cmpr max_load el_size layout cntr0 →
  insert_sequence cntr0 ops el_size layout hash cmpr max_load el_dtor key_dtor
    realloc_ = Some cntr →
  reachable hash cmpr max_load el_size layout cntr.
Proof.
  revert cntr0. induction ops as [|[[key el] replace] ops IH]; intros cntr0 Hr Hrun.
  - cbn in Hrun. by simplify_eq.
  - cbn [insert_sequence] in Hrun.
    destruct (cc4_map_insert cntr0 el key replace el_size layout hash cmpr max_load
                el_dtor key_dtor realloc_) as [[result evs]|] eqn:Hins; [|done].
    cbn [mbind option_bind] in Hrun.
    destruct (other_ptr result); [|done].
    apply (IH (new_cntr result)); [|done]. by eapply reach_insert.
Qed.

Lemma one_entry_map_reachable :
  reachable cc4_hash_unsigned_long_long cc4_cmpr_unsigned_long_long ull_max_load
    ull_el_size ull_layout one_entry_map.
Proof.
  apply (insert_sequence_reachable _ _ _ _ _ [(1, 10, true)]%Z cc4_map_placeholder _
           (Some "el_dtor") (Some "key_dtor") (alloc_at 1)); [constructor|].
  vm_compute. reflexivity.
Qed.

Lemma six_entry_map_reachable :
  reachable cc4_hash_unsigned_long_long cc4_cmpr_unsigned_long_long ull_max_load
    ull_el_size ull_layout six_entry_map.
Proof.
  apply (insert_sequence_reachable _ _ _ _ _
           [(1, 10, true); (2, 20, true); (3, 30, true);
            (4, 40, true); (5, 50, true); (6, 60, true)]%Z cc4_map_placeholder _
           (Some "el_dtor") (Some "key_dtor") (alloc_at 1)); [constructor|].
  vm_compute. reflexivity.
Qed.

Lemma emptied_map_reachable :
  reachable cc4_hash_unsigned_long_long cc4_cmpr_unsigned_long_long ull_max_load
    ull_el_size ull_layout emptied_map.
Proof.
  apply (reach_erase _ _ _ _ _ one_entry_map 1%Z (Some "el_dtor") (Some "key_dtor")
           emptied_map (Some cc4_dummy_true_ptr)
           [call_dtor "key_dtor" (blk_heap 1, 48%Z);
            call_dtor "el_dtor" (blk_heap 1, 40%Z)]);
    [apply one_entry_map_reachable|].
  vm_compute. reflexivity.
Qed.

(** ** Destruction *)

(** [cc4_map_clear], called as the API macro [cc4_clear] calls it, applies
    the key destructor to keys and the element destructor to elements. *)
Lemma clear_calls_destructors_on_their_kind :
  (cc4_map_clear one_entry_map ull_el_size ull_layout
     (Some "el_dtor") (Some "key_dtor")).2
  = [call_dtor "key_dtor" (cc4_map_key one_entry_map 1 ull_el_size ull_layout);
     call_dtor "el_dtor" (cc4_map_el one_entry_map 1 ull_el_size ull_layout)].
Proof. vm_compute. reflexivity. Qed.

(** C7.  On the map with the one entry [(1, 10)] in bucket 1,
    [cc4_map_cleanup] applies the element destructor to the key and the key
    destructor to the element (it hands the two destructors to
    [cc4_map_clear] in exchanged positions), then frees the block; the API
    macro then resets the handle to the placeholder. *)
Theorem cleanup_swaps_destructors :
  cc4_map_cleanup one_entry_map ull_el_size ull_layout
    (Some "el_dtor") (Some "key_dtor")
  = [call_dtor "el_dtor" (cc4_map_key one_entry_map 1 ull_el_size ull_layout);
     call_dtor "key_dtor" (cc4_map_el one_entry_map 1 ull_el_size ull_layout);
     call_free (hndl one_entry_map, 0%Z)]
  ∧ holds one_entry_map 1 1%Z 10%Z
  ∧ (cc4_cleanup one_entry_map ull_el_size ull_layout
       (Some "el_dtor") (Some "key_dtor")).1 = cc4_map_placeholder.
Proof.
  split_and!; [vm_compute; reflexivity| |reflexivity].
  eexists. split; [reflexivity|]. cbn. done.
Qed.

(** ** First and last on maps without entries *)

Lemma first_loop_all_empty {K E : Type} (cntr : cntr_ty K E) (el_size layout : Z)
    (n i : nat) :
  (∀ x, plen (bkts cntr) x = 0) →
  cc4_map_first_loop cntr el_size layout n i = None.
Proof.
  intros Hpl. revert i. induction n as [|n IH]; intros i; [done|].
  cbn [cc4_map_first_loop]. specialize (Hpl i). unfold plen in Hpl.
  destruct (bkts cntr !! i) as [b|]; [|apply IH].
  cbn in Hpl. rewrite Hpl. apply IH.
Qed.

Lemma last_loop_all_empty {K E : Type} (cntr : cntr_ty K E) (el_size layout : Z)
    (i : nat) :
  (∀ x, plen (bkts cntr) x = 0) →
  cc4_map_last_loop cntr el_size layout i = None.
Proof.
  intros Hpl. induction i as [|i IH]; [done|].
  cbn [cc4_map_last_loop]. specialize (Hpl i). unfold plen in Hpl.
  destruct (bkts cntr !! i) as [b|]; [|apply IH].
  cbn in Hpl. rewrite Hpl. apply IH.
Qed.

(** On a map without occupied buckets, [cc4_map_last] is [r_end], and
    [cc4_map_first] is the end computed for a zero element size: the real
    end only if the element size or the capacity is zero. *)
Lemma first_last_all_empty {K E : Type} (cntr : cntr_ty K E) (el_size layout : Z) :
  (∀ x, plen (bkts cntr) x = 0) →
  cc4_map_last cntr el_size layout = cc4_map_r_end cntr
  ∧ cc4_map_first cntr el_size layout = cc4_map_end cntr 0 layout
  ∧ (cc4_map_first cntr el_size layout = cc4_map_end cntr el_size layout
     ↔ el_size = 0%Z ∨ cap cntr = 0).
Proof.
  intros Hpl. unfold cc4_map_last, cc4_map_first.
  rewrite first_loop_all_empty, last_loop_all_empty by done.
  split_and!; [done|done|].
  unfold cc4_map_end, cc4_map_el.
  rewrite (CC4_BUCKET_SIZE_dummy el_size layout). split.
  - intros [= Heq]. nia.
  - intros [->| ->]; f_equal; lia.
Qed.

(** The iterator [r_end] lies before the first bucket, so the bucket
    index that [cc4_map_next] and [cc4_map_prev] compute for it is the
    negative difference read as a [size_t]: far beyond the capacity, not
    an index before the first bucket. *)
Lemma index_of_r_end_on_emptied_map :
  ∃ j, index_of_itr emptied_map (cc4_map_r_end emptied_map) ull_el_size ull_layout
       = Some j
       ∧ Z.of_nat j = ((2 ^ 64 - sizeof_cc4_map_hdr_ty)
                       / CC4_BUCKET_SIZE ull_el_size ull_layout)%Z
       ∧ cc4_map_cap emptied_map < j.
Proof.
  unfold index_of_itr, cc4_map_r_end, cc4_map_el. cbn [fst snd]. cbn zeta.
  rewrite decide_True by done.
  change (CC4_BUCKET_SIZE ull_el_size ull_layout) with 24%Z.
  change (cc4_map_cap emptied_map) with 8.
  change (0 - (sizeof_cc4_map_hdr_ty + 24 * Z.of_nat 0) <? 0)%Z with true.
  cbv iota.
  change ((0 - (sizeof_cc4_map_hdr_ty + 24 * Z.of_nat 0) + 2 ^ 64) / 24)%Z
    with 768614336404564650%Z.
  change ((2 ^ 64 - sizeof_cc4_map_hdr_ty) / 24)%Z with 768614336404564650%Z.
  eexists. split; [done|]. split; lia.
Qed.

(** C8.  On the map that held one entry and had it erased (capacity 8,
    element size 8, no occupied bucket) [cc4_map_last] returns [r_end], but
    [cc4_map_first] returns the address at offset 144, which is not the end
    sentinel at offset 208: it calls [cc4_map_end] with element size 0. *)
Theorem first_on_emptied_map_is_not_end :
  cc4_map_size emptied_map = 0 ∧ cc4_map_cap emptied_map = 8
  ∧ (∀ x, plen (bkts emptied_map) x = 0)
  ∧ cc4_map_last emptied_map ull_el_size ull_layout = cc4_map_r_end emptied_map
  ∧ cc4_map_first emptied_map ull_el_size ull_layout = (blk_heap 1, 144%Z)
  ∧ cc4_map_end emptied_map ull_el_size ull_layout = (blk_heap 1, 208%Z)
  ∧ cc4_map_first emptied_map ull_el_size ull_layout
    ≠ cc4_map_end emptied_map ull_el_size ull_layout.
Proof.
  split_and!; try (vm_compute; reflexivity).
  - intros x. do 9 (destruct x as [|x]; [reflexivity|]). reflexivity.
  - vm_compute. discriminate.
Qed.

(** ** Sentinels across a rehash *)

(** C9, as stated, fails: reserving room for 7 entries in the one-entry
    map (capacity 8) rehashes it into a block of capacity 16; with the new
    block at another address than the old one, both sentinels change. *)
Lemma rehash_moves_sentinels :
  ∃ result evs,
    cc4_map_reserve one_entry_map 7 ull_el_size ull_layout
      cc4_hash_unsigned_long_long ull_max_load (alloc_at 2) = Some (result, evs)
    ∧ cc4_map_cap one_entry_map = 8 ∧ cc4_map_cap (new_cntr result) = 16
    ∧ cc4_map_r_end one_entry_map = (blk_heap 1, 0%Z)
    ∧ cc4_map_r_end (new_cntr result) = (blk_heap 2, 0%Z)
    ∧ cc4_map_end one_entry_map ull_el_size ull_layout = (blk_heap 1, 208%Z)
    ∧ cc4_map_end (new_cntr result) ull_el_size ull_layout = (blk_heap 2, 400%Z)
    ∧ cc4_map_r_end (new_cntr result) ≠ cc4_map_r_end one_entry_map
    ∧ cc4_map_end (new_cntr result) ull_el_size ull_layout
      ≠ cc4_map_end one_entry_map ull_el_size ull_layout.
Proof.
  eexists _, _. split; [vm_compute; reflexivity|].
  split_and!; try (vm_compute; reflexivity); vm_compute; discriminate.
Qed.

(** ** The theorems at work on the example maps *)

Lemma example_ops_replaces_or_fresh : replaces_or_fresh example_ops.
Proof.
  intros ops1 key el ops2 Heq. unfold example_ops in Heq.
  destruct ops1 as [|o1 [|o2 [|o3 [|o4 ops1]]]]; cbn in Heq; simplify_eq.
  cbn. intros Hin. apply list_elem_of_singleton in Hin. done.
Qed.

Lemma alloc_at_succeeds (id : nat) (p : option ptr) (n : Z) : alloc_at id p n ≠ None.
Proof. done. Qed.

Lemma six_entry_map_maps_3 : maps_to six_entry_map 3%Z 30%Z.
Proof. exists 3. eexists. split; [reflexivity|]. cbn. done. Qed.

Lemma insert_then_get_round_trip_witness :
  ∃ cntr : cntr_ty Z Z,
    insert_sequence cc4_map_placeholder example_ops ull_el_size ull_layout
      cc4_hash_unsigned_long_long cc4_cmpr_unsigned_long_long ull_max_load
      (Some "el_dtor") (Some "key_dtor") (alloc_at 1) = Some cntr
    ∧ (∀ key el, last_inserted example_ops key el →
         ∃ i, cc4_map_get cntr key ull_el_size ull_layout
                cc4_hash_unsigned_long_long cc4_cmpr_unsigned_long_long
              = Some (Some (cc4_map_el cntr i ull_el_size ull_layout))
              ∧ holds cntr i key el)
    ∧ (∀ keys : list Z, NoDup keys →
         (∀ key, key ∈ keys ↔ key ∈ example_ops.*1.*1) →
         cc4_map_size cntr = length keys).
Proof.
  apply (insert_then_get_round_trip cc4_hash_unsigned_long_long
           cc4_cmpr_unsigned_long_long ull_max_load ull_el_size ull_layout
           cc4_cmpr_unsigned_long_long_eq ull_max_load_pos ull_max_load_le_1
           example_ops (Some "el_dtor") (Some "key_dtor") (alloc_at 1)
           (alloc_at_succeeds 1) example_ops_replaces_or_fresh).
Defined.

Lemma erase_removes_only_the_key_witness :
  ∃ (cntr' : cntr_ty Z Z) (evs : list event),
    cc4_map_erase six_entry_map 3%Z ull_el_size ull_layout
      cc4_hash_unsigned_long_long cc4_cmpr_unsigned_long_long
      (Some "el_dtor") (Some "key_dtor")
    = Some (cntr', Some cc4_dummy_true_ptr, evs)
    ∧ cc4_map_get cntr' 3%Z ull_el_size ull_layout
        cc4_hash_unsigned_long_long cc4_cmpr_unsigned_long_long = Some None
    ∧ S (cc4_map_size cntr') = cc4_map_size six_entry_map
    ∧ ∀ key' el', key' ≠ 3%Z → maps_to six_entry_map key' el' →
        ∃ i', cc4_map_get cntr' key' ull_el_size ull_layout
                cc4_hash_unsigned_long_long cc4_cmpr_unsigned_long_long
              = Some (Some (cc4_map_el cntr' i' ull_el_size ull_layout))
              ∧ holds cntr' i' key' el'.
Proof.
  apply (erase_removes_only_the_key cc4_hash_unsigned_long_long
           cc4_cmpr_unsigned_long_long ull_max_load ull_el_size ull_layout
           cc4_cmpr_unsigned_long_long_eq ull_max_load_pos ull_max_load_le_1
           ltac:(unfold ull_el_size; lia) six_entry_map 3%Z 30%Z
           (Some "el_dtor") (Some "key_dtor")
           six_entry_map_reachable six_entry_map_maps_3).
Defined.

Lemma insert_keeps_load_factor_witness :
  ∃ (result : cc4_allocing_fn_result_ty Z Z) (evs : list event),
    cc4_map_insert six_entry_map 70%Z 7%Z true ull_el_size ull_layout
      cc4_hash_unsigned_long_long cc4_cmpr_unsigned_long_long ull_max_load
      (Some "el_dtor") (Some "key_dtor") (alloc_at 2) = Some (result, evs)
    ∧ (other_ptr result ≠ None →
       within_load ull_max_load (new_cntr result)
       ∧ (exceeds_load (cc4_map_size six_entry_map + 1)
            (cc4_map_cap six_entry_map) ull_max_load = false →
          cc4_map_cap (new_cntr result) = cc4_map_cap six_entry_map)
       ∧ (exceeds_load (cc4_map_size six_entry_map + 1)
            (cc4_map_cap six_entry_map) ull_max_load = true →
          pow2 (cc4_map_cap (new_cntr result))
          ∧ 8 ≤ cc4_map_cap (new_cntr result)
          ∧ exceeds_load (cc4_map_size six_entry_map + 1)
              (cc4_map_cap (new_cntr result)) ull_max_load = false
          ∧ (∀ c, pow2 c → 8 ≤ c →
                  exceeds_load (cc4_map_size six_entry_map + 1) c ull_max_load
                  = false →
                  cc4_map_cap (new_cntr result) ≤ c)
          ∧ ∃ reserved evs1 new_el evs2,
              cc4_map_reserve six_entry_map (cc4_map_size six_entry_map + 1)
                ull_el_size ull_layout cc4_hash_unsigned_long_long ull_max_load
                (alloc_at 2) = Some (reserved, evs1)
              ∧ cc4_map_cap (new_cntr reserved) = cc4_map_cap (new_cntr result)
              ∧ cc4_map_insert_raw (new_cntr reserved) 70%Z 7%Z true ull_el_size
                  ull_layout cc4_hash_unsigned_long_long
                  cc4_cmpr_unsigned_long_long (Some "el_dtor") (Some "key_dtor")
                = Some (new_cntr result, new_el, evs2)))
    ∧ (exceeds_load (cc4_map_size six_entry_map + 1)
         (cc4_map_cap six_entry_map) ull_max_load = false →
       other_ptr result ≠ None)
    ∧ (exceeds_load (cc4_map_size six_entry_map + 1)
         (cc4_map_cap six_entry_map) ull_max_load = true →
       ∃ c, cc4_map_min_cap_for_n_els (cc4_map_size six_entry_map + 1)
              ull_max_load = Some c
            ∧ match alloc_at 2 None
                      (sizeof_cc4_map_hdr_ty
                       + CC4_BUCKET_SIZE ull_el_size ull_layout * Z.of_nat c)%Z
              with
              | None =>
                  result = cc4_make_allocing_fn_result six_entry_map None
                  ∧ evs = []
              | Some id =>
                  other_ptr result ≠ None
                  ∧ hndl (new_cntr result) = blk_heap id
                  ∧ cc4_map_cap (new_cntr result) = c
              end)
    ∧ (other_ptr result = None →
       new_cntr result = six_entry_map ∧ evs = []
       ∧ exceeds_load (cc4_map_size six_entry_map + 1)
           (cc4_map_cap six_entry_map) ull_max_load = true
       ∧ ∃ c, cc4_map_min_cap_for_n_els (cc4_map_size six_entry_map + 1)
                ull_max_load = Some c
              ∧ alloc_at 2 None
                  (sizeof_cc4_map_hdr_ty
                   + CC4_BUCKET_SIZE ull_el_size ull_layout * Z.of_nat c)%Z
                = None).
Proof.
  apply (insert_keeps_load_factor cc4_hash_unsigned_long_long
           cc4_cmpr_unsigned_long_long ull_max_load ull_el_size ull_layout
           cc4_cmpr_unsigned_long_long_eq ull_max_load_pos ull_max_load_le_1
           ltac:(unfold ull_el_size; lia) six_entry_map 70%Z 7%Z true
           (Some "el_dtor") (Some "key_dtor") (alloc_at 2)
           six_entry_map_reachable).
Defined.

Lemma probe_order_invariant_witness :
  (∀ i key el, holds six_entry_map i key el →
     ∃ b, bkts six_entry_map !! i = Some b ∧ 1 ≤ b_probelen b
          ∧ walk (cap six_entry_map)
              (mask (cc4_hash_unsigned_long_long key) (cap six_entry_map))
              (b_probelen b - 1) = i
          ∧ (∀ c, 1 ≤ c → c < b_probelen b →
                  c ≤ plen (bkts six_entry_map)
                        (walk (cap six_entry_map)
                           (mask (cc4_hash_unsigned_long_long key)
                              (cap six_entry_map)) (c - 1)))
          ∧ cc4_map_get six_entry_map key ull_el_size ull_layout
              cc4_hash_unsigned_long_long cc4_cmpr_unsigned_long_long
            = Some (Some (cc4_map_el six_entry_map i ull_el_size ull_layout)))
  ∧ (∀ key, (∀ el, ¬ maps_to six_entry_map key el) →
            cc4_map_get six_entry_map key ull_el_size ull_layout
              cc4_hash_unsigned_long_long cc4_cmpr_unsigned_long_long
            = Some None).
Proof.
  apply (probe_order_invariant cc4_hash_unsigned_long_long
           cc4_cmpr_unsigned_long_long ull_max_load ull_el_size ull_layout
           cc4_cmpr_unsigned_long_long_eq ull_max_load_pos ull_max_load_le_1
           ltac:(unfold ull_el_size; lia) six_entry_map
           six_entry_map_reachable).
Defined.

Lemma insert_grows_before_searching_witness :
  cc4_map_insert six_entry_map 33%Z 3%Z true ull_el_size ull_layout
    cc4_hash_unsigned_long_long cc4_cmpr_unsigned_long_long ull_max_load
    (Some "el_dtor") (Some "key_dtor") alloc_fail
  = Some (cc4_make_allocing_fn_result six_entry_map None, [])
  ∧ ∃ result evs,
      cc4_map_insert six_entry_map 33%Z 3%Z true ull_el_size ull_layout
        cc4_hash_unsigned_long_long cc4_cmpr_unsigned_long_long ull_max_load
        (Some "el_dtor") (Some "key_dtor") (alloc_at 2) = Some (result, evs)
      ∧ other_ptr result ≠ None
      ∧ cc4_map_cap six_entry_map < cc4_map_cap (new_cntr result)
      ∧ cc4_map_size (new_cntr result) = cc4_map_size six_entry_map.
Proof.
  split.
  - apply (insert_grows_before_searching cc4_hash_unsigned_long_long
             cc4_cmpr_unsigned_long_long ull_max_load ull_el_size ull_layout
             cc4_cmpr_unsigned_long_long_eq ull_max_load_pos ull_max_load_le_1
             ltac:(unfold ull_el_size; lia) six_entry_map 33%Z 3%Z true
             (Some "el_dtor") (Some "key_dtor") alloc_fail); reflexivity.
  - apply (insert_grows_before_searching cc4_hash_unsigned_long_long
             cc4_cmpr_unsigned_long_long ull_max_load ull_el_size ull_layout
             cc4_cmpr_unsigned_long_long_eq ull_max_load_pos ull_max_load_le_1
             ltac:(unfold ull_el_size; lia) six_entry_map 33%Z 3%Z true
             (Some "el_dtor") (Some "key_dtor") (alloc_at 2) eq_refl)
      with (el0 := 30%Z).
    + apply alloc_at_succeeds.
    + apply six_entry_map_reachable.
    + apply six_entry_map_maps_3.
Defined.

Lemma sentinels_follow_handle_witness :
  (cc4_map_cap grown_map = cc4_map_cap one_entry_map →
   cc4_map_r_end grown_map = cc4_map_r_end one_entry_map
   ∧ cc4_map_end grown_map ull_el_size ull_layout
     = cc4_map_end one_entry_map ull_el_size ull_layout)
  ∧ (cc4_map_cap grown_map ≠ cc4_map_cap one_entry_map →
     (grown_map = cc4_map_placeholder
      ∨ ∃ id,
          alloc_at 2 None
            (sizeof_cc4_map_hdr_ty
             + CC4_BUCKET_SIZE ull_el_size ull_layout
               * Z.of_nat (cc4_map_cap grown_map))%Z = Some id
          ∧ cc4_map_r_end grown_map = (blk_heap id, 0%Z)
          ∧ cc4_map_end grown_map ull_el_size ull_layout
            = (blk_heap id,
               (sizeof_cc4_map_hdr_ty
                + CC4_BUCKET_SIZE ull_el_size ull_layout
                  * Z.of_nat (cc4_map_cap grown_map))%Z))
     ∧ (hndl grown_map ≠ hndl one_entry_map →
        cc4_map_r_end grown_map ≠ cc4_map_r_end one_entry_map
        ∧ cc4_map_end grown_map ull_el_size ull_layout
          ≠ cc4_map_end one_entry_map ull_el_size ull_layout)).
Proof.
  apply (sentinels_follow_handle cc4_hash_unsigned_long_long
           cc4_cmpr_unsigned_long_long ull_max_load ull_el_size ull_layout
           cc4_cmpr_unsigned_long_long_eq ull_max_load_pos ull_max_load_le_1
           ltac:(unfold ull_el_size; lia) one_entry_map one_entry_map_reachable
           (alloc_at 2)
           (cc4_make_allocing_fn_result grown_map (Some cc4_dummy_true_ptr))
           [call_free (blk_heap 1, 0%Z)]).
  left. exists 7. vm_compute. reflexivity.
Defined.

Lemma init_clone_of_empty_is_placeholder_witness :
  (cc4_map_init_clone emptied_map ull_el_size ull_layout (alloc_at 5)
   = Some cc4_map_placeholder
   ∧ cc4_map_cap (@cc4_map_placeholder Z Z) = 0)
  ∧ ∃ clone, cc4_map_init_clone one_entry_map ull_el_size ull_layout (alloc_at 5)
             = Some clone
             ∧ hndl clone = blk_heap 5
             ∧ cc4_map_size clone = cc4_map_size one_entry_map
             ∧ cc4_map_cap clone = cc4_map_cap one_entry_map
             ∧ bkts clone = bkts one_entry_map.
Proof.
  split.
  - apply (proj1 (init_clone_of_empty_is_placeholder emptied_map ull_el_size
                    ull_layout (alloc_at 5))). reflexivity.
  - apply (proj2 (init_clone_of_empty_is_placeholder one_entry_map ull_el_size
                    ull_layout (alloc_at 5))). vm_compute. discriminate.
Defined.

(** * Part IV: further properties of the code *)

(** ** Where an insertion puts the pair *)

Section insert_position.
Context {K E : Type} (cap : nat) (Hcap : pow2 cap).
Implicit Types (bs : list (bucket K E)) (b : bucket K E).

(** The displacement loop changes buckets between its start and the
    first empty bucket only. *)
Lemma steal_outside fuel bs j el k c e bs' :
  length bs = cap → j < cap → e < cap → plen bs e = 0 →
  cc4_map_insert_raw_steal fuel cap bs j el k c = Some bs' →
  ∀ x, x < cap → dist cap j e < dist cap j x → bs' !! x = bs !! x.
Proof.
  revert bs j el k c.
  induction fuel as [|fuel IH]; intros bs j el k c Hlen Hj He Hpe Hrun x Hx Hd;
    [done|].
  cbn [cc4_map_insert_raw_steal] in Hrun.
  destruct (bs !! j) as [b|] eqn:Hb; [|done]. cbn [mbind option_bind] in Hrun.
  assert (x ≠ j) as Hxj by (intros ->; rewrite dist_self in Hd; lia).
  destruct (Nat.eqb_spec (b_probelen b) 0) as [Hb0|Hb0].
  { simplify_eq. by rewrite list_lookup_insert_ne. }
  assert (j ≠ e) as Hje.
  { intros ->. rewrite (plen_lookup _ _ _ Hb) in Hpe. done. }
  pose proof (next_lt cap j Hcap) as Hn.
  pose proof (dist_next_l cap j e Hcap Hj He Hje) as Hde.
  pose proof (dist_next_l cap j x Hcap Hj Hx (not_eq_sym Hxj)) as Hdx.
  destruct (b_probelen b <? c).
  - assert (bs' !! x = <[j:=Bucket el k c]> bs !! x) as ->.
    { apply (IH _ _ _ _ _ (eq_trans (length_insert _ _ _) Hlen) Hn He
               (eq_trans (plen_insert_ne _ _ _ _ Hje) Hpe) Hrun x Hx). lia. }
    by rewrite list_lookup_insert_ne.
  - apply (IH _ _ _ _ _ Hlen Hn He Hpe Hrun x Hx). lia.
Qed.

(** The candidate ends up in the bucket where the displacement starts. *)
Lemma steal_first fuel bs i el k c e bs' :
  length bs = cap → i < cap → e < cap → plen bs e = 0 → plen bs i < c →
  cc4_map_insert_raw_steal fuel cap bs i el k c = Some bs' →
  bs' !! i = Some (Bucket el k c).
Proof.
  intros Hlen Hi He Hpe Hlt Hrun. destruct fuel as [|fuel]; [done|].
  cbn [cc4_map_insert_raw_steal] in Hrun.
  destruct (bs !! i) as [b|] eqn:Hb; [|done]. cbn [mbind option_bind] in Hrun.
  rewrite (plen_lookup _ _ _ Hb) in Hlt.
  destruct (Nat.eqb_spec (b_probelen b) 0) as [Hb0|Hb0].
  { simplify_eq. apply list_lookup_insert_eq. lia. }
  destruct (Nat.ltb_spec (b_probelen b) c); [|lia].
  assert (i ≠ e) as Hie.
  { intros ->. rewrite (plen_lookup _ _ _ Hb) in Hpe. done. }
  pose proof (next_lt cap i Hcap) as Hn.
  rewrite (steal_outside _ _ _ _ _ _ e _ (eq_trans (length_insert _ _ _) Hlen)
             Hn He (eq_trans (plen_insert_ne _ _ _ _ Hie) Hpe) Hrun i Hi).
  - apply list_lookup_insert_eq. lia.
  - rewrite (dist_next_self cap i Hcap Hi).
    pose proof (dist_next_l cap i e Hcap Hi He Hie).
    pose proof (dist_lt cap i e Hi He). lia.
Qed.

End insert_position.

(** ** Occupied buckets *)

Section occupied_buckets.
Context {K E : Type}.
Implicit Types (bs : list (bucket K E)) (b : bucket K E).

Lemma occupied_app i bs1 bs2 :
  occupied i (bs1 ++ bs2) = occupied i bs1 ++ occupied (i + length bs1) bs2.
Proof.
  revert i. induction bs1 as [|b bs1 IH]; intros i; cbn [app occupied length].
  - by rewrite Nat.add_0_r.
  - rewrite IH. replace (S i + length bs1) with (i + S (length bs1)) by lia.
    by destruct (b_probelen b =? 0).
Qed.

Lemma length_occupied i bs : length (occupied i bs) = length (entries bs).
Proof.
  revert i. induction bs as [|b bs IH]; intros i; [done|].
  cbn [occupied]. rewrite entries_cons.
  destruct (Nat.eqb_spec (b_probelen b) 0) as [Hb|Hb].
  - by rewrite (live_empty b Hb), IH.
  - rewrite (live_occupied b Hb). cbn. by rewrite IH.
Qed.

Lemma elem_of_occupied i bs x :
  x ∈ occupied i bs ↔ ∃ b, i ≤ x ∧ bs !! (x - i) = Some b ∧ b_probelen b ≠ 0.
Proof.
  revert i. induction bs as [|b bs IH]; intros i; cbn [occupied].
  { split; [by intros ?%elem_of_nil|]. intros (b & _ & Hb & _).
    by rewrite lookup_nil in Hb. }
  assert (x ∈ occupied (S i) bs
          ↔ ∃ b', S i ≤ x ∧ (b :: bs) !! (x - i) = Some b' ∧ b_probelen b' ≠ 0)
    as Htail.
  { rewrite IH. split; intros (b' & Hle & Hb' & Hocc); exists b';
      (split; [done|]); (split; [|done]).
    - replace (x - i) with (S (x - S i)) by lia. done.
    - replace (x - i) with (S (x - S i)) in Hb' by lia. done. }
  destruct (Nat.eqb_spec (b_probelen b) 0) as [Hb0|Hb0].
  - rewrite Htail. split; intros (b' & Hle & Hb' & Hocc); exists b'.
    + split; [lia|done].
    + split; [|done]. destruct (decide (x = i)) as [->|]; [|lia].
      rewrite Nat.sub_diag in Hb'. cbn in Hb'. congruence.
  - rewrite elem_of_cons, Htail. split.
    + intros [->|(b' & Hle & Hb' & Hocc)].
      * exists b. rewrite Nat.sub_diag. done.
      * exists b'. split; [lia|done].
    + intros (b' & Hle & Hb' & Hocc).
      destruct (decide (x = i)) as [->|]; [by left|right].
      exists b'. split; [lia|done].
Qed.

Lemma occupied_holds (cntr : cntr_ty K E) i :
  i ∈ occupied 0 (bkts cntr) ↔ ∃ key el, holds cntr i key el.
Proof.
  rewrite elem_of_occupied, Nat.sub_0_r. unfold holds. split.
  - intros (b & _ & Hb & Hocc). exists (b_key b), (b_el b), b. done.
  - intros (key & el & b & Hb & Hocc & _). exists b. split; [lia|done].
Qed.

(** The destructor calls of the loop of [cc4_map_clear]. *)
Lemma clear_loop_events (cntr : cntr_ty K E) el_size layout el_dtor key_dtor i bs :
  (cc4_map_clear_loop cntr el_size layout el_dtor key_dtor i bs).2
  = flat_map (λ j, call_if key_dtor (cc4_map_key cntr j el_size layout)
                   ++ call_if el_dtor (cc4_map_el cntr j el_size layout))
      (occupied i bs).
Proof.
  revert i. induction bs as [|b bs IH]; intros i; [done|].
  cbn [cc4_map_clear_loop occupied]. specialize (IH (S i)).
  destruct (cc4_map_clear_loop cntr el_size layout el_dtor key_dtor (S i) bs)
    as [rest evs]. cbn [snd] in IH.
  destruct (b_probelen b =? 0); cbn [snd flat_map]; [done|].
  by rewrite IH, <- app_assoc.
Qed.

End occupied_buckets.

(** ** Insertion, seen from the caller *)

Section insert_exact.
Context {K E : Type} `{Inhabited K, Inhabited E}.
Context (hash : K -> Z) (cmpr : K -> K -> Z).
Context (cmpr_eq : ∀ k1 k2, cmpr k1 k2 = 0%Z ↔ k1 = k2).
Implicit Types (cntr : cntr_ty K E) (b : bucket K E).

(** [cc4_map_get] returns the bucket that holds the key. *)
Lemma get_holds cntr i key el el_size layout :
  wf hash cntr → holds cntr i key el →
  cc4_map_get cntr key el_size layout hash cmpr
  = Some (Some (cc4_map_el cntr i el_size layout)).
Proof.
  intros Hwf (b & Hb & Hocc & Hk & He).
  destruct (get_present hash cmpr cmpr_eq cntr key el el_size layout Hwf)
    as (x & Hget & bx & Hbx & Hoccx & Hkx & Hex).
  { apply elem_of_entries. eauto 6. }
  rewrite Hget. do 3 f_equal.
  apply (nodup_keys_index (bkts cntr) x i bx b); auto; [apply Hwf|congruence].
Qed.

Lemma holds_maps_to cntr i key el : holds cntr i key el → maps_to cntr key el.
Proof. intros Hh. by exists i. Qed.

Lemma maps_to_perm cntr cntr' :
  entries (bkts cntr') ≡ₚ entries (bkts cntr) →
  ∀ key el, maps_to cntr' key el ↔ maps_to cntr key el.
Proof. intros Hp key el. by rewrite !maps_to_entries, Hp. Qed.

(** [cc4_map_insert_raw] with its result pointer and its destructor
    calls. *)
Lemma insert_raw_exact cntr el key replace el_size layout el_dtor key_dtor :
  wf hash cntr → size cntr < cap cntr →
  ∃ cntr' i evs,
    cc4_map_insert_raw cntr el key replace el_size layout hash cmpr
      el_dtor key_dtor = Some (cntr', cc4_map_el cntr i el_size layout, evs)
    ∧ wf hash cntr' ∧ hndl cntr' = hndl cntr ∧ cap cntr' = cap cntr
    ∧ inserted key el replace (entries (bkts cntr)) (entries (bkts cntr'))
    ∧ (((key ∉ (entries (bkts cntr)).*1) ∧ holds cntr' i key el ∧ evs = []
        ∧ size cntr' = S (size cntr))
       ∨ (∃ el0, holds cntr i key el0 ∧ size cntr' = size cntr
                 ∧ if replace
                   then holds cntr' i key el
                        ∧ evs = call_if key_dtor (cc4_map_key cntr i el_size layout)
                                ++ call_if el_dtor (cc4_map_el cntr i el_size layout)
                   else cntr' = cntr ∧ evs = [])).
Proof.
  intros Hwf Hs.
  destruct (key_present_or_absent cmpr cmpr_eq (entries (bkts cntr)) key)
    as [[el0 Hin]|Hnew].
  - destruct (probe_present hash cmpr cmpr_eq cntr key el0 Hwf Hin)
      as (x & b & Hprobe & Hb & Hocc & Hk & He).
    assert (holds cntr x key el0) as Hold by (by exists b).
    unfold cc4_map_insert_raw. rewrite insert_raw_loop_probe, Hprobe, Hb.
    cbn [mbind option_bind].
    destruct replace.
    + destruct (replace_wf hash cntr x b el key Hwf Hb Hocc Hk) as [Hwf' Hperm].
      eexists _, x, _. split; [done|].
      split; [done|]. split; [done|]. split; [done|]. split.
      * right. exists el0. split; [done|]. cbn [bkts]. by rewrite <- He.
      * right. exists el0. split; [done|]. split; [done|]. split; [|done].
        eexists. cbn [bkts].
        split; [apply list_lookup_insert_eq; by eapply lookup_lt_Some|by cbn].
    + eexists _, x, _. split; [done|].
      split; [done|]. split; [done|]. split; [done|]. split.
      * right. exists el0. done.
      * right. exists el0. done.
  - assert (pow2 (cap cntr)) as Hp by (apply (wf_cap_pow2 hash); [done|lia]).
    destruct (wf_empty_slot hash cntr Hwf Hs) as (e & He & Hpe).
    pose proof (mask_lt (hash key) (cap cntr) Hp) as Hh.
    pose proof (dist_lt (cap cntr) _ e Hh He).
    destruct (probe_stop_spec hash (cap cntr) Hp cmpr (S (cap cntr))
                (bkts cntr) key (mask (hash key) (cap cntr)) 1 e)
      as (i & c & Hprobe & Hi & Hlt & Hc & Hce & Hfit);
      [apply Hwf|done|done|done|by apply (absent_no_equal_key cmpr cmpr_eq)|
       by rewrite dist_self|lia|intros; lia|lia|].
    destruct (steal_wf hash cntr el key i c e) as (bs' & Hrun & Hwf' & Hperm); auto.
    pose proof (steal_first (cap cntr) Hp _ _ _ _ _ _ _ _ (wf_len _ _ Hwf) Hi He
                  Hpe Hlt Hrun) as Hfirst.
    unfold cc4_map_insert_raw.
    rewrite insert_raw_loop_probe, Hprobe. rewrite Hrun.
    cbn [mbind option_bind]. eexists _, i, _. split; [done|].
    split; [done|]. split; [done|]. split; [done|]. split.
    + by left.
    + left. split; [done|]. split; [|done].
      eexists. cbn [bkts]. split; [exact Hfirst|].
      cbn. split; [lia|done].
Qed.

Context (max_load : Q) (Hpos : (0 < max_load)%Q) (Hle1 : (max_load <= 1)%Q).

(** [cc4_map_insert] is [cc4_map_insert_raw] on the map itself, or on the
    map that [cc4_map_reserve] has moved into a larger array. *)
Lemma insert_via_raw cntr el key replace el_size layout el_dtor key_dtor realloc_ :
  wf hash cntr → within_load max_load cntr →
  (exceeds_load (size cntr + 1) (cap cntr) max_load = true
   ∧ cc4_map_insert cntr el key replace el_size layout hash cmpr max_load
       el_dtor key_dtor realloc_
     = Some (cc4_make_allocing_fn_result cntr None, []))
  ∨ ∃ cntr1 evs1,
      wf hash cntr1 ∧ size cntr1 = size cntr ∧ size cntr1 < cap cntr1
      ∧ exceeds_load (size cntr1 + 1) (cap cntr1) max_load = false
      ∧ entries (bkts cntr1) ≡ₚ entries (bkts cntr)
      ∧ (∀ f p, call_dtor f p ∉ evs1)
      ∧ (exceeds_load (size cntr + 1) (cap cntr) max_load = false →
         cntr1 = cntr ∧ evs1 = [])
      ∧ cc4_map_insert cntr el key replace el_size layout hash cmpr max_load
          el_dtor key_dtor realloc_
        = '(cntr', new_el, evs') ← cc4_map_insert_raw cntr1 el key replace el_size
                                     layout hash cmpr el_dtor key_dtor;
          Some (cc4_make_allocing_fn_result cntr' (Some new_el), evs1 ++ evs').
Proof.
  intros Hwf Hload. unfold cc4_map_insert, cc4_map_size, cc4_map_cap.
  destruct (exceeds_load (size cntr + 1) (cap cntr) max_load) eqn:Hex.
  - destruct (reserve_spec hash max_load Hpos Hle1 cntr (size cntr + 1)
                el_size layout realloc_ Hwf Hload)
      as (c & Hc & [[Hle Hrun]|[(Hlt & Hr & Hrun)|(Hlt & id & cntr1 & Hr & Hrun
            & Hwf1 & Hload1 & Hh1 & Hc1 & Hs1 & Hperm1)]]).
    + destruct (min_cap_for_n_els_spec max_load Hpos (size cntr + 1))
        as (c' & Hc' & _ & _ & Hin & _); [lia|].
      assert (c' = c) as -> by congruence.
      pose proof (exceeds_load_cap_lt max_load Hpos _ _ _ Hex Hin). lia.
    + left. split; [done|]. by rewrite Hrun.
    + right. exists cntr1, (free_unless_placeholder cntr).
      destruct (min_cap_for_n_els_spec max_load Hpos (size cntr + 1))
        as (c' & Hc' & _ & _ & Hin & _); [lia|].
      assert (c' = c) as -> by congruence.
      assert (exceeds_load (size cntr1 + 1) (cap cntr1) max_load = false) as Hroom
        by (by rewrite Hs1, Hc1).
      pose proof (within_load_le_cap max_load Hpos Hle1 _ _ Hroom).
      split; [done|]. split; [done|]. split; [lia|]. split; [done|].
      split; [done|]. split; [|split; [done|by rewrite Hrun]].
      intros f p. unfold free_unless_placeholder.
      destruct (cc4_map_is_placeholder cntr).
      * apply not_elem_of_nil.
      * intros Hin'. apply list_elem_of_singleton in Hin'. done.
  - right. exists cntr, [].
    pose proof (within_load_le_cap max_load Hpos Hle1 _ _ Hex).
    split; [done|]. split; [done|]. split; [lia|]. split; [done|].
    split; [done|]. split; [intros f p; apply not_elem_of_nil|]. split; [done|].
    destruct (cc4_map_insert_raw cntr el key replace el_size layout hash cmpr
                el_dtor key_dtor) as [[[cntr' new_el] evs']|]; done.
Qed.

End insert_exact.

(** ** Further properties of maps *)

Section map_properties.
Context {K E : Type} `{Inhabited K, Inhabited E}.
Context (hash : K -> Z) (cmpr : K -> K -> Z).
Context (max_load : Q) (el_size layout : Z).
Context (cmpr_eq : ∀ k1 k2, cmpr k1 k2 = 0%Z ↔ k1 = k2).
Context (Hpos : (0 < max_load)%Q) (Hle1 : (max_load <= 1)%Q).
Context (Hel : (0 <= el_size)%Z).
Implicit Types (cntr : cntr_ty K E).

(** The pointer that [cc4_map_insert] returns on success points to the
    bucket of the key, and [cc4_map_get] returns the same pointer
    afterwards.  The bucket holds the new element when the key is new or
    [replace] is set, and the element the key had otherwise. *)
Theorem insert_returns_the_bucket cntr el key replace el_dtor key_dtor realloc_ :
  reachable hash cmpr max_load el_size layout cntr →
  ∃ result evs,
    cc4_map_insert cntr el key replace el_size layout hash cmpr max_load
      el_dtor key_dtor realloc_ = Some (result, evs)
    ∧ ∀ p, other_ptr result = Some p →
        ∃ i el1,
          p = cc4_map_el (new_cntr result) i el_size layout
          ∧ holds (new_cntr result) i key el1
          ∧ cc4_map_get (new_cntr result) key el_size layout hash cmpr
            = Some (Some p)
          ∧ (replace = true → el1 = el)
          ∧ ((∀ el0, ¬ maps_to cntr key el0) → el1 = el)
          ∧ (replace = false → ∀ el0, maps_to cntr key el0 → el1 = el0).
Proof.
  intros Hreach.
  destruct (reachable_wf hash cmpr max_load el_size layout cmpr_eq Hpos Hle1 Hel
              cntr Hreach) as [Hwf Hload].
  destruct (insert_via_raw hash cmpr max_load Hpos Hle1 cntr el key replace
              el_size layout el_dtor key_dtor realloc_ Hwf Hload)
    as [[_ Hrun]|(cntr1 & evs1 & Hwf1 & Hs1 & Hroom & _ & Hperm & _ & _ & Hrun)].
  { eexists _, _. split; [exact Hrun|]. intros p [=]. }
  destruct (insert_raw_exact hash cmpr cmpr_eq cntr1 el key replace el_size layout
              el_dtor key_dtor Hwf1 Hroom)
    as (cntr' & i & evs2 & Hraw & Hwf' & Hh & Hc & _ & Hcase).
  rewrite Hraw in Hrun. cbn [mbind option_bind] in Hrun.
  eexists _, _. split; [exact Hrun|]. cbn [other_ptr new_cntr].
  intros p [= <-].
  assert (cc4_map_el cntr1 i el_size layout = cc4_map_el cntr' i el_size layout)
    as Hptr by (unfold cc4_map_el; by rewrite Hh).
  pose proof (maps_to_perm cntr cntr1 Hperm) as Hsame.
  destruct Hcase as [(Hnew & Hnow & _ & _)|(el0 & Hold & _ & Hcase)].
  - exists i, el. split; [done|]. split; [done|]. split.
    { rewrite Hptr. by eapply (get_holds hash cmpr cmpr_eq). }
    split; [done|]. split; [done|]. intros _ el0 Hm. destruct Hnew.
    apply Hsame, maps_to_entries in Hm.
    apply list_elem_of_fmap. by exists (key, el0).
  - destruct replace.
    + destruct Hcase as [Hnow _]. exists i, el. split; [done|]. split; [done|].
      split; [rewrite Hptr; by eapply (get_holds hash cmpr cmpr_eq)|]. done.
    + destruct Hcase as [-> _]. exists i, el0. split; [done|]. split; [done|].
      split; [by eapply (get_holds hash cmpr cmpr_eq)|].
      split; [done|]. split.
      * intros Hno. destruct (Hno el0). apply Hsame. by exists i.
      * intros _ el0' Hm. apply Hsame in Hm.
        apply (maps_to_functional hash cntr1 key); [done|by exists i|done].
Qed.

(** Inserting a key that is in the map with [replace] unset calls no
    destructor and leaves every association as it was; unless the load
    factor asks for a larger array, the map is not touched at all. *)
Theorem insert_without_replace_keeps_the_map cntr el key el0 el_dtor key_dtor
    realloc_ :
  reachable hash cmpr max_load el_size layout cntr → maps_to cntr key el0 →
  ∃ result evs,
    cc4_map_insert cntr el key false el_size layout hash cmpr max_load
      el_dtor key_dtor realloc_ = Some (result, evs)
    ∧ (∀ f p, call_dtor f p ∉ evs)
    ∧ cc4_map_size (new_cntr result) = cc4_map_size cntr
    ∧ (∀ k e, maps_to (new_cntr result) k e ↔ maps_to cntr k e)
    ∧ (exceeds_load (cc4_map_size cntr + 1) (cc4_map_cap cntr) max_load = false →
       new_cntr result = cntr ∧ evs = []).
Proof.
  intros Hreach Hm.
  destruct (reachable_wf hash cmpr max_load el_size layout cmpr_eq Hpos Hle1 Hel
              cntr Hreach) as [Hwf Hload].
  unfold cc4_map_size, cc4_map_cap.
  destruct (insert_via_raw hash cmpr max_load Hpos Hle1 cntr el key false
              el_size layout el_dtor key_dtor realloc_ Hwf Hload)
    as [[Hex Hrun]|(cntr1 & evs1 & Hwf1 & Hs1 & Hroom & _ & Hperm & Hnd & Hsame
                    & Hrun)].
  { eexists _, _. split; [exact Hrun|]. cbn [new_cntr].
    split; [intros f p; apply not_elem_of_nil|]. split; [done|]. split; [done|].
    intros Hex'. congruence. }
  destruct (insert_raw_exact hash cmpr cmpr_eq cntr1 el key false el_size layout
              el_dtor key_dtor Hwf1 Hroom)
    as (cntr' & i & evs2 & Hraw & _ & _ & _ & _ & Hcase).
  rewrite Hraw in Hrun. cbn [mbind option_bind] in Hrun.
  eexists _, _. split; [exact Hrun|]. cbn [new_cntr].
  destruct Hcase as [(Hnew & _)|(el0' & _ & _ & -> & ->)].
  { destruct Hnew. apply (maps_to_perm cntr cntr1 Hperm), maps_to_entries in Hm.
    apply list_elem_of_fmap. by exists (key, el0). }
  rewrite app_nil_r. split; [done|]. split; [done|].
  split; [by apply maps_to_perm|]. intros Hex. by destruct (Hsame Hex) as [-> ->].
Qed.

(** Inserting a key that is in the map with [replace] set, with room
    left under the load factor: the key destructor and then the element
    destructor are called once, on the old key and the old element; the
    bucket keeps its place and now holds the new element; nothing else
    changes. *)
Theorem insert_replace_destroys_the_old_pair cntr el key el0 el_dtor key_dtor
    realloc_ :
  reachable hash cmpr max_load el_size layout cntr → maps_to cntr key el0 →
  exceeds_load (cc4_map_size cntr + 1) (cc4_map_cap cntr) max_load = false →
  ∃ i cntr',
    holds cntr i key el0
    ∧ cc4_map_insert cntr el key true el_size layout hash cmpr max_load
        el_dtor key_dtor realloc_
      = Some (cc4_make_allocing_fn_result cntr'
                (Some (cc4_map_el cntr i el_size layout)),
              call_if key_dtor (cc4_map_key cntr i el_size layout)
              ++ call_if el_dtor (cc4_map_el cntr i el_size layout))
    ∧ holds cntr' i key el
    ∧ hndl cntr' = hndl cntr
    ∧ cc4_map_cap cntr' = cc4_map_cap cntr
    ∧ cc4_map_size cntr' = cc4_map_size cntr
    ∧ ∀ k e, k ≠ key → (maps_to cntr' k e ↔ maps_to cntr k e).
Proof.
  intros Hreach Hm. unfold cc4_map_size, cc4_map_cap. intros Hex.
  destruct (reachable_wf hash cmpr max_load el_size layout cmpr_eq Hpos Hle1 Hel
              cntr Hreach) as [Hwf Hload].
  destruct (insert_via_raw hash cmpr max_load Hpos Hle1 cntr el key true
              el_size layout el_dtor key_dtor realloc_ Hwf Hload)
    as [[Hex' _]|(cntr1 & evs1 & _ & _ & _ & _ & _ & _ & Hsame & Hrun)];
    [congruence|].
  destruct (Hsame Hex) as [-> ->].
  pose proof (within_load_le_cap max_load Hpos Hle1 _ _ Hex) as Hroom.
  destruct (insert_raw_exact hash cmpr cmpr_eq cntr el key true el_size layout
              el_dtor key_dtor Hwf ltac:(lia))
    as (cntr' & i & evs2 & Hraw & Hwf' & Hh & Hc & Hins & Hcase).
  rewrite Hraw in Hrun. cbn [mbind option_bind app] in Hrun.
  destruct Hcase as [(Hnew & _)|(el0' & Hold & Hs & Hnow & ->)].
  { destruct Hnew. apply maps_to_entries in Hm.
    apply list_elem_of_fmap. by exists (key, el0). }
  assert (el0' = el0) as ->.
  { apply (maps_to_functional hash cntr key); [done|by exists i|done]. }
  exists i, cntr'. split; [done|]. split; [done|]. split; [done|].
  split; [done|]. split; [done|]. split; [done|].
  intros k e Hne. rewrite !maps_to_entries.
  rewrite (inserted_update _ _ key el true (wf_nodup _ _ Hwf) Hins); [|done].
  split; [intros [[? _]|[_ ?]]; done|]. intros Hin. by right.
Qed.

(** Erasing a key that is not in the map returns [NULL], calls no
    destructor and leaves the map as it is. *)
Theorem erase_of_missing_key_changes_nothing cntr key el_dtor key_dtor :
  reachable hash cmpr max_load el_size layout cntr →
  (∀ el, ¬ maps_to cntr key el) →
  cc4_map_erase cntr key el_size layout hash cmpr el_dtor key_dtor
  = Some (cntr, None, []).
Proof.
  intros Hreach Hno.
  destruct (reachable_wf hash cmpr max_load el_size layout cmpr_eq Hpos Hle1 Hel
              cntr Hreach) as [Hwf Hload].
  apply (erase_absent hash cmpr cmpr_eq); [done|].
  by apply absent_not_in_keys.
Qed.

(** Erasing a key that is in the map calls the key destructor and then
    the element destructor once, on the key and the element of the bucket
    that held the pair; the handle and the capacity stay as they are. *)
Theorem erase_destroys_the_erased_pair cntr key el el_dtor key_dtor :
  reachable hash cmpr max_load el_size layout cntr → maps_to cntr key el →
  ∃ i cntr',
    holds cntr i key el
    ∧ cc4_map_erase cntr key el_size layout hash cmpr el_dtor key_dtor
      = Some (cntr', Some cc4_dummy_true_ptr,
              call_if key_dtor (cc4_map_key cntr i el_size layout)
              ++ call_if el_dtor (cc4_map_el cntr i el_size layout))
    ∧ hndl cntr' = hndl cntr
    ∧ cc4_map_cap cntr' = cc4_map_cap cntr.
Proof.
  intros Hreach Hm.
  destruct (reachable_wf hash cmpr max_load el_size layout cmpr_eq Hpos Hle1 Hel
              cntr Hreach) as [Hwf Hload].
  pose proof Hm as Hin. apply maps_to_entries in Hin.
  destruct (probe_present hash cmpr cmpr_eq cntr key el Hwf Hin)
    as (x & b & Hprobe & Hb & Hocc & Hk & He).
  assert (holds cntr x key el) as Hx by (by exists b).
  destruct (erase_itr_spec hash cntr x key el el_size layout el_dtor key_dtor
              Hwf Hx Hel) as (cntr' & Hrun & _ & Hh & Hc & _).
  exists x, cntr'. split; [done|]. split; [|done].
  unfold cc4_map_erase, cc4_map_size.
  destruct (Nat.eqb_spec (size cntr) 0) as [Hs|Hs].
  { rewrite (wf_size _ _ Hwf) in Hs. apply length_zero_iff_nil in Hs.
    rewrite Hs in Hin. by apply elem_of_nil in Hin. }
  by rewrite erase_loop_probe, Hprobe, Hrun.
Qed.

(** Erasing through the pointer that [cc4_map_get] returned for a key
    does what erasing the key does. *)
Theorem erase_itr_of_found_key_is_erase cntr key p el_dtor key_dtor :
  reachable hash cmpr max_load el_size layout cntr →
  cc4_map_get cntr key el_size layout hash cmpr = Some (Some p) →
  ∃ cntr' evs,
    cc4_map_erase_itr cntr p el_size layout el_dtor key_dtor = Some (cntr', evs)
    ∧ cc4_map_erase cntr key el_size layout hash cmpr el_dtor key_dtor
      = Some (cntr', Some cc4_dummy_true_ptr, evs)
    ∧ cc4_map_get cntr' key el_size layout hash cmpr = Some None.
Proof.
  intros Hreach Hget.
  destruct (reachable_wf hash cmpr max_load el_size layout cmpr_eq Hpos Hle1 Hel
              cntr Hreach) as [Hwf Hload].
  unfold cc4_map_get, cc4_map_size in Hget. unfold cc4_map_erase, cc4_map_size.
  destruct (size cntr =? 0); [done|].
  rewrite get_loop_probe in Hget. rewrite erase_loop_probe.
  destruct (probe (S (cap cntr)) (cap cntr) (bkts cntr) cmpr key
              (mask (hash key) (cap cntr)) 1) as [[x|i c]|] eqn:Hprobe; [|done|done].
  injection Hget as <-.
  apply probe_found_inv in Hprobe as (bx & Hbx & Hocc & Heq); [|lia].
  apply cmpr_eq in Heq.
  assert (holds cntr x key (b_el bx)) as Hx by (by exists bx).
  destruct (erase_itr_spec hash cntr x key (b_el bx) el_size layout el_dtor
              key_dtor Hwf Hx Hel) as (cntr' & Hrun & Hwf' & _ & _ & _ & Hperm).
  rewrite Hrun. cbn [mbind option_bind]. eexists _, _.
  split; [done|]. split; [done|].
  apply (get_absent hash cmpr cmpr_eq); [done|].
  pose proof (wf_nodup _ _ Hwf) as Hnd. rewrite <- Hperm in Hnd.
  rewrite fmap_cons in Hnd. by apply NoDup_cons in Hnd as [Hout _].
Qed.


(** While the entries after the insertion fit under the load factor of
    the capacity (as they do after [cc4_map_reserve] for as many entries),
    [cc4_map_insert] succeeds whatever the allocator does, in the same
    block and with the same capacity, and frees nothing. *)
Theorem insert_with_room_keeps_the_block cntr n el key replace el_dtor key_dtor
    realloc_ :
  reachable hash cmpr max_load el_size layout cntr →
  exceeds_load n (cc4_map_cap cntr) max_load = false → cc4_map_size cntr < n →
  ∃ result evs,
    cc4_map_insert cntr el key replace el_size layout hash cmpr max_load
      el_dtor key_dtor realloc_ = Some (result, evs)
    ∧ other_ptr result ≠ None
    ∧ hndl (new_cntr result) = hndl cntr
    ∧ cc4_map_cap (new_cntr result) = cc4_map_cap cntr
    ∧ (∀ p, call_free p ∉ evs).
Proof.
  intros Hreach. unfold cc4_map_size, cc4_map_cap. intros Hn Hlt.
  destruct (reachable_wf hash cmpr max_load el_size layout cmpr_eq Hpos Hle1 Hel
              cntr Hreach) as [Hwf Hload].
  assert (exceeds_load (size cntr + 1) (cap cntr) max_load = false) as Hex
    by (apply (within_load_mono max_load Hpos n _ (cap cntr)); [done|lia|lia]).
  destruct (insert_via_raw hash cmpr max_load Hpos Hle1 cntr el key replace
              el_size layout el_dtor key_dtor realloc_ Hwf Hload)
    as [[Hex' _]|(cntr1 & evs1 & _ & _ & _ & _ & _ & _ & Hsame & Hrun)];
    [congruence|].
  destruct (Hsame Hex) as [-> ->].
  pose proof (within_load_le_cap max_load Hpos Hle1 _ _ Hex) as Hroom.
  destruct (insert_raw_exact hash cmpr cmpr_eq cntr el key replace el_size layout
              el_dtor key_dtor Hwf ltac:(lia))
    as (cntr' & i & evs2 & Hraw & Hwf' & Hh & Hc & Hins & Hcase).
  rewrite Hraw in Hrun. cbn [mbind option_bind app] in Hrun.
  eexists _, _. split; [exact Hrun|]. cbn [new_cntr other_ptr].
  split; [done|]. split; [done|]. split; [done|].
  assert (∀ p, call_free p ∉ call_if key_dtor (cc4_map_key cntr i el_size layout)
                           ++ call_if el_dtor (cc4_map_el cntr i el_size layout))
    as Hdtors.
  { intros p Hin. apply elem_of_app in Hin.
    destruct key_dtor, el_dtor; cbn in Hin;
      destruct Hin as [Hin|Hin];
      try (apply list_elem_of_singleton in Hin; done);
      by apply elem_of_nil in Hin. }
  intros p.
  destruct Hcase as [(_ & _ & -> & _)|(el0 & _ & _ & Hcase)];
    [apply not_elem_of_nil|].
  destruct replace.
  - destruct Hcase as [_ ->]. apply Hdtors.
  - destruct Hcase as [_ ->]. apply not_elem_of_nil.
Qed.

(** [cc4_map_shrink] returns.  The capacity [c] it aims at is the one that
    [cc4_map_min_cap_for_n_els] gives for the size.  A map that has it is
    returned as it is; a map without entries ends as the placeholder, its
    block freed; both succeed.  Otherwise [realloc_] is asked once, for a
    new block with the bytes of [c] buckets: when it returns no block the
    shrink fails and the map is returned as it is; when it returns a block
    the shrink succeeds, the map is in that block with capacity [c], and
    the old block is freed.  In every case no destructor is called and the
    size and every association are kept. *)
Theorem shrink_fits_the_capacity_to_the_size cntr realloc_ :
  reachable hash cmpr max_load el_size layout cntr →
  ∃ result evs c,
    cc4_map_shrink cntr el_size layout hash max_load realloc_
    = Some (result, evs)
    ∧ cc4_map_min_cap_for_n_els (cc4_map_size cntr) max_load = Some c
    ∧ (c = cc4_map_cap cntr →
       result = cc4_make_allocing_fn_result cntr (Some cc4_dummy_true_ptr)
       ∧ evs = [])
    ∧ (c ≠ cc4_map_cap cntr → cc4_map_size cntr = 0 →
       result = cc4_make_allocing_fn_result cc4_map_placeholder
                  (Some cc4_dummy_true_ptr)
       ∧ evs = free_unless_placeholder cntr)
    ∧ (c ≠ cc4_map_cap cntr → cc4_map_size cntr ≠ 0 →
       match realloc_ None
               (sizeof_cc4_map_hdr_ty
                + CC4_BUCKET_SIZE el_size layout * Z.of_nat c)%Z with
       | None => result = cc4_make_allocing_fn_result cntr None ∧ evs = []
       | Some id =>
           other_ptr result = Some cc4_dummy_true_ptr
           ∧ hndl (new_cntr result) = blk_heap id
           ∧ cc4_map_cap (new_cntr result) = c
           ∧ evs = free_unless_placeholder cntr
       end)
    ∧ (∀ f p, call_dtor f p ∉ evs)
    ∧ cc4_map_size (new_cntr result) = cc4_map_size cntr
    ∧ (∀ k e, maps_to (new_cntr result) k e ↔ maps_to cntr k e)
    ∧ (other_ptr result = None → new_cntr result = cntr ∧ evs = [])
    ∧ (other_ptr result ≠ None →
       cc4_map_min_cap_for_n_els (cc4_map_size cntr) max_load
       = Some (cc4_map_cap (new_cntr result)))
    ∧ (cc4_map_size cntr = 0 →
       other_ptr result ≠ None ∧ cc4_map_cap (new_cntr result) = 0
       ∧ evs = free_unless_placeholder cntr).
Proof.
  intros Hreach.
  destruct (reachable_wf hash cmpr max_load el_size layout cmpr_eq Hpos Hle1 Hel
              cntr Hreach) as [Hwf Hload].
  assert (∀ f p, call_dtor f p ∉ free_unless_placeholder cntr) as Hfree.
  { intros f p. unfold free_unless_placeholder.
    destruct (cc4_map_is_placeholder cntr); [apply not_elem_of_nil|].
    intros Hin. apply list_elem_of_singleton in Hin. done. }
  assert (∃ result evs c,
            cc4_map_shrink cntr el_size layout hash max_load realloc_
            = Some (result, evs)
            ∧ cc4_map_min_cap_for_n_els (size cntr) max_load = Some c
            ∧ (c = cap cntr →
               result = cc4_make_allocing_fn_result cntr (Some cc4_dummy_true_ptr)
               ∧ evs = [])
            ∧ (c ≠ cap cntr → size cntr = 0 →
               result = cc4_make_allocing_fn_result cc4_map_placeholder
                          (Some cc4_dummy_true_ptr)
               ∧ evs = free_unless_placeholder cntr)
            ∧ (c ≠ cap cntr → size cntr ≠ 0 →
               match realloc_ None
                       (sizeof_cc4_map_hdr_ty
                        + CC4_BUCKET_SIZE el_size layout * Z.of_nat c)%Z with
               | None => result = cc4_make_allocing_fn_result cntr None ∧ evs = []
               | Some id =>
                   other_ptr result = Some cc4_dummy_true_ptr
                   ∧ hndl (new_cntr result) = blk_heap id
                   ∧ cap (new_cntr result) = c
                   ∧ evs = free_unless_placeholder cntr
               end)
            ∧ (∀ f p, call_dtor f p ∉ evs)
            ∧ (other_ptr result = None → new_cntr result = cntr ∧ evs = [])
            ∧ (other_ptr result ≠ None →
               cc4_map_min_cap_for_n_els (size cntr) max_load
               = Some (cap (new_cntr result)))
            ∧ (size cntr = 0 →
               other_ptr result ≠ None ∧ cap (new_cntr result) = 0
               ∧ evs = free_unless_placeholder cntr))
    as (result & evs & c & Hrun & Hc & Hsame & Hempty0 & Hcall & Hnd & Hfail & Hok
        & Hempty).
  { unfold cc4_map_shrink, cc4_map_size, cc4_map_cap.
    destruct (decide (size cntr = 0)) as [Hs0|Hs0].
    - rewrite Hs0, min_cap_for_0. cbn [mbind option_bind].
      destruct (Nat.eqb_spec 0 (cap cntr)) as [Hc0|Hc0].
      + eexists _, _, 0. split; [done|]. cbn [new_cntr other_ptr].
        split; [done|]. split; [done|]. split; [done|]. split; [done|].
        split; [intros f p; apply not_elem_of_nil|]. split; [done|].
        split; [by rewrite <- Hc0|]. intros _. split; [done|]. split; [done|].
        unfold free_unless_placeholder, cc4_map_is_placeholder, cc4_map_cap.
        by rewrite <- Hc0.
      + cbn [Nat.eqb]. eexists _, _, 0. split; [done|]. cbn [new_cntr other_ptr].
        split; [done|]. split; [done|]. split; [done|]. split; [done|].
        split; [done|]. split; [done|]. split; [done|]. done.
    - destruct (min_cap_for_n_els_spec max_load Hpos (size cntr) Hs0)
        as (c & Hc & Hp & H8 & Hin & _).
      rewrite Hc. cbn [mbind option_bind].
      destruct (Nat.eqb_spec c (cap cntr)) as [Hcc|Hcc].
      { eexists _, _, c. split; [done|]. cbn [new_cntr other_ptr].
        split; [done|]. split; [done|]. split; [done|]. split; [done|].
        split; [intros f p; apply not_elem_of_nil|]. split; [done|].
        split; [by rewrite Hcc|done]. }
      destruct (Nat.eqb_spec c 0) as [?|_]; [lia|].
      destruct (realloc_ None
                  (sizeof_cc4_map_hdr_ty
                   + CC4_BUCKET_SIZE el_size layout * Z.of_nat c)%Z)
        as [id|] eqn:Hr.
      + pose proof (within_load_le_cap max_load Hpos Hle1 _ _ Hin) as Hsc.
        destruct (make_rehash_spec hash cntr c el_size layout realloc_ id)
          as (cntr' & Hrun & _ & Hh' & Hc' & _); [done|done|lia|done|].
        rewrite Hrun. eexists _, _, c. split; [done|]. cbn [new_cntr other_ptr].
        split; [done|]. split; [done|]. split; [done|].
        split; [intros _ _; by rewrite Hr|].
        split; [done|]. split; [done|]. split; [by rewrite Hc'|done].
      + rewrite (make_rehash_fail hash cntr c el_size layout realloc_ Hr).
        eexists _, _, c. split; [done|]. cbn [new_cntr other_ptr].
        split; [done|]. split; [done|]. split; [done|].
        split; [intros _ _; by rewrite Hr|].
        split; [intros f p; apply not_elem_of_nil|]. done. }
  destruct (shrink_spec hash max_load Hpos Hle1 cntr el_size layout realloc_
              result evs Hwf Hload Hrun) as (_ & _ & Hs & Hperm & _).
  exists result, evs, c. unfold cc4_map_size, cc4_map_cap.
  split; [done|]. split; [done|]. split; [done|]. split; [done|].
  split; [done|]. split; [done|]. split; [done|].
  split; [by apply maps_to_perm|]. done.
Qed.

(** [cc4_map_clear] calls the key destructor and then the element
    destructor on every occupied bucket, in index order, once; it leaves
    no entry ([cc4_map_get] finds no key) and keeps the block and its
    capacity. *)
Theorem clear_destroys_every_pair cntr el_dtor key_dtor :
  reachable hash cmpr max_load el_size layout cntr →
  ∃ cntr',
    cc4_map_clear cntr el_size layout el_dtor key_dtor
    = (cntr',
       flat_map (λ i, call_if key_dtor (cc4_map_key cntr i el_size layout)
                      ++ call_if el_dtor (cc4_map_el cntr i el_size layout))
         (occupied 0 (bkts cntr)))
    ∧ length (occupied 0 (bkts cntr)) = cc4_map_size cntr
    ∧ cc4_map_size cntr' = 0
    ∧ cc4_map_cap cntr' = cc4_map_cap cntr
    ∧ hndl cntr' = hndl cntr
    ∧ (∀ key el, ¬ maps_to cntr' key el)
    ∧ (∀ key, cc4_map_get cntr' key el_size layout hash cmpr = Some None).
Proof.
  intros Hreach.
  destruct (reachable_wf hash cmpr max_load el_size layout cmpr_eq Hpos Hle1 Hel
              cntr Hreach) as [Hwf Hload].
  destruct (clear_wf hash cntr el_size layout el_dtor key_dtor Hwf)
    as (Hwf' & Hs' & Hc' & Hh').
  pose proof (length_occupied 0 (bkts cntr)) as Hlen.
  rewrite <- (wf_size _ _ Hwf) in Hlen.
  exists (cc4_map_clear cntr el_size layout el_dtor key_dtor).1.
  unfold cc4_map_size, cc4_map_cap.
  split; [|split; [done|split; [done|split; [done|split; [done|split]]]]].
  - unfold cc4_map_clear, cc4_map_size.
    destruct (Nat.eqb_spec (size cntr) 0) as [Hs|Hs].
    + rewrite Hs in Hlen. apply length_zero_iff_nil in Hlen. by rewrite Hlen.
    + pose proof (clear_loop_events cntr el_size layout el_dtor key_dtor 0
                    (bkts cntr)) as Hev.
      destruct (cc4_map_clear_loop cntr el_size layout el_dtor key_dtor 0
                  (bkts cntr)) as [bs' evs]. cbn [fst snd] in Hev |- *.
      by rewrite Hev.
  - intros key el Hm. apply maps_to_entries in Hm.
    pose proof (wf_size _ _ Hwf') as Hsz. rewrite Hs' in Hsz.
    symmetry in Hsz. apply length_zero_iff_nil in Hsz. rewrite Hsz in Hm.
    by apply elem_of_nil in Hm.
  - intros key. unfold cc4_map_get, cc4_map_size. by rewrite Hs'.
Qed.

(** What holds of every map the library can build: the bucket array has
    [cap] buckets, [cap] is zero or a power of two from 8 on, [size] counts
    the occupied buckets and is within the load factor, and no key is in
    two buckets. *)
Theorem reachable_map_invariant cntr :
  reachable hash cmpr max_load el_size layout cntr →
  length (bkts cntr) = cc4_map_cap cntr
  ∧ (cc4_map_cap cntr = 0 ∨ (pow2 (cc4_map_cap cntr) ∧ 8 ≤ cc4_map_cap cntr))
  ∧ cc4_map_size cntr = length (occupied 0 (bkts cntr))
  ∧ cc4_map_size cntr ≤ cc4_map_cap cntr
  ∧ exceeds_load (cc4_map_size cntr) (cc4_map_cap cntr) max_load = false
  ∧ (∀ i j key el1 el2, holds cntr i key el1 → holds cntr j key el2 → i = j).
Proof.
  intros Hreach. unfold cc4_map_size, cc4_map_cap.
  destruct (reachable_wf hash cmpr max_load el_size layout cmpr_eq Hpos Hle1 Hel
              cntr Hreach) as [Hwf Hload].
  split; [apply Hwf|]. split.
  { assert (cap cntr = 0 ∨ 8 ≤ cap cntr) as [?|H8]; [|by left|].
    2: { right. split; [|done]. apply (wf_cap_pow2 hash); [done|lia]. }
    clear Hwf Hload.
    induction Hreach as
      [ | cntr el key replace el_dtor key_dtor realloc_ result evs Hr IH Hrun
        | cntr key el_dtor key_dtor cntr' res evs Hr IH Hrun
        | cntr i key el el_dtor key_dtor cntr' evs Hr IH Hholds Hrun
        | cntr n realloc_ result evs Hr IH Hrun
        | cntr realloc_ result evs Hr IH Hrun
        | cntr el_dtor key_dtor Hr IH
        | cntr realloc_ cntr' Hr IH Hrun ];
      try (destruct (reachable_wf hash cmpr max_load el_size layout cmpr_eq Hpos
                       Hle1 Hel cntr Hr) as [Hwf Hload]).
    - by left.
    - destruct (insert_spec hash cmpr cmpr_eq max_load Hpos Hle1 cntr el key
                  replace el_size layout el_dtor key_dtor realloc_ Hwf Hload)
        as (result' & evs' & Hrun' & _ & _ & Hres).
      rewrite Hrun in Hrun'. simplify_eq.
      destruct (other_ptr result'); [|by destruct Hres as [-> _]].
      destruct Hres as [_ Hcap].
      destruct (exceeds_load (size cntr + 1) (cap cntr) max_load).
      + destruct (min_cap_for_n_els_spec max_load Hpos (size cntr + 1))
          as (c & Hc & _ & H8 & _); [lia|]. right. congruence.
      + destruct Hcap as [-> _]. done.
    - destruct (key_present_or_absent cmpr cmpr_eq (entries (bkts cntr)) key)
        as [[el Hin]|Hout].
      + destruct (erase_present hash cmpr cmpr_eq cntr key el el_size layout
                    el_dtor key_dtor Hwf Hin Hel)
          as (cntr'' & evs' & Hrun' & _ & _ & Hc & _).
        rewrite Hrun in Hrun'. simplify_eq. by rewrite Hc.
      + rewrite (erase_absent hash cmpr cmpr_eq cntr key el_size layout
                   el_dtor key_dtor Hwf Hout) in Hrun. by simplify_eq.
    - destruct (erase_itr_spec hash cntr i key el el_size layout el_dtor key_dtor
                  Hwf Hholds Hel) as (cntr'' & Hrun' & _ & _ & Hc & _).
      rewrite Hrun in Hrun'. simplify_eq. by rewrite Hc.
    - destruct (reserve_spec hash max_load Hpos Hle1 cntr n el_size layout
                  realloc_ Hwf Hload)
        as (c & Hc & [[Hle Hrun']|[(Hlt & Hr' & Hrun')|(Hlt & id & cntr1 & Hr'
              & Hrun' & _ & _ & _ & Hc1 & _)]]);
        rewrite Hrun in Hrun'; simplify_eq; cbn [new_cntr]; try done.
      destruct (decide (n = 0)) as [->|Hn].
      + rewrite min_cap_for_0 in Hc. simplify_eq. lia.
      + destruct (min_cap_for_n_els_spec max_load Hpos n Hn)
          as (c' & Hc' & _ & H8 & _). right. congruence.
    - unfold cc4_map_shrink, cc4_map_size, cc4_map_cap in Hrun.
      destruct (decide (size cntr = 0)) as [Hs0|Hs0].
      + rewrite Hs0, min_cap_for_0 in Hrun. cbn [mbind option_bind] in Hrun.
        destruct (0 =? cap cntr); cbn [Nat.eqb] in Hrun; simplify_eq;
          cbn [new_cntr]; [done|by left].
      + destruct (min_cap_for_n_els_spec max_load Hpos (size cntr) Hs0)
          as (c & Hc & Hp & H8 & Hin & _).
        rewrite Hc in Hrun. cbn [mbind option_bind] in Hrun.
        destruct (c =? cap cntr); [by simplify_eq|].
        destruct (Nat.eqb_spec c 0) as [?|_]; [lia|].
        destruct (realloc_ None
                    (sizeof_cc4_map_hdr_ty
                     + CC4_BUCKET_SIZE el_size layout * Z.of_nat c)%Z)
          as [id|] eqn:Hr'.
        * pose proof (within_load_le_cap max_load Hpos Hle1 _ _ Hin) as Hsc.
          destruct (make_rehash_spec hash cntr c el_size layout realloc_ id)
            as (cntr' & Hrun' & _ & _ & Hc' & _); [done|done|lia|done|].
          rewrite Hrun' in Hrun. cbn [mbind option_bind] in Hrun. simplify_eq.
          cbn [new_cntr]. right. lia.
        * rewrite (make_rehash_fail hash cntr c el_size layout realloc_ Hr')
            in Hrun. cbn [mbind option_bind] in Hrun. by simplify_eq.
    - destruct (clear_wf hash cntr el_size layout el_dtor key_dtor Hwf)
        as (_ & _ & Hc & _). by rewrite Hc.
    - destruct (init_clone_wf hash cntr el_size layout realloc_ cntr' Hwf Hrun)
        as (_ & _ & Hne & Heq).
      destruct (decide (size cntr = 0)) as [Hs0|Hs0].
      + rewrite (Heq Hs0). by left.
      + destruct (Hne Hs0) as [-> _]. done. }
  split; [by rewrite length_occupied; apply Hwf|].
  split; [by apply (wf_size_le_cap hash)|]. split; [done|].
  intros i j key el1 el2 (bi & Hbi & Hoi & Hki & _) (bj & Hbj & Hoj & Hkj & _).
  apply (nodup_keys_index (bkts cntr) i j bi bj); auto; [apply Hwf|congruence].
Qed.

End map_properties.

(** ** Iteration *)

Section iteration.
Context {K E : Type} (cntr : cntr_ty K E) (el_size layout : Z).
Context (Hel : (0 <= el_size)%Z) (Hlen : length (bkts cntr) = cap cntr).

Lemma el_ptr_inj i j :
  cc4_map_el cntr i el_size layout = cc4_map_el cntr j el_size layout → i = j.
Proof.
  unfold cc4_map_el. intros [= Heq].
  pose proof (CC4_BUCKET_SIZE_pos el_size layout Hel). nia.
Qed.

Lemma el_ne_r_end i : cc4_map_el cntr i el_size layout ≠ cc4_map_r_end cntr.
Proof.
  unfold cc4_map_el, cc4_map_r_end, sizeof_cc4_map_hdr_ty. intros [= Heq].
  pose proof (CC4_BUCKET_SIZE_pos el_size layout Hel). nia.
Qed.

Lemma next_el i :
  cc4_map_next cntr (cc4_map_el cntr i el_size layout) el_size layout
  = Some (cc4_map_el cntr (cc4_map_next_loop cntr (cap cntr - S i) (S i))
            el_size layout).
Proof. unfold cc4_map_next. by rewrite index_of_itr_el. Qed.

Lemma prev_el i :
  cc4_map_prev cntr (cc4_map_el cntr i el_size layout) el_size layout
  = Some (cc4_map_prev_loop cntr el_size layout i).
Proof. unfold cc4_map_prev. by rewrite index_of_itr_el. Qed.

Lemma next_loop_spec n j :
  length (bkts cntr) = j + n →
  cc4_map_next_loop cntr n j
  = default (j + n) (head (occupied j (drop j (bkts cntr)))).
Proof.
  revert j. induction n as [|n IH]; intros j Hl.
  - rewrite drop_ge by lia. cbn. lia.
  - destruct (lookup_lt_is_Some_2 (bkts cntr) j) as [b Hb]; [lia|].
    rewrite (drop_S _ _ _ Hb). cbn [cc4_map_next_loop occupied]. rewrite Hb.
    destruct (b_probelen b =? 0); [|done].
    rewrite IH by lia. by replace (S j + n) with (j + S n) by lia.
Qed.

Lemma first_loop_spec n i :
  length (bkts cntr) = i + n →
  cc4_map_first_loop cntr el_size layout n i
  = (λ j, cc4_map_el cntr j el_size layout)
      <$> head (occupied i (drop i (bkts cntr))).
Proof.
  revert i. induction n as [|n IH]; intros i Hl.
  - by rewrite drop_ge by lia.
  - destruct (lookup_lt_is_Some_2 (bkts cntr) i) as [b Hb]; [lia|].
    rewrite (drop_S _ _ _ Hb). cbn [cc4_map_first_loop occupied]. rewrite Hb.
    destruct (b_probelen b =? 0); [|done]. apply IH. lia.
Qed.

(** The loop of [cc4_for_each] from the first occupied bucket at or after
    [j]. *)
Lemma for_each_from n j fuel :
  j + n = cap cntr → length (occupied j (drop j (bkts cntr))) < fuel →
  cc4_for_each_loop fuel (cc4_map_end cntr el_size layout)
    (λ itr, cc4_map_next cntr itr el_size layout)
    (cc4_map_el cntr (cc4_map_next_loop cntr n j) el_size layout)
  = Some ((λ i, cc4_map_el cntr i el_size layout)
            <$> occupied j (drop j (bkts cntr))).
Proof.
  revert j fuel. induction n as [|n IH]; intros j fuel Hj Hf.
  - destruct fuel as [|fuel]; [lia|]. cbn [cc4_map_next_loop cc4_for_each_loop].
    rewrite drop_ge by lia. unfold cc4_map_end.
    replace j with (cap cntr) by lia. by rewrite decide_True.
  - destruct (lookup_lt_is_Some_2 (bkts cntr) j) as [b Hb]; [lia|].
    rewrite (drop_S _ _ _ Hb) in Hf |- *.
    cbn [cc4_map_next_loop occupied] in Hf |- *. rewrite Hb.
    destruct (b_probelen b =? 0); [apply IH; [lia|done]|].
    destruct fuel as [|fuel]; [lia|]. cbn [length] in Hf.
    cbn [cc4_for_each_loop]. rewrite decide_False.
    2: { unfold cc4_map_end. intros Heq%el_ptr_inj. lia. }
    rewrite next_el. cbn [mbind option_bind].
    replace (cap cntr - S j) with n by lia.
    rewrite (IH (S j) fuel) by lia. done.
Qed.

(** The loop of [cc4_r_for_each] from the last occupied bucket before
    [j]. *)
Lemma r_for_each_from j fuel :
  j ≤ cap cntr → length (occupied 0 (take j (bkts cntr))) < fuel →
  cc4_for_each_loop fuel (cc4_map_r_end cntr)
    (λ itr, cc4_map_prev cntr itr el_size layout)
    (cc4_map_prev_loop cntr el_size layout j)
  = Some ((λ i, cc4_map_el cntr i el_size layout)
            <$> reverse (occupied 0 (take j (bkts cntr)))).
Proof.
  revert fuel. induction j as [|j IH]; intros fuel Hj Hf.
  - destruct fuel as [|fuel]; [lia|]. cbn [cc4_map_prev_loop cc4_for_each_loop].
    by rewrite decide_True.
  - destruct (lookup_lt_is_Some_2 (bkts cntr) j) as [b Hb]; [lia|].
    rewrite (take_S_r _ _ _ Hb), occupied_app in Hf |- *.
    rewrite length_take_le in Hf |- * by lia.
    cbn [cc4_map_prev_loop occupied] in Hf |- *. rewrite Hb.
    destruct (b_probelen b =? 0).
    { rewrite app_nil_r in Hf |- *. apply IH; [lia|done]. }
    rewrite length_app in Hf. cbn [length] in Hf.
    rewrite reverse_app. cbn [reverse rev_append app Nat.add fmap list_fmap].
    destruct fuel as [|fuel]; [lia|].
    cbn [cc4_for_each_loop]. rewrite decide_False by apply el_ne_r_end.
    rewrite prev_el. cbn [mbind option_bind]. rewrite (IH fuel) by lia. done.
Qed.

Lemma last_prev_loop :
  cc4_map_last cntr el_size layout
  = cc4_map_prev_loop cntr el_size layout (cap cntr).
Proof.
  unfold cc4_map_last. generalize (cap cntr). intros i.
  induction i as [|i IH]; [done|]. cbn [cc4_map_last_loop cc4_map_prev_loop].
  destruct (bkts cntr !! i) as [b|]; [|done]. by destruct (b_probelen b =? 0).
Qed.

Lemma map_for_each_spec fuel :
  (occupied 0 (bkts cntr) = [] → el_size = 0%Z ∨ cap cntr = 0) →
  length (occupied 0 (bkts cntr)) < fuel →
  cc4_map_for_each fuel cntr el_size layout
  = Some ((λ i, cc4_map_el cntr i el_size layout) <$> occupied 0 (bkts cntr)).
Proof.
  intros Hempty Hfuel.
  assert (cc4_map_first cntr el_size layout
          = cc4_map_el cntr (cc4_map_next_loop cntr (cap cntr) 0) el_size layout)
    as Hfirst.
  { unfold cc4_map_first.
    rewrite (first_loop_spec (cap cntr) 0) by done.
    rewrite (next_loop_spec (cap cntr) 0) by done. rewrite drop_0.
    destruct (occupied 0 (bkts cntr)) as [|x occ]; [|done].
    cbn. unfold cc4_map_end, cc4_map_el.
    destruct Hempty as [->| ->]; [done|done|].
    by rewrite !Z.mul_0_r. }
  unfold cc4_map_for_each. rewrite Hfirst.
  rewrite (for_each_from (cap cntr) 0 fuel); rewrite ?drop_0; [done|done|lia].
Qed.

Lemma map_r_for_each_spec fuel :
  length (occupied 0 (bkts cntr)) < fuel →
  cc4_map_r_for_each fuel cntr el_size layout
  = Some ((λ i, cc4_map_el cntr i el_size layout)
            <$> reverse (occupied 0 (bkts cntr))).
Proof.
  intros Hfuel. unfold cc4_map_r_for_each. rewrite last_prev_loop.
  rewrite (r_for_each_from (cap cntr) fuel); rewrite ?take_ge by lia;
    [done|done|lia].
Qed.

End iteration.

Section map_iteration.
Context {K E : Type} `{Inhabited K, Inhabited E}.
Context (hash : K -> Z) (cmpr : K -> K -> Z).
Context (max_load : Q) (el_size layout : Z).
Context (cmpr_eq : ∀ k1 k2, cmpr k1 k2 = 0%Z ↔ k1 = k2).
Context (Hpos : (0 < max_load)%Q) (Hle1 : (max_load <= 1)%Q).
Context (Hel : (0 <= el_size)%Z).
Implicit Types (cntr : cntr_ty K E).

(** The loop [cc4_for_each] over a map that has an entry (or whose
    element size or capacity is zero) runs its body once for every
    occupied bucket, in index order, with the pointer to that bucket, and
    ends after as many rounds as the map has entries. *)
Theorem for_each_visits_every_entry cntr fuel :
  reachable hash cmpr max_load el_size layout cntr →
  (cc4_map_size cntr = 0 → el_size = 0%Z ∨ cc4_map_cap cntr = 0) →
  cc4_map_size cntr < fuel →
  cc4_map_for_each fuel cntr el_size layout
  = Some ((λ i, cc4_map_el cntr i el_size layout) <$> occupied 0 (bkts cntr))
  ∧ length (occupied 0 (bkts cntr)) = cc4_map_size cntr
  ∧ ∀ i, i ∈ occupied 0 (bkts cntr) ↔ ∃ key el, holds cntr i key el.
Proof.
  intros Hreach. unfold cc4_map_size, cc4_map_cap. intros Hempty Hfuel.
  destruct (reachable_wf hash cmpr max_load el_size layout cmpr_eq Hpos Hle1 Hel
              cntr Hreach) as [Hwf Hload].
  pose proof (wf_len _ _ Hwf) as Hlen.
  pose proof (length_occupied 0 (bkts cntr)) as Hocc.
  rewrite <- (wf_size _ _ Hwf) in Hocc.
  split; [|split; [done|apply occupied_holds]].
  apply (map_for_each_spec cntr el_size layout Hel Hlen); [|lia].
  intros Hnil. apply Hempty. by rewrite <- Hocc, Hnil.
Qed.

(** The loop [cc4_r_for_each] over a map runs its body once for every
    occupied bucket, in decreasing index order, and ends after as many
    rounds as the map has entries. *)
Theorem r_for_each_visits_every_entry cntr fuel :
  reachable hash cmpr max_load el_size layout cntr →
  cc4_map_size cntr < fuel →
  cc4_map_r_for_each fuel cntr el_size layout
  = Some ((λ i, cc4_map_el cntr i el_size layout)
            <$> reverse (occupied 0 (bkts cntr)))
  ∧ length (occupied 0 (bkts cntr)) = cc4_map_size cntr.
Proof.
  intros Hreach. unfold cc4_map_size. intros Hfuel.
  destruct (reachable_wf hash cmpr max_load el_size layout cmpr_eq Hpos Hle1 Hel
              cntr Hreach) as [Hwf Hload].
  pose proof (wf_len _ _ Hwf) as Hlen.
  pose proof (length_occupied 0 (bkts cntr)) as Hocc.
  rewrite <- (wf_size _ _ Hwf) in Hocc.
  split; [|done].
  apply (map_r_for_each_spec cntr el_size layout Hel Hlen). lia.
Qed.

End map_iteration.

(** ** Bucket layouts *)

Lemma lor_disjoint_add (a y n : Z) :
  (0 <= n)%Z → (0 <= a < 2 ^ n)%Z → Z.lor a (y * 2 ^ n) = (a + y * 2 ^ n)%Z.
Proof.
  intros Hn Ha.
  assert (Z.land a (y * 2 ^ n) = 0%Z) as Hdisj.
  { apply Z.bits_inj'. intros m Hm. rewrite Z.land_spec, Z.bits_0.
    destruct (Z.lt_ge_cases m n) as [Hlt|Hge].
    - rewrite Z.mul_pow2_bits_low by lia. apply andb_false_r.
    - assert (Z.testbit a m = false) as ->; [|done].
      apply Z.testbit_false; [done|].
      assert (2 ^ n <= 2 ^ m)%Z by (apply Z.pow_le_mono_r; lia).
      rewrite Z.div_small by lia. done. }
  rewrite <- Z.lxor_lor by done. symmetry. by apply Z.add_nocarry_lxor.
Qed.

(** [CC4_PADDING( size, align )] for a power-of-two alignment: the
    distance from [size] up to the next multiple of [align]. *)
Lemma CC4_PADDING_spec (size k : Z) :
  (0 <= k <= 64)%Z → CC4_PADDING size (2 ^ k) = ((- size) mod 2 ^ k)%Z.
Proof.
  intros Hk. unfold CC4_PADDING.
  replace (Z.lnot size + 1)%Z with (- size)%Z by (rewrite Z.lnot_eq_pred_opp; lia).
  replace (2 ^ k - 1)%Z with (Z.ones k) by (rewrite Z.ones_equiv; lia).
  rewrite Z.land_ones by lia. apply Z.mod_mod_divide.
  exists (2 ^ (64 - k))%Z. rewrite <- Z.pow_add_r by lia. f_equal. lia.
Qed.

Lemma CC4_PADDING_bounds (size k : Z) :
  (0 <= k <= 64)%Z →
  (0 <= CC4_PADDING size (2 ^ k) < 2 ^ k)%Z
  ∧ ((size + CC4_PADDING size (2 ^ k)) mod 2 ^ k = 0)%Z.
Proof.
  intros Hk. rewrite CC4_PADDING_spec by done.
  assert (0 < 2 ^ k)%Z by (apply Z.pow_pos_nonneg; lia).
  split; [apply Z.mod_pos_bound; lia|].
  rewrite Z.add_mod_idemp_r by lia. replace (size + - size)%Z with 0%Z by lia.
  done.
Qed.

Lemma CC4_MAX_pow2 (a b : Z) :
  (0 <= a)%Z → (0 <= b)%Z → CC4_MAX (2 ^ a) (2 ^ b) = (2 ^ Z.max a b)%Z.
Proof.
  intros Ha Hb. unfold CC4_MAX.
  destruct (Z.ltb_spec (2 ^ b) (2 ^ a)) as [Hlt|Hge].
  - apply Z.pow_lt_mono_r_iff in Hlt; [|lia|lia]. by rewrite Z.max_l by lia.
  - destruct (Z.le_gt_cases a b); [by rewrite Z.max_r by lia|].
    assert (2 ^ b < 2 ^ a)%Z by (apply Z.pow_lt_mono_r; lia). lia.
Qed.

Lemma mod_pow2_le (x j m : Z) :
  (0 <= j <= m)%Z → (x mod 2 ^ m = 0)%Z → (x mod 2 ^ j = 0)%Z.
Proof.
  intros Hj Hx. rewrite <- (Z.mod_mod_divide x (2 ^ m) (2 ^ j)).
  - by rewrite Hx.
  - exists (2 ^ (m - j))%Z. rewrite <- Z.pow_add_r by lia. f_equal. lia.
Qed.

(** The four fields of a layout descriptor. *)
Lemma layout_fields (a b c d : Z) :
  (0 <= a < 2 ^ 32)%Z → (0 <= b < 2 ^ 8)%Z → (0 <= c < 2 ^ 8)%Z →
  (0 <= d < 2 ^ 8)%Z →
  let layout :=
    Z.lor a (Z.lor (Z.shiftl b 32) (Z.lor (Z.shiftl c 40) (Z.shiftl d 48))) in
  uint32_t layout = a
  ∧ uint8_t (Z.shiftr layout 32) = b
  ∧ uint8_t (Z.shiftr layout 40) = c
  ∧ uint8_t (Z.shiftr layout 48) = d.
Proof.
  intros Ha Hb Hc Hd layout.
  assert (layout = a + b * 2 ^ 32 + c * 2 ^ 40 + d * 2 ^ 48)%Z as ->.
  { unfold layout. rewrite !Z.shiftl_mul_pow2 by lia.
    rewrite (lor_disjoint_add (c * 2 ^ 40) d 48) by lia.
    replace (c * 2 ^ 40 + d * 2 ^ 48)%Z with ((c + d * 2 ^ 8) * 2 ^ 40)%Z by lia.
    rewrite (lor_disjoint_add (b * 2 ^ 32) (c + d * 2 ^ 8) 40) by lia.
    replace (b * 2 ^ 32 + (c + d * 2 ^ 8) * 2 ^ 40)%Z
      with ((b + c * 2 ^ 8 + d * 2 ^ 16) * 2 ^ 32)%Z by lia.
    rewrite (lor_disjoint_add a _ 32) by lia. lia. }
  unfold uint32_t, uint8_t. rewrite !Z.land_ones, !Z.shiftr_div_pow2 by lia.
  change (2 ^ 32)%Z with 4294967296%Z. change (2 ^ 40)%Z with 1099511627776%Z.
  change (2 ^ 48)%Z with 281474976710656%Z. change (2 ^ 8)%Z with 256%Z in *.
  change (2 ^ 32)%Z with 4294967296%Z in Ha.
  split_and!; Z.div_mod_to_equations; lia.
Qed.

(** The layout that [cc4_layout] computes for a map, read back with
    the macros of the map functions: the key size comes back; the element
    sits at the start of the bucket, then the key at the next multiple of
    its alignment, the probe length at the next multiple of 4, and the
    bucket ends at the next multiple of the largest of the three
    alignments.  (Key size below [2 ^ 32] and alignments that are powers
    of two up to 256, as [CC4_SATISFIES_LAYOUT_CONSTRAINTS] demands.) *)
Theorem cc4_layout_map_places_the_fields (el_size key_size ea ka : Z) :
  (0 <= el_size)%Z → (0 <= key_size < 2 ^ 32)%Z →
  (0 <= ea <= 8)%Z → (0 <= ka <= 8)%Z →
  let layout := cc4_layout_map el_size (2 ^ ea) key_size (2 ^ ka) in
  CC4_KEY_SIZE layout = key_size
  ∧ (el_size <= CC4_KEY_OFFSET el_size layout < el_size + 2 ^ ka)%Z
  ∧ (CC4_KEY_OFFSET el_size layout mod 2 ^ ka = 0)%Z
  ∧ (CC4_KEY_OFFSET el_size layout + key_size
     <= CC4_PROBELEN_OFFSET el_size layout
     < CC4_KEY_OFFSET el_size layout + key_size + 4)%Z
  ∧ (CC4_PROBELEN_OFFSET el_size layout mod 4 = 0)%Z
  ∧ (CC4_PROBELEN_OFFSET el_size layout + 4
     <= CC4_BUCKET_SIZE el_size layout
     < CC4_PROBELEN_OFFSET el_size layout + 4 + 2 ^ Z.max ka (Z.max ea 2))%Z
  ∧ (CC4_BUCKET_SIZE el_size layout mod 2 ^ ka = 0)%Z
  ∧ (CC4_BUCKET_SIZE el_size layout mod 2 ^ ea = 0)%Z
  ∧ (CC4_BUCKET_SIZE el_size layout mod 4 = 0)%Z.
Proof.
  intros Hel Hks Hea Hka. cbn zeta.
  unfold cc4_layout_map, CC4_MAP_PROBELEN_PADDING, CC4_MAP_KEY_PADDING,
    CC4_MAP_EL_PADDING, alignof_cc4_probelen_ty, sizeof_cc4_probelen_ty.
  change 4%Z with (2 ^ 2)%Z.
  rewrite (CC4_MAX_pow2 ea 2), (CC4_MAX_pow2 ka (Z.max ea 2)) by lia.
  set (p1 := CC4_PADDING el_size (2 ^ ka)).
  set (p2 := CC4_PADDING (el_size + p1 + key_size) (2 ^ 2)).
  set (m := Z.max ka (Z.max ea 2)).
  set (p3 := CC4_PADDING (el_size + p1 + key_size + p2 + 2 ^ 2) (2 ^ m)).
  destruct (CC4_PADDING_bounds el_size ka) as [Hp1 Ha1]; [lia|]. fold p1 in Hp1, Ha1.
  destruct (CC4_PADDING_bounds (el_size + p1 + key_size) 2) as [Hp2 Ha2]; [lia|].
  fold p2 in Hp2, Ha2.
  destruct (CC4_PADDING_bounds (el_size + p1 + key_size + p2 + 2 ^ 2) m)
    as [Hp3 Ha3]; [lia|]. fold p3 in Hp3, Ha3.
  assert (2 ^ ka <= 2 ^ 8)%Z by (apply Z.pow_le_mono_r; lia).
  assert (2 ^ m <= 2 ^ 8)%Z by (apply Z.pow_le_mono_r; lia).
  destruct (layout_fields key_size p1 p2 p3) as (H32 & H8a & H8b & H8c);
    [lia|lia|change (2 ^ 2)%Z with 4%Z in Hp2; change (2 ^ 8)%Z with 256%Z; lia
    |lia|].
  cbn zeta in H32, H8a, H8b, H8c.
  unfold CC4_KEY_SIZE, CC4_BUCKET_SIZE, CC4_PROBELEN_OFFSET, CC4_KEY_OFFSET,
    sizeof_cc4_probelen_ty.
  rewrite H32, H8a, H8b, H8c. change 4%Z with (2 ^ 2)%Z.
  split; [done|]. split; [lia|]. split; [done|]. split; [lia|].
  split; [done|]. split; [lia|].
  split; [apply (mod_pow2_le _ ka m); [lia|done]|].
  split; [apply (mod_pow2_le _ ea m); [lia|done]|].
  apply (mod_pow2_le _ 2 m); [lia|done].
Qed.

(** The layout that [cc4_layout] computes for a set: the key is the
    element at the start of the bucket, the probe length follows at the
    next multiple of 4, and the bucket ends at the next multiple of the
    larger of the element's alignment and 4. *)
Theorem cc4_layout_set_places_the_fields (el_size ea : Z) :
  (0 <= el_size < 2 ^ 32)%Z → (0 <= ea <= 8)%Z →
  let layout := cc4_layout_set el_size (2 ^ ea) in
  CC4_KEY_SIZE layout = el_size
  ∧ CC4_KEY_OFFSET 0 layout = 0%Z
  ∧ (el_size <= CC4_PROBELEN_OFFSET 0 layout < el_size + 4)%Z
  ∧ (CC4_PROBELEN_OFFSET 0 layout mod 4 = 0)%Z
  ∧ (CC4_PROBELEN_OFFSET 0 layout + 4
     <= CC4_BUCKET_SIZE 0 layout
     < CC4_PROBELEN_OFFSET 0 layout + 4 + 2 ^ Z.max ea 2)%Z
  ∧ (CC4_BUCKET_SIZE 0 layout mod 2 ^ ea = 0)%Z
  ∧ (CC4_BUCKET_SIZE 0 layout mod 4 = 0)%Z.
Proof.
  intros Hel Hea. cbn zeta.
  unfold cc4_layout_set, CC4_SET_PROBELEN_PADDING, CC4_SET_EL_PADDING,
    alignof_cc4_probelen_ty, sizeof_cc4_probelen_ty.
  change 4%Z with (2 ^ 2)%Z. rewrite (CC4_MAX_pow2 ea 2) by lia.
  set (p2 := CC4_PADDING el_size (2 ^ 2)).
  set (m := Z.max ea 2).
  set (p3 := CC4_PADDING (el_size + p2 + 2 ^ 2) (2 ^ m)).
  destruct (CC4_PADDING_bounds el_size 2) as [Hp2 Ha2]; [lia|]. fold p2 in Hp2, Ha2.
  destruct (CC4_PADDING_bounds (el_size + p2 + 2 ^ 2) m) as [Hp3 Ha3]; [lia|].
  fold p3 in Hp3, Ha3.
  assert (2 ^ m <= 2 ^ 8)%Z by (apply Z.pow_le_mono_r; lia).
  destruct (layout_fields el_size 0 p2 p3) as (H32 & H8a & H8b & H8c);
    [lia|done|change (2 ^ 2)%Z with 4%Z in Hp2; change (2 ^ 8)%Z with 256%Z; lia
    |lia|].
  cbn zeta in H32, H8a, H8b, H8c.
  unfold CC4_KEY_SIZE, CC4_BUCKET_SIZE, CC4_PROBELEN_OFFSET, CC4_KEY_OFFSET,
    sizeof_cc4_probelen_ty.
  rewrite H32, H8a, H8b, H8c. change 4%Z with (2 ^ 2)%Z.
  rewrite !Z.add_0_l.
  split; [done|]. split; [done|]. split; [lia|]. split; [done|].
  split; [lia|].
  split; [apply (mod_pow2_le _ ea m); [lia|done]|].
  apply (mod_pow2_le _ 2 m); [lia|done].
Qed.

(** ** Sets *)

Lemma cc4_layout_set_key_offset (el_size ea : Z) :
  (0 <= el_size < 2 ^ 32)%Z → (0 <= ea <= 8)%Z →
  CC4_KEY_OFFSET 0 (cc4_layout_set el_size (2 ^ ea)) = 0%Z.
Proof.
  intros Hel Hea.
  unfold cc4_layout_set, CC4_SET_PROBELEN_PADDING, CC4_SET_EL_PADDING,
    alignof_cc4_probelen_ty, sizeof_cc4_probelen_ty.
  change 4%Z with (2 ^ 2)%Z. rewrite (CC4_MAX_pow2 ea 2) by lia.
  set (p2 := CC4_PADDING el_size (2 ^ 2)).
  set (p3 := CC4_PADDING (el_size + p2 + 2 ^ 2) (2 ^ Z.max ea 2)).
  destruct (CC4_PADDING_bounds el_size 2) as [Hp2 _]; [lia|]. fold p2 in Hp2.
  destruct (CC4_PADDING_bounds (el_size + p2 + 2 ^ 2) (Z.max ea 2)) as [Hp3 _];
    [lia|]. fold p3 in Hp3.
  assert (2 ^ Z.max ea 2 <= 2 ^ 8)%Z by (apply Z.pow_le_mono_r; lia).
  destruct (layout_fields el_size 0 p2 p3) as (_ & H8a & _);
    [lia|done|change (2 ^ 2)%Z with 4%Z in Hp2; change (2 ^ 8)%Z with 256%Z; lia
    |lia|].
  cbn zeta in H8a. unfold CC4_KEY_OFFSET. by rewrite H8a.
Qed.

Lemma inserted_other {K E : Type} (key : K) (el : E) replace (l l' : list (K * E)) :
  inserted key el replace l l' →
  ∀ k e, k ≠ key → ((k, e) ∈ l' ↔ (k, e) ∈ l).
Proof.
  intros [[_ Hl']|(el0 & _ & Hl')] k e Hne.
  - rewrite Hl', elem_of_cons. split; [intros [[= ? ?]|?]; done|by right].
  - destruct replace; [|by rewrite Hl'].
    assert ((k, e) ∈ (key, el0) :: l' ↔ (k, e) ∈ (key, el) :: l) as Hiff
      by (by rewrite Hl').
    rewrite !elem_of_cons in Hiff. split; intros Hin.
    + destruct (proj1 Hiff (or_intror Hin)) as [[= ? ?]|?]; done.
    + destruct (proj2 Hiff (or_intror Hin)) as [[= ? ?]|?]; done.
Qed.

Section sets.
Context {K : Type} `{Inhabited K}.
Context (hash : K -> Z) (cmpr : K -> K -> Z) (max_load : Q) (layout : Z).
Context (cmpr_eq : ∀ k1 k2, cmpr k1 k2 = 0%Z ↔ k1 = k2).
Context (Hpos : (0 < max_load)%Q) (Hle1 : (max_load <= 1)%Q).
Implicit Types (cntr : cntr_ty K unit).

(** [cc4_set_insert] returns.  It fails only when one more member
    exceeds the load factor of the capacity and the one call of
    [realloc_], for a new block with the bytes of the least capacity that
    admits it, returns no block; the set is then returned as it is and no
    destructor ran.  So an insertion with room always succeeds, and a
    growing one succeeds whenever that allocation does.  After a success
    the key is a member and [cc4_set_get] returns the pointer that the
    insertion returned; the other members are the same; the size has
    grown by one exactly when the key was not a member; and no destructor
    is called unless a member is replaced. *)
Theorem set_insert_makes_a_member cntr key replace el_size el_dtor realloc_ :
  reachable hash cmpr max_load 0 layout cntr →
  ∃ result evs,
    cc4_set_insert cntr key replace layout hash cmpr max_load el_dtor realloc_
    = Some (result, evs)
    ∧ (exceeds_load (cc4_set_size cntr + 1) (cc4_set_cap cntr) max_load = false →
       other_ptr result ≠ None)
    ∧ (exceeds_load (cc4_set_size cntr + 1) (cc4_set_cap cntr) max_load = true →
       ∃ c, cc4_map_min_cap_for_n_els (cc4_set_size cntr + 1) max_load = Some c
            ∧ match realloc_ None
                      (sizeof_cc4_map_hdr_ty
                       + CC4_BUCKET_SIZE 0 layout * Z.of_nat c)%Z with
              | None => result = cc4_make_allocing_fn_result cntr None ∧ evs = []
              | Some id =>
                  other_ptr result ≠ None
                  ∧ hndl (new_cntr result) = blk_heap id
                  ∧ cc4_set_cap (new_cntr result) = c
              end)
    ∧ (other_ptr result = None →
       new_cntr result = cntr ∧ evs = []
       ∧ exceeds_load (cc4_set_size cntr + 1) (cc4_set_cap cntr) max_load = true
       ∧ ∃ c, cc4_map_min_cap_for_n_els (cc4_set_size cntr + 1) max_load = Some c
              ∧ realloc_ None
                  (sizeof_cc4_map_hdr_ty
                   + CC4_BUCKET_SIZE 0 layout * Z.of_nat c)%Z = None)
    ∧ ∀ p, other_ptr result = Some p →
        cc4_set_get (new_cntr result) key el_size layout hash cmpr
        = Some (Some p)
        ∧ (∀ k, k ≠ key → (maps_to (new_cntr result) k tt ↔ maps_to cntr k tt))
        ∧ (maps_to cntr key tt →
           cc4_set_size (new_cntr result) = cc4_set_size cntr)
        ∧ (¬ maps_to cntr key tt →
           cc4_set_size (new_cntr result) = S (cc4_set_size cntr))
        ∧ (¬ maps_to cntr key tt ∨ replace = false →
           ∀ f q, call_dtor f q ∉ evs).
Proof.
  intros Hreach.
  destruct (reachable_wf hash cmpr max_load 0 layout cmpr_eq Hpos Hle1
              (Z.le_refl 0) cntr Hreach) as [Hwf Hload].
  unfold cc4_set_insert, cc4_set_get, cc4_set_size, cc4_set_cap, cc4_map_size,
    cc4_map_cap.
  destruct (insert_via_raw hash cmpr max_load Hpos Hle1 cntr tt key replace
              0 layout el_dtor None realloc_ Hwf Hload)
    as [[_ Hrun]|(cntr1 & evs1 & Hwf1 & Hs1 & Hroom & _ & Hperm & Hnd & _ & Hrun)].
  { destruct (insert_spec hash cmpr cmpr_eq max_load Hpos Hle1 cntr tt key replace
                0 layout el_dtor None realloc_ Hwf Hload)
      as (result & evs & Hrun' & _ & _ & Hres).
    rewrite Hrun in Hrun'. simplify_eq. cbn [other_ptr new_cntr] in Hres.
    destruct (insert_by_allocation hash cmpr cmpr_eq max_load Hpos Hle1 cntr tt
                key replace 0 layout el_dtor None realloc_ _ _ Hwf Hload Hrun)
      as [Hroom Hgrow].
    eexists _, _. split; [exact Hrun|]. cbn [other_ptr new_cntr].
    split; [exact Hroom|]. split; [exact Hgrow|].
    split; [by intros _|]. intros p [=]. }
  destruct (insert_raw_exact hash cmpr cmpr_eq cntr1 tt key replace 0 layout
              el_dtor None Hwf1 Hroom)
    as (cntr' & i & evs2 & Hraw & Hwf' & Hh & Hc & Hins & Hcase).
  rewrite Hraw in Hrun. cbn [mbind option_bind] in Hrun.
  destruct (insert_by_allocation hash cmpr cmpr_eq max_load Hpos Hle1 cntr tt
              key replace 0 layout el_dtor None realloc_ _ _ Hwf Hload Hrun)
    as [Hfits Hgrow].
  eexists _, _. split; [exact Hrun|]. cbn [other_ptr new_cntr].
  split; [exact Hfits|]. split; [exact Hgrow|].
  split; [by intros [=]|]. intros p [= <-].
  assert (cc4_map_el cntr1 i 0 layout = cc4_map_el cntr' i 0 layout)
    as Hptr by (unfold cc4_map_el; by rewrite Hh).
  pose proof (maps_to_perm cntr cntr1 Hperm) as Hsame.
  assert (∀ k, k ≠ key → maps_to cntr' k tt ↔ maps_to cntr k tt) as Hother.
  { intros k Hne. rewrite <- Hsame, !maps_to_entries.
    by apply (inserted_other key tt replace). }
  assert (∀ el0, holds cntr1 i key el0 → maps_to cntr key tt) as Hmem.
  { intros [] Hold. apply Hsame. by exists i. }
  destruct Hcase as [(Hnew & Hnow & -> & Hs)|(el0 & Hold & Hs & Hcase)].
  - assert (¬ maps_to cntr key tt) as Hno.
    { intros Hm. apply Hnew. apply Hsame, maps_to_entries in Hm.
      apply list_elem_of_fmap. by exists (key, tt). }
    split; [rewrite Hptr; by eapply (get_holds hash cmpr cmpr_eq)|].
    split; [done|]. split; [done|]. split; [intros _; lia|].
    intros _ f q. rewrite app_nil_r. apply Hnd.
  - assert (cc4_map_get cntr' key 0 layout hash cmpr
            = Some (Some (cc4_map_el cntr1 i 0 layout))) as Hget.
    { destruct replace.
      - destruct Hcase as [Hnow _]. rewrite Hptr.
        by eapply (get_holds hash cmpr cmpr_eq).
      - destruct Hcase as [-> _]. by eapply (get_holds hash cmpr cmpr_eq). }
    split; [done|]. split; [done|]. split; [intros _; lia|].
    split; [intros Hno; destruct Hno; by eapply Hmem|].
    intros [Hno| ->]; [destruct Hno; by eapply Hmem|].
    destruct Hcase as [_ ->]. intros f q. rewrite app_nil_r. apply Hnd.
Qed.

(** The loop [cc4_for_each] over a set, with or without elements, runs
    its body once for every occupied bucket, in index order, and ends
    after as many rounds as the set has elements; on a set without
    elements [cc4_set_first] is [cc4_set_end]. *)
Theorem set_for_each_visits_every_element cntr el_size fuel :
  reachable hash cmpr max_load 0 layout cntr →
  cc4_set_size cntr < fuel →
  cc4_set_for_each fuel cntr el_size layout
  = Some ((λ i, cc4_map_el cntr i 0 layout) <$> occupied 0 (bkts cntr))
  ∧ length (occupied 0 (bkts cntr)) = cc4_set_size cntr
  ∧ (cc4_set_size cntr = 0 →
     cc4_set_first cntr el_size layout = cc4_set_end cntr el_size layout).
Proof.
  intros Hreach. unfold cc4_set_size, cc4_map_size. intros Hfuel.
  destruct (reachable_wf hash cmpr max_load 0 layout cmpr_eq Hpos Hle1
              (Z.le_refl 0) cntr Hreach) as [Hwf Hload].
  pose proof (wf_len _ _ Hwf) as Hlen.
  pose proof (length_occupied 0 (bkts cntr)) as Hocc.
  rewrite <- (wf_size _ _ Hwf) in Hocc.
  split; [|split; [done|]].
  - apply (map_for_each_spec cntr 0 layout (Z.le_refl 0) Hlen); [by left|lia].
  - intros Hs. rewrite Hs in Hocc. apply length_zero_iff_nil in Hocc.
    unfold cc4_set_first, cc4_set_end, cc4_map_first.
    rewrite (first_loop_spec cntr 0 layout Hlen (cap cntr) 0) by done.
    by rewrite drop_0, Hocc.
Qed.

End sets.

(** [cc4_set_clear] and [cc4_set_cleanup] on a set with the layout of
    [cc4_layout]: the element destructor is called once on every element,
    in index order; [cc4_set_cleanup] then frees the block unless the set
    is the placeholder. *)
Theorem set_cleanup_destroys_every_element {K : Type} `{Inhabited K}
    (hash : K -> Z) (cmpr : K -> K -> Z) (max_load : Q) (el_size ea : Z)
    (cntr : cntr_ty K unit) (el_dtor key_dtor : cc4_dtor_fnptr_ty) :
  (∀ k1 k2, cmpr k1 k2 = 0%Z ↔ k1 = k2) →
  (0 < max_load)%Q → (max_load <= 1)%Q →
  (0 <= el_size < 2 ^ 32)%Z → (0 <= ea <= 8)%Z →
  let layout := cc4_layout_set el_size (2 ^ ea) in
  let dtors :=
    flat_map (λ i, call_if el_dtor (cc4_map_el cntr i 0 layout))
      (occupied 0 (bkts cntr)) in
  reachable hash cmpr max_load 0 layout cntr →
  (cc4_set_clear cntr el_size layout el_dtor key_dtor).2 = dtors
  ∧ cc4_set_cleanup cntr el_size layout el_dtor key_dtor
    = dtors ++ free_unless_placeholder cntr
  ∧ length (occupied 0 (bkts cntr)) = cc4_set_size cntr.
Proof.
  intros cmpr_eq Hpos Hle1 Hel Hea layout dtors Hreach.
  destruct (reachable_wf hash cmpr max_load 0 layout cmpr_eq Hpos Hle1
              (Z.le_refl 0) cntr Hreach) as [Hwf Hload].
  pose proof (length_occupied 0 (bkts cntr)) as Hocc.
  rewrite <- (wf_size _ _ Hwf) in Hocc.
  assert (∀ i, cc4_map_key cntr i 0 layout = cc4_map_el cntr i 0 layout) as Hkey.
  { intros i. unfold cc4_map_key, layout.
    rewrite cc4_layout_set_key_offset by done. unfold cc4_map_el. cbn [snd].
    f_equal. lia. }
  assert (∀ d1 d2,
            (d1 = el_dtor ∧ d2 = None) ∨ (d1 = None ∧ d2 = el_dtor) →
            (cc4_map_clear cntr 0 layout d1 d2).2 = dtors) as Hclear.
  { intros d1 d2 Hd. unfold cc4_map_clear, cc4_map_size.
    destruct (Nat.eqb_spec (size cntr) 0) as [Hs|Hs].
    - rewrite Hs in Hocc. apply length_zero_iff_nil in Hocc.
      unfold dtors. by rewrite Hocc.
    - pose proof (clear_loop_events cntr 0 layout d1 d2 0 (bkts cntr)) as Hev.
      destruct (cc4_map_clear_loop cntr 0 layout d1 d2 0 (bkts cntr))
        as [bs' evs]. cbn [fst snd] in Hev |- *. rewrite Hev. unfold dtors.
      apply flat_map_ext. intros j. rewrite Hkey.
      destruct Hd as [[-> ->]|[-> ->]]; cbn [call_if app]; [done|].
      by rewrite app_nil_r. }
  split; [apply Hclear; by left|]. split; [|done].
  unfold cc4_set_cleanup, cc4_map_cleanup.
  specialize (Hclear None el_dtor (or_intror (conj eq_refl eq_refl))).
  destruct (cc4_map_clear cntr 0 layout None el_dtor) as [c evs].
  cbn [snd] in Hclear. by rewrite Hclear.
Qed.

(** ** Default hash and comparison functions *)

(** Multiplication by the odd constant of the integer hash functions can
    be undone modulo [2 ^ 64]. *)
Lemma mul_2654435761_inj (x y : Z) :
  ((x * 2654435761) mod 2 ^ 64 = (y * 2654435761) mod 2 ^ 64)%Z →
  (x mod 2 ^ 64 = y mod 2 ^ 64)%Z.
Proof.
  intros Heq.
  assert (∀ z, ((z * 2654435761) mod 2 ^ 64 * 14962265741255716689) mod 2 ^ 64
               = z mod 2 ^ 64)%Z as Hinv.
  { intros z. rewrite Z.mul_mod_idemp_l by lia.
    replace (z * 2654435761 * 14962265741255716689)%Z
      with (z + z * 2153028908 * 2 ^ 64)%Z by lia.
    by rewrite Z.mod_add by lia. }
  by rewrite <- (Hinv x), <- (Hinv y), Heq.
Qed.

(** The integer hash functions send different keys to different hash
    values: [cc4_hash_unsigned_long_long] on the values of
    [unsigned long long], [cc4_hash_long_long] on those of [long long]. *)
Theorem integer_hashes_are_injective (val_1 val_2 : Z) :
  ((0 <= val_1 < 2 ^ 64)%Z → (0 <= val_2 < 2 ^ 64)%Z →
   cc4_hash_unsigned_long_long val_1 = cc4_hash_unsigned_long_long val_2 →
   val_1 = val_2)
  ∧ ((- 2 ^ 63 <= val_1 < 2 ^ 63)%Z → (- 2 ^ 63 <= val_2 < 2 ^ 63)%Z →
     cc4_hash_long_long val_1 = cc4_hash_long_long val_2 →
     val_1 = val_2).
Proof.
  split.
  - intros H1 H2 Heq. apply mul_2654435761_inj in Heq.
    by rewrite !Z.mod_small in Heq by lia.
  - intros H1 H2 Heq. unfold cc4_hash_long_long in Heq.
    apply mul_2654435761_inj in Heq. rewrite !Z.mod_mod in Heq by lia.
    change (2 ^ 64)%Z with 18446744073709551616%Z in Heq.
    change (2 ^ 63)%Z with 9223372036854775808%Z in H1, H2.
    Z.div_mod_to_equations. lia.
Qed.

(** The comparison functions of the integer keys are three-way
    comparisons: the result is -1, 0 or 1 as the first value is smaller
    than, equal to or larger than the second, and exchanging the arguments
    negates it. *)
Theorem integer_cmpr_is_three_way (val_1 val_2 : Z) :
  let c := cc4_cmpr_long_long val_1 val_2 in
  cc4_cmpr_unsigned_long_long val_1 val_2 = c
  ∧ (c = (-1)%Z ↔ (val_1 < val_2)%Z)
  ∧ (c = 0%Z ↔ val_1 = val_2)
  ∧ (c = 1%Z ↔ (val_2 < val_1)%Z)
  ∧ cc4_cmpr_long_long val_2 val_1 = (- c)%Z.
Proof.
  cbn zeta. unfold cc4_cmpr_long_long, cc4_cmpr_unsigned_long_long.
  destruct (Z.ltb_spec val_2 val_1), (Z.ltb_spec val_1 val_2); cbn [Z.b2z];
    split_and!; try done; lia.
Qed.

Lemma cc4_hash_c_string_64_loop_stops (s t : list byte) (h : Z) :
  cc4_hash_c_string_64_loop (s ++ "000"%byte :: t) h
  = cc4_hash_c_string_64_loop s h.
Proof.
  revert h. induction s as [|c s IH]; intros h; [done|].
  cbn [app cc4_hash_c_string_64_loop]. destruct (uchar c =? 0)%Z; [done|].
  apply IH.
Qed.

(** The 64-bit [cc4_hash_c_string] is FNV-1a with the 64-bit offset basis
    and prime, and it reads the string up to the terminator only:
    whatever follows the first zero byte does not change the hash. *)
Theorem cc4_hash_c_string_64_reads_to_the_terminator (s t : list byte) :
  cc4_hash_c_string_64 s = fnv1a_64 s
  ∧ cc4_hash_c_string_64 (s ++ "000"%byte :: t) = cc4_hash_c_string_64 s
  ∧ (0 <= cc4_hash_c_string_64 s < 2 ^ 64)%Z.
Proof.
  split; [apply cc4_hash_c_string_64_loop_fnv|].
  split; [apply cc4_hash_c_string_64_loop_stops|].
  unfold cc4_hash_c_string_64.
  assert (∀ h, (0 <= h < 2 ^ 64)%Z →
               (0 <= cc4_hash_c_string_64_loop s h < 2 ^ 64)%Z) as Hrange.
  { induction s as [|c s IH]; intros h Hh; [done|].
    cbn [cc4_hash_c_string_64_loop]. destruct (uchar c =? 0)%Z; [done|].
    apply IH. apply Z.mod_pos_bound. lia. }
  apply Hrange. lia.
Qed.

(** ** Vectors *)

Section vec_slots.
Context {E : Type}.
Implicit Types (slots els : list E).

Lemma memcpy_slots_spec slots dst els :
  dst + length els ≤ length slots →
  memcpy_slots slots dst els
  = Some (take dst slots ++ els ++ drop (dst + length els) slots)
  ∧ length (take dst slots ++ els ++ drop (dst + length els) slots)
    = length slots.
Proof.
  intros Hle. unfold memcpy_slots.
  destruct (Nat.leb_spec (dst + length els) (length slots)); [|lia].
  split; [done|]. rewrite !length_app, length_take, length_drop. lia.
Qed.

(** The slots after the [memmove] and the [memcpy] of
    [cc4_vec_insert_n]. *)
Lemma insert_place_slots slots els index size :
  index ≤ size → size + length els ≤ length slots →
  ∃ slots1 slots2,
    memmove_slots slots (index + length els) index (size - index) = Some slots1
    ∧ memcpy_slots slots1 index els = Some slots2
    ∧ length slots2 = length slots
    ∧ take (size + length els) slots2
      = take index (take size slots) ++ els ++ drop index (take size slots).
Proof.
  intros Hi Hs. set (n := length els) in *.
  set (moved := take (size - index) (drop index slots)).
  assert (length moved = size - index) as Hm
    by (unfold moved; rewrite length_take, length_drop; lia).
  destruct (memcpy_slots_spec slots (index + n) moved) as [Hmv Hl1]; [lia|].
  set (slots1 := take (index + n) slots ++ moved
                 ++ drop (index + n + length moved) slots) in *.
  destruct (memcpy_slots_spec slots1 index els) as [Hcp Hl2]; [fold n; lia|].
  exists slots1, (take index slots1 ++ els ++ drop (index + length els) slots1).
  split.
  { unfold memmove_slots.
    destruct (Nat.leb_spec (index + (size - index)) (length slots)); [|lia].
    exact Hmv. }
  split; [exact Hcp|]. split; [lia|]. fold n.
  assert (take index slots1 = take index slots) as ->.
  { unfold slots1. rewrite take_app_le by (rewrite length_take; lia).
    rewrite take_take. f_equal. lia. }
  assert (drop (index + n) slots1
          = moved ++ drop (index + n + length moved) slots) as ->.
  { unfold slots1. rewrite drop_app_length'; [done|]. rewrite length_take. lia. }
  rewrite take_take, Nat.min_l by lia.
  rewrite take_app_ge by (rewrite length_take; lia).
  rewrite length_take, Nat.min_l by lia. f_equal.
  replace (size + n - index) with (n + (size - index)) by lia.
  rewrite take_app_add' by done. f_equal.
  rewrite take_app_length' by done.
  unfold moved. by rewrite take_drop_commute, Nat.add_comm, Nat.sub_add by lia.
Qed.

(** The slots after the [memmove] of [cc4_vec_erase_n]. *)
Lemma erase_slots slots index n size :
  index + n ≤ size → size ≤ length slots →
  ∃ slots',
    memmove_slots slots index (index + n) (size - n - index) = Some slots'
    ∧ length slots' = length slots
    ∧ take (size - n) slots'
      = take index (take size slots) ++ drop (index + n) (take size slots).
Proof.
  intros Hi Hs.
  set (moved := take (size - n - index) (drop (index + n) slots)).
  assert (length moved = size - n - index) as Hm
    by (unfold moved; rewrite length_take, length_drop; lia).
  destruct (memcpy_slots_spec slots index moved) as [Hmv Hl1]; [lia|].
  exists (take index slots ++ moved ++ drop (index + length moved) slots).
  split.
  { unfold memmove_slots.
    destruct (Nat.leb_spec (index + n + (size - n - index)) (length slots));
      [|lia]. exact Hmv. }
  split; [exact Hl1|].
  rewrite take_take, Nat.min_l by lia.
  rewrite take_app_ge by (rewrite length_take; lia).
  rewrite length_take, Nat.min_l by lia. f_equal.
  rewrite take_app_length' by lia.
  unfold moved. rewrite take_drop_commute. do 2 f_equal. lia.
Qed.

End vec_slots.

Section vectors.
Context {E : Type} `{Inhabited E}.
Implicit Types (cntr : vec_ty E) (els : list E).

Lemma vec_wf_placeholder : vec_wf (@cc4_vec_placeholder E).
Proof. split; cbn; lia. Qed.

Lemma length_realloc_slots (slots : list E) n :
  length (realloc_slots slots n) = n.
Proof.
  unfold realloc_slots. rewrite length_app, length_take, length_replicate. lia.
Qed.

Lemma take_realloc_slots (slots : list E) n m :
  m ≤ n → m ≤ length slots → take m (realloc_slots slots n) = take m slots.
Proof.
  intros Hn Hl. unfold realloc_slots.
  rewrite take_app_le by (rewrite length_take; lia).
  rewrite take_take. f_equal. lia.
Qed.

(** The outcomes of [cc4_vec_reserve]. *)
Lemma vec_reserve_spec cntr n el_size realloc_ :
  vec_wf cntr →
  let result := cc4_vec_reserve cntr n el_size realloc_ in
  match v_other_ptr result with
  | None =>
      v_new_cntr result = cntr ∧ v_cap cntr < n
      ∧ realloc_ (if v_cap cntr =? 0 then None else Some (v_hndl cntr, 0%Z))
          (sizeof_cc4_vec_hdr_ty + el_size * Z.of_nat n)%Z = None
  | Some _ =>
      vec_wf (v_new_cntr result)
      ∧ vec_els (v_new_cntr result) = vec_els cntr
      ∧ v_size (v_new_cntr result) = v_size cntr
      ∧ n ≤ v_cap (v_new_cntr result)
      ∧ (n ≤ v_cap cntr → v_new_cntr result = cntr)
      ∧ (v_cap cntr < n →
         v_cap (v_new_cntr result) = n
         ∧ ∃ id,
             realloc_ (if v_cap cntr =? 0 then None else Some (v_hndl cntr, 0%Z))
               (sizeof_cc4_vec_hdr_ty + el_size * Z.of_nat n)%Z = Some id
             ∧ v_hndl (v_new_cntr result) = blk_vec_heap id)
  end.
Proof.
  intros Hwf. pose proof Hwf as [Hlen Hsize]. cbn zeta.
  unfold cc4_vec_reserve, cc4_vec_cap, cc4_vec_is_placeholder.
  destruct (Nat.leb_spec n (v_cap cntr)) as [Hle|Hlt]; cbn [v_other_ptr v_new_cntr].
  { split; [done|]. split; [done|]. split; [done|]. split; [done|].
    split; [done|]. lia. }
  destruct (realloc_ _ _) as [id|] eqn:Hr; cbn [v_other_ptr v_new_cntr];
    [|done].
  assert ((if v_cap cntr =? 0 then 0 else v_size cntr) = v_size cntr) as Hs.
  { destruct (Nat.eqb_spec (v_cap cntr) 0); lia. }
  cbn [v_size v_cap v_hndl v_slots]. rewrite Hs.
  split_and!; try done; try lia.
  - split; cbn [v_slots v_cap v_size]; [apply length_realloc_slots|lia].
  - unfold vec_els. cbn [v_size v_slots]. apply take_realloc_slots; lia.
  - intros _. split; [done|]. by exists id.
Qed.

(** [cc4_vec_reserve] beyond the capacity is decided by its one call of
    [realloc_]. *)
Lemma vec_reserve_grow cntr n el_size realloc_ :
  vec_wf cntr → v_cap cntr < n →
  match realloc_ (if v_cap cntr =? 0 then None else Some (v_hndl cntr, 0%Z))
          (sizeof_cc4_vec_hdr_ty + el_size * Z.of_nat n)%Z with
  | None =>
      cc4_vec_reserve cntr n el_size realloc_
      = cc4_vec_make_allocing_fn_result cntr None
  | Some id =>
      v_other_ptr (cc4_vec_reserve cntr n el_size realloc_)
      = Some cc4_vec_dummy_true_ptr
      ∧ v_hndl (v_new_cntr (cc4_vec_reserve cntr n el_size realloc_))
        = blk_vec_heap id
      ∧ v_cap (v_new_cntr (cc4_vec_reserve cntr n el_size realloc_)) = n
  end.
Proof.
  intros Hwf Hlt. unfold cc4_vec_reserve, cc4_vec_cap, cc4_vec_is_placeholder.
  destruct (Nat.leb_spec n (v_cap cntr)); [lia|].
  by destruct (realloc_ _ _) as [id|].
Qed.

Lemma cap_loop_spec fuel cap target :
  0 < cap → 0 < fuel → target + 1 ≤ fuel + cap →
  ∃ c, cc4_vec_insert_n_cap_loop fuel cap target = Some c
       ∧ doubled_until cap target c.
Proof.
  revert cap. induction fuel as [|fuel IH]; intros cap Hc Hf0 Hf.
  - lia.
  - cbn [cc4_vec_insert_n_cap_loop].
    destruct (Nat.ltb_spec cap target) as [Hlt|Hge].
    + destruct (IH (cap * 2)) as (c & Hrun & k & Hk & Ht & Hmin); [lia|lia|lia|].
      exists c. split; [done|]. exists (S k).
      split; [rewrite Hk; cbn [Nat.pow]; lia|]. split; [done|].
      intros [|j] Hj; [cbn; lia|].
      specialize (Hmin j ltac:(lia)). cbn [Nat.pow]. lia.
    + exists cap. split; [done|]. exists 0. split; [cbn; lia|].
      split; [done|]. intros j Hj. lia.
Qed.

(** The capacity that [cc4_vec_insert_n] asks for is at most twice the
    new size. *)
Lemma doubled_until_le cap target c :
  doubled_until cap target c → cap ≤ 2 * target → c ≤ 2 * target.
Proof.
  intros (k & -> & _ & Hmin) Hcap. destruct k as [|k].
  - cbn. lia.
  - specialize (Hmin k ltac:(lia)). cbn [Nat.pow]. lia.
Qed.

(** The last part of [cc4_vec_insert_n] on a vector with room. *)
Lemma vec_insert_n_place_spec cntr index els el_size :
  vec_wf cntr → index ≤ v_size cntr → v_size cntr + length els ≤ v_cap cntr →
  ∃ cntr',
    cc4_vec_insert_n_place cntr index els el_size
    = Some (cc4_vec_make_allocing_fn_result cntr'
              (Some (cc4_vec_get cntr index el_size)))
    ∧ vec_wf cntr'
    ∧ vec_els cntr' = take index (vec_els cntr) ++ els ++ drop index (vec_els cntr)
    ∧ v_size cntr' = v_size cntr + length els
    ∧ v_hndl cntr' = v_hndl cntr ∧ v_cap cntr' = v_cap cntr.
Proof.
  intros [Hlen Hsize] Hi Hroom. unfold cc4_vec_insert_n_place.
  destruct (Nat.leb_spec index (v_size cntr)); [|lia].
  destruct (insert_place_slots (v_slots cntr) els index (v_size cntr))
    as (slots1 & slots2 & Hmv & Hcp & Hl & Hels); [done|lia|].
  rewrite Hmv. cbn [mbind option_bind]. rewrite Hcp. cbn [mbind option_bind].
  eexists. split; [done|]. split_and!; try done.
  split; cbn [v_slots v_cap v_size]; lia.
Qed.

(** [cc4_vec_insert_n] returns.  With room for the elements in the
    capacity it succeeds and the vector stays in its block.  Without room
    it asks [realloc_] once, for the capacity doubled until the elements
    fit, and fails exactly when that call returns no block; the vector is
    then returned as it is.  On success the elements are the old ones with
    the new ones inserted at [index], and the result pointer points to the
    first of the new ones. *)
Theorem vec_insert_n_inserts cntr index els el_size realloc_ :
  vec_wf cntr → index ≤ cc4_vec_size cntr → els ≠ [] →
  ∃ result,
    cc4_vec_insert_n cntr index els el_size realloc_ = Some result
    ∧ (cc4_vec_size cntr + length els ≤ cc4_vec_cap cntr →
       v_other_ptr result ≠ None)
    ∧ match v_other_ptr result with
      | None =>
          v_new_cntr result = cntr
          ∧ cc4_vec_cap cntr < cc4_vec_size cntr + length els
          ∧ ∃ cap',
              doubled_until (if cc4_vec_cap cntr =? 0 then 2 else cc4_vec_cap cntr)
                (cc4_vec_size cntr + length els) cap'
              ∧ realloc_
                  (if cc4_vec_cap cntr =? 0 then None else Some (v_hndl cntr, 0%Z))
                  (sizeof_cc4_vec_hdr_ty + el_size * Z.of_nat cap')%Z = None
      | Some p =>
          p = cc4_vec_get (v_new_cntr result) index el_size
          ∧ vec_wf (v_new_cntr result)
          ∧ vec_els (v_new_cntr result)
            = take index (vec_els cntr) ++ els ++ drop index (vec_els cntr)
          ∧ cc4_vec_size (v_new_cntr result) = cc4_vec_size cntr + length els
          ∧ (cc4_vec_size cntr + length els ≤ cc4_vec_cap cntr →
             v_hndl (v_new_cntr result) = v_hndl cntr
             ∧ cc4_vec_cap (v_new_cntr result) = cc4_vec_cap cntr)
          ∧ (cc4_vec_cap cntr < cc4_vec_size cntr + length els →
             ∃ cap' id,
               doubled_until
                 (if cc4_vec_cap cntr =? 0 then 2 else cc4_vec_cap cntr)
                 (cc4_vec_size cntr + length els) cap'
               ∧ realloc_
                   (if cc4_vec_cap cntr =? 0 then None
                    else Some (v_hndl cntr, 0%Z))
                   (sizeof_cc4_vec_hdr_ty + el_size * Z.of_nat cap')%Z = Some id
               ∧ v_hndl (v_new_cntr result) = blk_vec_heap id
               ∧ cc4_vec_cap (v_new_cntr result) = cap')
      end.
Proof.
  unfold cc4_vec_size, cc4_vec_cap. intros Hwf Hi Hels.
  unfold cc4_vec_insert_n, cc4_vec_size, cc4_vec_cap.
  destruct (Nat.eqb_spec (length els) 0) as [Hn|Hn].
  { apply length_zero_iff_nil in Hn. done. }
  destruct (Nat.ltb_spec (v_cap cntr) (v_size cntr + length els)) as [Hgrow|Hfit].
  - destruct (cap_loop_spec (S (v_size cntr + length els))
                (if v_cap cntr =? 0 then 2 else v_cap cntr)
                (v_size cntr + length els))
      as (c & Hc & Hdbl); [destruct (Nat.eqb_spec (v_cap cntr) 0); lia|lia|lia|].
    pose proof Hdbl as (_ & _ & Ht & _).
    rewrite Hc. cbn [mbind option_bind].
    pose proof (vec_reserve_spec cntr c el_size realloc_ Hwf) as Hres.
    cbn zeta in Hres.
    destruct (v_other_ptr (cc4_vec_reserve cntr c el_size realloc_)) as [q|] eqn:Hq.
    + destruct Hres as (Hwf1 & Hels1 & Hs1 & Hc1 & _ & Hnew).
      destruct Hnew as (Hcc & id & Hr & Hh); [lia|].
      destruct (vec_insert_n_place_spec
                  (v_new_cntr (cc4_vec_reserve cntr c el_size realloc_))
                  index els el_size)
        as (cntr' & Hrun & Hwf' & Hels' & Hs' & Hh' & Hc'); [done|lia|lia|].
      rewrite Hrun. eexists. split; [done|]. cbn [v_other_ptr v_new_cntr].
      split; [done|]. split_and!; try done.
      * unfold cc4_vec_get. by rewrite Hh'.
      * by rewrite Hels', Hels1.
      * lia.
      * lia.
      * intros _. exists c, id. split_and!; [done|done|congruence|congruence].
    + eexists. split; [done|]. rewrite Hq. destruct Hres as (-> & _ & Hr).
      split; [lia|]. split; [done|]. split; [done|]. by exists c.
  - destruct (vec_insert_n_place_spec cntr index els el_size)
      as (cntr' & Hrun & Hwf' & Hels' & Hs' & Hh' & Hc'); [done|lia|lia|].
    rewrite Hrun. eexists. split; [done|]. cbn [v_other_ptr v_new_cntr].
    split; [done|]. split_and!; try done; [|lia].
    unfold cc4_vec_get. by rewrite Hh'.
Qed.

(** When the elements do not fit, [cc4_vec_insert_n] asks [realloc_] for
    the old capacity (or 2 for a vector without block) doubled until the
    elements fit: the first such capacity that is at least the new size,
    which is at most twice the new size.  The placeholder is passed to
    [realloc_] as [NULL].  When that call returns no block the insertion
    fails and returns the vector as it is; when it returns a block the
    insertion succeeds, and the vector is in that block with that
    capacity. *)
Theorem vec_insert_n_doubles_the_capacity cntr index els el_size realloc_ :
  vec_wf cntr → index ≤ cc4_vec_size cntr →
  cc4_vec_cap cntr < cc4_vec_size cntr + length els →
  ∃ cap' result,
    doubled_until (if cc4_vec_cap cntr =? 0 then 2 else cc4_vec_cap cntr)
      (cc4_vec_size cntr + length els) cap'
    ∧ cap' ≤ 2 * (cc4_vec_size cntr + length els)
    ∧ cc4_vec_insert_n cntr index els el_size realloc_ = Some result
    ∧ match realloc_
              (if cc4_vec_cap cntr =? 0 then None else Some (v_hndl cntr, 0%Z))
              (sizeof_cc4_vec_hdr_ty + el_size * Z.of_nat cap')%Z with
      | None => result = cc4_vec_make_allocing_fn_result cntr None
      | Some id =>
          v_other_ptr result
          = Some (blk_vec_heap id,
                  (sizeof_cc4_vec_hdr_ty + el_size * Z.of_nat index)%Z)
          ∧ v_hndl (v_new_cntr result) = blk_vec_heap id
          ∧ cc4_vec_cap (v_new_cntr result) = cap'
          ∧ cc4_vec_size (v_new_cntr result) = cc4_vec_size cntr + length els
          ∧ vec_els (v_new_cntr result)
            = take index (vec_els cntr) ++ els ++ drop index (vec_els cntr)
      end.
Proof.
  unfold cc4_vec_size, cc4_vec_cap. intros Hwf Hi Hgrow.
  pose proof Hwf as [Hlen Hsize].
  unfold cc4_vec_insert_n, cc4_vec_size, cc4_vec_cap.
  destruct (Nat.eqb_spec (length els) 0) as [Hn|Hn]; [lia|].
  destruct (Nat.ltb_spec (v_cap cntr) (v_size cntr + length els)); [|lia].
  destruct (cap_loop_spec (S (v_size cntr + length els))
              (if v_cap cntr =? 0 then 2 else v_cap cntr)
              (v_size cntr + length els))
    as (c & Hc & Hdbl); [destruct (Nat.eqb_spec (v_cap cntr) 0); lia|lia|lia|].
  pose proof Hdbl as (_ & _ & Ht & _).
  rewrite Hc. cbn [mbind option_bind]. exists c.
  pose proof (vec_reserve_grow cntr c el_size realloc_ Hwf ltac:(lia)) as Hgr.
  pose proof (vec_reserve_spec cntr c el_size realloc_ Hwf) as Hres.
  cbn zeta in Hres.
  destruct (realloc_ _ _) as [id|] eqn:Hr.
  - destruct Hgr as (Hq & Hh & Hcc). rewrite Hq in Hres. rewrite Hq.
    destruct Hres as (Hwf1 & Hels1 & Hs1 & Hc1 & _).
    destruct (vec_insert_n_place_spec
                (v_new_cntr (cc4_vec_reserve cntr c el_size realloc_))
                index els el_size)
      as (cntr' & Hrun & Hwf' & Hels' & Hs' & Hh' & Hc'); [done|lia|lia|].
    rewrite Hrun. eexists. split; [done|].
    split.
    { apply (doubled_until_le _ _ _ Hdbl).
      destruct (Nat.eqb_spec (v_cap cntr) 0); lia. }
    split; [done|]. cbn [v_other_ptr v_new_cntr].
    split_and!.
    + unfold cc4_vec_get. by rewrite Hh.
    + congruence.
    + congruence.
    + lia.
    + by rewrite Hels', Hels1.
  - rewrite Hgr. cbn [v_other_ptr]. eexists. split; [done|].
    split; [|done].
    apply (doubled_until_le _ _ _ Hdbl).
    destruct (Nat.eqb_spec (v_cap cntr) 0); lia.
Qed.

(** [cc4_vec_erase_n] of a range inside the vector: the element
    destructor is called on every element of the range, in order; the
    elements behind the range move down; the block and the capacity stay;
    the result points to the first element behind the erased ones. *)
Theorem vec_erase_n_erases cntr index n el_size el_dtor :
  vec_wf cntr → index + n ≤ cc4_vec_size cntr →
  ∃ cntr',
    cc4_vec_erase_n cntr index n el_size el_dtor
    = Some (cntr', cc4_vec_get cntr index el_size,
            match el_dtor with
            | Some f =>
                (λ j, vec_call_dtor f (cc4_vec_get cntr (index + j) el_size))
                  <$> seq 0 n
            | None => []
            end)
    ∧ vec_wf cntr'
    ∧ vec_els cntr' = take index (vec_els cntr) ++ drop (index + n) (vec_els cntr)
    ∧ cc4_vec_size cntr' = cc4_vec_size cntr - n
    ∧ v_hndl cntr' = v_hndl cntr
    ∧ cc4_vec_cap cntr' = cc4_vec_cap cntr.
Proof.
  unfold cc4_vec_size, cc4_vec_cap. intros [Hlen Hsize] Hi.
  unfold cc4_vec_erase_n.
  destruct (Nat.eqb_spec n 0) as [->|Hn].
  { exists cntr. split; [by destruct el_dtor|]. split_and!; try done; [|lia].
    rewrite Nat.add_0_r. by rewrite take_drop. }
  destruct (Nat.leb_spec (index + n) (v_size cntr)); [|lia].
  destruct (erase_slots (v_slots cntr) index n (v_size cntr))
    as (slots' & Hmv & Hl & Hels); [done|lia|].
  rewrite Hmv. cbn [mbind option_bind]. eexists. split; [done|].
  split_and!; try done. split; cbn [v_slots v_cap v_size]; lia.
Qed.

(** [cc4_vec_resize] to a size whose bytes fit in [size_t] returns.  A
    size within the capacity always succeeds.  Beyond the capacity it
    asks [realloc_] once, for [n] elements, and fails exactly when that
    call returns no block; the vector is then returned as it is.  On
    success the size is [n] and the elements below the old and the new
    size are kept; shrinking calls the element destructor on every element
    from index [n] on, in order, and keeps block and capacity. *)
Theorem vec_resize_sets_the_size cntr n el_size el_dtor realloc_ :
  vec_wf cntr → (0 < el_size)%Z →
  (sizeof_cc4_vec_hdr_ty + el_size * Z.of_nat n < 2 ^ 64)%Z →
  ∃ result evs,
    cc4_vec_resize cntr n el_size el_dtor realloc_ = Some (result, evs)
    ∧ (n ≤ cc4_vec_cap cntr → v_other_ptr result ≠ None)
    ∧ (cc4_vec_cap cntr < n →
       evs = []
       ∧ match realloc_
                 (if cc4_vec_cap cntr =? 0 then None else Some (v_hndl cntr, 0%Z))
                 (sizeof_cc4_vec_hdr_ty + el_size * Z.of_nat n)%Z with
         | None => result = cc4_vec_make_allocing_fn_result cntr None
         | Some id =>
             v_other_ptr result ≠ None
             ∧ v_hndl (v_new_cntr result) = blk_vec_heap id
             ∧ cc4_vec_cap (v_new_cntr result) = n
         end)
    ∧ match v_other_ptr result with
      | None =>
          v_new_cntr result = cntr ∧ evs = [] ∧ cc4_vec_cap cntr < n
      | Some _ =>
          vec_wf (v_new_cntr result)
          ∧ cc4_vec_size (v_new_cntr result) = n
          ∧ take (n `min` cc4_vec_size cntr) (vec_els (v_new_cntr result))
            = take (n `min` cc4_vec_size cntr) (vec_els cntr)
          ∧ (n ≤ cc4_vec_cap cntr →
             v_hndl (v_new_cntr result) = v_hndl cntr
             ∧ cc4_vec_cap (v_new_cntr result) = cc4_vec_cap cntr)
          ∧ evs = match el_dtor with
                  | Some f =>
                      (λ j, vec_call_dtor f (cc4_vec_get cntr (n + j) el_size))
                        <$> seq 0 (cc4_vec_size cntr - n)
                  | None => []
                  end
      end.
Proof.
  unfold cc4_vec_size, cc4_vec_cap. intros Hwf Hel Hfit. pose proof Hwf as [Hlen Hsize].
  unfold cc4_vec_resize, cc4_vec_size.
  destruct (Nat.eqb_spec n (v_size cntr)) as [->|Hne].
  { eexists _, _. split; [done|]. cbn [v_other_ptr v_new_cntr].
    split; [done|]. split; [intros; lia|].
    split; [done|]. split; [done|]. split; [done|]. split; [done|].
    rewrite Nat.sub_diag. by destruct el_dtor. }
  destruct (Nat.ltb_spec n (v_size cntr)) as [Hlt|Hge].
  - unfold cc4_vec_erase_n.
    destruct (Nat.eqb_spec (v_size cntr - n) 0); [lia|].
    destruct (Nat.leb_spec (n + (v_size cntr - n)) (v_size cntr)); [|lia].
    destruct (erase_slots (v_slots cntr) n (v_size cntr - n) (v_size cntr))
      as (slots' & Hmv & Hl & Hels); [lia|lia|].
    rewrite Hmv. cbn [mbind option_bind].
    eexists _, _. split; [done|]. cbn [v_other_ptr v_new_cntr].
    split; [done|]. split; [intros; lia|].
    split; [split; cbn [v_slots v_cap v_size]; lia|].
    cbn [v_size v_hndl v_cap]. split; [lia|]. split; [|done].
    unfold vec_els. cbn [v_size v_slots]. rewrite Hels.
    rewrite Nat.min_l by lia.
    replace (n + (v_size cntr - n)) with (v_size cntr) by lia.
    rewrite (drop_ge (take _ _)) by (rewrite length_take; lia).
    rewrite app_nil_r, take_take. f_equal. lia.
  - pose proof (vec_reserve_spec cntr n el_size realloc_ Hwf) as Hres.
    cbn zeta in Hres.
    destruct (v_other_ptr (cc4_vec_reserve cntr n el_size realloc_)) as [q|] eqn:Hq.
    + destruct Hres as ([Hlen1 Hsize1] & Hels1 & Hs1 & Hc1 & Hsame & Hnew).
      eexists _, _. split; [done|]. cbn [v_other_ptr v_new_cntr].
      split; [done|]. split.
      { intros Hlt. split; [done|].
        destruct (Hnew Hlt) as (Hcn & id & Hr & Hh). rewrite Hr.
        cbn [v_hndl v_cap]. done. }
      split; [split; cbn [v_slots v_cap v_size]; lia|].
      cbn [v_size v_hndl v_cap]. split; [done|]. split; [|split].
      * rewrite Nat.min_r by lia. unfold vec_els in *. cbn [v_size v_slots].
        rewrite Hs1 in Hels1. rewrite take_take, Nat.min_l by lia.
        by rewrite Hels1, take_take, Nat.min_id.
      * intros Hle. by rewrite (Hsame Hle).
      * replace (v_size cntr - n) with 0 by lia. by destruct el_dtor.
    + eexists _, _. split; [done|]. rewrite Hq.
      destruct Hres as (Hsame & Hlt & Hr).
      split; [lia|]. split.
      { intros _. split; [done|]. rewrite Hr.
        destruct (cc4_vec_reserve cntr n el_size realloc_) as [c q].
        cbn in *. by subst. }
      done.
Qed.

(** [cc4_vec_shrink].  A vector whose size is its capacity is returned as
    it is; a vector without elements that has a block ends as the
    placeholder, the block freed; both succeed.  Otherwise [realloc_] is
    asked once, to resize the block to the elements, and the shrink fails
    exactly when that call returns no block: the vector is then returned
    as it is; nothing is freed.  On success the capacity is the size and
    the elements are kept. *)
Theorem vec_shrink_fits_the_capacity cntr el_size realloc_ :
  vec_wf cntr →
  ∃ result evs,
    cc4_vec_shrink cntr el_size realloc_ = (result, evs)
    ∧ (cc4_vec_size cntr = cc4_vec_cap cntr →
       result = cc4_vec_make_allocing_fn_result cntr (Some cc4_vec_dummy_true_ptr)
       ∧ evs = [])
    ∧ (cc4_vec_size cntr = 0 → cc4_vec_cap cntr ≠ 0 →
       result = cc4_vec_make_allocing_fn_result cc4_vec_placeholder
                  (Some cc4_vec_dummy_true_ptr)
       ∧ evs = [vec_call_free (v_hndl cntr, 0%Z)])
    ∧ (cc4_vec_size cntr ≠ cc4_vec_cap cntr → cc4_vec_size cntr ≠ 0 →
       evs = []
       ∧ match realloc_ (Some (v_hndl cntr, 0%Z))
                 (sizeof_cc4_vec_hdr_ty
                  + el_size * Z.of_nat (cc4_vec_size cntr))%Z with
         | None => result = cc4_vec_make_allocing_fn_result cntr None
         | Some id =>
             v_other_ptr result = Some cc4_vec_dummy_true_ptr
             ∧ v_hndl (v_new_cntr result) = blk_vec_heap id
         end)
    ∧ (v_other_ptr result = None → v_new_cntr result = cntr ∧ evs = [])
    ∧ (v_other_ptr result ≠ None →
       vec_wf (v_new_cntr result)
       ∧ vec_els (v_new_cntr result) = vec_els cntr
       ∧ cc4_vec_size (v_new_cntr result) = cc4_vec_size cntr
       ∧ cc4_vec_cap (v_new_cntr result) = cc4_vec_size cntr).
Proof.
  unfold cc4_vec_size, cc4_vec_cap. intros Hwf. pose proof Hwf as [Hlen Hsize].
  unfold cc4_vec_shrink, cc4_vec_size, cc4_vec_cap.
  destruct (Nat.eqb_spec (v_size cntr) (v_cap cntr)) as [Heq|Hne].
  { eexists _, _. split; [done|]. cbn [v_other_ptr v_new_cntr].
    split; [done|]. split; [intros; lia|]. split; [done|]. split; [done|].
    intros _. done. }
  destruct (Nat.eqb_spec (v_size cntr) 0) as [Hs0|Hs0].
  { eexists _, _. split; [done|]. cbn [v_other_ptr v_new_cntr].
    split; [done|]. split; [done|]. split; [done|]. split; [done|].
    intros _. split; [apply vec_wf_placeholder|]. unfold vec_els. rewrite Hs0.
    cbn [cc4_vec_placeholder v_size v_cap v_slots].
    by rewrite take_0. }
  destruct (realloc_ _ _) as [id|] eqn:Hr; eexists _, _; (split; [done|]);
    cbn [v_other_ptr v_new_cntr].
  - split; [done|]. split; [done|]. split; [done|]. split; [done|].
    intros _.
    split; [split; cbn [v_slots v_cap v_size]; [apply length_realloc_slots|lia]|].
    unfold vec_els. cbn [v_size v_cap v_slots].
    split; [apply take_realloc_slots; lia|]. done.
  - split; [done|]. split; [done|]. split; [done|]. split; [done|]. done.
Qed.

(** [cc4_vec_init_clone] returns: the placeholder for a source without
    elements; [NULL] when the allocation fails; otherwise a vector in the
    block from [realloc_] with the elements of the source and a capacity
    equal to the size of the source. *)
Theorem vec_init_clone_copies_the_elements (src : vec_ty E) el_size realloc_ :
  vec_wf src →
  ∃ r,
    cc4_vec_init_clone src el_size realloc_ = Some r
    ∧ match r with
      | None =>
          cc4_vec_size src ≠ 0
          ∧ realloc_ None
              (sizeof_cc4_vec_hdr_ty + el_size * Z.of_nat (cc4_vec_size src))%Z
            = None
      | Some clone =>
          vec_wf clone
          ∧ vec_els clone = vec_els src
          ∧ cc4_vec_size clone = cc4_vec_size src
          ∧ cc4_vec_cap clone = cc4_vec_size src
          ∧ (cc4_vec_size src = 0 → clone = cc4_vec_placeholder)
          ∧ (cc4_vec_size src ≠ 0 →
             ∃ id,
               realloc_ None
                 (sizeof_cc4_vec_hdr_ty
                  + el_size * Z.of_nat (cc4_vec_size src))%Z = Some id
               ∧ v_hndl clone = blk_vec_heap id)
      end.
Proof.
  unfold cc4_vec_size. intros [Hlen Hsize].
  unfold cc4_vec_init_clone, cc4_vec_size.
  destruct (Nat.eqb_spec (v_size src) 0) as [Hs0|Hs0].
  { eexists. split; [done|]. split; [apply vec_wf_placeholder|].
    unfold vec_els. rewrite Hs0. cbn [cc4_vec_placeholder v_size v_cap v_slots].
    split; [by rewrite take_0|]. done. }
  unfold cc4_vec_resize, cc4_vec_size, cc4_vec_reserve, cc4_vec_cap,
    cc4_vec_is_placeholder. cbn [cc4_vec_placeholder v_size v_cap v_hndl v_slots].
  destruct (Nat.eqb_spec (v_size src) 0); [done|]. cbn [Nat.ltb Nat.leb].
  destruct (Nat.leb_spec (v_size src) 0); [lia|]. cbn [Nat.eqb].
  destruct (realloc_ None _) as [id|] eqn:Hr;
    cbn [v_other_ptr v_new_cntr mbind option_bind v_size v_cap v_hndl v_slots].
  2: { eexists. split; [done|]. done. }
  destruct (Nat.leb_spec (v_size src) (length (v_slots src))); [|lia].
  destruct (memcpy_slots_spec (realloc_slots [] (v_size src)) 0
              (take (v_size src) (v_slots src))) as [Hcp Hl].
  { rewrite length_realloc_slots, length_take. lia. }
  rewrite Hcp. cbn [mbind option_bind]. eexists. split; [done|].
  rewrite length_realloc_slots in Hl.
  split; [split; cbn [v_slots v_cap v_size]; [done|lia]|].
  unfold vec_els. cbn [v_size v_cap v_slots v_hndl].
  split; [|split; [done|split; [done|split; [done|intros _; by exists id]]]].
  rewrite take_0. cbn [app]. rewrite take_app_length'; [done|].
  rewrite length_take. lia.
Qed.

(** [cc4_vec_clear] and [cc4_vec_cleanup]: the element destructor is
    called on every element, from the first to the last, once;
    [cc4_vec_clear] leaves the vector empty in its block; and
    [cc4_vec_cleanup] frees the block unless the vector is the
    placeholder. *)
Theorem vec_cleanup_destroys_every_element cntr el_size el_dtor :
  vec_wf cntr →
  let dtors :=
    match el_dtor with
    | Some f =>
        (λ j, vec_call_dtor f (cc4_vec_get cntr j el_size))
          <$> seq 0 (cc4_vec_size cntr)
    | None => []
    end in
  (∃ cntr', cc4_vec_clear cntr el_size el_dtor = Some (cntr', dtors)
            ∧ vec_wf cntr' ∧ vec_els cntr' = [] ∧ cc4_vec_size cntr' = 0
            ∧ v_hndl cntr' = v_hndl cntr
            ∧ cc4_vec_cap cntr' = cc4_vec_cap cntr)
  ∧ cc4_vec_cleanup cntr el_size el_dtor
    = Some (dtors ++ if cc4_vec_cap cntr =? 0 then []
                     else [vec_call_free (v_hndl cntr, 0%Z)]).
Proof.
  unfold cc4_vec_size, cc4_vec_cap. intros Hwf. pose proof Hwf as [Hlen Hsize].
  cbn zeta.
  assert (∃ cntr',
            cc4_vec_erase_n cntr 0 (v_size cntr) el_size el_dtor
            = Some (cntr', cc4_vec_get cntr 0 el_size,
                    match el_dtor with
                    | Some f =>
                        (λ j, vec_call_dtor f (cc4_vec_get cntr j el_size))
                          <$> seq 0 (v_size cntr)
                    | None => []
                    end)
            ∧ vec_wf cntr' ∧ vec_els cntr' = [] ∧ v_size cntr' = 0
            ∧ v_hndl cntr' = v_hndl cntr ∧ v_cap cntr' = v_cap cntr)
    as (cntr' & Hrun & Hrest).
  { unfold cc4_vec_erase_n, cc4_vec_erase_n_dtors.
    destruct (Nat.eqb_spec (v_size cntr) 0) as [Hs0|Hs0].
    { exists cntr. rewrite Hs0. split; [by destruct el_dtor|].
      split; [done|]. unfold vec_els. rewrite Hs0, take_0. done. }
    cbn [Nat.add]. destruct (Nat.leb_spec (v_size cntr) (v_size cntr)); [|lia].
    destruct (erase_slots (v_slots cntr) 0 (v_size cntr) (v_size cntr))
      as (slots' & Hmv & Hl & Hels); [lia|lia|].
    cbn [Nat.add] in Hmv. rewrite Hmv. cbn [mbind option_bind].
    eexists. split; [done|].
    split; [split; cbn [v_slots v_cap v_size]; lia|].
    unfold vec_els. cbn [v_size v_slots v_hndl v_cap].
    rewrite Nat.sub_diag, take_0. split; [done|]. split; [lia|done]. }
  unfold cc4_vec_cleanup, cc4_vec_clear, cc4_vec_size, cc4_vec_is_placeholder.
  rewrite Hrun. cbn [mbind option_bind]. split; [|done]. by exists cntr'.
Qed.

Lemma vec_for_each_from cntr el_size m j fuel :
  (0 < el_size)%Z → j + m = v_size cntr → m < fuel →
  cc4_for_each_loop fuel (cc4_vec_end cntr el_size)
    (λ itr, Some (cc4_vec_next itr el_size)) (cc4_vec_get cntr j el_size)
  = Some ((λ i, cc4_vec_get cntr i el_size) <$> seq j m).
Proof.
  intros Hel. revert j fuel. induction m as [|m IH]; intros j fuel Hj Hf.
  - destruct fuel as [|fuel]; [lia|]. cbn [cc4_for_each_loop seq fmap list_fmap].
    rewrite decide_True; [done|].
    unfold cc4_vec_get, cc4_vec_end, cc4_vec_size. do 3 f_equal. lia.
  - destruct fuel as [|fuel]; [lia|]. cbn [cc4_for_each_loop seq fmap list_fmap].
    rewrite decide_False.
    2: { unfold cc4_vec_get, cc4_vec_end, cc4_vec_size. intros [= Heq]. nia. }
    cbn [mbind option_bind].
    assert (cc4_vec_next (cc4_vec_get cntr j el_size) el_size
            = cc4_vec_get cntr (S j) el_size) as ->.
    { unfold cc4_vec_next, cc4_vec_get. cbn [fst snd]. f_equal. lia. }
    rewrite (IH (S j) fuel) by lia. done.
Qed.

(** The loop [cc4_for_each] over a vector runs its body once for every
    element, from the first to the last, with the pointer that
    [cc4_vec_get] returns for the index, and ends after as many rounds as
    the vector has elements. *)
Theorem vec_for_each_visits_every_element cntr el_size fuel :
  (0 < el_size)%Z → cc4_vec_size cntr < fuel →
  cc4_vec_for_each fuel cntr el_size
  = Some ((λ i, cc4_vec_get cntr i el_size) <$> seq 0 (cc4_vec_size cntr)).
Proof.
  unfold cc4_vec_size. intros Hel Hfuel. unfold cc4_vec_for_each.
  assert (cc4_vec_first cntr = cc4_vec_get cntr 0 el_size) as ->.
  { unfold cc4_vec_first, cc4_vec_get. f_equal. lia. }
  by apply vec_for_each_from.
Qed.

End vectors.

(** ** Lists: the heap *)

Section list_heap.
Context {E : Type}.
Implicit Types (h : gmap nat (list_obj E)) (p q : list_ptr) (cntr : list_block).

Lemma load_listnode_local h h' p :
  (∀ j, p.1 = blk_list_heap j → h' !! j = h !! j) →
  load_listnode h' p = load_listnode h p.
Proof.
  intros Hj. unfold load_listnode. destruct p as [[| |j] o]; cbn in *; try done.
  by rewrite (Hj j).
Qed.

Lemma list_el_at_local h h' p :
  (∀ j, p.1 = blk_list_heap j → h' !! j = h !! j) →
  list_el_at h' p = list_el_at h p.
Proof.
  intros Hj. unfold list_el_at. destruct p as [[| |j] o]; cbn in *; try done.
  by rewrite (Hj j).
Qed.

Lemma cc4_list_hdr_local h h' cntr :
  (∀ j, cntr = blk_list_heap j → h' !! j = h !! j) →
  cc4_list_hdr h' cntr = cc4_list_hdr h cntr.
Proof.
  intros Hj. unfold cc4_list_hdr. destruct cntr as [| |j]; try done.
  by rewrite (Hj j).
Qed.

Lemma cc4_list_size_local h h' cntr :
  (∀ j, cntr = blk_list_heap j → h' !! j = h !! j) →
  cc4_list_size h' cntr = cc4_list_size h cntr.
Proof. intros Hj. unfold cc4_list_size. by rewrite (cc4_list_hdr_local h h'). Qed.

Lemma relinked_refl h : relinked h h.
Proof. done. Qed.

Lemma relinked_trans h1 h2 h3 : relinked h1 h2 → relinked h2 h3 → relinked h1 h3.
Proof.
  intros (Hs1 & He1 & Hd1) (Hs2 & He2 & Hd2). split; [|split].
  - intros c. by rewrite Hs2.
  - intros i. by rewrite He2.
  - intros i. by rewrite Hd2.
Qed.

(** Replacing a block by one of the same kind, size and element. *)
Lemma relinked_insert h j obj obj' :
  h !! j = Some obj →
  match obj, obj' with
  | obj_list_hdr s _ _, obj_list_hdr s' _ _ => s' = s
  | obj_list_node _ el, obj_list_node _ el' => el' = el
  | _, _ => False
  end →
  relinked h (<[j := obj']> h).
Proof.
  intros Hj Hobj. split; [|split].
  - intros [| |c]; try done. unfold cc4_list_size, cc4_list_hdr.
    destruct (decide (c = j)) as [->|Hc].
    + rewrite lookup_insert_eq, Hj.
      destruct obj, obj'; try done. by subst.
    + by rewrite lookup_insert_ne.
  - intros [[| |c] o']; try done. unfold list_el_at. cbn [fst snd].
    destruct (decide (c = j)) as [->|Hc].
    + rewrite lookup_insert_eq, Hj.
      destruct obj, obj'; try done. by subst.
    + by rewrite lookup_insert_ne.
  - intros i. destruct (decide (i = j)) as [->|Hi].
    + by rewrite lookup_insert_eq, Hj.
    + by rewrite lookup_insert_ne.
Qed.

Lemma store_listnode_spec h p hp v :
  load_listnode h p = Some hp → (∃ j, p.1 = blk_list_heap j) →
  ∃ h', store_listnode h p v = Some h'
        ∧ load_listnode h' p = Some v
        ∧ (∀ q, q ≠ p → load_listnode h' q = load_listnode h q)
        ∧ relinked h h'
        ∧ (∀ i, blk_list_heap i ≠ p.1 → h' !! i = h !! i).
Proof.
  intros Hload [j Hp]. destruct p as [b o]. cbn in Hp. subst b.
  assert (∃ obj obj',
    h !! j = Some obj
    ∧ store_listnode h (blk_list_heap j, o) v = Some (<[j := obj']> h)
    ∧ load_listnode (<[j := obj']> h) (blk_list_heap j, o) = Some v
    ∧ (∀ o', o' ≠ o →
         load_listnode (<[j := obj']> h) (blk_list_heap j, o')
         = load_listnode h (blk_list_heap j, o'))
    ∧ match obj, obj' with
      | obj_list_hdr s _ _, obj_list_hdr s' _ _ => s' = s
      | obj_list_node _ el, obj_list_node _ el' => el' = el
      | _, _ => False
      end) as (obj & obj' & Hj & -> & Hsame & Hother & Hkind).
  { unfold load_listnode, store_listnode in *. cbn [fst snd] in *.
    destruct (h !! j) as [[size r e|hd el]|] eqn:Hj; [| |done].
    - destruct (o =? offsetof_r_end)%Z eqn:Ho1;
        [|destruct (o =? offsetof_end)%Z eqn:Ho2; [|done]].
      + eexists _, _. split; [done|]. split; [done|].
        rewrite lookup_insert_eq. split; [done|]. split; [|done].
        intros o' Ho'. destruct (o' =? offsetof_r_end)%Z eqn:Ho''; [|done].
        lia.
      + eexists _, _. split; [done|]. split; [done|].
        rewrite lookup_insert_eq. split; [done|]. split; [|done].
        intros o' Ho'. destruct (o' =? offsetof_r_end)%Z eqn:Ho''; [done|].
        destruct (o' =? offsetof_end)%Z eqn:Ho3; [|done]. lia.
    - destruct (o =? 0)%Z eqn:Ho; [|done].
      eexists _, _. split; [done|]. split; [done|].
      rewrite lookup_insert_eq. split; [done|]. split; [|done].
      intros o' Ho'. destruct (o' =? 0)%Z eqn:Ho''; [|done]. lia. }
  eexists. split; [done|]. split; [done|]. split; [|split].
  - intros [b' o'] Hne. destruct (decide (b' = blk_list_heap j)) as [->|Hb].
    + apply Hother. congruence.
    + apply load_listnode_local. intros i Hi. cbn in Hi. subst b'.
      rewrite lookup_insert_ne; [done|congruence].
  - by eapply relinked_insert.
  - intros i Hi. cbn in Hi. rewrite lookup_insert_ne; [done|congruence].
Qed.

Lemma set_next_spec h p hp v :
  load_listnode h p = Some hp → (∃ j, p.1 = blk_list_heap j) →
  ∃ h', set_next h p v = Some h'
        ∧ load_listnode h' p = Some (ListNodeHdr (ln_prev hp) v)
        ∧ (∀ q, q ≠ p → load_listnode h' q = load_listnode h q)
        ∧ relinked h h'
        ∧ (∀ i, blk_list_heap i ≠ p.1 → h' !! i = h !! i).
Proof.
  intros Hload Hp. unfold set_next. rewrite Hload. cbn.
  by eapply store_listnode_spec.
Qed.

Lemma set_prev_spec h p hp v :
  load_listnode h p = Some hp → (∃ j, p.1 = blk_list_heap j) →
  ∃ h', set_prev h p v = Some h'
        ∧ load_listnode h' p = Some (ListNodeHdr v (ln_next hp))
        ∧ (∀ q, q ≠ p → load_listnode h' q = load_listnode h q)
        ∧ relinked h h'
        ∧ (∀ i, blk_list_heap i ≠ p.1 → h' !! i = h !! i).
Proof.
  intros Hload Hp. unfold set_prev. rewrite Hload. cbn.
  by eapply store_listnode_spec.
Qed.

End list_heap.

(** ** Lists: chains of nodes *)

Section list_chains.
Context {E : Type}.
Implicit Types (h : gmap nat (list_obj E)) (p q : list_ptr) (cntr : list_block).

Lemma adjacent_cons {A} (a : A) (l : list A) :
  adjacent (a :: l) = match l with [] => [] | b :: _ => (a, b) :: adjacent l end.
Proof. by destruct l. Qed.

Lemma adjacent_app {A} (l1 : list A) (a : A) (l2 : list A) :
  adjacent (l1 ++ a :: l2) = adjacent (l1 ++ [a]) ++ adjacent (a :: l2).
Proof.
  induction l1 as [|x l1 IH]; [done|].
  rewrite <- !app_comm_cons, (adjacent_cons x (l1 ++ a :: l2)),
    (adjacent_cons x (l1 ++ [a])).
  destruct l1 as [|y l1]; cbn [app]; [done|].
  cbn [app] in IH. by rewrite IH.
Qed.

Lemma elem_of_adjacent {A} (l : list A) (p q : A) :
  (p, q) ∈ adjacent l → ∃ l1 l2, l = l1 ++ p :: q :: l2.
Proof.
  induction l as [|x l IH]; [by intros ?%elem_of_nil|].
  rewrite adjacent_cons. destruct l as [|y l]; [by intros ?%elem_of_nil|].
  intros [Heq|Hin]%elem_of_cons.
  - simplify_eq. by exists [], l.
  - destruct (IH Hin) as (l1 & l2 & Hl). exists (x :: l1), l2. by rewrite Hl.
Qed.

(** In a chain without repetition, a link before the place [a] does not
    start at [a] or behind it, and a link behind the place [b] does not
    end at [b] or before it. *)
Lemma adjacent_before {A} (l1 : list A) (a : A) (l2 : list A) (p q : A) :
  NoDup (l1 ++ a :: l2) → (p, q) ∈ adjacent (l1 ++ [a]) →
  p ∈ l1 ∧ q ∈ l1 ++ [a] ∧ p ≠ a ∧ (p ∉ l2) ∧ (q ∉ l2).
Proof.
  intros Hnd Hin. apply elem_of_adjacent in Hin as (k1 & k2 & Hk).
  destruct (exists_last (l := q :: k2)) as (k3 & z & Hk3); [done|].
  rewrite Hk3 in Hk.
  replace (k1 ++ p :: k3 ++ [z]) with ((k1 ++ p :: k3) ++ [z]) in Hk
    by by rewrite <- app_assoc.
  apply app_inj_tail in Hk as [-> ->].
  assert (q ∈ (k1 ++ p :: k3) ∨ q = z) as Hq.
  { assert (q ∈ k3 ++ [z]) as Hq by (rewrite <- Hk3; apply elem_of_cons; auto).
    apply elem_of_app in Hq as [Hq|Hq].
    - left. apply elem_of_app. right. apply elem_of_cons. auto.
    - right. by apply list_elem_of_singleton in Hq. }
  assert (p ∈ k1 ++ p :: k3) as Hp.
  { apply elem_of_app. right. apply elem_of_cons. auto. }
  apply NoDup_app in Hnd as (Hnd1 & Hdisj & Hnd2).
  apply NoDup_cons in Hnd2 as [Hz _].
  split; [done|].
  split; [rewrite elem_of_app, list_elem_of_singleton; tauto|].
  pose proof (Hdisj p Hp) as Hp'. apply not_elem_of_cons in Hp' as [Hpz Hp2].
  split; [done|]. split; [done|].
  destruct Hq as [Hq| ->]; [|done].
  pose proof (Hdisj q Hq) as Hq'. by apply not_elem_of_cons in Hq' as [_ Hq2].
Qed.

Lemma adjacent_behind {A} (l1 : list A) (b : A) (l2 : list A) (p q : A) :
  NoDup (l1 ++ b :: l2) → (p, q) ∈ adjacent (b :: l2) →
  p ∈ b :: l2 ∧ q ∈ l2 ∧ q ≠ b ∧ (q ∉ l1) ∧ (p ∉ l1).
Proof.
  intros Hnd Hin. apply elem_of_adjacent in Hin as (k1 & k2 & Hk).
  apply NoDup_app in Hnd as (Hnd1 & Hdisj & Hnd2).
  apply NoDup_cons in Hnd2 as [Hb _].
  assert (p ∈ b :: l2) as Hp.
  { rewrite Hk. apply elem_of_app. right. apply elem_of_cons. auto. }
  assert (q ∈ l2) as Hq.
  { destruct k1 as [|z k1]; cbn in Hk; simplify_eq.
    - apply elem_of_cons. auto.
    - apply elem_of_app. right. apply elem_of_cons. right.
      apply elem_of_cons. auto. }
  split; [done|]. split; [done|]. split; [by intros ->|]. split.
  - intros Hq1. apply (Hdisj q Hq1). apply elem_of_cons. auto.
  - intros Hp1. by apply (Hdisj p Hp1).
Qed.

Lemma Forall2_impl_elem {A B} (P Q : A → B → Prop) (l : list A) (k : list B) :
  Forall2 P l k → (∀ x y, x ∈ l → P x y → Q x y) → Forall2 Q l k.
Proof.
  induction 1 as [|x y l k Hxy Hlk IH]; intros HPQ; constructor.
  - apply HPQ; [|done]. apply elem_of_cons. auto.
  - apply IH. intros x' y' Hx'. apply HPQ. apply elem_of_cons. auto.
Qed.

Lemma list_node_ptr_inj : Inj (=) (=) list_node_ptr.
Proof. intros i j Hij. unfold list_node_ptr in Hij. by simplify_eq. Qed.

Lemma NoDup_list_chain cntr ids : NoDup ids → NoDup (list_chain cntr ids).
Proof.
  intros Hnd. unfold list_chain. apply NoDup_cons. split.
  - intros [Hin|Hin]%elem_of_app.
    + apply list_elem_of_fmap in Hin as (i & Hi & _).
      unfold list_r_end_of, list_node_ptr, offsetof_r_end in Hi. by simplify_eq.
    + apply list_elem_of_singleton in Hin.
      unfold list_r_end_of, list_end_of, offsetof_r_end, offsetof_end in Hin.
      by simplify_eq.
  - apply NoDup_app. split; [|split].
    + apply (NoDup_fmap_2 _ (Inj0 := list_node_ptr_inj)). done.
    + intros p Hin Hin2. apply list_elem_of_singleton in Hin2 as ->.
      apply list_elem_of_fmap in Hin as (i & Hi & _).
      unfold list_end_of, list_node_ptr, offsetof_end in Hi. by simplify_eq.
    + apply NoDup_singleton.
Qed.

(** The chain of a list cut at the place of an insertion. *)
Lemma list_chain_cut cntr ids1 ids2 :
  ∃ L a b R,
    (∀ mid, list_chain cntr (ids1 ++ mid ++ ids2)
            = L ++ a :: (list_node_ptr <$> mid) ++ b :: R)
    ∧ a = default (list_r_end_of cntr) (list_node_ptr <$> last ids1)
    ∧ b = default (list_end_of cntr) (list_node_ptr <$> head ids2).
Proof.
  unfold list_chain.
  destruct (decide (ids1 = [])) as [->|Hne1].
  - destruct ids2 as [|i2 ids2].
    + exists [], (list_r_end_of cntr), (list_end_of cntr), [].
      split; [|done]. intros mid. by rewrite app_nil_r.
    + exists [], (list_r_end_of cntr), (list_node_ptr i2),
        ((list_node_ptr <$> ids2) ++ [list_end_of cntr]).
      split; [|done]. intros mid. cbn. f_equal.
      by rewrite !fmap_app, fmap_cons, <- !app_assoc.
  - destruct (exists_last Hne1) as (ids1' & i1 & ->).
    destruct ids2 as [|i2 ids2].
    + exists (list_r_end_of cntr :: (list_node_ptr <$> ids1')),
        (list_node_ptr i1), (list_end_of cntr), [].
      split; [|by rewrite last_snoc]. intros mid. cbn. f_equal.
      rewrite app_nil_r, !fmap_app. cbn. by rewrite <- !app_assoc.
    + exists (list_r_end_of cntr :: (list_node_ptr <$> ids1')),
        (list_node_ptr i1), (list_node_ptr i2),
        ((list_node_ptr <$> ids2) ++ [list_end_of cntr]).
      split; [|by rewrite last_snoc]. intros mid. cbn. f_equal.
      rewrite !fmap_app. cbn. by rewrite <- !app_assoc.
Qed.

End list_chains.

(** ** Lists: insertion *)

Section list_insert.
Context {E : Type}.
Implicit Types (h : gmap nat (list_obj E)) (p q : list_ptr) (cntr : list_block).

Lemma hdr_of_size h cntr s :
  cc4_list_size h cntr = Some s →
  ∃ r e, cc4_list_hdr h cntr = Some (s, r, e)
         ∧ load_listnode h (list_r_end_of cntr) = Some r
         ∧ load_listnode h (list_end_of cntr) = Some e.
Proof.
  unfold cc4_list_size, cc4_list_hdr, load_listnode.
  destruct cntr as [| |c]; cbn; [|done|].
  - intros ?; simplify_eq. by eexists _, _.
  - destruct (h !! c) as [[s' r e|]|]; cbn; [|done..].
    intros ?; simplify_eq. by eexists _, _.
Qed.

Lemma list_sentinels h cntr s :
  cc4_list_size h cntr = Some s →
  prev_of h (list_r_end_of cntr) = Some (list_r_end_of blk_list_placeholder) →
  next_of h (list_end_of cntr) = Some (list_end_of blk_list_placeholder) →
  cc4_list_r_end h cntr = Some list_r_end_itr
  ∧ cc4_list_end h cntr = Some list_end_itr
  ∧ cc4_list_is_placeholder h cntr
    = Some (bool_decide (cntr = blk_list_placeholder)).
Proof.
  intros Hs Hr He. destruct (hdr_of_size _ _ _ Hs) as (r & e & Hhdr & Hlr & Hle).
  unfold prev_of, next_of in *. rewrite Hlr in Hr. rewrite Hle in He.
  cbn in Hr, He. simplify_eq.
  unfold cc4_list_r_end, cc4_list_end, cc4_list_is_placeholder.
  rewrite Hhdr. cbn. rewrite Hr, He. split; [done|]. split; [done|].
  f_equal. apply bool_decide_ext. unfold list_r_end_of. split.
  - intros ?; by simplify_eq.
  - by intros ->.
Qed.

Lemma list_itr_hdr i : cc4_listnode_hdr (list_itr i) = list_node_ptr i.
Proof. done. Qed.

Lemma list_end_hdr cntr :
  cc4_listnode_hdr (cc4_list_el (list_end_of cntr)) = list_end_of cntr.
Proof. unfold cc4_listnode_hdr, cc4_list_el, list_end_of. cbn. f_equal. Qed.

Lemma list_r_end_hdr cntr :
  cc4_listnode_hdr (cc4_list_el (list_r_end_of cntr)) = list_r_end_of cntr.
Proof. unfold cc4_listnode_hdr, cc4_list_el, list_r_end_of. cbn. f_equal. Qed.

(** The place in the list of [cntr] that a pointer-iterator stands for. *)
Lemma list_local_itr_spec h cntr s :
  cc4_list_size h cntr = Some s →
  prev_of h (list_r_end_of cntr) = Some (list_r_end_of blk_list_placeholder) →
  next_of h (list_end_of cntr) = Some (list_end_of blk_list_placeholder) →
  list_local_itr h cntr list_end_itr = Some (cc4_list_el (list_end_of cntr))
  ∧ (cntr ≠ blk_list_placeholder →
     list_local_itr h cntr (cc4_list_el (list_end_of cntr))
     = Some (cc4_list_el (list_end_of cntr)))
  ∧ (∀ i, list_local_itr h cntr (list_itr i) = Some (list_itr i)).
Proof.
  intros Hs Hr He. destruct (list_sentinels _ _ _ Hs Hr He) as (Hre & Hen & _).
  unfold list_local_itr. rewrite Hre, Hen. cbn [mbind option_bind].
  split; [|split].
  - rewrite decide_False by done. by rewrite decide_True.
  - intros Hc. rewrite decide_False.
    + rewrite decide_False; [done|].
      intros Heq. apply Hc.
      unfold list_end_itr, cc4_list_el, list_end_of in Heq. cbn in Heq.
      by simplify_eq.
    + intros Heq. apply Hc.
      unfold list_r_end_itr, cc4_list_el, list_end_of, list_r_end_of in Heq.
      cbn in Heq. by simplify_eq.
  - intros i. rewrite decide_False by done. by rewrite decide_False.
Qed.

Lemma cc4_list_attach_spec h cntr itr itr' n a b hn :
  list_local_itr h cntr itr = Some itr' → cc4_listnode_hdr itr' = b →
  load_listnode h n = Some hn →
  next_of h a = Some b → prev_of h b = Some a →
  a ≠ b → a ≠ n → b ≠ n →
  (∃ j, a.1 = blk_list_heap j) → (∃ j, b.1 = blk_list_heap j) →
  (∃ j, n.1 = blk_list_heap j) →
  ∃ h', cc4_list_attach h cntr itr n = Some h'
    ∧ load_listnode h' n = Some (ListNodeHdr a b)
    ∧ next_of h' a = Some n ∧ prev_of h' a = prev_of h a
    ∧ prev_of h' b = Some n ∧ next_of h' b = next_of h b
    ∧ (∀ q, q ≠ a → q ≠ b → q ≠ n → load_listnode h' q = load_listnode h q)
    ∧ relinked h h'
    ∧ (∀ i, blk_list_heap i ≠ a.1 → blk_list_heap i ≠ b.1 →
            blk_list_heap i ≠ n.1 → h' !! i = h !! i).
Proof.
  intros Hlocal Hhdr Hn Hab Hba Hne1 Hne2 Hne3 Ha Hb Hnb.
  unfold next_of in Hab. unfold prev_of in Hba.
  destruct (load_listnode h a) as [ha|] eqn:Hla; [|done].
  destruct (load_listnode h b) as [hb|] eqn:Hlb; [|done].
  cbn in Hab, Hba. simplify_eq.
  unfold cc4_list_attach. rewrite Hlocal. cbn [mbind option_bind].
  destruct (set_next_spec h n hn (cc4_listnode_hdr itr') Hn Hnb)
    as (h1 & -> & Hn1 & Ho1 & Hr1 & Hf1).
  cbn [mbind option_bind]. rewrite Hn1. cbn [mbind option_bind ln_next].
  rewrite (Ho1 _ Hne3), Hlb. cbn [mbind option_bind].
  destruct (set_prev_spec h1 n _ (ln_prev hb) Hn1 Hnb)
    as (h2 & -> & Hn2 & Ho2 & Hr2 & Hf2).
  cbn [mbind option_bind ln_next ln_prev] in *.
  rewrite Hn2. cbn [mbind option_bind ln_next].
  assert (load_listnode h2 (cc4_listnode_hdr itr') = Some hb) as Hlb2.
  { by rewrite (Ho2 _ Hne3), (Ho1 _ Hne3). }
  destruct (set_prev_spec h2 _ hb n Hlb2 Hb) as (h3 & -> & Hb3 & Ho3 & Hr3 & Hf3).
  cbn [mbind option_bind].
  assert (n ≠ cc4_listnode_hdr itr') as Hne3' by done.
  rewrite (Ho3 _ Hne3'), Hn2. cbn [mbind option_bind ln_prev].
  assert (load_listnode h3 (ln_prev hb) = Some ha) as Hla3.
  { by rewrite (Ho3 _ Hne1), (Ho2 _ Hne2), (Ho1 _ Hne2). }
  destruct (set_next_spec h3 _ ha n Hla3 Ha) as (h4 & Hh4 & Ha4 & Ho4 & Hr4 & Hf4).
  exists h4. split; [done|].
  assert (ln_prev hb ≠ n) as Hne2' by done.
  split; [by rewrite (Ho4 _ (not_eq_sym Hne2')), (Ho3 _ Hne3'), Hn2|].
  unfold next_of, prev_of. rewrite Ha4, Hla. cbn.
  split; [done|]. split; [done|].
  rewrite (Ho4 _ (not_eq_sym Hne1)), Hb3, Hlb. cbn.
  split; [done|]. split; [done|]. split; [|split].
  - intros q Hq1 Hq2 Hq3.
    by rewrite (Ho4 _ Hq1), (Ho3 _ Hq2), (Ho2 _ Hq3), (Ho1 _ Hq3).
  - eapply relinked_trans; [|done]. eapply relinked_trans; [|done].
    by eapply relinked_trans.
  - intros i Hi1 Hi2 Hi3.
    by rewrite (Hf4 _ Hi1), (Hf3 _ Hi2), (Hf2 _ Hi3), (Hf1 _ Hi3).
Qed.

End list_insert.

Section list_insert_node.
Context {E : Type}.
Implicit Types (h : gmap nat (list_obj E)) (p q : list_ptr) (cntr : list_block).

Lemma set_list_size_spec h c s s' :
  cc4_list_size h (blk_list_heap c) = Some s →
  ∃ h', set_list_size h (blk_list_heap c) s' = Some h'
    ∧ cc4_list_size h' (blk_list_heap c) = Some s'
    ∧ (∀ q, load_listnode h' q = load_listnode h q)
    ∧ (∀ itr, list_el_at h' itr = list_el_at h itr)
    ∧ (∀ cntr, cntr ≠ blk_list_heap c →
               cc4_list_size h' cntr = cc4_list_size h cntr)
    ∧ (∀ i, h' !! i = None ↔ h !! i = None)
    ∧ (∀ i, i ≠ c → h' !! i = h !! i).
Proof.
  unfold cc4_list_size, cc4_list_hdr, set_list_size.
  destruct (h !! c) as [[s0 r e|]|] eqn:Hc; cbn; [|done..].
  intros _. eexists. split; [done|]. rewrite lookup_insert_eq. cbn.
  split; [done|]. split; [|split; [|split; [|split]]].
  - intros [[| |j] o]; try done. unfold load_listnode. cbn [fst snd].
    destruct (decide (j = c)) as [->|Hj].
    + by rewrite lookup_insert_eq, Hc.
    + by rewrite lookup_insert_ne.
  - intros [[| |j] o]; try done. unfold list_el_at. cbn [fst snd].
    destruct (decide (j = c)) as [->|Hj].
    + by rewrite lookup_insert_eq, Hc.
    + by rewrite lookup_insert_ne.
  - intros [| |j] Hj; try done. rewrite lookup_insert_ne; [done|congruence].
  - intros i. destruct (decide (i = c)) as [->|Hi].
    + by rewrite lookup_insert_eq, Hc.
    + by rewrite lookup_insert_ne.
  - intros i Hi. by rewrite lookup_insert_ne.
Qed.

(** A node in a fresh block. *)
Lemma list_new_node h n hdr (el : E) :
  h !! n = None →
  let h' := <[n := obj_list_node hdr el]> h in
  load_listnode h' (list_node_ptr n) = Some hdr
  ∧ list_el_at h' (list_itr n) = Some el
  ∧ (∀ q, q ≠ list_node_ptr n → load_listnode h' q = load_listnode h q)
  ∧ (∀ itr, itr.1 ≠ blk_list_heap n → list_el_at h' itr = list_el_at h itr)
  ∧ (∀ cntr, cntr ≠ blk_list_heap n →
             cc4_list_size h' cntr = cc4_list_size h cntr).
Proof.
  intros Hn h'. subst h'. split; [|split; [|split; [|split]]].
  - unfold load_listnode. cbn. by rewrite lookup_insert_eq.
  - unfold list_el_at. cbn. by rewrite lookup_insert_eq.
  - intros [b o] Hq. destruct (decide (b = blk_list_heap n)) as [->|Hb].
    + unfold load_listnode. cbn [fst snd]. rewrite lookup_insert_eq, Hn.
      destruct (o =? 0)%Z eqn:Ho; [|done]. exfalso. apply Hq.
      unfold list_node_ptr. f_equal. lia.
    + apply load_listnode_local. intros j Hj. cbn in Hj.
      rewrite lookup_insert_ne; [done|congruence].
  - intros itr Hitr. apply list_el_at_local. intros j Hj.
    rewrite lookup_insert_ne; [done|congruence].
  - intros cntr Hc. apply cc4_list_size_local. intros j Hj.
    rewrite lookup_insert_ne; [done|congruence].
Qed.

Lemma list_wf_live h cntr ids els i :
  list_wf h cntr ids els → i ∈ ids → h !! i ≠ None.
Proof.
  intros (_ & _ & _ & _ & _ & Hels) Hi Hnone.
  apply list_elem_of_lookup in Hi as [k Hk].
  destruct (Forall2_lookup_l _ _ _ _ _ Hels Hk) as (el & _ & Hel).
  unfold list_el_at in Hel. cbn in Hel. by rewrite Hnone in Hel.
Qed.

Lemma list_wf_hdr_live h c ids els :
  list_wf h (blk_list_heap c) ids els → h !! c ≠ None ∧ (c ∉ ids).
Proof.
  intros Hwf. pose proof Hwf as (_ & Hs & _ & _ & _ & Hels).
  unfold cc4_list_size, cc4_list_hdr in Hs.
  destruct (h !! c) as [[s r e|]|] eqn:Hc; [|done..].
  split; [done|]. intros Hi.
  apply list_elem_of_lookup in Hi as [k Hk].
  destruct (Forall2_lookup_l _ _ _ _ _ Hels Hk) as (el & _ & Hel).
  unfold list_el_at in Hel. cbn in Hel. by rewrite Hc in Hel.
Qed.

Lemma list_itr_at_app ids1 ids2 :
  list_itr_at (ids1 ++ ids2) (length ids1)
  = default list_end_itr (list_itr <$> head ids2).
Proof.
  unfold list_itr_at. rewrite lookup_app_r by lia. rewrite Nat.sub_diag.
  by destruct ids2.
Qed.

Lemma elem_of_list_chain cntr ids p :
  p ∈ list_chain cntr ids →
  p = list_r_end_of cntr ∨ p = list_end_of cntr
  ∨ ∃ i, i ∈ ids ∧ p = list_node_ptr i.
Proof.
  unfold list_chain. rewrite elem_of_cons, elem_of_app, list_elem_of_singleton.
  intros [-> | [Hin | ->]]; [by left| |by right; left].
  apply list_elem_of_fmap in Hin as (i & -> & Hi). right. right. by exists i.
Qed.

Lemma list_insert_node h c ids1 ids2 els1 els2 (el : E) el_size realloc_ :
  list_wf h (blk_list_heap c) (ids1 ++ ids2) (els1 ++ els2) →
  length ids1 = length els1 →
  list_alloc_ok realloc_ →
  ∃ h' result,
    cc4_list_insert h (blk_list_heap c) el
      (list_itr_at (ids1 ++ ids2) (length ids1)) el_size realloc_
    = Some (h', result)
    ∧ l_new_cntr result = blk_list_heap c
    ∧ match l_other_ptr result with
      | None =>
          h' = h ∧ realloc_ h (sizeof_cc4_listnode_hdr_ty + el_size)%Z = None
      | Some p =>
          ∃ n, h !! n = None ∧ p = list_itr n
               ∧ list_wf h' (blk_list_heap c) (ids1 ++ n :: ids2)
                   (els1 ++ el :: els2)
               ∧ ∀ i, i ≠ c → i ∉ ids1 ++ ids2 → i ≠ n → h' !! i = h !! i
      end.
Proof.
  intros Hwf Hlen Halloc.
  pose proof Hwf as (Hnd & Hsize & Hr & He & Hlinks & Hels).
  destruct (list_sentinels _ _ _ Hsize Hr He) as (_ & _ & Hph).
  unfold cc4_list_insert. rewrite Hph. cbn [mbind option_bind].
  rewrite bool_decide_eq_false_2 by done. cbn [fst snd].
  destruct (realloc_ h (sizeof_cc4_listnode_hdr_ty + el_size)%Z) as [n|] eqn:Hn;
    [|by eexists _, _].
  apply Halloc in Hn.
  destruct (list_wf_hdr_live _ _ _ _ Hwf) as [Hclive Hcids].
  assert (n ∉ ids1 ++ ids2) as Hnids.
  { intros Hin. by apply (list_wf_live _ _ _ _ _ Hwf Hin). }
  assert (c ≠ n) as Hcn by (by intros ->).
  destruct (list_new_node h n (ListNodeHdr list_uninit list_uninit) el Hn)
    as (Hn2 & Hel2 & Hl2 & He2 & Hs2).
  set (h2 := <[n := obj_list_node (ListNodeHdr list_uninit list_uninit) el]> h)
    in *.
  (* the place *)
  destruct (list_chain_cut (blk_list_heap c) ids1 ids2)
    as (L & a & b & R & Hcut & Ha & Hb).
  pose proof (Hcut []) as Hcut0. pose proof (Hcut [n]) as Hcut1.
  cbn [app fmap list_fmap] in Hcut0, Hcut1.
  pose proof (NoDup_list_chain (blk_list_heap c) _ Hnd) as Hndc.
  rewrite Hcut0 in Hndc, Hlinks.
  assert (∀ p, p ∈ L ++ a :: b :: R → p ≠ list_node_ptr n) as Hchain_n.
  { intros p Hp ->. rewrite <- Hcut0 in Hp.
    apply elem_of_list_chain in Hp as [Hp|[Hp|(i & Hi & Hp)]].
    - unfold list_node_ptr, list_r_end_of, offsetof_r_end in Hp. by simplify_eq.
    - unfold list_node_ptr, list_end_of, offsetof_end in Hp. by simplify_eq.
    - apply list_node_ptr_inj in Hp as ->. done. }
  assert (a ∈ L ++ a :: b :: R) as Hain.
  { rewrite elem_of_app, elem_of_cons. auto. }
  assert (b ∈ L ++ a :: b :: R) as Hbin.
  { rewrite elem_of_app, !elem_of_cons. auto. }
  assert (a ≠ b) as Hab.
  { apply NoDup_app in Hndc as (_ & _ & Hndc).
    apply NoDup_cons in Hndc as [Hndc _]. intros ->. apply Hndc.
    apply elem_of_cons. auto. }
  rewrite adjacent_app in Hlinks. apply Forall_app in Hlinks as [HlinksL HlinksR].
  rewrite adjacent_cons in HlinksR. apply Forall_cons in HlinksR as [Hlab HlinksR].
  destruct Hlab as [Hnab Hpba]. cbn [fst snd] in Hnab, Hpba.
  assert (∃ j, a.1 = blk_list_heap j) as Haheap.
  { rewrite Ha. destruct (last ids1); cbn; by eexists. }
  assert (∃ j, b.1 = blk_list_heap j) as Hbheap.
  { rewrite Hb. destruct (head ids2); cbn; by eexists. }
  assert (list_r_end_of (blk_list_heap c) ≠ b) as Hrb.
  { rewrite Hb. destruct (head ids2); cbn; [|done].
    unfold list_node_ptr, list_r_end_of, offsetof_r_end. intros ?; simplify_eq. }
  assert (list_end_of (blk_list_heap c) ≠ a) as Hea.
  { rewrite Ha. destruct (last ids1); cbn; [|done].
    unfold list_node_ptr, list_end_of, offsetof_end. intros ?; simplify_eq. }
  (* the heap with the new node *)
  assert (cc4_list_size h2 (blk_list_heap c) = Some (length (ids1 ++ ids2)))
    as Hsize2 by (rewrite Hs2; [done|congruence]).
  assert (∀ q, q ≠ list_node_ptr n → next_of h2 q = next_of h q) as Hnx2.
  { intros q Hq. unfold next_of. by rewrite Hl2. }
  assert (∀ q, q ≠ list_node_ptr n → prev_of h2 q = prev_of h q) as Hpv2.
  { intros q Hq. unfold prev_of. by rewrite Hl2. }
  assert (prev_of h2 (list_r_end_of (blk_list_heap c))
          = Some (list_r_end_of blk_list_placeholder)) as Hr2.
  { rewrite Hpv2; [done|]. unfold list_node_ptr, list_r_end_of, offsetof_r_end.
    intros ?; simplify_eq. }
  assert (next_of h2 (list_end_of (blk_list_heap c))
          = Some (list_end_of blk_list_placeholder)) as He2'.
  { rewrite Hnx2; [done|]. unfold list_node_ptr, list_end_of, offsetof_end.
    intros ?; simplify_eq. }
  destruct (list_local_itr_spec _ _ _ Hsize2 Hr2 He2') as (Hloc1 & Hloc2 & Hloc3).
  assert (∃ key',
    list_local_itr h2 (blk_list_heap c)
      (list_itr_at (ids1 ++ ids2) (length ids1)) = Some key'
    ∧ list_local_itr h2 (blk_list_heap c) key' = Some key'
    ∧ cc4_listnode_hdr key' = b) as (key' & Hkey1 & Hkey2 & Hkey3).
  { rewrite list_itr_at_app, Hb. destruct (head ids2) as [i|].
    - exists (list_itr i).
      change (default list_end_itr (list_itr <$> Some i)) with (list_itr i).
      by rewrite Hloc3.
    - exists (cc4_list_el (list_end_of (blk_list_heap c))).
      change (default list_end_itr (list_itr <$> None)) with list_end_itr.
      rewrite Hloc1, Hloc2 by done. by rewrite list_end_hdr. }
  rewrite Hkey1. cbn [mbind option_bind].
  change (blk_list_heap n, 0%Z) with (list_node_ptr n).
  destruct (cc4_list_attach_spec h2 (blk_list_heap c) key' key'
              (list_node_ptr n) a b _ Hkey2 Hkey3 Hn2)
    as (h6 & -> & Hn6 & Hna6 & Hpa6 & Hpb6 & Hnb6 & Ho6 & Hrel6 & Hf6);
    [by rewrite Hnx2 by auto|by rewrite Hpv2 by auto|done|auto|auto|done|done
    |by eexists|].
  cbn [mbind option_bind].
  destruct Hrel6 as (Hs6 & Hel6 & Hd6).
  assert (cc4_list_size h6 (blk_list_heap c) = Some (length (ids1 ++ ids2)))
    as Hsize6 by by rewrite Hs6.
  destruct (hdr_of_size _ _ _ Hsize6) as (r6 & e6 & -> & _ & _).
  cbn [mbind option_bind].
  destruct (set_list_size_spec h6 c _ (length (ids1 ++ ids2) + 1) Hsize6)
    as (h7 & -> & Hsize7 & Hl7 & Hel7 & _ & Hd7 & Hf7).
  cbn [mbind option_bind].
  eexists _, _. split; [done|]. cbn. split; [done|].
  exists n. split; [done|]. split; [done|].
  (* what changed in the links *)
  assert (∀ q, q ≠ a → q ≠ list_node_ptr n → next_of h7 q = next_of h q) as Hnx7.
  { intros q Hq1 Hq2. unfold next_of at 1. rewrite Hl7.
    destruct (decide (q = b)) as [->|Hq3].
    - fold (next_of h6 b). by rewrite Hnb6, Hnx2.
    - rewrite Ho6 by done. fold (next_of h2 q). by rewrite Hnx2. }
  assert (∀ q, q ≠ b → q ≠ list_node_ptr n → prev_of h7 q = prev_of h q) as Hpv7.
  { intros q Hq1 Hq2. unfold prev_of at 1. rewrite Hl7.
    destruct (decide (q = a)) as [->|Hq3].
    - fold (prev_of h6 a). by rewrite Hpa6, Hpv2.
    - rewrite Ho6 by done. fold (prev_of h2 q). by rewrite Hpv2. }
  split.
  - split; [|split; [|split; [|split; [|split]]]].
    + apply NoDup_app in Hnd as (Hnd1 & Hdisj & Hnd2).
      apply NoDup_app. split; [done|]. split.
      * intros x Hx [-> | Hx2]%elem_of_cons.
        -- apply Hnids. apply elem_of_app. auto.
        -- by apply (Hdisj x).
      * apply NoDup_cons. split; [|done]. intros Hin. apply Hnids.
        apply elem_of_app. auto.
    + rewrite Hsize7. f_equal. rewrite !length_app. cbn. lia.
    + rewrite Hpv7; [done|done|]. apply Hchain_n. rewrite <- Hcut0.
      unfold list_chain. apply elem_of_cons. auto.
    + rewrite Hnx7; [done|done|]. apply Hchain_n. rewrite <- Hcut0.
      unfold list_chain. rewrite elem_of_cons, elem_of_app, list_elem_of_singleton.
      auto.
    + rewrite Hcut1.
      rewrite adjacent_app, (adjacent_cons a), (adjacent_cons (list_node_ptr n)).
      apply Forall_app. split; [|apply Forall_cons; split;
                                 [|apply Forall_cons; split]].
      * apply Forall_forall. intros [p q] Hpq.
        pose proof (proj1 (Forall_forall _ _) HlinksL _ Hpq) as [Hlk1 Hlk2].
        destruct (adjacent_before _ _ _ _ _ Hndc Hpq)
          as (Hp1 & Hq1 & Hp2 & Hp3 & Hq2).
        cbn [fst snd] in *. split; cbn [fst snd].
        -- rewrite Hnx7; [done|done|]. apply Hchain_n. apply elem_of_app. auto.
        -- rewrite Hpv7; [done| |].
           ++ intros ->. apply Hq2. apply elem_of_cons. auto.
           ++ apply Hchain_n. apply elem_of_app in Hq1 as [Hq1|Hq1].
              ** apply elem_of_app. auto.
              ** apply list_elem_of_singleton in Hq1 as ->. done.
      * split; cbn [fst snd]; [unfold next_of; by rewrite Hl7|].
        unfold prev_of. by rewrite Hl7, Hn6.
      * split; cbn [fst snd]; [unfold next_of; by rewrite Hl7, Hn6|].
        unfold prev_of. by rewrite Hl7.
      * apply Forall_forall. intros [p q] Hpq.
        pose proof (proj1 (Forall_forall _ _) HlinksR _ Hpq) as [Hlk1 Hlk2].
        assert (NoDup ((L ++ [a]) ++ b :: R)) as Hndc'
          by by rewrite <- app_assoc.
        destruct (adjacent_behind _ _ _ _ _ Hndc' Hpq)
          as (Hp1 & Hq1 & Hq2 & Hq3 & Hp2).
        cbn [fst snd] in *. split; cbn [fst snd].
        -- rewrite Hnx7; [done| |].
           ++ intros ->. apply Hp2. rewrite elem_of_app, list_elem_of_singleton.
              auto.
           ++ apply Hchain_n. rewrite elem_of_app, elem_of_cons. auto.
        -- rewrite Hpv7; [done|done|]. apply Hchain_n.
           rewrite elem_of_app, !elem_of_cons. auto.
    + apply Forall2_app_inv in Hels as [Hels1 Hels2]; [|done].
      assert (∀ i x, i ≠ n → list_el_at h (list_itr i) = Some x →
                     list_el_at h7 (list_itr i) = Some x) as Hkeep.
      { intros i x Hi Hx. rewrite Hel7, Hel6, He2; [done|].
        cbn. congruence. }
      apply Forall2_app; [|apply Forall2_cons; split].
      * eapply Forall2_impl_elem; [exact Hels1|]. intros i x Hi Hx.
        apply Hkeep; [|done]. intros ->. apply Hnids. apply elem_of_app. auto.
      * by rewrite Hel7, Hel6.
      * eapply Forall2_impl_elem; [exact Hels2|]. intros i x Hi Hx.
        apply Hkeep; [|done]. intros ->. apply Hnids. apply elem_of_app. auto.
  - intros i Hi1 Hi2 Hi3. rewrite Hf7 by done. rewrite Hf6.
    + subst h2. by rewrite lookup_insert_ne.
    + intros Hia. rewrite Ha in Hia. destruct (last ids1) as [i1|] eqn:Hlast.
      * cbn in Hia. simplify_eq. apply Hi2. apply elem_of_app. left.
        apply last_Some in Hlast as [l' ->]. apply elem_of_app. right.
        by apply list_elem_of_singleton.
      * cbn in Hia. by simplify_eq.
    + intros Hib. rewrite Hb in Hib. destruct ids2 as [|i2 ids2].
      * cbn in Hib. by simplify_eq.
      * cbn in Hib. simplify_eq. apply Hi2. apply elem_of_app. right.
        apply elem_of_cons. auto.
    + cbn. congruence.
Qed.

End list_insert_node.

(** ** Lists: erasure *)

Section list_erase.
Context {E : Type}.
Implicit Types (h : gmap nat (list_obj E)) (p q : list_ptr) (cntr : list_block).

Lemma list_size_decr_S (m : nat) : list_size_decr (S m) = m.
Proof.
  unfold list_size_decr. change (S m =? 0) with false. cbv iota. lia.
Qed.

Lemma list_free_spec h x hd (el : E) :
  h !! x = Some (obj_list_node hd el) →
  list_free h (list_node_ptr x) = Some (delete x h)
  ∧ (∀ q, q ≠ list_node_ptr x →
          load_listnode (delete x h) q = load_listnode h q)
  ∧ (∀ itr, itr.1 ≠ blk_list_heap x →
            list_el_at (delete x h) itr = list_el_at h itr)
  ∧ (∀ cntr, cntr ≠ blk_list_heap x →
             cc4_list_size (delete x h) cntr = cc4_list_size h cntr).
Proof.
  intros Hx. split; [|split; [|split]].
  - unfold list_free, list_node_ptr. by rewrite Hx.
  - intros [b o] Hq. destruct (decide (b = blk_list_heap x)) as [->|Hb].
    + unfold load_listnode. cbn [fst snd]. rewrite lookup_delete_eq, Hx.
      destruct (o =? 0)%Z eqn:Ho; [|done]. exfalso. apply Hq.
      unfold list_node_ptr. f_equal. lia.
    + apply load_listnode_local. intros j Hj. cbn in Hj.
      rewrite lookup_delete_ne; [done|congruence].
  - intros itr Hitr. apply list_el_at_local. intros j Hj.
    rewrite lookup_delete_ne; [done|congruence].
  - intros cntr Hc. apply cc4_list_size_local. intros j Hj.
    rewrite lookup_delete_ne; [done|congruence].
Qed.

Lemma list_el_at_node h i (el : E) :
  list_el_at h (list_itr i) = Some el → ∃ hd, h !! i = Some (obj_list_node hd el).
Proof.
  unfold list_el_at, list_itr, cc4_list_el, list_node_ptr,
    sizeof_cc4_listnode_hdr_ty. cbn.
  destruct (h !! i) as [[|hd el']|]; [done| |done].
  change (0 + 16 =? 16)%Z with true. cbv iota. intros ?; simplify_eq.
  by eexists.
Qed.

Lemma list_erase_spec h cntr ids1 x ids2 els1 (ex : E) els2 el_dtor :
  list_wf h cntr (ids1 ++ x :: ids2) (els1 ++ ex :: els2) →
  length ids1 = length els1 →
  ∃ h',
    cc4_list_erase h cntr (list_itr x) el_dtor
    = Some (h', list_itr_at (ids1 ++ ids2) (length ids1),
            list_dtor_call el_dtor (list_itr x)
            ++ [list_call_free (list_node_ptr x)])
    ∧ list_wf h' cntr (ids1 ++ ids2) (els1 ++ els2)
    ∧ h' !! x = None
    ∧ ∀ i, blk_list_heap i ≠ cntr → i ∉ ids1 ++ x :: ids2 → h' !! i = h !! i.
Proof.
  intros Hwf Hlen.
  pose proof Hwf as (Hnd & Hsize & Hr & He & Hlinks & Hels).
  assert (x ∈ ids1 ++ x :: ids2) as Hxin.
  { rewrite elem_of_app, elem_of_cons. auto. }
  destruct cntr as [| |c].
  { unfold cc4_list_size in Hsize. cbn in Hsize. simplify_eq.
    rewrite length_app in *. cbn in *. lia. }
  { done. }
  destruct (list_wf_hdr_live _ _ _ _ Hwf) as [Hclive Hcids].
  assert (c ≠ x) as Hcx by (by intros ->).
  (* the place *)
  destruct (list_chain_cut (blk_list_heap c) ids1 ids2)
    as (L & a & b & R & Hcut & Ha & Hb).
  pose proof (Hcut []) as Hcut0. pose proof (Hcut [x]) as Hcut1.
  cbn [app fmap list_fmap] in Hcut0, Hcut1.
  pose proof (NoDup_list_chain (blk_list_heap c) _ Hnd) as Hndc.
  rewrite Hcut1 in Hndc, Hlinks.
  assert (∃ j, a.1 = blk_list_heap j) as Haheap.
  { rewrite Ha. destruct (last ids1); cbn; by eexists. }
  assert (∃ j, b.1 = blk_list_heap j) as Hbheap.
  { rewrite Hb. destruct (head ids2); cbn; by eexists. }
  assert (list_r_end_of (blk_list_heap c) ≠ b) as Hrb.
  { rewrite Hb. destruct (head ids2); cbn; [|done].
    unfold list_node_ptr, list_r_end_of, offsetof_r_end. intros ?; simplify_eq. }
  assert (list_end_of (blk_list_heap c) ≠ a) as Hea.
  { rewrite Ha. destruct (last ids1); cbn; [|done].
    unfold list_node_ptr, list_end_of, offsetof_end. intros ?; simplify_eq. }
  assert (list_r_end_of (blk_list_heap c) ≠ list_node_ptr x) as Hrx.
  { unfold list_node_ptr, list_r_end_of, offsetof_r_end. intros ?; simplify_eq. }
  assert (list_end_of (blk_list_heap c) ≠ list_node_ptr x) as Hex.
  { unfold list_node_ptr, list_end_of, offsetof_end. intros ?; simplify_eq. }
  pose proof Hndc as Hndc0.
  apply NoDup_app in Hndc0 as (_ & HdisjL & Hndc0).
  apply NoDup_cons in Hndc0 as [Ha1 Hndc0].
  apply NoDup_cons in Hndc0 as [Hx1 Hndc0].
  apply NoDup_cons in Hndc0 as [Hb1 _].
  assert (a ≠ list_node_ptr x) as Hax.
  { intros ->. apply Ha1. apply elem_of_cons. auto. }
  assert (a ≠ b) as Hab.
  { intros ->. apply Ha1. rewrite !elem_of_cons. auto. }
  assert (list_node_ptr x ≠ b) as Hxb.
  { intros <-. apply Hx1. apply elem_of_cons. auto. }
  rewrite adjacent_app in Hlinks. apply Forall_app in Hlinks as [HlinksL HlinksR].
  rewrite (adjacent_cons a), (adjacent_cons (list_node_ptr x)) in HlinksR.
  apply Forall_cons in HlinksR as [[Hnax Hpxa] HlinksR].
  apply Forall_cons in HlinksR as [[Hnxb Hpbx] HlinksR].
  cbn [fst snd] in Hnax, Hpxa, Hnxb, Hpbx.
  unfold next_of in Hnax, Hnxb. unfold prev_of in Hpxa, Hpbx.
  destruct (load_listnode h a) as [ha|] eqn:Hla; [|done].
  destruct (load_listnode h (list_node_ptr x)) as [hx|] eqn:Hlx; [|done].
  destruct (load_listnode h b) as [hb|] eqn:Hlb; [|done].
  cbn in Hnax, Hpxa, Hnxb, Hpbx.
  apply (inj Some) in Hnax, Hpxa, Hnxb, Hpbx.
  (* the run *)
  unfold cc4_list_erase. rewrite list_itr_hdr, Hlx. cbn [mbind option_bind].
  rewrite Hpxa, Hnxb.
  destruct (set_next_spec h a ha b Hla Haheap) as (h1 & -> & Ha1' & Ho1 & Hr1 & Hf1).
  cbn [mbind option_bind]. rewrite (Ho1 _ (not_eq_sym Hax)), Hlx.
  cbn [mbind option_bind]. rewrite Hpxa.
  assert (load_listnode h1 b = Some hb) as Hlb1
    by by rewrite (Ho1 _ (not_eq_sym Hab)).
  destruct (set_prev_spec h1 b hb a Hlb1 Hbheap)
    as (h2 & -> & Hb2 & Ho2 & Hr2 & Hf2).
  cbn [mbind option_bind].
  pose proof (relinked_trans _ _ _ Hr1 Hr2) as (Hs2 & Hel2 & Hd2).
  assert (list_el_at h (list_itr x) = Some ex) as Hexel.
  { destruct (Forall2_lookup_l _ _ _ (length ids1) x Hels) as (y & Hy & Hxy).
    - by rewrite lookup_app_r, Nat.sub_diag by lia.
    - rewrite lookup_app_r, Hlen, Nat.sub_diag in Hy by lia. cbn in Hy.
      by simplify_eq. }
  destruct (list_el_at_node h2 x ex) as [hd2 Hx2]; [by rewrite Hel2|].
  destruct (list_free_spec h2 x hd2 ex Hx2) as (-> & Hl3 & Hel3 & Hs3).
  cbn [mbind option_bind].
  assert (cc4_list_size (delete x h2) (blk_list_heap c)
          = Some (S (length (ids1 ++ ids2)))) as Hsize3.
  { rewrite Hs3 by congruence. rewrite Hs2, Hsize. f_equal.
    rewrite !length_app. cbn. lia. }
  destruct (hdr_of_size _ _ _ Hsize3) as (r3 & e3 & -> & _ & _).
  cbn [mbind option_bind]. rewrite list_size_decr_S.
  destruct (set_list_size_spec _ c _ (length (ids1 ++ ids2)) Hsize3)
    as (h4 & -> & Hsize4 & Hl4 & Hel4 & _ & Hd4 & Hf4).
  cbn [mbind option_bind].
  (* what changed in the links *)
  assert (∀ q, q ≠ a → q ≠ list_node_ptr x → next_of h4 q = next_of h q) as Hnx4.
  { intros q Hq1 Hq2. unfold next_of. rewrite Hl4, Hl3 by done.
    destruct (decide (q = b)) as [->|Hq3].
    - by rewrite Hb2, Hlb.
    - by rewrite Ho2, Ho1. }
  assert (∀ q, q ≠ b → q ≠ list_node_ptr x → prev_of h4 q = prev_of h q) as Hpv4.
  { intros q Hq1 Hq2. unfold prev_of. rewrite Hl4, Hl3, Ho2 by done.
    destruct (decide (q = a)) as [->|Hq3].
    - by rewrite Ha1', Hla.
    - by rewrite Ho1. }
  assert (next_of h4 a = Some b) as Hna4.
  { unfold next_of. rewrite Hl4, Hl3, Ho2, Ha1' by done. done. }
  assert (prev_of h4 b = Some a) as Hpb4.
  { unfold prev_of. rewrite Hl4, Hl3, Hb2 by done. done. }
  assert (next_of h4 (list_end_of (blk_list_heap c))
          = Some (list_end_of blk_list_placeholder)) as He4
    by by rewrite Hnx4.
  assert ((if decide (b = list_end_of (blk_list_heap c))
           then ln_next <$> load_listnode h4 b else Some b)
          = Some (cc4_listnode_hdr (list_itr_at (ids1 ++ ids2) (length ids1))))
    as ->.
  { rewrite list_itr_at_app, Hb. destruct (head ids2) as [i|]; cbn [default fmap option_fmap option_map].
    - rewrite decide_False; [done|].
      unfold list_node_ptr, list_end_of, offsetof_end. intros ?; simplify_eq.
    - rewrite decide_True by done. fold (next_of h4 (list_end_of (blk_list_heap c))).
      by rewrite He4. }
  cbn [mbind option_bind].
  assert (cc4_list_el (cc4_listnode_hdr (list_itr_at (ids1 ++ ids2) (length ids1)))
          = list_itr_at (ids1 ++ ids2) (length ids1)) as ->.
  { generalize (list_itr_at (ids1 ++ ids2) (length ids1)). intros [b0 o].
    unfold cc4_list_el, cc4_listnode_hdr. cbn. f_equal. lia. }
  eexists. split; [done|]. split; [|split].
  - split; [|split; [|split; [|split; [|split]]]].
    + apply NoDup_app in Hnd as (Hnd1 & Hdisj & Hnd2).
      apply NoDup_cons in Hnd2 as [_ Hnd2].
      apply NoDup_app. split; [done|]. split; [|done].
      intros y Hy Hy2. apply (Hdisj y Hy). apply elem_of_cons. auto.
    + done.
    + by rewrite Hpv4.
    + done.
    + rewrite Hcut0. rewrite adjacent_app, (adjacent_cons a).
      apply Forall_app. split; [|apply Forall_cons; split].
      * apply Forall_forall. intros [p q] Hpq.
        pose proof (proj1 (Forall_forall _ _) HlinksL _ Hpq) as [Hlk1 Hlk2].
        destruct (adjacent_before _ _ _ _ _ Hndc Hpq)
          as (Hp1 & Hq1 & Hp2 & Hp3 & Hq2).
        cbn [fst snd] in *. split; cbn [fst snd].
        -- rewrite Hnx4; [done|done|]. intros ->. apply Hp3.
           apply elem_of_cons. auto.
        -- rewrite Hpv4; [done| |].
           ++ intros ->. apply Hq2. rewrite !elem_of_cons. auto.
           ++ intros ->. apply Hq2. apply elem_of_cons. auto.
      * done.
      * apply Forall_forall. intros [p q] Hpq.
        pose proof (proj1 (Forall_forall _ _) HlinksR _ Hpq) as [Hlk1 Hlk2].
        assert (NoDup ((L ++ [a; list_node_ptr x]) ++ b :: R)) as Hndc'
          by by rewrite <- app_assoc.
        destruct (adjacent_behind _ _ _ _ _ Hndc' Hpq)
          as (Hp1 & Hq1 & Hq2 & Hq3 & Hp2).
        cbn [fst snd] in *. split; cbn [fst snd].
        -- rewrite Hnx4; [done| |].
           ++ intros ->. apply Hp2. rewrite elem_of_app, !elem_of_cons. auto.
           ++ intros ->. apply Hp2. rewrite elem_of_app, !elem_of_cons. auto.
        -- rewrite Hpv4; [done|done|]. intros ->. apply Hq3.
           rewrite elem_of_app, !elem_of_cons. auto.
    + apply Forall2_app_inv in Hels as [Hels1 Hels2]; [|done].
      apply Forall2_cons in Hels2 as [_ Hels2].
      assert (∀ i y, i ≠ x → list_el_at h (list_itr i) = Some y →
                     list_el_at h4 (list_itr i) = Some y) as Hkeep.
      { intros i y Hi Hy. rewrite Hel4, Hel3, Hel2; [done|]. cbn. congruence. }
      apply NoDup_app in Hnd as (Hnd1 & Hdisj & Hnd2).
      apply NoDup_cons in Hnd2 as [Hx2' Hnd2].
      apply Forall2_app.
      * eapply Forall2_impl_elem; [exact Hels1|]. intros i y Hi Hy.
        apply Hkeep; [|done]. intros ->. apply (Hdisj x Hi).
        apply elem_of_cons. auto.
      * eapply Forall2_impl_elem; [exact Hels2|]. intros i y Hi Hy.
        apply Hkeep; [|done]. by intros ->.
  - rewrite Hf4 by done. apply lookup_delete_eq.
  - intros i Hi1 Hi2.
    assert (i ≠ c) as Hic by congruence.
    assert (i ≠ x) as Hix by (by intros ->).
    rewrite Hf4 by done. rewrite lookup_delete_ne by done.
    rewrite Hf2, Hf1; [done| |].
    + intros Hia. rewrite Ha in Hia. destruct (last ids1) as [i1|] eqn:Hlast.
      * cbn in Hia. simplify_eq. apply Hi2. apply elem_of_app. left.
        apply last_Some in Hlast as [l' ->]. apply elem_of_app. right.
        by apply list_elem_of_singleton.
      * cbn in Hia. by simplify_eq.
    + intros Hib. rewrite Hb in Hib. destruct ids2 as [|i2 ids2].
      * cbn in Hib. by simplify_eq.
      * cbn in Hib. simplify_eq. apply Hi2. rewrite elem_of_app, !elem_of_cons.
        auto.
Qed.

End list_erase.

(** ** Lists: iteration and clearing *)

Section list_iteration.
Context {E : Type}.
Implicit Types (h : gmap nat (list_obj E)) (p q : list_ptr) (cntr : list_block).

Lemma list_hdr_el p : cc4_listnode_hdr (cc4_list_el p) = p.
Proof.
  destruct p as [b o]. unfold cc4_listnode_hdr, cc4_list_el. cbn. f_equal. lia.
Qed.

Lemma list_itr_ne_end i : list_itr i ≠ list_end_itr.
Proof. unfold list_itr, list_end_itr, cc4_list_el. cbn. intros ?; simplify_eq. Qed.

Lemma list_itr_ne_r_end i : list_itr i ≠ list_r_end_itr.
Proof. unfold list_itr, list_r_end_itr, cc4_list_el. cbn. intros ?; simplify_eq. Qed.

Lemma list_node_ne_end i cntr : list_node_ptr i ≠ list_end_of cntr.
Proof. unfold list_node_ptr, list_end_of, offsetof_end. intros ?; simplify_eq. Qed.

Lemma list_node_ne_r_end i cntr : list_node_ptr i ≠ list_r_end_of cntr.
Proof. unfold list_node_ptr, list_r_end_of, offsetof_r_end. intros ?; simplify_eq. Qed.

Lemma list_next_chain h cntr p ids :
  Forall (list_link h)
    (adjacent (p :: (list_node_ptr <$> ids) ++ [list_end_of cntr])) →
  next_of h (list_end_of cntr) = Some (list_end_of blk_list_placeholder) →
  cc4_list_next h cntr (cc4_list_el p) = Some (list_itr_at ids 0).
Proof.
  intros Hlinks He. unfold cc4_list_next. rewrite list_hdr_el.
  rewrite adjacent_cons in Hlinks. unfold next_of in *.
  destruct ids as [|i ids]; cbn [fmap list_fmap app] in Hlinks;
    apply Forall_cons in Hlinks as [[Hn _] _]; cbn [fst snd] in Hn;
    unfold next_of in Hn;
    destruct (load_listnode h p) as [hp|]; try done;
    cbn in Hn; apply (inj Some) in Hn; cbn [mbind option_bind]; rewrite Hn.
  - rewrite decide_True by done.
    destruct (load_listnode h (list_end_of cntr)) as [he|]; [|done].
    cbn in He. apply (inj Some) in He. cbn [mbind option_bind]. by rewrite He.
  - rewrite decide_False by apply list_node_ne_end. done.
Qed.

Lemma list_for_each_from h cntr ids p fuel :
  Forall (list_link h)
    (adjacent (p :: (list_node_ptr <$> ids) ++ [list_end_of cntr])) →
  next_of h (list_end_of cntr) = Some (list_end_of blk_list_placeholder) →
  length ids < fuel →
  cc4_for_each_loop fuel list_end_itr (λ itr, cc4_list_next h cntr itr)
    (list_itr_at ids 0)
  = Some (list_itr <$> ids).
Proof.
  revert p fuel. induction ids as [|i ids IH]; intros p fuel Hlinks He Hfuel;
    (destruct fuel as [|fuel]; [cbn in Hfuel; lia|]); cbn [cc4_for_each_loop].
  - unfold list_itr_at. cbn. by rewrite decide_True.
  - change (list_itr_at (i :: ids) 0) with (list_itr i).
    rewrite decide_False by apply list_itr_ne_end.
    rewrite adjacent_cons in Hlinks. cbn [fmap list_fmap app] in Hlinks.
    apply Forall_cons in Hlinks as [_ Hlinks].
    assert (cc4_list_next h cntr (list_itr i) = Some (list_itr_at ids 0)) as ->
      by apply (list_next_chain h cntr (list_node_ptr i) ids Hlinks He).
    cbn [mbind option_bind].
    rewrite (IH (list_node_ptr i) fuel Hlinks He) by (cbn in Hfuel; lia).
    done.
Qed.

Lemma list_prev_chain h cntr ids q :
  Forall (list_link h)
    (adjacent ((list_r_end_of cntr :: (list_node_ptr <$> ids)) ++ [q])) →
  prev_of h (list_r_end_of cntr) = Some (list_r_end_of blk_list_placeholder) →
  cc4_list_prev h cntr (cc4_list_el q)
  = Some (default list_r_end_itr (list_itr <$> last ids)).
Proof.
  intros Hlinks Hr. unfold cc4_list_prev. rewrite list_hdr_el.
  destruct ids as [|i0 ids0] using rev_ind.
  - cbn in Hlinks. apply Forall_cons in Hlinks as [[_ Hp] _].
    cbn [fst snd] in Hp. unfold prev_of in *.
    destruct (load_listnode h q) as [hq|]; [|done].
    cbn in Hp. apply (inj Some) in Hp. cbn [mbind option_bind]. rewrite Hp.
    rewrite decide_True by done.
    destruct (load_listnode h (list_r_end_of cntr)) as [hr|]; [|done].
    cbn in Hr. apply (inj Some) in Hr. cbn [mbind option_bind]. by rewrite Hr.
  - clear IHids0. rewrite fmap_app in Hlinks. cbn [fmap list_fmap] in Hlinks.
    rewrite app_comm_cons, <- app_assoc in Hlinks. cbn [app] in Hlinks.
    rewrite app_comm_cons, adjacent_app in Hlinks. apply Forall_app in Hlinks as [_ Hlinks].
    cbn in Hlinks. apply Forall_cons in Hlinks as [[_ Hp] _].
    cbn [fst snd] in Hp. unfold prev_of in Hp.
    destruct (load_listnode h q) as [hq|]; [|done].
    cbn in Hp. apply (inj Some) in Hp. cbn [mbind option_bind]. rewrite Hp.
    rewrite decide_False by apply list_node_ne_r_end.
    by rewrite last_snoc.
Qed.

Lemma list_r_for_each_from h cntr ids q fuel :
  Forall (list_link h)
    (adjacent ((list_r_end_of cntr :: (list_node_ptr <$> ids)) ++ [q])) →
  prev_of h (list_r_end_of cntr) = Some (list_r_end_of blk_list_placeholder) →
  length ids < fuel →
  cc4_for_each_loop fuel list_r_end_itr (λ itr, cc4_list_prev h cntr itr)
    (default list_r_end_itr (list_itr <$> last ids))
  = Some (list_itr <$> reverse ids).
Proof.
  revert q fuel. induction ids as [|i ids IH] using rev_ind;
    intros q fuel Hlinks Hr Hfuel;
    (destruct fuel as [|fuel]; [cbn in Hfuel; lia|]); cbn [cc4_for_each_loop].
  - cbn. by rewrite decide_True.
  - rewrite last_snoc.
    change (default list_r_end_itr (list_itr <$> Some i)) with (list_itr i).
    rewrite decide_False by apply list_itr_ne_r_end.
    rewrite fmap_app in Hlinks. cbn [fmap list_fmap] in Hlinks.
    rewrite app_comm_cons, <- app_assoc in Hlinks. cbn [app] in Hlinks.
    rewrite app_comm_cons, adjacent_app in Hlinks. apply Forall_app in Hlinks as [Hlinks _].
    assert (cc4_list_prev h cntr (list_itr i)
            = Some (default list_r_end_itr (list_itr <$> last ids))) as ->
      by apply (list_prev_chain h cntr ids (list_node_ptr i) Hlinks Hr).
    cbn [mbind option_bind]. rewrite length_app in Hfuel. cbn in Hfuel.
    rewrite (IH (list_node_ptr i) fuel Hlinks Hr) by lia.
    cbn [mbind option_bind]. by rewrite reverse_snoc.
Qed.

Lemma list_first_last h cntr ids (els : list E) :
  list_wf h cntr ids els →
  cc4_list_first h cntr = Some (list_itr_at ids 0)
  ∧ cc4_list_last h cntr = Some (default list_r_end_itr (list_itr <$> last ids)).
Proof.
  intros (Hnd & Hsize & Hr & He & Hlinks & Hels). split.
  - by apply list_next_chain.
  - apply list_prev_chain; [|done]. unfold list_chain in Hlinks.
    by rewrite <- app_comm_cons.
Qed.

Lemma list_for_each_spec h cntr ids (els : list E) fuel :
  list_wf h cntr ids els → length ids < fuel →
  cc4_list_for_each fuel h cntr = Some (list_itr <$> ids)
  ∧ cc4_list_r_for_each fuel h cntr = Some (list_itr <$> reverse ids).
Proof.
  intros Hwf Hfuel. destruct (list_first_last _ _ _ _ Hwf) as [Hfirst Hlast].
  pose proof Hwf as (Hnd & Hsize & Hr & He & Hlinks & Hels).
  destruct (list_sentinels _ _ _ Hsize Hr He) as (Hre & Hen & _).
  unfold cc4_list_for_each, cc4_list_r_for_each.
  rewrite Hfirst, Hlast, Hre, Hen. cbn [mbind option_bind]. split.
  - by eapply list_for_each_from.
  - eapply list_r_for_each_from; [|done..]. unfold list_chain in Hlinks.
    by rewrite <- app_comm_cons.
Qed.

(** [cc4_list_clear] erases the nodes from the first on. *)
Lemma list_clear_spec h cntr ids (els : list E) el_dtor fuel :
  list_wf h cntr ids els → length ids < fuel →
  ∃ h',
    cc4_list_clear fuel h cntr el_dtor
    = Some (h', flat_map (λ i, list_dtor_call el_dtor (list_itr i)
                               ++ [list_call_free (list_node_ptr i)]) ids)
    ∧ list_wf h' cntr [] []
    ∧ (∀ i, i ∈ ids → h' !! i = None)
    ∧ (∀ i, blk_list_heap i ≠ cntr → i ∉ ids → h' !! i = h !! i).
Proof.
  revert h els fuel. induction ids as [|x ids IH]; intros h els fuel Hwf Hfuel;
    (destruct fuel as [|fuel]; [cbn in Hfuel; lia|]); cbn [cc4_list_clear];
    destruct (list_first_last _ _ _ _ Hwf) as [Hfirst _];
    pose proof Hwf as (Hnd & Hsize & Hr & He & Hlinks & Hels);
    destruct (list_sentinels _ _ _ Hsize Hr He) as (_ & Hen & _);
    rewrite Hfirst, Hen; cbn [mbind option_bind].
  - unfold list_itr_at. cbn. rewrite decide_True by done.
    exists h. split; [done|]. apply Forall2_nil_inv_l in Hels as ->.
    split; [done|]. split; [|done]. by intros i ?%elem_of_nil.
  - change (list_itr_at (x :: ids) 0) with (list_itr x).
    rewrite decide_False by apply list_itr_ne_end.
    apply Forall2_cons_inv_l in Hels as (ex & els' & Hex & Hels' & ->).
    destruct (list_erase_spec h cntr [] x ids [] ex els' el_dtor Hwf eq_refl)
      as (h1 & -> & Hwf1 & Hx1 & Hf1).
    cbn [mbind option_bind app] in *.
    destruct (IH h1 els' fuel Hwf1) as (h' & -> & Hwf' & Hgone & Hf');
      [cbn in Hfuel; lia|].
    cbn [mbind option_bind]. exists h'. split; [done|]. split; [done|].
    apply NoDup_cons in Hnd as [Hx Hnd].
    assert (blk_list_heap x ≠ cntr) as Hxc.
    { intros <-. destruct (list_wf_hdr_live _ _ _ _ Hwf) as [_ Hc].
      apply Hc. apply elem_of_cons. auto. }
    split.
    + intros i [->|Hi]%elem_of_cons; [|by apply Hgone].
      by rewrite Hf'.
    + intros i Hi1 Hi2. apply not_elem_of_cons in Hi2 as [Hi2 Hi3].
      rewrite Hf' by done. apply Hf1; [done|]. by apply not_elem_of_cons.
Qed.

Lemma list_cleanup_spec h cntr ids (els : list E) el_dtor fuel :
  list_wf h cntr ids els → length ids < fuel →
  ∃ h',
    cc4_list_cleanup fuel h cntr el_dtor
    = Some (h', flat_map (λ i, list_dtor_call el_dtor (list_itr i)
                               ++ [list_call_free (list_node_ptr i)]) ids
                ++ match cntr with
                   | blk_list_heap _ => [list_call_free (cntr, 0%Z)]
                   | _ => []
                   end)
    ∧ (∀ i, i ∈ ids ∨ cntr = blk_list_heap i → h' !! i = None)
    ∧ (∀ i, blk_list_heap i ≠ cntr → i ∉ ids → h' !! i = h !! i).
Proof.
  intros Hwf Hfuel.
  destruct (list_clear_spec h cntr ids els el_dtor fuel Hwf Hfuel)
    as (h1 & Hclear & Hwf1 & Hgone & Hf1).
  unfold cc4_list_cleanup. rewrite Hclear. cbn [mbind option_bind].
  pose proof Hwf1 as (_ & Hsize & Hr & He & _ & _).
  destruct (list_sentinels _ _ _ Hsize Hr He) as (_ & _ & ->).
  cbn [mbind option_bind]. destruct cntr as [| |c].
  - rewrite bool_decide_eq_true_2 by done. exists h1. rewrite app_nil_r.
    split; [done|]. split; [|done]. intros i [Hi|Hi]; [by apply Hgone|done].
  - unfold cc4_list_size in Hsize. done.
  - rewrite bool_decide_eq_false_2 by done.
    destruct (list_wf_hdr_live _ _ _ _ Hwf1) as [Hc _].
    unfold list_free. destruct (h1 !! c) eqn:Hc1; [|done].
    cbn [mbind option_bind]. eexists. split; [done|]. split.
    + intros i [Hi|Hi].
      * destruct (decide (i = c)) as [->|Hic]; [apply lookup_delete_eq|].
        rewrite lookup_delete_ne by done. by apply Hgone.
      * simplify_eq. apply lookup_delete_eq.
    + intros i Hi1 Hi2. rewrite lookup_delete_ne by congruence. by apply Hf1.
Qed.

End list_iteration.

(** ** Lists: the operations on well-formed lists *)

Section list_operations.
Context {E : Type}.
Implicit Types (h : gmap nat (list_obj E)) (p q : list_ptr) (cntr : list_block).

Lemma list_wf_placeholder h ids (els : list E) :
  list_wf h blk_list_placeholder ids els ↔ ids = [] ∧ els = [].
Proof.
  split.
  - intros (_ & Hsize & _ & _ & _ & Hels). unfold cc4_list_size in Hsize.
    cbn in Hsize. apply (inj Some) in Hsize. symmetry in Hsize.
    apply length_zero_iff_nil in Hsize as ->.
    by apply Forall2_nil_inv_l in Hels as ->.
  - intros [-> ->]. split; [constructor|]. split; [done|]. split; [done|].
    split; [done|]. split; [|constructor].
    unfold list_chain. cbn. constructor; [|constructor]. done.
Qed.

Lemma list_new_hdr_wf h c :
  h !! c = None →
  list_wf
    (<[c := obj_list_hdr 0
              (ListNodeHdr (list_r_end_of blk_list_placeholder)
                 (list_end_of (blk_list_heap c)))
              (ListNodeHdr (list_r_end_of (blk_list_heap c))
                 (list_end_of blk_list_placeholder))]> h)
    (blk_list_heap c) [] ([] : list E).
Proof.
  intros Hc. split; [constructor|].
  unfold cc4_list_size, cc4_list_hdr, prev_of, next_of, load_listnode.
  cbn [fst snd list_r_end_of list_end_of]. rewrite lookup_insert_eq.
  split; [done|]. split; [done|]. split; [done|]. split; [|constructor].
  unfold list_chain. cbn. constructor; [|constructor].
  unfold list_link, prev_of, next_of, load_listnode.
  cbn [fst snd list_r_end_of list_end_of]. by rewrite lookup_insert_eq.
Qed.

Lemma list_insert_on_placeholder h (el : E) key el_size realloc_ :
  cc4_list_insert h blk_list_placeholder el key el_size realloc_
  = match realloc_ h sizeof_cc4_list_hdr_ty with
    | None =>
        Some (h, cc4_list_make_allocing_fn_result blk_list_placeholder None)
    | Some c =>
        cc4_list_insert
          (<[c := obj_list_hdr 0
                    (ListNodeHdr (list_r_end_of blk_list_placeholder)
                       (list_end_of (blk_list_heap c)))
                    (ListNodeHdr (list_r_end_of (blk_list_heap c))
                       (list_end_of blk_list_placeholder))]> h)
          (blk_list_heap c) el key el_size realloc_
    end.
Proof.
  unfold cc4_list_insert at 1. cbn [cc4_list_is_placeholder cc4_list_hdr].
  unfold cc4_list_is_placeholder, cc4_list_hdr. cbn [mbind option_bind].
  rewrite bool_decide_eq_true_2 by done. unfold cc4_list_alloc_hdr.
  destruct (realloc_ h sizeof_cc4_list_hdr_ty) as [c|]; [|done].
  cbn [fst snd]. unfold cc4_list_insert, cc4_list_is_placeholder, cc4_list_hdr.
  rewrite lookup_insert_eq. cbn [mbind option_bind].
  rewrite bool_decide_eq_false_2; [done|].
  unfold list_r_end_of. cbn. intros ?; simplify_eq.
Qed.

Lemma list_insert_spec h cntr ids els k (el : E) el_size realloc_ :
  list_wf h cntr ids els → list_alloc_ok realloc_ → k ≤ length ids →
  ∃ h' result,
    cc4_list_insert h cntr el (list_itr_at ids k) el_size realloc_
    = Some (h', result)
    ∧ (cntr ≠ blk_list_placeholder → l_new_cntr result = cntr)
    ∧ (cntr = blk_list_placeholder →
       ∀ c, l_new_cntr result = blk_list_heap c → h !! c = None)
    ∧ (∀ i, h !! i ≠ None → i ∉ ids → cntr ≠ blk_list_heap i →
            h' !! i = h !! i)
    ∧ (∀ i, h !! i = None → h' !! i ≠ None →
            l_new_cntr result = blk_list_heap i
            ∨ l_other_ptr result = Some (list_itr i))
    ∧ match l_other_ptr result with
      | None =>
          list_wf h' (l_new_cntr result) ids els
          ∧ ∃ h0 size, realloc_ h0 size = None
      | Some p =>
          ∃ n, h !! n = None ∧ p = list_itr n
               ∧ list_wf h' (l_new_cntr result)
                   (take k ids ++ n :: drop k ids)
                   (take k els ++ el :: drop k els)
      end.
Proof.
  intros Hwf Halloc Hk.
  assert (length ids = length els) as Hlen.
  { destruct Hwf as (_ & _ & _ & _ & _ & Hels). by eapply Forall2_length. }
  destruct cntr as [| |c].
  - apply list_wf_placeholder in Hwf as [-> ->]. cbn in Hk.
    assert (k = 0) as -> by lia. cbn [take drop app].
    rewrite list_insert_on_placeholder.
    destruct (realloc_ h sizeof_cc4_list_hdr_ty) as [c|] eqn:Hc.
    + apply Halloc in Hc.
      destruct (list_insert_node _ c [] [] [] [] el el_size realloc_
                  (list_new_hdr_wf h c Hc) eq_refl Halloc)
        as (h' & result & Hrun & Hcntr & Hres).
      cbn [app length] in Hrun, Hres. exists h', result. split; [done|].
      split; [done|]. rewrite Hcntr.
      split; [intros _ c' ?; by simplify_eq|].
      destruct (l_other_ptr result) as [p|].
      * destruct Hres as (n & Hn & -> & Hwf' & Hf).
        assert (h !! n = None) as Hn'.
        { destruct (decide (n = c)) as [->|Hnc]; [done|].
          by rewrite lookup_insert_ne in Hn. }
        split; [|split].
        -- intros i Hi _ _. rewrite Hf.
           ++ rewrite lookup_insert_ne; [done|]. by intros ->.
           ++ by intros ->.
           ++ by intros ?%elem_of_nil.
           ++ by intros ->.
        -- intros i Hi1 Hi2. destruct (decide (i = c)) as [->|Hic]; [by left|].
           destruct (decide (i = n)) as [->|Hin]; [by right|].
           exfalso. apply Hi2. rewrite Hf; [|done|by intros ?%elem_of_nil|done].
           by rewrite lookup_insert_ne.
        -- by exists n.
      * destruct Hres as [-> Hnone]. split; [|split].
        -- intros i Hi _ _. rewrite lookup_insert_ne; [done|]. by intros ->.
        -- intros i Hi1 Hi2. destruct (decide (i = c)) as [->|Hic]; [by left|].
           by rewrite lookup_insert_ne in Hi2.
        -- split; [by apply list_new_hdr_wf|]. by eexists _, _.
    + eexists _, _. split; [done|]. cbn. split; [done|]. split; [done|].
      split; [done|]. split; [done|].
      split; [by apply list_wf_placeholder|]. by eexists _, _.
  - destruct Hwf as (_ & Hsize & _). done.
  - rewrite <- (take_drop k ids), <- (take_drop k els) in Hwf.
    assert (length (take k ids) = length (take k els)) as Hlen'.
    { rewrite !length_take. lia. }
    destruct (list_insert_node h c _ _ _ _ el el_size realloc_ Hwf Hlen' Halloc)
      as (h' & result & Hrun & Hcntr & Hres).
    rewrite take_drop in Hrun.
    assert (length (take k ids) = k) as Hk' by (rewrite length_take; lia).
    rewrite Hk' in Hrun.
    exists h', result. split; [done|]. split; [done|]. rewrite Hcntr.
    split; [done|].
    rewrite !take_drop in Hwf.
    destruct (list_wf_hdr_live _ _ _ _ Hwf) as [Hclive Hcids].
    destruct (l_other_ptr result) as [p|].
    + destruct Hres as (n & Hn & -> & Hwf' & Hf). rewrite take_drop in Hf.
      split; [|split].
      * intros i Hi1 Hi2 Hi3. apply Hf; [congruence|done|]. by intros ->.
      * intros i Hi1 Hi2. destruct (decide (i = n)) as [->|Hin]; [by right|].
        exfalso. apply Hi2. rewrite Hf; [done|by intros ->| |done].
        intros Hi. by apply (list_wf_live _ _ _ _ _ Hwf Hi).
      * by exists n.
    + destruct Hres as [-> Hnone]. split; [done|]. split; [done|].
      split; [done|]. by eexists _, _.
Qed.

End list_operations.

(** ** Lists: cloning *)

Section list_clone.
Context {E : Type}.
Implicit Types (h : gmap nat (list_obj E)) (p q : list_ptr) (cntr : list_block).

Lemma elem_of_adjacent_both {A} (l : list A) (p q : A) :
  (p, q) ∈ adjacent l → p ∈ l ∧ q ∈ l.
Proof.
  intros (l1 & l2 & ->)%elem_of_adjacent.
  rewrite !elem_of_app, !elem_of_cons. auto.
Qed.

(** A list depends on its own blocks only. *)
Lemma list_wf_frame h h' cntr ids (els : list E) :
  list_wf h cntr ids els →
  (∀ x, x ∈ ids ∨ cntr = blk_list_heap x → h' !! x = h !! x) →
  list_wf h' cntr ids els.
Proof.
  intros (Hnd & Hsize & Hr & He & Hlinks & Hels) Hsame.
  assert (∀ p, p ∈ list_chain cntr ids →
               load_listnode h' p = load_listnode h p) as Hload.
  { intros p Hp. apply load_listnode_local. intros j Hj. apply Hsame.
    apply elem_of_list_chain in Hp as [->|[->|(i & Hi & ->)]].
    - right. by cbn in Hj.
    - right. by cbn in Hj.
    - left. cbn in Hj. by simplify_eq. }
  assert (list_r_end_of cntr ∈ list_chain cntr ids) as Hrin.
  { unfold list_chain. apply elem_of_cons. auto. }
  assert (list_end_of cntr ∈ list_chain cntr ids) as Hein.
  { unfold list_chain.
    rewrite elem_of_cons, elem_of_app, list_elem_of_singleton. auto. }
  split; [done|]. split; [|split; [|split; [|split]]].
  - rewrite <- Hsize. apply cc4_list_size_local. intros j ->. apply Hsame. auto.
  - unfold prev_of. by rewrite Hload.
  - unfold next_of. by rewrite Hload.
  - apply Forall_forall. intros [p q] Hpq.
    pose proof (proj1 (Forall_forall _ _) Hlinks _ Hpq) as [Hl1 Hl2].
    apply elem_of_adjacent_both in Hpq as [Hp Hq].
    cbn [fst snd] in *. unfold list_link, next_of, prev_of. cbn [fst snd].
    by rewrite !Hload.
  - eapply Forall2_impl_elem; [exact Hels|]. intros i x Hi Hx.
    rewrite <- Hx. apply list_el_at_local. intros j Hj. cbn in Hj.
    simplify_eq. apply Hsame. auto.
Qed.

Lemma list_next_fwd h cntr p nxt :
  next_of h p = Some nxt →
  (nxt = list_end_of cntr →
   next_of h nxt = Some (list_end_of blk_list_placeholder)) →
  cc4_list_next h cntr (cc4_list_el p)
  = Some (if decide (nxt = list_end_of cntr) then list_end_itr
          else cc4_list_el nxt).
Proof.
  intros Hn He. unfold cc4_list_next. rewrite list_hdr_el.
  unfold next_of in Hn. destruct (load_listnode h p) as [hp|]; [|done].
  cbn in Hn. apply (inj Some) in Hn. cbn [mbind option_bind]. rewrite Hn.
  destruct (decide (nxt = list_end_of cntr)) as [Heq|Hne]; [|done].
  specialize (He Heq). unfold next_of in He.
  destruct (load_listnode h nxt) as [hn|]; [|done].
  cbn in He. apply (inj Some) in He. cbn [mbind option_bind]. by rewrite He.
Qed.

(** The pointer-iterator behind the one of an element. *)
Lemma list_next_at h cntr ids1 x ids2 (els : list E) :
  list_wf h cntr (ids1 ++ x :: ids2) els →
  cc4_list_next h cntr (list_itr x)
  = Some (list_itr_at (ids1 ++ x :: ids2) (S (length ids1))).
Proof.
  intros (_ & _ & _ & He & Hlinks & _).
  unfold list_chain in Hlinks. rewrite fmap_app, fmap_cons in Hlinks.
  rewrite <- app_assoc in Hlinks. cbn [app] in Hlinks.
  rewrite app_comm_cons, adjacent_app in Hlinks.
  apply Forall_app in Hlinks as [_ Hlinks].
  change (list_itr x) with (cc4_list_el (list_node_ptr x)).
  rewrite (list_next_chain h cntr (list_node_ptr x) ids2 Hlinks He).
  f_equal. unfold list_itr_at. rewrite lookup_app_r by lia.
  replace (S (length ids1) - length ids1) with 1 by lia. done.
Qed.

(** The loop that erases an incomplete clone frees its nodes. *)
Lemma list_undo_spec cntr ids : ∀ h fuel,
  NoDup ids →
  cc4_list_end h cntr = Some list_end_itr →
  next_of h (list_end_of cntr) = Some (list_end_of blk_list_placeholder) →
  Forall (λ pq, next_of h pq.1 = Some pq.2)
    (adjacent ((list_node_ptr <$> ids) ++ [list_end_of cntr])) →
  (∀ x, x ∈ ids → ∃ hd el, h !! x = Some (obj_list_node hd el)) →
  (∀ x, cntr = blk_list_heap x → x ∉ ids) →
  length ids < fuel →
  ∃ h',
    cc4_list_init_clone_undo fuel h cntr (list_itr_at ids 0)
    = Some (h', (λ x, list_call_free (list_node_ptr x)) <$> ids)
    ∧ (∀ x, x ∈ ids → h' !! x = None)
    ∧ (∀ x, x ∉ ids → h' !! x = h !! x).
Proof.
  induction ids as [|x ids IH]; intros h fuel Hnd Hend He Hlinks Hlive Hc Hfuel;
    (destruct fuel as [|fuel]; [cbn in Hfuel; lia|]);
    cbn [cc4_list_init_clone_undo]; rewrite Hend; cbn [mbind option_bind].
  - unfold list_itr_at. cbn. rewrite decide_True by done.
    exists h. split; [done|]. split; [|done]. by intros x ?%elem_of_nil.
  - change (list_itr_at (x :: ids) 0) with (list_itr x).
    rewrite decide_False by apply list_itr_ne_end.
    cbn [fmap list_fmap app] in Hlinks. rewrite adjacent_cons in Hlinks.
    apply NoDup_cons in Hnd as [Hx Hnd].
    assert (∃ nxt,
      next_of h (list_node_ptr x) = Some nxt
      ∧ (if decide (nxt = list_end_of cntr) then list_end_itr
         else cc4_list_el nxt) = list_itr_at ids 0
      ∧ Forall (λ pq, next_of h pq.1 = Some pq.2)
          (adjacent ((list_node_ptr <$> ids) ++ [list_end_of cntr])))
      as (nxt & Hnxt & Hitr & Hlinks').
    { destruct ids as [|y ids]; cbn [fmap list_fmap app] in Hlinks |- *;
        apply Forall_cons in Hlinks as [Hn Hlinks]; cbn [fst snd] in Hn;
        eexists; (split; [exact Hn|]); (split; [|done]).
      - by rewrite decide_True.
      - rewrite decide_False by apply list_node_ne_end. done. }
    assert (cc4_list_next h cntr (list_itr x) = Some (list_itr_at ids 0)) as ->.
    { change (list_itr x) with (cc4_list_el (list_node_ptr x)).
      rewrite (list_next_fwd h cntr _ nxt Hnxt) by (by intros ->).
      by rewrite Hitr. }
    cbn [mbind option_bind]. rewrite list_itr_hdr.
    destruct (Hlive x) as (hd & el & Hxlive); [apply elem_of_cons; auto|].
    destruct (list_free_spec h x hd el Hxlive) as (-> & Hl1 & _ & _).
    cbn [mbind option_bind].
    destruct (IH (delete x h) fuel) as (h' & -> & Hgone & Hkeep).
    + done.
    + rewrite <- Hend. unfold cc4_list_end.
      rewrite (cc4_list_hdr_local h (delete x h)); [done|].
      intros j Hj. rewrite lookup_delete_ne; [done|]. intros Hxj.
      apply (Hc j Hj). rewrite <- Hxj. apply elem_of_cons. auto.
    + unfold next_of. rewrite Hl1; [done|]. apply not_eq_sym, list_node_ne_end.
    + apply Forall_forall. intros [p q] Hpq.
      pose proof (proj1 (Forall_forall _ _) Hlinks' _ Hpq) as Hl.
      cbn [fst snd] in *. unfold next_of. rewrite Hl1; [done|].
      apply elem_of_adjacent_both in Hpq as [Hp _].
      apply elem_of_app in Hp as [Hp|Hp].
      * apply list_elem_of_fmap in Hp as (y & -> & Hy). intros Heq.
        apply list_node_ptr_inj in Heq as ->. done.
      * apply list_elem_of_singleton in Hp as ->.
        apply not_eq_sym, list_node_ne_end.
    + intros y Hy. destruct (Hlive y) as (hd' & el' & Hylive);
        [apply elem_of_cons; auto|].
      exists hd', el'. rewrite lookup_delete_ne; [done|]. by intros ->.
    + intros y Hy Hy2. apply (Hc y Hy). apply elem_of_cons. auto.
    + cbn in Hfuel. lia.
    + cbn [mbind option_bind fmap list_fmap]. eexists. split; [done|]. split.
      * intros y [->|Hy]%elem_of_cons; [|by apply Hgone].
        rewrite Hkeep by done. apply lookup_delete_eq.
      * intros y Hy. apply not_elem_of_cons in Hy as [Hy1 Hy2].
        rewrite Hkeep by done. by rewrite lookup_delete_ne.
Qed.

End list_clone.

Section list_clone_loop.
Context {E : Type}.
Implicit Types (h : gmap nat (list_obj E)) (p q : list_ptr) (cntr : list_block).

Lemma Forall_adjacent_tail {A} (P : A * A → Prop) (a : A) (l : list A) :
  Forall P (adjacent (a :: l)) → Forall P (adjacent l).
Proof.
  rewrite adjacent_cons. destruct l as [|b l]; [done|].
  by intros [_ ?]%Forall_cons.
Qed.

Lemma list_wf_footprint_live h cntr ids (els : list E) x :
  list_wf h cntr ids els → x ∈ ids ∨ cntr = blk_list_heap x → h !! x ≠ None.
Proof.
  intros Hwf [Hx| ->].
  - by eapply list_wf_live.
  - by destruct (list_wf_hdr_live _ _ _ _ Hwf).
Qed.

Lemma list_init_clone_loop_spec h0 src ids (els : list E) el_size realloc_
    fuel_undo :
  list_wf h0 src ids els → list_alloc_ok realloc_ → length ids < fuel_undo →
  ∀ rest done_ids h result cids fuel,
    ids = done_ids ++ rest →
    list_wf h (l_new_cntr result) cids (take (length done_ids) els) →
    (∀ x, h0 !! x ≠ None → h !! x = h0 !! x) →
    (∀ x, h0 !! x = None → h !! x ≠ None →
          x ∈ cids ∨ l_new_cntr result = blk_list_heap x) →
    (∀ x, x ∈ cids ∨ l_new_cntr result = blk_list_heap x → h0 !! x = None) →
    length rest < fuel →
    ∃ h' r evs,
      cc4_list_init_clone_loop fuel fuel_undo h src
        (list_itr_at ids (length done_ids)) result el_size realloc_
      = Some (h', r, evs)
      ∧ match r with
        | Some clone =>
            evs = []
            ∧ ∃ cids',
                list_wf h' clone cids' els
                ∧ (∀ x, h0 !! x ≠ None → h' !! x = h0 !! x)
                ∧ (∀ x, x ∈ cids' ∨ clone = blk_list_heap x → h0 !! x = None)
        | None =>
            (∀ x, h' !! x = h0 !! x)
            ∧ (∃ hx size, realloc_ hx size = None)
            ∧ Forall (λ e, ∃ p, e = list_call_free p) evs
        end.
Proof.
  intros Hsrc0 Halloc Hfuel_undo.
  assert (length ids = length els) as Hlen.
  { destruct Hsrc0 as (_ & _ & _ & _ & _ & Hels). by eapply Forall2_length. }
  induction rest as [|x rest IH];
    intros done_ids h result cids fuel Hids Hcl I1 I2 I3 Hfuel;
    (destruct fuel as [|fuel]; [cbn in Hfuel; lia|]);
    cbn [cc4_list_init_clone_loop].
  all: assert (list_wf h src ids els) as Hsrc.
  1,3: eapply list_wf_frame; [exact Hsrc0|]; intros y Hy; apply I1;
       by eapply list_wf_footprint_live.
  all: pose proof Hsrc as (_ & Hsize & Hr & He & _ & Hels);
       destruct (list_sentinels _ _ _ Hsize Hr He) as (_ & -> & _);
       cbn [mbind option_bind].
  - rewrite app_nil_r in Hids. subst done_ids.
    assert (list_itr_at ids (length ids) = list_end_itr) as ->.
    { unfold list_itr_at. by rewrite lookup_ge_None_2. }
    rewrite decide_True by done. eexists _, _, _. split; [done|].
    split; [done|]. exists cids. rewrite take_ge in Hcl by lia. done.
  - assert (ids !! length done_ids = Some x) as Hx.
    { rewrite Hids, lookup_app_r, Nat.sub_diag by lia. done. }
    assert (list_itr_at ids (length done_ids) = list_itr x) as ->.
    { unfold list_itr_at. by rewrite Hx. }
    rewrite decide_False by apply list_itr_ne_end.
    destruct (Forall2_lookup_l _ _ _ _ _ Hels Hx) as (ex & Hex & Helx).
    rewrite Helx. cbn [mbind option_bind].
    pose proof Hcl as (_ & Hsizec & Hrc & Hec & _ & Helsc).
    destruct (list_sentinels _ _ _ Hsizec Hrc Hec) as (_ & -> & _).
    cbn [mbind option_bind].
    assert (length cids = length done_ids) as Hlenc.
    { apply Forall2_length in Helsc. rewrite Helsc, length_take.
      apply lookup_lt_Some in Hx. lia. }
    assert (list_end_itr = list_itr_at cids (length cids)) as ->.
    { unfold list_itr_at. by rewrite lookup_ge_None_2. }
    destruct (list_insert_spec h (l_new_cntr result) cids _ (length cids) ex
                el_size realloc_ Hcl Halloc (le_n _))
      as (h1 & result1 & -> & Hcntr1 & Hnewhdr & Hframe1 & Hnew1 & Hres1).
    cbn [mbind option_bind].
    (* the blocks of the source, and those live at the start, stay *)
    assert (∀ y, h0 !! y ≠ None → h1 !! y = h0 !! y) as I1'.
    { intros y Hy. rewrite <- (I1 y Hy). apply Hframe1.
      - by rewrite (I1 y Hy).
      - intros Hyc. apply Hy. apply I3. auto.
      - intros Hyc. apply Hy. apply I3. auto. }
    assert (∀ c, l_new_cntr result1 = blk_list_heap c → h0 !! c = None)
      as Hhdr1.
    { intros c Hc.
      destruct (decide (l_new_cntr result = blk_list_placeholder)) as [Hph|Hph].
      - destruct (h0 !! c) eqn:Hc0; [|done].
        assert (h !! c = None) as Hhc by by eapply Hnewhdr.
        rewrite I1 in Hhc by by rewrite Hc0. by rewrite Hc0 in Hhc.
      - rewrite (Hcntr1 Hph) in Hc. apply I3. auto. }
    assert (∀ y, h0 !! y = None → h1 !! y ≠ None →
                 (y ∈ cids ∨ l_other_ptr result1 = Some (list_itr y))
                 ∨ l_new_cntr result1 = blk_list_heap y) as I2'.
    { intros y Hy0 Hy1. destruct (h !! y) eqn:Hy.
      - destruct (I2 y Hy0) as [Hyc|Hyc]; [by rewrite Hy|auto|].
        right. rewrite Hcntr1; [done|]. by rewrite Hyc.
      - destruct (Hnew1 y Hy Hy1); auto. }
    assert (list_wf h1 src ids els) as Hsrc1.
    { eapply list_wf_frame; [exact Hsrc0|]. intros y Hy. apply I1'.
      by eapply list_wf_footprint_live. }
    destruct (l_other_ptr result1) as [p1|] eqn:Hother.
    + destruct Hres1 as (n & Hn & -> & Hcl1).
      rewrite take_ge, drop_ge in Hcl1 by lia.
      rewrite take_ge, drop_ge in Hcl1 by (rewrite length_take; lia).
      rewrite <- (take_S_r _ _ _ Hex) in Hcl1.
      rewrite Hids in Hsrc1 at 1.
      rewrite (list_next_at h1 src done_ids x rest els Hsrc1), <- Hids.
      cbn [mbind option_bind].
      assert (h0 !! n = None) as Hn0.
      { destruct (h0 !! n) eqn:Hn0; [|done].
        rewrite I1 in Hn by by rewrite Hn0. by rewrite Hn0 in Hn. }
      destruct (IH (done_ids ++ [x]) h1 result1 (cids ++ [n]) fuel)
        as (h' & r & evs & Hrun & Hpost).
      * by rewrite <- app_assoc.
      * rewrite length_app. cbn. by rewrite Nat.add_1_r.
      * done.
      * intros y Hy0 Hy1. destruct (I2' y Hy0 Hy1) as [[Hy|Hy]|Hy]; [| |auto].
        -- left. apply elem_of_app. auto.
        -- left. simplify_eq. apply elem_of_app. right.
           by apply list_elem_of_singleton.
      * intros y [Hy|Hy]; [|by apply Hhdr1].
        apply elem_of_app in Hy as [Hy|Hy]; [apply I3; auto|].
        by apply list_elem_of_singleton in Hy as ->.
      * cbn in Hfuel. lia.
      * rewrite length_app in Hrun. cbn in Hrun. rewrite Nat.add_1_r in Hrun.
        by exists h', r, evs.
    + destruct Hres1 as [Hcl1 Hnone].
      destruct (list_first_last _ _ _ _ Hcl1) as [-> _].
      cbn [mbind option_bind].
      pose proof Hcl1 as (Hnd1 & Hsize1 & Hr1 & He1 & Hlinks1 & Hels1).
      destruct (list_sentinels _ _ _ Hsize1 Hr1 He1) as (_ & Hen1 & Hph1).
      destruct (list_undo_spec (l_new_cntr result1) cids h1 fuel_undo)
        as (h2 & -> & Hgone2 & Hkeep2).
      * done.
      * done.
      * done.
      * apply Forall_adjacent_tail in Hlinks1.
        eapply Forall_impl; [exact Hlinks1|]. by intros [p q] [Hl _].
      * intros y Hy. apply list_elem_of_lookup in Hy as [k Hk].
        destruct (Forall2_lookup_l _ _ _ _ _ Hels1 Hk) as (ey & _ & Hey).
        apply list_el_at_node in Hey as [hd Hy]. by exists hd, ey.
      * intros y Hy. rewrite Hy in Hcl1.
        by destruct (list_wf_hdr_live _ _ _ _ Hcl1).
      * pose proof Hfuel_undo as Hfu. rewrite Hids, length_app in Hfu.
        cbn in Hfu. lia.
      * cbn [mbind option_bind].
        assert (cc4_list_is_placeholder h2 (l_new_cntr result1)
                = Some (bool_decide (l_new_cntr result1 = blk_list_placeholder)))
          as ->.
        { rewrite <- Hph1. unfold cc4_list_is_placeholder.
          rewrite (cc4_list_hdr_local h1 h2); [done|].
          intros j Hj. apply Hkeep2. rewrite Hj in Hcl1.
          by destruct (list_wf_hdr_live _ _ _ _ Hcl1). }
        cbn [mbind option_bind].
        assert (Forall (λ e, ∃ p, e = list_call_free p)
                  ((λ y, list_call_free (list_node_ptr y)) <$> cids)) as Hevs.
        { apply Forall_fmap, Forall_forall. intros y _. by eexists. }
        destruct (l_new_cntr result1) as [| |c] eqn:Hc1.
        -- rewrite bool_decide_eq_true_2 by done.
           eexists _, _, _. split; [done|]. split; [|by split].
           intros y. destruct (h0 !! y) eqn:Hy0.
           ++ rewrite Hkeep2; [by rewrite I1', Hy0 by by rewrite Hy0|].
              intros Hyc. assert (h0 !! y = None) as Hy0' by (apply I3; auto).
              by rewrite Hy0 in Hy0'.
           ++ destruct (decide (y ∈ cids)) as [Hyc|Hyc]; [by apply Hgone2|].
              rewrite Hkeep2 by done.
              destruct (h1 !! y) eqn:Hy1; [|done].
              destruct (I2' y Hy0) as [[Hy|Hy]|Hy]; by rewrite ?Hy1.
        -- unfold cc4_list_size in Hsize1. done.
        -- rewrite bool_decide_eq_false_2 by done.
           destruct (list_wf_hdr_live _ _ _ _ Hcl1) as [Hclive Hccids].
           unfold list_free. rewrite Hkeep2 by done.
           destruct (h1 !! c) eqn:Hc1h; [|done]. cbn [mbind option_bind].
           eexists _, _, _. split; [done|]. split; [|split; [done|]].
           ++ intros y. destruct (decide (y = c)) as [->|Hyc'].
              { rewrite lookup_delete_eq. symmetry. by apply Hhdr1. }
              rewrite lookup_delete_ne by done.
              destruct (h0 !! y) eqn:Hy0.
              ** rewrite Hkeep2; [by rewrite I1', Hy0 by by rewrite Hy0|].
                 intros Hyc.
                 assert (h0 !! y = None) as Hy0' by (apply I3; auto).
                 by rewrite Hy0 in Hy0'.
              ** destruct (decide (y ∈ cids)) as [Hyc|Hyc]; [by apply Hgone2|].
                 rewrite Hkeep2 by done.
                 destruct (h1 !! y) eqn:Hy1; [|done].
                 destruct (I2' y Hy0) as [[Hy|Hy]|Hy]; rewrite ?Hy1; try done.
                 by simplify_eq.
           ++ apply Forall_app. split; [done|].
              apply Forall_singleton. by eexists.
Qed.

End list_clone_loop.

(** ** Lists: splicing *)

Section list_splice.
Context {E : Type}.
Implicit Types (h : gmap nat (list_obj E)) (p q : list_ptr) (cntr : list_block).

(** The list with a node more, from what the links are afterwards. *)
Lemma list_wf_added h h' cntr ids1 ids2 els1 els2 n (el : E) :
  list_wf h cntr (ids1 ++ ids2) (els1 ++ els2) → length ids1 = length els1 →
  n ∉ ids1 ++ ids2 →
  let a := default (list_r_end_of cntr) (list_node_ptr <$> last ids1) in
  let b := default (list_end_of cntr) (list_node_ptr <$> head ids2) in
  cc4_list_size h' cntr = Some (S (length (ids1 ++ ids2))) →
  next_of h' a = Some (list_node_ptr n) →
  prev_of h' (list_node_ptr n) = Some a →
  next_of h' (list_node_ptr n) = Some b →
  prev_of h' b = Some (list_node_ptr n) →
  (∀ q, q ∈ list_chain cntr (ids1 ++ ids2) → q ≠ a →
        next_of h' q = next_of h q) →
  (∀ q, q ∈ list_chain cntr (ids1 ++ ids2) → q ≠ b →
        prev_of h' q = prev_of h q) →
  list_el_at h' (list_itr n) = Some el →
  (∀ i, i ∈ ids1 ++ ids2 →
        list_el_at h' (list_itr i) = list_el_at h (list_itr i)) →
  list_wf h' cntr (ids1 ++ n :: ids2) (els1 ++ el :: els2).
Proof.
  intros Hwf Hlen Hn a b Hsize' Hna Hpn Hnn Hpb Hnx Hpv Heln Helk.
  pose proof Hwf as (Hnd & Hsize & Hr & He & Hlinks & Hels).
  destruct (list_chain_cut cntr ids1 ids2) as (L & a' & b' & R & Hcut & Ha & Hb).
  subst a' b'. fold a in Hcut. fold b in Hcut.
  pose proof (Hcut []) as Hcut0. pose proof (Hcut [n]) as Hcut1.
  cbn [app fmap list_fmap] in Hcut0, Hcut1.
  pose proof (NoDup_list_chain cntr _ Hnd) as Hndc.
  rewrite Hcut0 in Hndc, Hlinks.
  assert (list_r_end_of cntr ≠ b) as Hrb.
  { unfold b. destruct (head ids2); cbn.
    - apply not_eq_sym, list_node_ne_r_end.
    - unfold list_r_end_of, list_end_of, offsetof_r_end, offsetof_end.
      intros ?; simplify_eq. }
  assert (list_end_of cntr ≠ a) as Hea.
  { unfold a. destruct (last ids1); cbn.
    - apply not_eq_sym, list_node_ne_end.
    - unfold list_r_end_of, list_end_of, offsetof_r_end, offsetof_end.
      intros ?; simplify_eq. }
  assert (list_r_end_of cntr ∈ list_chain cntr (ids1 ++ ids2)) as Hrin.
  { unfold list_chain. apply elem_of_cons. auto. }
  assert (list_end_of cntr ∈ list_chain cntr (ids1 ++ ids2)) as Hein.
  { unfold list_chain.
    rewrite elem_of_cons, elem_of_app, list_elem_of_singleton. auto. }
  rewrite adjacent_app in Hlinks. apply Forall_app in Hlinks as [HlinksL HlinksR].
  rewrite adjacent_cons in HlinksR. apply Forall_cons in HlinksR as [_ HlinksR].
  split; [|split; [|split; [|split; [|split]]]].
  - apply NoDup_app in Hnd as (Hnd1 & Hdisj & Hnd2).
    apply NoDup_app. split; [done|]. split.
    + intros y Hy [-> | Hy2]%elem_of_cons.
      * apply Hn. apply elem_of_app. auto.
      * by apply (Hdisj y).
    + apply NoDup_cons. split; [|done]. intros Hin. apply Hn.
      apply elem_of_app. auto.
  - rewrite Hsize'. f_equal. rewrite !length_app. cbn. lia.
  - by rewrite Hpv.
  - by rewrite Hnx.
  - rewrite Hcut1.
    rewrite adjacent_app, (adjacent_cons a), (adjacent_cons (list_node_ptr n)).
    apply Forall_app. split; [|apply Forall_cons; split;
                               [|apply Forall_cons; split]].
    + apply Forall_forall. intros [p q] Hpq.
      pose proof (proj1 (Forall_forall _ _) HlinksL _ Hpq) as [Hlk1 Hlk2].
      destruct (adjacent_before _ _ _ _ _ Hndc Hpq)
        as (Hp1 & Hq1 & Hp2 & Hp3 & Hq2).
      cbn [fst snd] in *. split; cbn [fst snd].
      * rewrite Hnx; [done| |done]. rewrite Hcut0. apply elem_of_app. auto.
      * rewrite Hpv; [done| |].
        -- rewrite Hcut0. apply elem_of_app in Hq1 as [Hq1|Hq1].
           ++ apply elem_of_app. auto.
           ++ apply list_elem_of_singleton in Hq1 as ->.
              rewrite elem_of_app, elem_of_cons. auto.
        -- intros ->. apply Hq2. apply elem_of_cons. auto.
    + by split.
    + by split.
    + apply Forall_forall. intros [p q] Hpq.
      pose proof (proj1 (Forall_forall _ _) HlinksR _ Hpq) as [Hlk1 Hlk2].
      assert (NoDup ((L ++ [a]) ++ b :: R)) as Hndc' by by rewrite <- app_assoc.
      destruct (adjacent_behind _ _ _ _ _ Hndc' Hpq)
        as (Hp1 & Hq1 & Hq2 & Hq3 & Hp2).
      cbn [fst snd] in *. split; cbn [fst snd].
      * rewrite Hnx; [done| |].
        -- rewrite Hcut0, elem_of_app, elem_of_cons. auto.
        -- intros ->. apply Hp2. rewrite elem_of_app, list_elem_of_singleton.
           auto.
      * rewrite Hpv; [done| |done].
        rewrite Hcut0, elem_of_app, !elem_of_cons. auto.
  - apply Forall2_app_inv in Hels as [Hels1 Hels2]; [|done].
    apply Forall2_app; [|apply Forall2_cons; split; [done|]].
    + eapply Forall2_impl_elem; [exact Hels1|]. intros i y Hi Hy.
      rewrite Helk; [done|]. apply elem_of_app. auto.
    + eapply Forall2_impl_elem; [exact Hels2|]. intros i y Hi Hy.
      rewrite Helk; [done|]. apply elem_of_app. auto.
Qed.

(** The list with a node less, from what the links are afterwards. *)
Lemma list_wf_removed h h' cntr ids1 x ids2 els1 (ex : E) els2 :
  list_wf h cntr (ids1 ++ x :: ids2) (els1 ++ ex :: els2) →
  length ids1 = length els1 →
  let a := default (list_r_end_of cntr) (list_node_ptr <$> last ids1) in
  let b := default (list_end_of cntr) (list_node_ptr <$> head ids2) in
  cc4_list_size h' cntr = Some (length (ids1 ++ ids2)) →
  next_of h' a = Some b →
  prev_of h' b = Some a →
  (∀ q, q ∈ list_chain cntr (ids1 ++ ids2) → q ≠ a →
        next_of h' q = next_of h q) →
  (∀ q, q ∈ list_chain cntr (ids1 ++ ids2) → q ≠ b →
        prev_of h' q = prev_of h q) →
  (∀ i, i ∈ ids1 ++ ids2 →
        list_el_at h' (list_itr i) = list_el_at h (list_itr i)) →
  list_wf h' cntr (ids1 ++ ids2) (els1 ++ els2).
Proof.
  intros Hwf Hlen a b Hsize' Hna Hpb Hnx Hpv Helk.
  pose proof Hwf as (Hnd & Hsize & Hr & He & Hlinks & Hels).
  destruct (list_chain_cut cntr ids1 ids2) as (L & a' & b' & R & Hcut & Ha & Hb).
  subst a' b'. fold a in Hcut. fold b in Hcut.
  pose proof (Hcut []) as Hcut0. pose proof (Hcut [x]) as Hcut1.
  cbn [app fmap list_fmap] in Hcut0, Hcut1.
  pose proof (NoDup_list_chain cntr _ Hnd) as Hndc.
  rewrite Hcut1 in Hndc, Hlinks.
  assert (list_r_end_of cntr ≠ b) as Hrb.
  { unfold b. destruct (head ids2); cbn.
    - apply not_eq_sym, list_node_ne_r_end.
    - unfold list_r_end_of, list_end_of, offsetof_r_end, offsetof_end.
      intros ?; simplify_eq. }
  assert (list_end_of cntr ≠ a) as Hea.
  { unfold a. destruct (last ids1); cbn.
    - apply not_eq_sym, list_node_ne_end.
    - unfold list_r_end_of, list_end_of, offsetof_r_end, offsetof_end.
      intros ?; simplify_eq. }
  assert (list_r_end_of cntr ∈ list_chain cntr (ids1 ++ ids2)) as Hrin.
  { unfold list_chain. apply elem_of_cons. auto. }
  assert (list_end_of cntr ∈ list_chain cntr (ids1 ++ ids2)) as Hein.
  { unfold list_chain.
    rewrite elem_of_cons, elem_of_app, list_elem_of_singleton. auto. }
  assert (prev_of h (list_r_end_of cntr) = Some (list_r_end_of blk_list_placeholder)
          ∧ next_of h (list_end_of cntr) = Some (list_end_of blk_list_placeholder))
    as [Hr' He'] by done.
  rewrite adjacent_app in Hlinks. apply Forall_app in Hlinks as [HlinksL HlinksR].
  rewrite (adjacent_cons a), (adjacent_cons (list_node_ptr x)) in HlinksR.
  apply Forall_cons in HlinksR as [_ HlinksR].
  apply Forall_cons in HlinksR as [_ HlinksR].
  split; [|split; [|split; [|split; [|split]]]].
  - apply NoDup_app in Hnd as (Hnd1 & Hdisj & Hnd2).
    apply NoDup_cons in Hnd2 as [_ Hnd2].
    apply NoDup_app. split; [done|]. split; [|done].
    intros y Hy Hy2. apply (Hdisj y Hy). apply elem_of_cons. auto.
  - done.
  - by rewrite Hpv.
  - by rewrite Hnx.
  - rewrite Hcut0. rewrite adjacent_app, (adjacent_cons a).
    apply Forall_app. split; [|apply Forall_cons; split].
    + apply Forall_forall. intros [p q] Hpq.
      pose proof (proj1 (Forall_forall _ _) HlinksL _ Hpq) as [Hlk1 Hlk2].
      destruct (adjacent_before _ _ _ _ _ Hndc Hpq)
        as (Hp1 & Hq1 & Hp2 & Hp3 & Hq2).
      cbn [fst snd] in *. split; cbn [fst snd].
      * rewrite Hnx; [done| |done]. rewrite Hcut0. apply elem_of_app. auto.
      * rewrite Hpv; [done| |].
        -- rewrite Hcut0. apply elem_of_app in Hq1 as [Hq1|Hq1].
           ++ apply elem_of_app. auto.
           ++ apply list_elem_of_singleton in Hq1 as ->.
              rewrite elem_of_app, elem_of_cons. auto.
        -- intros ->. apply Hq2. rewrite !elem_of_cons. auto.
    + by split.
    + apply Forall_forall. intros [p q] Hpq.
      pose proof (proj1 (Forall_forall _ _) HlinksR _ Hpq) as [Hlk1 Hlk2].
      assert (NoDup ((L ++ [a; list_node_ptr x]) ++ b :: R)) as Hndc'
        by by rewrite <- app_assoc.
      destruct (adjacent_behind _ _ _ _ _ Hndc' Hpq)
        as (Hp1 & Hq1 & Hq2 & Hq3 & Hp2).
      cbn [fst snd] in *. split; cbn [fst snd].
      * rewrite Hnx; [done| |].
        -- rewrite Hcut0, elem_of_app, elem_of_cons. auto.
        -- intros ->. apply Hp2. rewrite elem_of_app, !elem_of_cons. auto.
      * rewrite Hpv; [done| |done].
        rewrite Hcut0, elem_of_app, !elem_of_cons. auto.
  - apply Forall2_app_inv in Hels as [Hels1 Hels2]; [|done].
    apply Forall2_cons in Hels2 as [_ Hels2].
    apply Forall2_app.
    + eapply Forall2_impl_elem; [exact Hels1|]. intros i y Hi Hy.
      rewrite Helk; [done|]. apply elem_of_app. auto.
    + eapply Forall2_impl_elem; [exact Hels2|]. intros i y Hi Hy.
      rewrite Helk; [done|]. apply elem_of_app. auto.
Qed.

End list_splice.

Section list_splice_node.
Context {E : Type}.
Implicit Types (h : gmap nat (list_obj E)) (p q : list_ptr) (cntr : list_block).

(** The blocks of the pointers of a chain. *)
Lemma list_chain_block cntr ids p :
  p ∈ list_chain cntr ids → p.1 = cntr ∨ ∃ i, i ∈ ids ∧ p.1 = blk_list_heap i.
Proof.
  intros [->|[->|(i & Hi & ->)]]%elem_of_list_chain; [by left..|].
  right. by exists i.
Qed.

Lemma list_cut_in_chain cntr ids1 ids2 :
  default (list_r_end_of cntr) (list_node_ptr <$> last ids1)
    ∈ list_chain cntr (ids1 ++ ids2)
  ∧ default (list_end_of cntr) (list_node_ptr <$> head ids2)
    ∈ list_chain cntr (ids1 ++ ids2).
Proof.
  destruct (list_chain_cut cntr ids1 ids2) as (L & a & b & R & Hcut & <- & <-).
  specialize (Hcut []). cbn [app fmap list_fmap] in Hcut. rewrite Hcut.
  rewrite !elem_of_app, !elem_of_cons. auto.
Qed.

Lemma list_splice_node h c ids1 ids2 els1 els2 src sids1 x sids2 sels1 (ex : E)
    sels2 realloc_ :
  list_wf h (blk_list_heap c) (ids1 ++ ids2) (els1 ++ els2) →
  length ids1 = length els1 →
  list_wf h src (sids1 ++ x :: sids2) (sels1 ++ ex :: sels2) →
  length sids1 = length sels1 →
  (∀ y, y ∈ ids1 ++ ids2 ∨ y = c →
        (y ∉ sids1 ++ x :: sids2) ∧ src ≠ blk_list_heap y) →
  ∃ h',
    cc4_list_splice h (blk_list_heap c)
      (list_itr_at (ids1 ++ ids2) (length ids1)) src (list_itr x) realloc_
    = Some (h', cc4_list_make_allocing_fn_result (blk_list_heap c)
                  (Some cc4_list_dummy_true_ptr))
    ∧ list_wf h' (blk_list_heap c) (ids1 ++ x :: ids2) (els1 ++ ex :: els2)
    ∧ list_wf h' src (sids1 ++ sids2) (sels1 ++ sels2)
    ∧ (∀ i, i ≠ c → src ≠ blk_list_heap i → i ∉ ids1 ++ ids2 →
            i ∉ sids1 ++ x :: sids2 → h' !! i = h !! i)
    ∧ (∀ i, h' !! i = None ↔ h !! i = None).
Proof.
  intros Hwf Hlen Hswf Hslen Hdisj.
  pose proof Hwf as (Hnd & Hsize & Hr & He & Hlinks & Hels).
  pose proof Hswf as (Hsnd & Hssize & Hsr & Hse & Hslinks & Hsels).
  destruct src as [| |cs].
  { unfold cc4_list_size in Hssize. cbn in Hssize. simplify_eq.
    rewrite length_app in *. cbn in *. lia. }
  { done. }
  destruct (list_wf_hdr_live _ _ _ _ Hswf) as [Hcslive Hcsids].
  destruct (list_wf_hdr_live _ _ _ _ Hwf) as [Hclive Hcids].
  assert (x ∈ sids1 ++ x :: sids2) as Hxin.
  { rewrite elem_of_app, elem_of_cons. auto. }
  (* the two places *)
  set (a := default (list_r_end_of (blk_list_heap c))
              (list_node_ptr <$> last ids1)).
  set (b := default (list_end_of (blk_list_heap c))
              (list_node_ptr <$> head ids2)).
  set (sa := default (list_r_end_of (blk_list_heap cs))
               (list_node_ptr <$> last sids1)).
  set (sb := default (list_end_of (blk_list_heap cs))
               (list_node_ptr <$> head sids2)).
  destruct (list_cut_in_chain (blk_list_heap c) ids1 ids2) as [Hain Hbin].
  fold a in Hain. fold b in Hbin.
  destruct (list_cut_in_chain (blk_list_heap cs) sids1 sids2) as [Hsain Hsbin].
  fold sa in Hsain. fold sb in Hsbin.
  (* pointers of the one list are not pointers of the other *)
  assert (∀ p, p ∈ list_chain (blk_list_heap c) (ids1 ++ ids2) →
               ∃ y, p.1 = blk_list_heap y ∧ (y ∈ ids1 ++ ids2 ∨ y = c))
    as HinC.
  { intros p [Hp|(i & Hi & Hp)]%list_chain_block; eauto. }
  assert (∀ p, p ∈ list_chain (blk_list_heap cs) (sids1 ++ x :: sids2) →
               ∃ y, p.1 = blk_list_heap y
                    ∧ (y ∈ sids1 ++ x :: sids2 ∨ y = cs)) as HinS.
  { intros p [Hp|(i & Hi & Hp)]%list_chain_block; eauto. }
  assert (∀ p q, p ∈ list_chain (blk_list_heap c) (ids1 ++ ids2) →
                 q ∈ list_chain (blk_list_heap cs) (sids1 ++ x :: sids2) →
                 p ≠ q) as Hapart.
  { intros p q Hp Hq ->. destruct (HinC _ Hp) as (y & Hy & HyC).
    destruct (HinS _ Hq) as (y' & Hy' & HyS). rewrite Hy in Hy'.
    simplify_eq. destruct (Hdisj _ HyC) as [Hd1 Hd2].
    destruct HyS as [HyS| ->]; [done|]. by apply Hd2. }
  assert (∀ q, q ∈ list_chain (blk_list_heap cs) (sids1 ++ sids2) →
               q ∈ list_chain (blk_list_heap cs) (sids1 ++ x :: sids2)
               ∧ q ≠ list_node_ptr x) as Hsub.
  { intros q Hq.
    apply elem_of_list_chain in Hq as [->|[->|(i & Hi & ->)]].
    - split; [|apply not_eq_sym, list_node_ne_r_end].
      unfold list_chain. apply elem_of_cons. auto.
    - split; [|apply not_eq_sym, list_node_ne_end].
      unfold list_chain.
      rewrite elem_of_cons, elem_of_app, list_elem_of_singleton. auto.
    - split.
      + unfold list_chain. rewrite elem_of_cons, elem_of_app. right. left.
        apply list_elem_of_fmap. exists i. split; [done|].
        rewrite elem_of_app, elem_of_cons.
        apply elem_of_app in Hi as [Hi|Hi]; auto.
      + intros Heq. apply list_node_ptr_inj in Heq as ->.
        apply NoDup_app in Hsnd as (_ & Hd & Hsnd2).
        apply NoDup_cons in Hsnd2 as [Hx2 _].
        apply elem_of_app in Hi as [Hi|Hi]; [|done].
        apply (Hd x Hi). apply elem_of_cons. auto. }
  assert (list_node_ptr x
            ∈ list_chain (blk_list_heap cs) (sids1 ++ x :: sids2)) as Hxchain.
  { unfold list_chain. rewrite elem_of_cons, elem_of_app. right. left.
    apply list_elem_of_fmap. by exists x. }
  destruct (Hsub _ Hsain) as [Hsain' Hsax].
  destruct (Hsub _ Hsbin) as [Hsbin' Hsbx].
  (* the links at the two places *)
  destruct (list_chain_cut (blk_list_heap cs) sids1 sids2)
    as (Ls & sa' & sb' & Rs & Hscut & Hsa & Hsb).
  subst sa' sb'. fold sa in Hscut. fold sb in Hscut.
  pose proof (Hscut [x]) as Hscut1. pose proof (Hscut []) as Hscut0.
  cbn [app fmap list_fmap] in Hscut1, Hscut0.
  pose proof (NoDup_list_chain (blk_list_heap cs) _ Hsnd) as Hsndc.
  rewrite Hscut1 in Hsndc, Hslinks.
  assert (sa ≠ sb) as Hsab.
  { apply NoDup_app in Hsndc as (_ & _ & Hsndc).
    apply NoDup_cons in Hsndc as [Hsndc _]. intros Heq. apply Hsndc.
    rewrite Heq, !elem_of_cons. auto. }
  rewrite adjacent_app in Hslinks.
  apply Forall_app in Hslinks as [_ Hslinks].
  rewrite (adjacent_cons sa), (adjacent_cons (list_node_ptr x)) in Hslinks.
  apply Forall_cons in Hslinks as [[Hnsax Hpxsa] Hslinks].
  apply Forall_cons in Hslinks as [[Hnxsb Hpsbx] _].
  cbn [fst snd] in Hnsax, Hpxsa, Hnxsb, Hpsbx.
  destruct (list_chain_cut (blk_list_heap c) ids1 ids2)
    as (L & a' & b' & R & Hcut & Ha & Hb).
  subst a' b'. fold a in Hcut. fold b in Hcut.
  pose proof (Hcut []) as Hcut0. cbn [app fmap list_fmap] in Hcut0.
  pose proof (NoDup_list_chain (blk_list_heap c) _ Hnd) as Hndc.
  rewrite Hcut0 in Hndc, Hlinks.
  assert (a ≠ b) as Hab.
  { apply NoDup_app in Hndc as (_ & _ & Hndc).
    apply NoDup_cons in Hndc as [Hndc _]. intros Heq. apply Hndc.
    rewrite Heq. apply elem_of_cons. auto. }
  rewrite adjacent_app in Hlinks. apply Forall_app in Hlinks as [_ Hlinks].
  rewrite adjacent_cons in Hlinks. apply Forall_cons in Hlinks as [[Hnab Hpba] _].
  cbn [fst snd] in Hnab, Hpba.
  assert (∃ j, a.1 = blk_list_heap j) as Haheap.
  { unfold a. destruct (last ids1); cbn; by eexists. }
  assert (∃ j, b.1 = blk_list_heap j) as Hbheap.
  { unfold b. destruct (head ids2); cbn; by eexists. }
  assert (∃ j, sa.1 = blk_list_heap j) as Hsaheap.
  { unfold sa. destruct (last sids1); cbn; by eexists. }
  assert (∃ j, sb.1 = blk_list_heap j) as Hsbheap.
  { unfold sb. destruct (head sids2); cbn; by eexists. }
  pose proof (Hapart _ _ Hain Hsain') as Hasa.
  pose proof (Hapart _ _ Hain Hsbin') as Hasb.
  pose proof (Hapart _ _ Hain Hxchain) as Hax.
  pose proof (Hapart _ _ Hbin Hsain') as Hbsa.
  pose proof (Hapart _ _ Hbin Hsbin') as Hbsb.
  pose proof (Hapart _ _ Hbin Hxchain) as Hbx.
  unfold next_of in Hnsax, Hnxsb, Hnab. unfold prev_of in Hpxsa, Hpsbx, Hpba.
  destruct (load_listnode h sa) as [hsa|] eqn:Hlsa; [|done].
  destruct (load_listnode h (list_node_ptr x)) as [hx|] eqn:Hlx; [|done].
  destruct (load_listnode h sb) as [hsb|] eqn:Hlsb; [|done].
  destruct (load_listnode h a) as [ha|] eqn:Hla; [|done].
  destruct (load_listnode h b) as [hb|] eqn:Hlb; [|done].
  cbn in Hnsax, Hpxsa, Hnxsb, Hpsbx, Hnab, Hpba.
  apply (inj Some) in Hnsax, Hpxsa, Hnxsb, Hpsbx, Hnab, Hpba.
  (* the run *)
  destruct (list_sentinels _ _ _ Hsize Hr He) as (_ & _ & Hph).
  unfold cc4_list_splice. rewrite Hph. cbn [mbind option_bind].
  rewrite bool_decide_eq_false_2 by done. cbn [fst snd].
  rewrite list_itr_hdr, Hlx. cbn [mbind option_bind]. rewrite Hpxsa, Hnxsb.
  destruct (set_next_spec h sa hsa sb Hlsa Hsaheap)
    as (h1 & -> & Hsa1 & Ho1 & Hr1 & Hf1).
  cbn [mbind option_bind]. rewrite (Ho1 _ (not_eq_sym Hsax)), Hlx.
  cbn [mbind option_bind]. rewrite Hpxsa, Hnxsb.
  assert (load_listnode h1 sb = Some hsb) as Hlsb1
    by by rewrite (Ho1 _ (not_eq_sym Hsab)).
  destruct (set_prev_spec h1 sb hsb sa Hlsb1 Hsbheap)
    as (h2 & -> & Hsb2 & Ho2 & Hr2 & Hf2).
  cbn [mbind option_bind].
  pose proof (relinked_trans _ _ _ Hr1 Hr2) as Hr12.
  pose proof Hr12 as (Hs2 & Hel2 & Hd2).
  assert (∀ q, q ≠ sa → q ≠ sb → load_listnode h2 q = load_listnode h q)
    as Hl2.
  { intros q Hq1 Hq2. by rewrite Ho2, Ho1. }
  assert (cc4_list_size h2 (blk_list_heap c) = Some (length (ids1 ++ ids2)))
    as Hsize2 by by rewrite Hs2.
  assert (list_r_end_of (blk_list_heap c)
            ∈ list_chain (blk_list_heap c) (ids1 ++ ids2)) as Hrin.
  { unfold list_chain. apply elem_of_cons. auto. }
  assert (list_end_of (blk_list_heap c)
            ∈ list_chain (blk_list_heap c) (ids1 ++ ids2)) as Hein.
  { unfold list_chain.
    rewrite elem_of_cons, elem_of_app, list_elem_of_singleton. auto. }
  assert (prev_of h2 (list_r_end_of (blk_list_heap c))
          = Some (list_r_end_of blk_list_placeholder)) as Hr2'.
  { unfold prev_of. rewrite Hl2; [done|by apply Hapart..]. }
  assert (next_of h2 (list_end_of (blk_list_heap c))
          = Some (list_end_of blk_list_placeholder)) as He2'.
  { unfold next_of. rewrite Hl2; [done|by apply Hapart..]. }
  destruct (list_local_itr_spec _ _ _ Hsize2 Hr2' He2') as (Hloc1 & _ & Hloc3).
  assert (∃ itr',
    list_local_itr h2 (blk_list_heap c)
      (list_itr_at (ids1 ++ ids2) (length ids1)) = Some itr'
    ∧ cc4_listnode_hdr itr' = b) as (itr' & Hitr1 & Hitr2).
  { rewrite list_itr_at_app. unfold b. destruct (head ids2) as [i|].
    - exists (list_itr i).
      change (default list_end_itr (list_itr <$> Some i)) with (list_itr i).
      by rewrite Hloc3.
    - exists (cc4_list_el (list_end_of (blk_list_heap c))).
      change (default list_end_itr (list_itr <$> None)) with list_end_itr.
      rewrite Hloc1. by rewrite list_end_hdr. }
  assert (load_listnode h2 (list_node_ptr x) = Some hx) as Hlx2.
  { by rewrite Hl2. }
  destruct (cc4_list_attach_spec h2 (blk_list_heap c) _ itr' (list_node_ptr x)
              a b hx Hitr1 Hitr2 Hlx2)
    as (h6 & -> & Hx6 & Hna6 & Hpa6 & Hpb6 & Hnb6 & Ho6 & Hrel6 & Hf6);
    [unfold next_of; rewrite Hl2 by done; rewrite Hla; cbn; by rewrite Hnab
    |unfold prev_of; rewrite Hl2 by done; rewrite Hlb; cbn; by rewrite Hpba
    |done|done|done|done|done|by eexists|].
  cbn [mbind option_bind].
  pose proof (relinked_trans _ _ _ Hr12 Hrel6) as (Hs6 & Hel6 & Hd6).
  assert (cc4_list_size h6 (blk_list_heap cs)
          = Some (S (length (sids1 ++ sids2)))) as Hssize6.
  { rewrite Hs6, Hssize. f_equal. rewrite !length_app. cbn. lia. }
  destruct (hdr_of_size _ _ _ Hssize6) as (r6 & e6 & -> & _ & _).
  cbn [mbind option_bind]. rewrite list_size_decr_S.
  destruct (set_list_size_spec h6 cs _ (length (sids1 ++ sids2)) Hssize6)
    as (h7 & -> & Hssize7 & Hl7 & Hel7 & Hs7 & Hd7 & Hf7).
  cbn [mbind option_bind].
  assert (c ≠ cs) as Hccs.
  { intros ->. destruct (Hdisj cs) as [_ Hd]; auto. }
  assert (cc4_list_size h7 (blk_list_heap c) = Some (length (ids1 ++ ids2)))
    as Hsize7.
  { rewrite Hs7 by congruence. by rewrite Hs6. }
  destruct (hdr_of_size _ _ _ Hsize7) as (r7 & e7 & -> & _ & _).
  cbn [mbind option_bind].
  destruct (set_list_size_spec h7 c _ (length (ids1 ++ ids2) + 1) Hsize7)
    as (h8 & -> & Hsize8 & Hl8 & Hel8 & Hs8 & Hd8 & Hf8).
  cbn [mbind option_bind].
  eexists. split; [done|].
  assert (∀ q, load_listnode h8 q = load_listnode h6 q) as Hl86.
  { intros q. by rewrite Hl8, Hl7. }
  assert (∀ itr, list_el_at h8 itr = list_el_at h itr) as Hel8'.
  { intros itr. by rewrite Hel8, Hel7, Hel6. }
  split; [|split; [|split]].
  - apply (list_wf_added h h8 (blk_list_heap c) ids1 ids2 els1 els2 x ex);
      try done.
    + intros Hx. destruct (Hdisj x) as [Hd _]; auto.
    + rewrite Hsize8. f_equal. lia.
    + fold a. unfold next_of. rewrite Hl86. exact Hna6.
    + fold a. unfold prev_of. by rewrite Hl86, Hx6.
    + fold b. unfold next_of. by rewrite Hl86, Hx6.
    + fold b. unfold prev_of. rewrite Hl86. exact Hpb6.
    + fold a. intros q Hq Hqa. unfold next_of at 1. rewrite Hl86.
      destruct (decide (q = b)) as [->|Hqb].
      * fold (next_of h6 b). rewrite Hnb6. unfold next_of. by rewrite Hl2.
      * rewrite Ho6; [|done|done|by apply Hapart].
        unfold next_of. rewrite Hl2; [done|by apply Hapart..].
    + fold b. intros q Hq Hqb. unfold prev_of at 1. rewrite Hl86.
      destruct (decide (q = a)) as [->|Hqa].
      * fold (prev_of h6 a). rewrite Hpa6. unfold prev_of. by rewrite Hl2.
      * rewrite Ho6; [|done|done|by apply Hapart].
        unfold prev_of. rewrite Hl2; [done|by apply Hapart..].
    + rewrite Hel8'.
      destruct (Forall2_lookup_l _ _ _ (length sids1) x Hsels) as (y & Hy & Hxy).
      * by rewrite lookup_app_r, Nat.sub_diag by lia.
      * rewrite lookup_app_r, Hslen, Nat.sub_diag in Hy by lia. cbn in Hy.
        by simplify_eq.
  - apply (list_wf_removed h h8 (blk_list_heap cs) sids1 x sids2 sels1 ex sels2);
      try done.
    + rewrite Hs8 by congruence. done.
    + fold sa sb. unfold next_of. rewrite Hl86, Ho6, Ho2, Hsa1; try done.
      all: apply not_eq_sym; by apply Hapart.
    + fold sa sb. unfold prev_of. rewrite Hl86, Ho6, Hsb2; try done.
      all: apply not_eq_sym; by apply Hapart.
    + fold sa. intros q Hq Hqsa. destruct (Hsub _ Hq) as [Hq' Hqx].
      unfold next_of. rewrite Hl86, Ho6; [|apply not_eq_sym; by apply Hapart..|done].
      destruct (decide (q = sb)) as [->|Hqsb].
      * by rewrite Hsb2, Hlsb.
      * by rewrite Hl2.
    + fold sb. intros q Hq Hqsb. destruct (Hsub _ Hq) as [Hq' Hqx].
      unfold prev_of. rewrite Hl86, Ho6; [|apply not_eq_sym; by apply Hapart..|done].
      rewrite Ho2 by done.
      destruct (decide (q = sa)) as [->|Hqsa].
      * by rewrite Hsa1, Hlsa.
      * by rewrite Ho1.
  - intros i Hi1 Hi2 Hi3 Hi4.
    assert (∀ p, p ∈ list_chain (blk_list_heap c) (ids1 ++ ids2) →
                 blk_list_heap i ≠ p.1) as HiC.
    { intros p Hp Heq. destruct (HinC _ Hp) as (y & Hy & [HyC| ->]);
        rewrite Hy in Heq; by simplify_eq. }
    assert (∀ p, p ∈ list_chain (blk_list_heap cs) (sids1 ++ x :: sids2) →
                 blk_list_heap i ≠ p.1) as HiS.
    { intros p Hp Heq. destruct (HinS _ Hp) as (y & Hy & [HyS| ->]);
        rewrite Hy in Heq; by simplify_eq. }
    rewrite Hf8 by done. rewrite Hf7 by congruence.
    rewrite Hf6, Hf2, Hf1; auto.
  - intros i. by rewrite Hd8, Hd7, Hd6.
Qed.

End list_splice_node.

Section list_splice_top.
Context {E : Type}.
Implicit Types (h : gmap nat (list_obj E)) (p q : list_ptr) (cntr : list_block).

Lemma list_splice_on_placeholder h itr src src_itr
    (realloc_ : cc4_list_realloc_fnptr_ty E) :
  cc4_list_splice h blk_list_placeholder itr src src_itr realloc_
  = match realloc_ h sizeof_cc4_list_hdr_ty with
    | None =>
        Some (h, cc4_list_make_allocing_fn_result blk_list_placeholder None)
    | Some c =>
        cc4_list_splice
          (<[c := obj_list_hdr 0
                    (ListNodeHdr (list_r_end_of blk_list_placeholder)
                       (list_end_of (blk_list_heap c)))
                    (ListNodeHdr (list_r_end_of (blk_list_heap c))
                       (list_end_of blk_list_placeholder))]> h)
          (blk_list_heap c) itr src src_itr realloc_
    end.
Proof.
  unfold cc4_list_splice at 1.
  unfold cc4_list_is_placeholder, cc4_list_hdr. cbn [mbind option_bind].
  rewrite bool_decide_eq_true_2 by done. unfold cc4_list_alloc_hdr.
  destruct (realloc_ h sizeof_cc4_list_hdr_ty) as [c|]; [|done].
  cbn [fst snd]. unfold cc4_list_splice, cc4_list_is_placeholder, cc4_list_hdr.
  rewrite lookup_insert_eq. cbn [mbind option_bind].
  rewrite bool_decide_eq_false_2; [done|].
  unfold list_r_end_of. cbn. intros ?; simplify_eq.
Qed.

(** [cc4_list_splice] of the element at index [j] of the list [src]
    before the element at index [k] of another list (before [end] when [k]
    is its size) returns.  Into a list with a header it always succeeds,
    without a call of [realloc_], and the handle stays.  Into a list
    without a header it asks [realloc_] once, for the bytes of a header:
    when that call returns no block the splice fails and nothing has
    changed; when it returns a block the splice succeeds and that block is
    the new handle.  After a success the node of the element has moved: it
    is at index [k] of the list, with its element and its
    pointer-iterator as before, and no longer in [src]; the other elements
    of both lists keep their order and their nodes. *)
Theorem list_splice_moves h cntr ids els k src sids (sels : list E) j realloc_ :
  list_wf h cntr ids els → list_wf h src sids sels →
  (∀ y, y ∈ ids ∨ cntr = blk_list_heap y →
        (y ∉ sids) ∧ src ≠ blk_list_heap y) →
  list_alloc_ok realloc_ → k ≤ length ids → j < length sids →
  ∃ h' result,
    cc4_list_splice h cntr (list_itr_at ids k) src (list_itr_at sids j) realloc_
    = Some (h', result)
    ∧ (cntr ≠ blk_list_placeholder →
       l_new_cntr result = cntr
       ∧ l_other_ptr result = Some cc4_list_dummy_true_ptr)
    ∧ (cntr = blk_list_placeholder →
       match realloc_ h sizeof_cc4_list_hdr_ty with
       | None => h' = h ∧ result = cc4_list_make_allocing_fn_result cntr None
       | Some c =>
           result = cc4_list_make_allocing_fn_result (blk_list_heap c)
                      (Some cc4_list_dummy_true_ptr)
       end)
    ∧ match l_other_ptr result with
      | None =>
          h' = h ∧ l_new_cntr result = cntr
          ∧ cntr = blk_list_placeholder
          ∧ realloc_ h sizeof_cc4_list_hdr_ty = None
      | Some _ =>
          ∃ x ex,
            sids !! j = Some x ∧ sels !! j = Some ex
            ∧ list_wf h' (l_new_cntr result)
                (take k ids ++ x :: drop k ids) (take k els ++ ex :: drop k els)
            ∧ list_wf h' src (delete j sids) (delete j sels)
            ∧ (∀ i, h !! i ≠ None → i ∉ ids → i ∉ sids →
                    cntr ≠ blk_list_heap i → src ≠ blk_list_heap i →
                    h' !! i = h !! i)
      end.
Proof.
  intros Hwf Hswf Hdisj Halloc Hk Hj.
  assert (length ids = length els) as Hlen.
  { destruct Hwf as (_ & _ & _ & _ & _ & Hels). by eapply Forall2_length. }
  assert (length sids = length sels) as Hslen.
  { destruct Hswf as (_ & _ & _ & _ & _ & Hels). by eapply Forall2_length. }
  destruct (lookup_lt_is_Some_2 sids j Hj) as [x Hx].
  destruct (lookup_lt_is_Some_2 sels j) as [ex Hex]; [lia|].
  pose proof (take_drop_middle _ _ _ Hx) as Hsids.
  pose proof (take_drop_middle _ _ _ Hex) as Hsels.
  assert (length (take j sids) = length (take j sels)) as Hslen'.
  { rewrite !length_take. lia. }
  assert (list_itr_at sids j = list_itr x) as ->.
  { unfold list_itr_at. by rewrite Hx. }
  rewrite !delete_take_drop.
  destruct cntr as [| |c].
  - apply list_wf_placeholder in Hwf as [-> ->]. cbn in Hk.
    assert (k = 0) as -> by lia. cbn [take drop app].
    rewrite list_splice_on_placeholder.
    destruct (realloc_ h sizeof_cc4_list_hdr_ty) as [c|] eqn:Hc.
    + apply Halloc in Hc.
      pose proof (list_new_hdr_wf (E := E) h c Hc) as Hwf1.
      set (h1 := <[c := _]> h) in *.
      assert (list_wf h1 src (take j sids ++ x :: drop (S j) sids)
                (take j sels ++ ex :: drop (S j) sels)) as Hswf1.
      { rewrite Hsids, Hsels. eapply list_wf_frame; [exact Hswf|].
        intros y Hy. subst h1. rewrite lookup_insert_ne; [done|]. intros ->.
        by apply (list_wf_footprint_live _ _ _ _ _ Hswf Hy). }
      destruct (list_splice_node h1 c [] [] [] [] src _ x _ _ ex _ realloc_
                  Hwf1 eq_refl Hswf1 Hslen')
        as (h' & Hrun & Hwf' & Hswf' & Hframe & Hlive).
      * intros y [Hy| ->]; [by apply elem_of_nil in Hy|]. rewrite Hsids.
        split.
        -- intros Hy. by apply (list_wf_live _ _ _ _ _ Hswf Hy).
        -- intros ->. by destruct (list_wf_hdr_live _ _ _ _ Hswf).
      * cbn [app length] in Hrun. exists h'. eexists. split; [exact Hrun|].
        cbn. split; [done|]. split; [done|].
        exists x, ex. split; [done|]. split; [done|].
        split; [done|]. split; [done|].
        intros i Hi1 _ Hi2 _ Hi3. rewrite Hframe.
        -- subst h1. rewrite lookup_insert_ne; [done|]. by intros ->.
        -- by intros ->.
        -- done.
        -- by intros ?%elem_of_nil.
        -- by rewrite Hsids.
    + eexists _, _. split; [done|]. cbn. split; [done|]. split; [done|].
      done.
  - destruct Hwf as (_ & Hsize & _). done.
  - rewrite <- (take_drop k ids), <- (take_drop k els) in Hwf.
    assert (length (take k ids) = length (take k els)) as Hlen'.
    { rewrite !length_take. lia. }
    rewrite <- Hsids, <- Hsels in Hswf.
    destruct (list_splice_node h c _ _ _ _ src _ x _ _ ex _ realloc_
                Hwf Hlen' Hswf Hslen')
      as (h' & Hrun & Hwf' & Hswf' & Hframe & Hlive).
    + rewrite take_drop, Hsids. intros y [Hy| ->]; apply Hdisj; auto.
    + rewrite take_drop in Hrun.
      assert (length (take k ids) = k) as Hk' by (rewrite length_take; lia).
      rewrite Hk' in Hrun. exists h'. eexists. split; [exact Hrun|].
      cbn. split; [done|]. split; [done|].
      exists x, ex. split; [done|]. split; [done|].
      split; [done|]. split; [done|].
      intros i Hi1 Hi2 Hi3 Hi4 Hi5. apply Hframe.
      * congruence.
      * done.
      * by rewrite take_drop.
      * by rewrite Hsids.
Qed.

End list_splice_top.

(** ** Lists: the properties *)

Section lists.
Context {E : Type}.
Implicit Types (h : gmap nat (list_obj E)) (cntr : list_block).

(** [cc4_list_insert] before the element at index [k] (before [end] when
    [k] is the size) returns.  It fails only when the allocator does, and
    then leaves the elements as they are.  Otherwise the new element is in
    a fresh node at index [k], between the elements that were before and
    behind that place, and the result points to it; the nodes of the other
    elements, and with them their pointer-iterators, stay as they are; no
    block is allocated but the node and, for a list without header, the
    header; and
    [end] and [r_end] are the same before and after, also when the header
    of the list has only just been allocated.  [cc4_list_push] is the
    insertion before [end]. *)
Theorem list_insert_inserts h cntr ids els k (el : E) el_size realloc_ :
  list_wf h cntr ids els → list_alloc_ok realloc_ → k ≤ length ids →
  ∃ h' result,
    cc4_list_insert h cntr el (list_itr_at ids k) el_size realloc_
    = Some (h', result)
    ∧ (cntr ≠ blk_list_placeholder → l_new_cntr result = cntr)
    ∧ cc4_list_end h' (l_new_cntr result) = cc4_list_end h cntr
    ∧ cc4_list_r_end h' (l_new_cntr result) = cc4_list_r_end h cntr
    ∧ (∀ i, h !! i ≠ None → i ∉ ids → cntr ≠ blk_list_heap i →
            h' !! i = h !! i)
    ∧ (∀ i, h !! i = None → h' !! i ≠ None →
            l_new_cntr result = blk_list_heap i
            ∨ l_other_ptr result = Some (list_itr i))
    ∧ match l_other_ptr result with
      | None =>
          list_wf h' (l_new_cntr result) ids els
          ∧ ∃ h0 size, realloc_ h0 size = None
      | Some p =>
          ∃ n, h !! n = None ∧ p = list_itr n
               ∧ list_wf h' (l_new_cntr result)
                   (take k ids ++ n :: drop k ids)
                   (take k els ++ el :: drop k els)
      end
    ∧ cc4_list_push h cntr el el_size realloc_
      = cc4_list_insert h cntr el (list_itr_at ids (length ids)) el_size
          realloc_.
Proof.
  intros Hwf Halloc Hk.
  destruct (list_insert_spec h cntr ids els k el el_size realloc_ Hwf Halloc Hk)
    as (h' & result & Hrun & Hcntr & _ & Hframe & Hnew & Hres).
  exists h', result. split; [done|]. split; [done|].
  pose proof Hwf as (_ & Hsize & Hr & He & _).
  destruct (list_sentinels _ _ _ Hsize Hr He) as (Hre & Hen & _).
  assert (∃ ids' els', list_wf h' (l_new_cntr result) ids' els')
    as (ids' & els' & Hwf').
  { destruct (l_other_ptr result).
    - destruct Hres as (n & _ & _ & Hwf'). by eexists _, _.
    - destruct Hres as [Hwf' _]. by eexists _, _. }
  destruct Hwf' as (_ & Hsize' & Hr' & He' & _).
  destruct (list_sentinels _ _ _ Hsize' Hr' He') as (Hre' & Hen' & _).
  split; [by rewrite Hen, Hen'|]. split; [by rewrite Hre, Hre'|].
  split; [done|]. split; [done|]. split; [done|].
  unfold cc4_list_push. rewrite Hen. cbn [mbind option_bind].
  unfold list_itr_at. by rewrite lookup_ge_None_2.
Qed.

(** [cc4_list_erase] of the element at index [k]: the element destructor
    is called on the element and then its node is freed; the other
    elements keep their order, their nodes and their pointer-iterators;
    the result points to the element that followed, or is [end]. *)
Theorem list_erase_erases h cntr ids (els : list E) k el_dtor :
  list_wf h cntr ids els → k < length ids →
  ∃ h' x,
    ids !! k = Some x
    ∧ cc4_list_erase h cntr (list_itr_at ids k) el_dtor
      = Some (h', list_itr_at (delete k ids) k,
              list_dtor_call el_dtor (list_itr_at ids k)
              ++ [list_call_free (list_node_ptr x)])
    ∧ list_wf h' cntr (delete k ids) (delete k els)
    ∧ h' !! x = None
    ∧ (∀ i, blk_list_heap i ≠ cntr → i ∉ ids → h' !! i = h !! i).
Proof.
  intros Hwf Hk.
  assert (length ids = length els) as Hlen.
  { destruct Hwf as (_ & _ & _ & _ & _ & Hels). by eapply Forall2_length. }
  destruct (lookup_lt_is_Some_2 ids k Hk) as [x Hx].
  destruct (lookup_lt_is_Some_2 els k) as [ex Hex]; [lia|].
  pose proof (take_drop_middle _ _ _ Hx) as Hids.
  pose proof (take_drop_middle _ _ _ Hex) as Hels.
  rewrite <- Hids, <- Hels in Hwf.
  assert (length (take k ids) = length (take k els)) as Hlen'.
  { rewrite !length_take. lia. }
  destruct (list_erase_spec h cntr _ x _ _ ex _ el_dtor Hwf Hlen')
    as (h' & Hrun & Hwf' & Hgone & Hframe).
  assert (length (take k ids) = k) as Hk' by (rewrite length_take; lia).
  rewrite Hk' in Hrun. rewrite Hids in Hframe.
  exists h', x. split; [done|]. unfold list_itr_at at 1 3. rewrite Hx.
  rewrite !delete_take_drop. by split.
Qed.

(** The loop [cc4_for_each] over a list runs its body once for every
    element, from the first to the last, with a pointer to that element,
    and [cc4_r_for_each] does so from the last to the first; both end after
    as many rounds as [cc4_list_size] says. *)
Theorem list_for_each_visits_every_element h cntr ids (els : list E) fuel :
  list_wf h cntr ids els → length ids < fuel →
  cc4_list_for_each fuel h cntr = Some (list_itr <$> ids)
  ∧ cc4_list_r_for_each fuel h cntr = Some (list_itr <$> reverse ids)
  ∧ Forall2 (λ itr el, list_el_at h itr = Some el) (list_itr <$> ids) els
  ∧ cc4_list_size h cntr = Some (length els).
Proof.
  intros Hwf Hfuel.
  destruct (list_for_each_spec h cntr ids els fuel Hwf Hfuel) as [Hf Hr].
  split; [done|]. split; [done|].
  destruct Hwf as (_ & Hsize & _ & _ & _ & Hels). split.
  - by apply Forall2_fmap_l.
  - rewrite Hsize. f_equal. by eapply Forall2_length.
Qed.

(** [cc4_list_clear] and [cc4_list_cleanup]: for every element, from the
    first to the last, the element destructor is called on it and then its
    node is freed; [cc4_list_clear] leaves the list without elements, with
    its header; [cc4_list_cleanup] then frees the header unless the list is
    the placeholder.  No other block is touched. *)
Theorem list_cleanup_destroys_every_element h cntr ids (els : list E) el_dtor
    fuel :
  list_wf h cntr ids els → length ids < fuel →
  let evs :=
    flat_map (λ i, list_dtor_call el_dtor (list_itr i)
                   ++ [list_call_free (list_node_ptr i)]) ids in
  (∃ h', cc4_list_clear fuel h cntr el_dtor = Some (h', evs)
         ∧ list_wf h' cntr [] []
         ∧ (∀ i, i ∈ ids → h' !! i = None)
         ∧ (∀ i, blk_list_heap i ≠ cntr → i ∉ ids → h' !! i = h !! i))
  ∧ (∃ h', cc4_list_cleanup fuel h cntr el_dtor
           = Some (h', evs ++ match cntr with
                              | blk_list_heap _ => [list_call_free (cntr, 0%Z)]
                              | _ => []
                              end)
           ∧ (∀ i, i ∈ ids ∨ cntr = blk_list_heap i → h' !! i = None)
           ∧ (∀ i, blk_list_heap i ≠ cntr → i ∉ ids → h' !! i = h !! i)).
Proof.
  intros Hwf Hfuel evs. split.
  - by apply (list_clear_spec h cntr ids els).
  - by apply (list_cleanup_spec h cntr ids els).
Qed.

(** [cc4_list_init_clone] returns.  When no allocation fails the clone
    holds the elements of the source, in the same order, in blocks that
    were not live before; a source without elements gives the placeholder;
    the source and every other live block are as before.  When an
    allocation fails the result is [NULL] and everything allocated for the
    clone has been freed, by calls of [free_] only: the heap is as it was
    before the call. *)
Theorem list_init_clone_copies_the_elements h src ids (els : list E) el_size
    realloc_ fuel :
  list_wf h src ids els → list_alloc_ok realloc_ → length ids < fuel →
  ∃ h' r evs,
    cc4_list_init_clone fuel h src el_size realloc_ = Some (h', r, evs)
    ∧ match r with
      | Some clone =>
          evs = []
          ∧ (ids = [] → clone = blk_list_placeholder)
          ∧ ∃ cids,
              list_wf h' clone cids els
              ∧ list_wf h' src ids els
              ∧ (∀ x, h !! x ≠ None → h' !! x = h !! x)
              ∧ (∀ x, x ∈ cids ∨ clone = blk_list_heap x → h !! x = None)
      | None =>
          h' = h
          ∧ (∃ hx size, realloc_ hx size = None)
          ∧ Forall (λ e, ∃ p, e = list_call_free p) evs
      end.
Proof.
  intros Hwf Halloc Hfuel.
  destruct (list_first_last _ _ _ _ Hwf) as [Hfirst _].
  unfold cc4_list_init_clone. rewrite Hfirst. cbn [mbind option_bind].
  destruct (list_init_clone_loop_spec h src ids els el_size realloc_ fuel
              Hwf Halloc Hfuel ids [] h
              (cc4_list_make_allocing_fn_result blk_list_placeholder
                 (Some cc4_list_dummy_true_ptr)) [] fuel)
    as (h' & r & evs & Hrun & Hpost).
  - done.
  - by apply list_wf_placeholder.
  - done.
  - done.
  - intros x [Hx|Hx]; [by apply elem_of_nil in Hx|done].
  - done.
  - cbn [length] in Hrun. exists h', r, evs. split; [done|].
    destruct r as [clone|].
    + destruct Hpost as (-> & cids & Hcl & Hkeep & Hfresh). split; [done|].
      split.
      * intros ->. destruct fuel as [|fuel']; [cbn in Hfuel; lia|].
        cbn [cc4_list_init_clone_loop] in Hrun.
        pose proof Hwf as (_ & Hsize & Hr & He & _).
        destruct (list_sentinels _ _ _ Hsize Hr He) as (_ & Hen & _).
        rewrite Hen in Hrun. cbn [mbind option_bind] in Hrun.
        unfold list_itr_at in Hrun. cbn in Hrun.
        rewrite decide_True in Hrun by done. by simplify_eq.
      * exists cids. split; [done|]. split; [|by split].
        eapply list_wf_frame; [exact Hwf|]. intros x Hx. apply Hkeep.
        by eapply list_wf_footprint_live.
    + destruct Hpost as (Hsame & Hnone & Hevs). split; [|by split].
      by apply map_eq.
Qed.

End lists.

(** ** The further properties at work on examples *)

Lemma ull_el_size_nonneg : (0 <= ull_el_size)%Z.
Proof. unfold ull_el_size. lia. Qed.

Lemma one_entry_map_maps_1 : maps_to one_entry_map 1%Z 10%Z.
Proof. exists 1. eexists. split; [reflexivity|]. cbn. done. Qed.

Lemma six_entry_map_lacks_7 (el : Z) : ¬ maps_to six_entry_map 7%Z el.
Proof.
  intros (i & b & Hb & Hocc & Hk & _).
  do 8 (destruct i as [|i]; [cbn in Hb; simplify_eq; cbn in *; done|]).
  cbn in Hb. done.
Qed.

Lemma three_element_set_reachable :
  reachable cc4_hash_unsigned_long_long cc4_cmpr_unsigned_long_long ull_max_load
    0 ull_set_layout three_element_set.
Proof.
  apply (insert_sequence_reachable _ _ _ _ _
           [(1, tt, true); (2, tt, true); (3, tt, true)]%Z cc4_map_placeholder _
           (Some "el_dtor") None (alloc_at 1)); [constructor|].
  vm_compute. reflexivity.
Qed.

Lemma six_element_set_reachable :
  reachable cc4_hash_unsigned_long_long cc4_cmpr_unsigned_long_long ull_max_load
    0 ull_set_layout six_element_set.
Proof.
  apply (insert_sequence_reachable _ _ _ _ _
           [(1, tt, true); (2, tt, true); (3, tt, true);
            (4, tt, true); (5, tt, true); (6, tt, true)]%Z cc4_map_placeholder _
           (Some "el_dtor") None (alloc_at 1)); [constructor|].
  vm_compute. reflexivity.
Qed.

Lemma grown_map_reachable :
  reachable cc4_hash_unsigned_long_long cc4_cmpr_unsigned_long_long ull_max_load
    ull_el_size ull_layout grown_map.
Proof.
  apply (reach_reserve _ _ _ _ _ one_entry_map 7 (alloc_at 2)
           (cc4_make_allocing_fn_result grown_map (Some cc4_dummy_true_ptr))
           [call_free (blk_heap 1, 0%Z)]); [apply one_entry_map_reachable|].
  vm_compute. reflexivity.
Qed.

Lemma three_element_vec_wf : vec_wf three_element_vec.
Proof. split; cbn; lia. Qed.

Lemma insert_returns_the_bucket_witness :
  ∃ (result : cc4_allocing_fn_result_ty Z Z) (evs : list event),
    cc4_map_insert six_entry_map 33%Z 3%Z true ull_el_size ull_layout
      cc4_hash_unsigned_long_long cc4_cmpr_unsigned_long_long
      ull_max_load (Some "el_dtor") (Some "key_dtor") 
      (alloc_at 2) =
    Some (result, evs)
    ∧ ∀ p : ptr,
        other_ptr result = Some p
        → ∃ (i : nat) (el1 : Z),
            p = cc4_map_el (new_cntr result) i ull_el_size ull_layout
            ∧ holds (new_cntr result) i 3%Z el1
              ∧ cc4_map_get (new_cntr result) 3%Z ull_el_size ull_layout
                  cc4_hash_unsigned_long_long
                  cc4_cmpr_unsigned_long_long =
                Some (Some p)
                ∧ (true = true → el1 = 33%Z)
                  ∧ ((∀ el0 : Z, ¬ maps_to six_entry_map 3%Z el0)
                     → el1 = 33%Z)
                    ∧ (true = false
                       → ∀ el0 : Z,
                           maps_to six_entry_map 3%Z el0 → el1 = el0).
Proof.
  exact (insert_returns_the_bucket cc4_hash_unsigned_long_long
           cc4_cmpr_unsigned_long_long ull_max_load ull_el_size ull_layout
           cc4_cmpr_unsigned_long_long_eq ull_max_load_pos ull_max_load_le_1
           ull_el_size_nonneg six_entry_map 33%Z 3%Z true (Some "el_dtor")
           (Some "key_dtor") (alloc_at 2) six_entry_map_reachable).
Defined.

Lemma insert_without_replace_keeps_the_map_witness :
  ∃ (result : cc4_allocing_fn_result_ty Z Z) (evs : list event),
    cc4_map_insert one_entry_map 11%Z 1%Z false ull_el_size ull_layout
      cc4_hash_unsigned_long_long cc4_cmpr_unsigned_long_long
      ull_max_load (Some "el_dtor") (Some "key_dtor") alloc_fail =
    Some (result, evs)
    ∧ (∀ (f : string) (p : ptr), call_dtor f p ∉ evs)
      ∧ cc4_map_size (new_cntr result) = cc4_map_size one_entry_map
        ∧ (∀ k e : Z,
             maps_to (new_cntr result) k e ↔ maps_to one_entry_map k e)
          ∧ (exceeds_load (cc4_map_size one_entry_map + 1)
               (cc4_map_cap one_entry_map) ull_max_load =
             false → new_cntr result = one_entry_map ∧ evs = []).
Proof.
  exact (insert_without_replace_keeps_the_map cc4_hash_unsigned_long_long
           cc4_cmpr_unsigned_long_long ull_max_load ull_el_size ull_layout
           cc4_cmpr_unsigned_long_long_eq ull_max_load_pos ull_max_load_le_1
           ull_el_size_nonneg one_entry_map 11%Z 1%Z 10%Z (Some "el_dtor")
           (Some "key_dtor") alloc_fail one_entry_map_reachable
           one_entry_map_maps_1).
Defined.

Lemma insert_replace_destroys_the_old_pair_witness :
  ∃ (i : nat) (cntr' : cntr_ty Z Z),
    holds one_entry_map i 1%Z 10%Z
    ∧ cc4_map_insert one_entry_map 11%Z 1%Z true ull_el_size ull_layout
        cc4_hash_unsigned_long_long cc4_cmpr_unsigned_long_long
        ull_max_load (Some "el_dtor") (Some "key_dtor") alloc_fail =
      Some
        ({|
           new_cntr := cntr';
           other_ptr :=
             Some (cc4_map_el one_entry_map i ull_el_size ull_layout)
         |},
         call_if (Some "key_dtor")
           (cc4_map_key one_entry_map i ull_el_size ull_layout) ++
         call_if (Some "el_dtor")
           (cc4_map_el one_entry_map i ull_el_size ull_layout))
      ∧ holds cntr' i 1%Z 11%Z
        ∧ hndl cntr' = hndl one_entry_map
          ∧ cc4_map_cap cntr' = cc4_map_cap one_entry_map
            ∧ cc4_map_size cntr' = cc4_map_size one_entry_map
              ∧ ∀ k e : Z,
                  k ≠ 1%Z
                  → maps_to cntr' k e ↔ maps_to one_entry_map k e.
Proof.
  exact (insert_replace_destroys_the_old_pair cc4_hash_unsigned_long_long
           cc4_cmpr_unsigned_long_long ull_max_load ull_el_size ull_layout
           cc4_cmpr_unsigned_long_long_eq ull_max_load_pos ull_max_load_le_1
           ull_el_size_nonneg one_entry_map 11%Z 1%Z 10%Z (Some "el_dtor")
           (Some "key_dtor") alloc_fail one_entry_map_reachable
           one_entry_map_maps_1 eq_refl).
Defined.

Lemma erase_of_missing_key_changes_nothing_witness :
  cc4_map_erase six_entry_map 7%Z ull_el_size ull_layout
    cc4_hash_unsigned_long_long cc4_cmpr_unsigned_long_long
    (Some "el_dtor") (Some "key_dtor") =
  Some (six_entry_map, None, []).
Proof.
  exact (erase_of_missing_key_changes_nothing cc4_hash_unsigned_long_long
           cc4_cmpr_unsigned_long_long ull_max_load ull_el_size ull_layout
           cc4_cmpr_unsigned_long_long_eq ull_max_load_pos ull_max_load_le_1
           ull_el_size_nonneg six_entry_map 7%Z (Some "el_dtor") (Some
           "key_dtor") six_entry_map_reachable six_entry_map_lacks_7).
Defined.

Lemma erase_destroys_the_erased_pair_witness :
  ∃ (i : nat) (cntr' : cntr_ty Z Z),
    holds six_entry_map i 3%Z 30%Z
    ∧ cc4_map_erase six_entry_map 3%Z ull_el_size ull_layout
        cc4_hash_unsigned_long_long cc4_cmpr_unsigned_long_long
        (Some "el_dtor") (Some "key_dtor") =
      Some
        (cntr', Some cc4_dummy_true_ptr,
         call_if (Some "key_dtor")
           (cc4_map_key six_entry_map i ull_el_size ull_layout) ++
         call_if (Some "el_dtor")
           (cc4_map_el six_entry_map i ull_el_size ull_layout))
      ∧ hndl cntr' = hndl six_entry_map
        ∧ cc4_map_cap cntr' = cc4_map_cap six_entry_map.
Proof.
  exact (erase_destroys_the_erased_pair cc4_hash_unsigned_long_long
           cc4_cmpr_unsigned_long_long ull_max_load ull_el_size ull_layout
           cc4_cmpr_unsigned_long_long_eq ull_max_load_pos ull_max_load_le_1
           ull_el_size_nonneg six_entry_map 3%Z 30%Z (Some "el_dtor") (Some
           "key_dtor") six_entry_map_reachable six_entry_map_maps_3).
Defined.

Lemma erase_itr_of_found_key_is_erase_witness :
  ∃ (cntr' : cntr_ty Z Z) (evs : list event),
    cc4_map_erase_itr six_entry_map (blk_heap 1, 88%Z) ull_el_size
      ull_layout (Some "el_dtor") (Some "key_dtor") =
    Some (cntr', evs)
    ∧ cc4_map_erase six_entry_map 3%Z ull_el_size ull_layout
        cc4_hash_unsigned_long_long cc4_cmpr_unsigned_long_long
        (Some "el_dtor") (Some "key_dtor") =
      Some (cntr', Some cc4_dummy_true_ptr, evs)
      ∧ cc4_map_get cntr' 3%Z ull_el_size ull_layout
          cc4_hash_unsigned_long_long cc4_cmpr_unsigned_long_long =
        Some None.
Proof.
  exact (erase_itr_of_found_key_is_erase cc4_hash_unsigned_long_long
           cc4_cmpr_unsigned_long_long ull_max_load ull_el_size ull_layout
           cc4_cmpr_unsigned_long_long_eq ull_max_load_pos ull_max_load_le_1
           ull_el_size_nonneg six_entry_map 3%Z (blk_heap 1, 88%Z) (Some
           "el_dtor") (Some "key_dtor") six_entry_map_reachable eq_refl).
Defined.


Lemma insert_with_room_keeps_the_block_witness :
  ∃ (result : cc4_allocing_fn_result_ty Z Z) (evs : list event),
    cc4_map_insert one_entry_map 20%Z 2%Z true ull_el_size ull_layout
      cc4_hash_unsigned_long_long cc4_cmpr_unsigned_long_long
      ull_max_load (Some "el_dtor") (Some "key_dtor") alloc_fail =
    Some (result, evs)
    ∧ other_ptr result ≠ None
      ∧ hndl (new_cntr result) = hndl one_entry_map
        ∧ cc4_map_cap (new_cntr result) = cc4_map_cap one_entry_map
          ∧ ∀ p : ptr, call_free p ∉ evs.
Proof.
  exact (insert_with_room_keeps_the_block cc4_hash_unsigned_long_long
           cc4_cmpr_unsigned_long_long ull_max_load ull_el_size ull_layout
           cc4_cmpr_unsigned_long_long_eq ull_max_load_pos ull_max_load_le_1
           ull_el_size_nonneg one_entry_map 6 20%Z 2%Z true (Some "el_dtor")
           (Some "key_dtor") alloc_fail one_entry_map_reachable eq_refl
           ltac:(vm_compute; lia)).
Defined.

Lemma shrink_fits_the_capacity_to_the_size_witness :
  ∃ (result : cc4_allocing_fn_result_ty Z Z) 
    (evs : list event) (c : nat),
    cc4_map_shrink grown_map ull_el_size ull_layout
      cc4_hash_unsigned_long_long ull_max_load 
      (alloc_at 3) =
    Some (result, evs)
    ∧ cc4_map_min_cap_for_n_els (cc4_map_size grown_map) ull_max_load =
      Some c
      ∧ (c = cc4_map_cap grown_map
         → result =
           {|
             new_cntr := grown_map; other_ptr := Some cc4_dummy_true_ptr
           |} ∧ evs = [])
        ∧ (c ≠ cc4_map_cap grown_map
           → cc4_map_size grown_map = 0
             → result =
               {|
                 new_cntr := cc4_map_placeholder;
                 other_ptr := Some cc4_dummy_true_ptr
               |} ∧ evs = free_unless_placeholder grown_map)
          ∧ (c ≠ cc4_map_cap grown_map
             → cc4_map_size grown_map ≠ 0
               → match
                   alloc_at 3 None
                     (sizeof_cc4_map_hdr_ty +
                      CC4_BUCKET_SIZE ull_el_size ull_layout *
                      Z.of_nat c)%Z
                 with
                 | Some id =>
                     other_ptr result = Some cc4_dummy_true_ptr
                     ∧ hndl (new_cntr result) = blk_heap id
                       ∧ cc4_map_cap (new_cntr result) = c
                         ∧ evs = free_unless_placeholder grown_map
                 | None =>
                     result =
                     {| new_cntr := grown_map; other_ptr := None |}
                     ∧ evs = []
                 end)
            ∧ (∀ (f : string) (p : ptr), call_dtor f p ∉ evs)
              ∧ cc4_map_size (new_cntr result) = cc4_map_size grown_map
                ∧ (∀ k e : Z,
                     maps_to (new_cntr result) k e
                     ↔ maps_to grown_map k e)
                  ∧ (other_ptr result = None
                     → new_cntr result = grown_map ∧ evs = [])
                    ∧ (other_ptr result ≠ None
                       → cc4_map_min_cap_for_n_els
                           (cc4_map_size grown_map) ull_max_load =
                         Some (cc4_map_cap (new_cntr result)))
                      ∧ (cc4_map_size grown_map = 0
                         → other_ptr result ≠ None
                           ∧ cc4_map_cap (new_cntr result) = 0
                             ∧ evs = free_unless_placeholder grown_map).
Proof.
  exact (shrink_fits_the_capacity_to_the_size cc4_hash_unsigned_long_long
           cc4_cmpr_unsigned_long_long ull_max_load ull_el_size ull_layout
           cc4_cmpr_unsigned_long_long_eq ull_max_load_pos ull_max_load_le_1
           ull_el_size_nonneg grown_map (alloc_at 3) grown_map_reachable).
Defined.

Lemma clear_destroys_every_pair_witness :
  ∃ cntr' : cntr_ty Z Z,
    cc4_map_clear six_entry_map ull_el_size ull_layout 
      (Some "el_dtor") (Some "key_dtor") =
    (cntr',
     flat_map
       (λ i : nat,
          call_if (Some "key_dtor")
            (cc4_map_key six_entry_map i ull_el_size ull_layout) ++
          call_if (Some "el_dtor")
            (cc4_map_el six_entry_map i ull_el_size ull_layout))
       (occupied 0 (bkts six_entry_map)))
    ∧ length (occupied 0 (bkts six_entry_map)) =
      cc4_map_size six_entry_map
      ∧ cc4_map_size cntr' = 0
        ∧ cc4_map_cap cntr' = cc4_map_cap six_entry_map
          ∧ hndl cntr' = hndl six_entry_map
            ∧ (∀ key el : Z, ¬ maps_to cntr' key el)
              ∧ ∀ key : Z,
                  cc4_map_get cntr' key ull_el_size ull_layout
                    cc4_hash_unsigned_long_long
                    cc4_cmpr_unsigned_long_long =
                  Some None.
Proof.
  exact (clear_destroys_every_pair cc4_hash_unsigned_long_long
           cc4_cmpr_unsigned_long_long ull_max_load ull_el_size ull_layout
           cc4_cmpr_unsigned_long_long_eq ull_max_load_pos ull_max_load_le_1
           ull_el_size_nonneg six_entry_map (Some "el_dtor") (Some
           "key_dtor") six_entry_map_reachable).
Defined.

Lemma reachable_map_invariant_witness :
  length (bkts six_entry_map) = cc4_map_cap six_entry_map
  ∧ (cc4_map_cap six_entry_map = 0
     ∨ pow2 (cc4_map_cap six_entry_map) ∧ 8 ≤ cc4_map_cap six_entry_map)
    ∧ cc4_map_size six_entry_map =
      length (occupied 0 (bkts six_entry_map))
      ∧ cc4_map_size six_entry_map ≤ cc4_map_cap six_entry_map
        ∧ exceeds_load (cc4_map_size six_entry_map)
            (cc4_map_cap six_entry_map) ull_max_load =
          false
          ∧ ∀ (i j : nat) (key el1 el2 : Z),
              holds six_entry_map i key el1
              → holds six_entry_map j key el2 → i = j.
Proof.
  exact (reachable_map_invariant cc4_hash_unsigned_long_long
           cc4_cmpr_unsigned_long_long ull_max_load ull_el_size ull_layout
           cc4_cmpr_unsigned_long_long_eq ull_max_load_pos ull_max_load_le_1
           ull_el_size_nonneg six_entry_map six_entry_map_reachable).
Defined.

Lemma for_each_visits_every_entry_witness :
  cc4_map_for_each 7 six_entry_map ull_el_size ull_layout =
  Some
    ((λ i : nat, cc4_map_el six_entry_map i ull_el_size ull_layout) <$>
     occupied 0 (bkts six_entry_map))
  ∧ length (occupied 0 (bkts six_entry_map)) =
    cc4_map_size six_entry_map
    ∧ ∀ i : nat,
        i ∈ occupied 0 (bkts six_entry_map)
        ↔ ∃ key el : Z, holds six_entry_map i key el.
Proof.
  exact (for_each_visits_every_entry cc4_hash_unsigned_long_long
           cc4_cmpr_unsigned_long_long ull_max_load ull_el_size ull_layout
           cc4_cmpr_unsigned_long_long_eq ull_max_load_pos ull_max_load_le_1
           ull_el_size_nonneg six_entry_map 7 six_entry_map_reachable
           ltac:(vm_compute; discriminate) ltac:(vm_compute; lia)).
Defined.

Lemma r_for_each_visits_every_entry_witness :
  cc4_map_r_for_each 7 six_entry_map ull_el_size ull_layout =
  Some
    ((λ i : nat, cc4_map_el six_entry_map i ull_el_size ull_layout) <$>
     reverse (occupied 0 (bkts six_entry_map)))
  ∧ length (occupied 0 (bkts six_entry_map)) =
    cc4_map_size six_entry_map.
Proof.
  exact (r_for_each_visits_every_entry cc4_hash_unsigned_long_long
           cc4_cmpr_unsigned_long_long ull_max_load ull_el_size ull_layout
           cc4_cmpr_unsigned_long_long_eq ull_max_load_pos ull_max_load_le_1
           ull_el_size_nonneg six_entry_map 7 six_entry_map_reachable
           ltac:(vm_compute; lia)).
Defined.

Lemma set_insert_makes_a_member_witness :
  ∃ (result : cc4_allocing_fn_result_ty Z ()) (evs : list event),
    cc4_set_insert six_element_set 7%Z false ull_set_layout
      cc4_hash_unsigned_long_long cc4_cmpr_unsigned_long_long
      ull_max_load (Some "el_dtor") (alloc_at 2) =
    Some (result, evs)
    ∧ (exceeds_load (cc4_set_size six_element_set + 1)
         (cc4_set_cap six_element_set) ull_max_load =
       false → other_ptr result ≠ None)
      ∧ (exceeds_load (cc4_set_size six_element_set + 1)
           (cc4_set_cap six_element_set) ull_max_load =
         true
         → ∃ c : nat,
             cc4_map_min_cap_for_n_els
               (cc4_set_size six_element_set + 1) ull_max_load =
             Some c
             ∧ match
                 alloc_at 2 None
                   (sizeof_cc4_map_hdr_ty +
                    CC4_BUCKET_SIZE 0 ull_set_layout * Z.of_nat c)%Z
               with
               | Some id =>
                   other_ptr result ≠ None
                   ∧ hndl (new_cntr result) = blk_heap id
                     ∧ cc4_set_cap (new_cntr result) = c
               | None =>
                   result =
                   {| new_cntr := six_element_set; other_ptr := None |}
                   ∧ evs = []
               end)
        ∧ (other_ptr result = None
           → new_cntr result = six_element_set
             ∧ evs = []
               ∧ exceeds_load (cc4_set_size six_element_set + 1)
                   (cc4_set_cap six_element_set) ull_max_load =
                 true
                 ∧ ∃ c : nat,
                     cc4_map_min_cap_for_n_els
                       (cc4_set_size six_element_set + 1) ull_max_load =
                     Some c
                     ∧ alloc_at 2 None
                         (sizeof_cc4_map_hdr_ty +
                          CC4_BUCKET_SIZE 0 ull_set_layout * Z.of_nat c)%Z =
                       None)
          ∧ ∀ p : ptr,
              other_ptr result = Some p
              → cc4_set_get (new_cntr result) 7%Z 8 ull_set_layout
                  cc4_hash_unsigned_long_long
                  cc4_cmpr_unsigned_long_long =
                Some (Some p)
                ∧ (∀ k : Z,
                     k ≠ 7%Z
                     → maps_to (new_cntr result) k ()
                       ↔ maps_to six_element_set k ())
                  ∧ (maps_to six_element_set 7%Z ()
                     → cc4_set_size (new_cntr result) =
                       cc4_set_size six_element_set)
                    ∧ (¬ maps_to six_element_set 7%Z ()
                       → cc4_set_size (new_cntr result) =
                         S (cc4_set_size six_element_set))
                      ∧ (¬ maps_to six_element_set 7%Z ()
                         ∨ false = false
                         → ∀ (f : string) (q : ptr), call_dtor f q ∉ evs).
Proof.
  exact (set_insert_makes_a_member cc4_hash_unsigned_long_long
           cc4_cmpr_unsigned_long_long ull_max_load ull_set_layout
           cc4_cmpr_unsigned_long_long_eq ull_max_load_pos ull_max_load_le_1
           six_element_set 7%Z false 8%Z (Some "el_dtor") (alloc_at 2)
           six_element_set_reachable).
Defined.

Lemma set_for_each_visits_every_element_witness :
  cc4_set_for_each 4 three_element_set 8 ull_set_layout =
  Some
    ((λ i : nat, cc4_map_el three_element_set i 0 ull_set_layout) <$>
     occupied 0 (bkts three_element_set))
  ∧ length (occupied 0 (bkts three_element_set)) =
    cc4_set_size three_element_set
    ∧ (cc4_set_size three_element_set = 0
       → cc4_set_first three_element_set 8 ull_set_layout =
         cc4_set_end three_element_set 8 ull_set_layout).
Proof.
  exact (set_for_each_visits_every_element cc4_hash_unsigned_long_long
           cc4_cmpr_unsigned_long_long ull_max_load ull_set_layout
           cc4_cmpr_unsigned_long_long_eq ull_max_load_pos ull_max_load_le_1
           three_element_set 8%Z 4 three_element_set_reachable
           ltac:(vm_compute; lia)).
Defined.

Lemma set_cleanup_destroys_every_element_witness :
  (cc4_set_clear three_element_set 8 (cc4_layout_set 8 (2 ^ 3))
     (Some "el_dtor") None).2 =
  flat_map
    (λ i : nat,
       call_if (Some "el_dtor")
         (cc4_map_el three_element_set i 0 (cc4_layout_set 8 (2 ^ 3))))
    (occupied 0 (bkts three_element_set))
  ∧ cc4_set_cleanup three_element_set 8 (cc4_layout_set 8 (2 ^ 3))
      (Some "el_dtor") None =
    flat_map
      (λ i : nat,
         call_if (Some "el_dtor")
           (cc4_map_el three_element_set i 0 (cc4_layout_set 8 (2 ^ 3))))
      (occupied 0 (bkts three_element_set)) ++
    free_unless_placeholder three_element_set
    ∧ length (occupied 0 (bkts three_element_set)) =
      cc4_set_size three_element_set.
Proof.
  exact (set_cleanup_destroys_every_element cc4_hash_unsigned_long_long
           cc4_cmpr_unsigned_long_long ull_max_load 8%Z 3%Z three_element_set
           (Some "el_dtor") None cc4_cmpr_unsigned_long_long_eq
           ull_max_load_pos ull_max_load_le_1 ltac:(lia) ltac:(lia)
           three_element_set_reachable).
Defined.

Lemma vec_insert_n_inserts_witness :
  ∃ result : cc4_vec_allocing_fn_result_ty Z,
    cc4_vec_insert_n three_element_vec 1 [15%Z; 16%Z] 8 (vec_alloc_at 2) =
    Some result
    ∧ (cc4_vec_size three_element_vec + length [15%Z; 16%Z]
       ≤ cc4_vec_cap three_element_vec → v_other_ptr result ≠ None)
      ∧ match v_other_ptr result with
        | Some p =>
            p = cc4_vec_get (v_new_cntr result) 1 8
            ∧ vec_wf (v_new_cntr result)
              ∧ vec_els (v_new_cntr result) =
                take 1 (vec_els three_element_vec) ++
                [15%Z; 16%Z] ++ drop 1 (vec_els three_element_vec)
                ∧ cc4_vec_size (v_new_cntr result) =
                  cc4_vec_size three_element_vec + length [15%Z; 16%Z]
                  ∧ (cc4_vec_size three_element_vec +
                     length [15%Z; 16%Z] ≤ cc4_vec_cap three_element_vec
                     → v_hndl (v_new_cntr result) =
                       v_hndl three_element_vec
                       ∧ cc4_vec_cap (v_new_cntr result) =
                         cc4_vec_cap three_element_vec)
                    ∧ (cc4_vec_cap three_element_vec <
                       cc4_vec_size three_element_vec +
                       length [15%Z; 16%Z]
                       → ∃ cap' id : nat,
                           doubled_until
                             (if cc4_vec_cap three_element_vec =? 0
                              then 2
                              else cc4_vec_cap three_element_vec)
                             (cc4_vec_size three_element_vec +
                              length [15%Z; 16%Z])
                             cap'
                           ∧ vec_alloc_at 2
                               (if cc4_vec_cap three_element_vec =? 0
                                then None
                                else
                                 Some (v_hndl three_element_vec, 0%Z))
                               (sizeof_cc4_vec_hdr_ty +
                                8 * Z.of_nat cap')%Z =
                             Some id
                             ∧ v_hndl (v_new_cntr result) =
                               blk_vec_heap id
                               ∧ cc4_vec_cap (v_new_cntr result) = cap')
        | None =>
            v_new_cntr result = three_element_vec
            ∧ cc4_vec_cap three_element_vec <
              cc4_vec_size three_element_vec + length [15%Z; 16%Z]
              ∧ ∃ cap' : nat,
                  doubled_until
                    (if cc4_vec_cap three_element_vec =? 0
                     then 2
                     else cc4_vec_cap three_element_vec)
                    (cc4_vec_size three_element_vec +
                     length [15%Z; 16%Z])
                    cap'
                  ∧ vec_alloc_at 2
                      (if cc4_vec_cap three_element_vec =? 0
                       then None
                       else Some (v_hndl three_element_vec, 0%Z))
                      (sizeof_cc4_vec_hdr_ty + 8 * Z.of_nat cap')%Z =
                    None
        end.
Proof.
  exact (vec_insert_n_inserts three_element_vec 1 [15; 16]%Z 8%Z
           (vec_alloc_at 2) three_element_vec_wf ltac:(vm_compute; lia)
           ltac:(discriminate)).
Defined.

Lemma vec_insert_n_doubles_the_capacity_witness :
  ∃ (cap' : nat) (result : cc4_vec_allocing_fn_result_ty Z),
    doubled_until
      (if cc4_vec_cap three_element_vec =? 0
       then 2
       else cc4_vec_cap three_element_vec)
      (cc4_vec_size three_element_vec + length [15%Z; 16%Z]) cap'
    ∧ cap' ≤ 2 * (cc4_vec_size three_element_vec + length [15%Z; 16%Z])
      ∧ cc4_vec_insert_n three_element_vec 1 [
          15%Z; 16%Z] 8 (vec_alloc_at 2) =
        Some result
        ∧ match
            vec_alloc_at 2
              (if cc4_vec_cap three_element_vec =? 0
               then None
               else Some (v_hndl three_element_vec, 0%Z))
              (sizeof_cc4_vec_hdr_ty + 8 * Z.of_nat cap')%Z
          with
          | Some id =>
              v_other_ptr result =
              Some
                (blk_vec_heap id,
                 (sizeof_cc4_vec_hdr_ty + 8 * Z.of_nat 1)%Z)
              ∧ v_hndl (v_new_cntr result) = blk_vec_heap id
                ∧ cc4_vec_cap (v_new_cntr result) = cap'
                  ∧ cc4_vec_size (v_new_cntr result) =
                    cc4_vec_size three_element_vec + length [15%Z; 16%Z]
                    ∧ vec_els (v_new_cntr result) =
                      take 1 (vec_els three_element_vec) ++
                      [15%Z; 16%Z] ++ drop 1 (vec_els three_element_vec)
          | None =>
              result =
              {| v_new_cntr := three_element_vec; v_other_ptr := None |}
          end.
Proof.
  exact (vec_insert_n_doubles_the_capacity three_element_vec 1 [15; 16]%Z 8%Z
           (vec_alloc_at 2) three_element_vec_wf ltac:(vm_compute; lia)
           ltac:(vm_compute; lia)).
Defined.

Lemma vec_erase_n_erases_witness :
  ∃ cntr' : vec_ty Z,
    cc4_vec_erase_n three_element_vec 1 1 8 (Some "el_dtor") =
    Some
      (cntr', cc4_vec_get three_element_vec 1 8,
       (λ j : nat,
          vec_call_dtor "el_dtor"
            (cc4_vec_get three_element_vec (1 + j) 8)) <$>
       seq 0 1)
    ∧ vec_wf cntr'
      ∧ vec_els cntr' =
        take 1 (vec_els three_element_vec) ++
        drop (1 + 1) (vec_els three_element_vec)
        ∧ cc4_vec_size cntr' = cc4_vec_size three_element_vec - 1
          ∧ v_hndl cntr' = v_hndl three_element_vec
            ∧ cc4_vec_cap cntr' = cc4_vec_cap three_element_vec.
Proof.
  exact (vec_erase_n_erases three_element_vec 1 1 8%Z (Some "el_dtor")
           three_element_vec_wf ltac:(vm_compute; lia)).
Defined.

Lemma vec_resize_sets_the_size_witness :
  ∃ (result : cc4_vec_allocing_fn_result_ty Z) (evs : list vec_event),
    cc4_vec_resize three_element_vec 6 8 (Some "el_dtor")
      (vec_alloc_at 2) =
    Some (result, evs)
    ∧ (6 ≤ cc4_vec_cap three_element_vec → v_other_ptr result ≠ None)
      ∧ (cc4_vec_cap three_element_vec < 6
         → evs = []
           ∧ match
               vec_alloc_at 2
                 (if cc4_vec_cap three_element_vec =? 0
                  then None
                  else Some (v_hndl three_element_vec, 0%Z))
                 (sizeof_cc4_vec_hdr_ty + 8 * Z.of_nat 6)%Z
             with
             | Some id =>
                 v_other_ptr result ≠ None
                 ∧ v_hndl (v_new_cntr result) = blk_vec_heap id
                   ∧ cc4_vec_cap (v_new_cntr result) = 6
             | None =>
                 result =
                 {|
                   v_new_cntr := three_element_vec; v_other_ptr := None
                 |}
             end)
        ∧ match v_other_ptr result with
          | Some _ =>
              vec_wf (v_new_cntr result)
              ∧ cc4_vec_size (v_new_cntr result) = 6
                ∧ take (6 `min` cc4_vec_size three_element_vec)
                    (vec_els (v_new_cntr result)) =
                  take (6 `min` cc4_vec_size three_element_vec)
                    (vec_els three_element_vec)
                  ∧ (6 ≤ cc4_vec_cap three_element_vec
                     → v_hndl (v_new_cntr result) =
                       v_hndl three_element_vec
                       ∧ cc4_vec_cap (v_new_cntr result) =
                         cc4_vec_cap three_element_vec)
                    ∧ evs =
                      (λ j : nat,
                         vec_call_dtor "el_dtor"
                           (cc4_vec_get three_element_vec (6 + j) 8)) <$>
                      seq 0 (cc4_vec_size three_element_vec - 6)
          | None =>
              v_new_cntr result = three_element_vec
              ∧ evs = [] ∧ cc4_vec_cap three_element_vec < 6
          end.
Proof.
  exact (vec_resize_sets_the_size three_element_vec 6 8%Z (Some "el_dtor")
           (vec_alloc_at 2) three_element_vec_wf ltac:(lia) ltac:(vm_compute;
           reflexivity)).
Defined.

Lemma vec_shrink_fits_the_capacity_witness :
  ∃ (result : cc4_vec_allocing_fn_result_ty Z) (evs : list vec_event),
    cc4_vec_shrink three_element_vec 8 (vec_alloc_at 2) = (result, evs)
    ∧ (cc4_vec_size three_element_vec = cc4_vec_cap three_element_vec
       → result =
         {|
           v_new_cntr := three_element_vec;
           v_other_ptr := Some cc4_vec_dummy_true_ptr
         |} ∧ evs = [])
      ∧ (cc4_vec_size three_element_vec = 0
         → cc4_vec_cap three_element_vec ≠ 0
           → result =
             {|
               v_new_cntr := cc4_vec_placeholder;
               v_other_ptr := Some cc4_vec_dummy_true_ptr
             |} ∧ evs = [vec_call_free (v_hndl three_element_vec, 0%Z)])
        ∧ (cc4_vec_size three_element_vec
           ≠ cc4_vec_cap three_element_vec
           → cc4_vec_size three_element_vec ≠ 0
             → evs = []
               ∧ match
                   vec_alloc_at 2 (Some (v_hndl three_element_vec, 0%Z))
                     (sizeof_cc4_vec_hdr_ty +
                      8 * Z.of_nat (cc4_vec_size three_element_vec))%Z
                 with
                 | Some id =>
                     v_other_ptr result = Some cc4_vec_dummy_true_ptr
                     ∧ v_hndl (v_new_cntr result) = blk_vec_heap id
                 | None =>
                     result =
                     {|
                       v_new_cntr := three_element_vec;
                       v_other_ptr := None
                     |}
                 end)
          ∧ (v_other_ptr result = None
             → v_new_cntr result = three_element_vec ∧ evs = [])
            ∧ (v_other_ptr result ≠ None
               → vec_wf (v_new_cntr result)
                 ∧ vec_els (v_new_cntr result) =
                   vec_els three_element_vec
                   ∧ cc4_vec_size (v_new_cntr result) =
                     cc4_vec_size three_element_vec
                     ∧ cc4_vec_cap (v_new_cntr result) =
                       cc4_vec_size three_element_vec).
Proof.
  exact (vec_shrink_fits_the_capacity three_element_vec 8%Z (vec_alloc_at 2)
           three_element_vec_wf).
Defined.

Lemma vec_init_clone_copies_the_elements_witness :
  ∃ r : option (vec_ty Z),
    cc4_vec_init_clone three_element_vec 8 (vec_alloc_at 2) = Some r
    ∧ match r with
      | Some clone =>
          vec_wf clone
          ∧ vec_els clone = vec_els three_element_vec
            ∧ cc4_vec_size clone = cc4_vec_size three_element_vec
              ∧ cc4_vec_cap clone = cc4_vec_size three_element_vec
                ∧ (cc4_vec_size three_element_vec = 0
                   → clone = cc4_vec_placeholder)
                  ∧ (cc4_vec_size three_element_vec ≠ 0
                     → ∃ id : nat,
                         vec_alloc_at 2 None
                           (sizeof_cc4_vec_hdr_ty +
                            8 *
                            Z.of_nat (cc4_vec_size three_element_vec))%Z =
                         Some id ∧ v_hndl clone = blk_vec_heap id)
      | None =>
          cc4_vec_size three_element_vec ≠ 0
          ∧ vec_alloc_at 2 None
              (sizeof_cc4_vec_hdr_ty +
               8 * Z.of_nat (cc4_vec_size three_element_vec))%Z =
            None
      end.
Proof.
  exact (vec_init_clone_copies_the_elements three_element_vec 8%Z
           (vec_alloc_at 2) three_element_vec_wf).
Defined.

Lemma vec_cleanup_destroys_every_element_witness :
  let dtors :=
    (λ j : nat,
       vec_call_dtor "el_dtor" (cc4_vec_get three_element_vec j 8)) <$>
    seq 0 (cc4_vec_size three_element_vec) in
  (∃ cntr' : vec_ty Z,
     cc4_vec_clear three_element_vec 8 (Some "el_dtor") =
     Some (cntr', dtors)
     ∧ vec_wf cntr'
       ∧ vec_els cntr' = []
         ∧ cc4_vec_size cntr' = 0
           ∧ v_hndl cntr' = v_hndl three_element_vec
             ∧ cc4_vec_cap cntr' = cc4_vec_cap three_element_vec)
  ∧ cc4_vec_cleanup three_element_vec 8 (Some "el_dtor") =
    Some
      (dtors ++
       (if cc4_vec_cap three_element_vec =? 0
        then []
        else [vec_call_free (v_hndl three_element_vec, 0%Z)])).
Proof.
  exact (vec_cleanup_destroys_every_element three_element_vec 8%Z (Some
           "el_dtor") three_element_vec_wf).
Defined.

Lemma vec_for_each_visits_every_element_witness :
  cc4_vec_for_each 4 three_element_vec 8 =
  Some
    ((λ i : nat, cc4_vec_get three_element_vec i 8) <$>
     seq 0 (cc4_vec_size three_element_vec)).
Proof.
  exact (vec_for_each_visits_every_element three_element_vec 8%Z 4 ltac:(lia)
           ltac:(vm_compute; lia)).
Defined.

Lemma cc4_layout_map_places_the_fields_witness :
  let layout := cc4_layout_map 8 (2 ^ 3) 8 (2 ^ 3) in
  CC4_KEY_SIZE layout = 8%Z
  ∧ (8 <= CC4_KEY_OFFSET 8 layout < 8 + 2 ^ 3)%Z
    ∧ (CC4_KEY_OFFSET 8 layout mod 2 ^ 3)%Z = 0%Z
      ∧ (CC4_KEY_OFFSET 8 layout + 8 <= CC4_PROBELEN_OFFSET 8 layout <
         CC4_KEY_OFFSET 8 layout + 8 + 4)%Z
        ∧ (CC4_PROBELEN_OFFSET 8 layout mod 4)%Z = 0%Z
          ∧ (CC4_PROBELEN_OFFSET 8 layout + 4 <=
             CC4_BUCKET_SIZE 8 layout <
             CC4_PROBELEN_OFFSET 8 layout + 4 +
             2 ^ (3 `max` (3 `max` 2)))%Z
            ∧ (CC4_BUCKET_SIZE 8 layout mod 2 ^ 3)%Z = 0%Z
              ∧ (CC4_BUCKET_SIZE 8 layout mod 2 ^ 3)%Z = 0%Z
                ∧ (CC4_BUCKET_SIZE 8 layout mod 4)%Z = 0%Z.
Proof.
  exact (cc4_layout_map_places_the_fields 8%Z 8%Z 3%Z 3%Z ltac:(lia)
           ltac:(lia) ltac:(lia) ltac:(lia)).
Defined.

Lemma cc4_layout_set_places_the_fields_witness :
  let layout := cc4_layout_set 8 (2 ^ 3) in
  CC4_KEY_SIZE layout = 8%Z
  ∧ CC4_KEY_OFFSET 0 layout = 0%Z
    ∧ (8 <= CC4_PROBELEN_OFFSET 0 layout < 8 + 4)%Z
      ∧ (CC4_PROBELEN_OFFSET 0 layout mod 4)%Z = 0%Z
        ∧ (CC4_PROBELEN_OFFSET 0 layout + 4 <=
           CC4_BUCKET_SIZE 0 layout <
           CC4_PROBELEN_OFFSET 0 layout + 4 + 2 ^ (3 `max` 2))%Z
          ∧ (CC4_BUCKET_SIZE 0 layout mod 2 ^ 3)%Z = 0%Z
            ∧ (CC4_BUCKET_SIZE 0 layout mod 4)%Z = 0%Z.
Proof.
  exact (cc4_layout_set_places_the_fields 8%Z 3%Z ltac:(lia) ltac:(lia)).
Defined.

Lemma integer_hashes_are_injective_witness :
  cc4_hash_unsigned_long_long 5 ≠ cc4_hash_unsigned_long_long 6
  ∧ cc4_hash_long_long (-5) ≠ cc4_hash_long_long 5.
Proof.
  split; intros Heq.
  - apply (proj1 (integer_hashes_are_injective 5 6)) in Heq; lia.
  - apply (proj2 (integer_hashes_are_injective (-5) 5)) in Heq; lia.
Defined.

Lemma three_element_list_wf :
  list_wf three_element_list (blk_list_heap 0) [1; 2; 3] [10; 20; 30]%Z.
Proof.
  split; [|split; [|split; [|split; [|split]]]].
  - apply NoDup_ListNoDup. repeat constructor; cbn; lia.
  - by vm_compute.
  - by vm_compute.
  - by vm_compute.
  - unfold list_chain. cbn. repeat constructor; by vm_compute.
  - repeat constructor; by vm_compute.
Qed.

Lemma list_alloc_fresh_ok {E} : list_alloc_ok (@list_alloc_fresh E).
Proof.
  intros h size id Hid. unfold list_alloc_fresh in Hid. simplify_eq.
  apply not_elem_of_dom. apply is_fresh.
Qed.

Lemma two_lists_wf :
  list_wf two_lists (blk_list_heap 0) [1; 2; 3] [10; 20; 30]%Z
  ∧ list_wf two_lists (blk_list_heap 4) [5; 6] [50; 60]%Z.
Proof.
  split.
  - split; [|split; [|split; [|split; [|split]]]].
    + apply NoDup_ListNoDup. repeat constructor; cbn; lia.
    + by vm_compute.
    + by vm_compute.
    + by vm_compute.
    + unfold list_chain. cbn. repeat constructor; by vm_compute.
    + repeat constructor; by vm_compute.
  - split; [|split; [|split; [|split; [|split]]]].
    + apply NoDup_ListNoDup. repeat constructor; cbn; lia.
    + by vm_compute.
    + by vm_compute.
    + by vm_compute.
    + unfold list_chain. cbn. repeat constructor; by vm_compute.
    + repeat constructor; by vm_compute.
Qed.

Lemma two_lists_apart (y : nat) :
  y ∈ [1; 2; 3] ∨ blk_list_heap 0 = blk_list_heap y →
  (y ∉ [5; 6]) ∧ blk_list_heap 4 ≠ blk_list_heap y.
Proof.
  intros Hy. assert (y = 1 ∨ y = 2 ∨ y = 3 ∨ y = 0) as Hy'.
  { destruct Hy as [Hy|Hy]; [|simplify_eq; auto].
    rewrite !elem_of_cons, elem_of_nil in Hy. tauto. }
  split.
  - rewrite !elem_of_cons, elem_of_nil. lia.
  - intros Heq. simplify_eq. lia.
Qed.

Lemma list_insert_inserts_witness :
  ∃ (h' : gmap nat (list_obj Z)) (result : cc4_list_allocing_fn_result_ty),
    cc4_list_insert three_element_list (blk_list_heap 0) 15%Z
      (list_itr_at [1; 2; 3] 1) 8 list_alloc_fresh =
    Some (h', result)
    ∧ (blk_list_heap 0 ≠ blk_list_placeholder
       → l_new_cntr result = blk_list_heap 0)
      ∧ cc4_list_end h' (l_new_cntr result) =
        cc4_list_end three_element_list (blk_list_heap 0)
        ∧ cc4_list_r_end h' (l_new_cntr result) =
          cc4_list_r_end three_element_list (blk_list_heap 0)
          ∧ (∀ i : nat,
               three_element_list !! i ≠ None
               → i ∉ [1; 2; 3]
                 → blk_list_heap 0 ≠ blk_list_heap i
                   → h' !! i = three_element_list !! i)
            ∧ (∀ i : nat,
                 three_element_list !! i = None
                 → h' !! i ≠ None
                   → l_new_cntr result = blk_list_heap i
                     ∨ l_other_ptr result = Some (list_itr i))
              ∧ match l_other_ptr result with
                | Some p =>
                    ∃ n : nat,
                      three_element_list !! n = None
                      ∧ p = list_itr n
                        ∧ list_wf h' (l_new_cntr result)
                            (take 1 [1; 2; 3] ++ n :: drop 1 [1; 2; 3])
                            (take 1 [10%Z; 20%Z; 30%Z] ++
                             15%Z :: drop 1 [10%Z; 20%Z; 30%Z])
                | None =>
                    list_wf h' (l_new_cntr result) [
                      1; 2; 3] [10%Z; 20%Z; 30%Z]
                    ∧ ∃ (h0 : gmap nat (list_obj Z)) (size : Z),
                        list_alloc_fresh h0 size = None
                end
                ∧ cc4_list_push three_element_list 
                    (blk_list_heap 0) 15%Z 8 list_alloc_fresh =
                  cc4_list_insert three_element_list 
                    (blk_list_heap 0) 15%Z
                    (list_itr_at [1; 2; 3] (length [1; 2; 3])) 8
                    list_alloc_fresh.
Proof.
  exact (list_insert_inserts three_element_list (blk_list_heap 0) [1; 2; 3]
           [10; 20; 30]%Z 1 15%Z 8%Z list_alloc_fresh three_element_list_wf
           list_alloc_fresh_ok ltac:(cbn; lia)).
Defined.

Lemma list_erase_erases_witness :
  ∃ (h' : gmap nat (list_obj Z)) (x : nat),
    [1; 2; 3] !! 1 = Some x
    ∧ cc4_list_erase three_element_list (blk_list_heap 0)
        (list_itr_at [1; 2; 3] 1) (Some "el_dtor") =
      Some
        (h', list_itr_at (delete 1 [1; 2; 3]) 1,
         list_dtor_call (Some "el_dtor") (list_itr_at [1; 2; 3] 1) ++
         [list_call_free (list_node_ptr x)])
      ∧ list_wf h' (blk_list_heap 0) (delete 1 [1; 2; 3])
          (delete 1 [10%Z; 20%Z; 30%Z])
        ∧ h' !! x = None
          ∧ ∀ i : nat,
              blk_list_heap i ≠ blk_list_heap 0
              → i ∉ [1; 2; 3] → h' !! i = three_element_list !! i.
Proof.
  exact (list_erase_erases three_element_list (blk_list_heap 0) [1; 2; 3]
           [10; 20; 30]%Z 1 (Some "el_dtor") three_element_list_wf ltac:(cbn;
           lia)).
Defined.

Lemma list_for_each_visits_every_element_witness :
  cc4_list_for_each 4 three_element_list (blk_list_heap 0) =
  Some (list_itr <$> [1; 2; 3])
  ∧ cc4_list_r_for_each 4 three_element_list (blk_list_heap 0) =
    Some (list_itr <$> reverse [1; 2; 3])
    ∧ Forall2
        (λ (itr : list_ptr) (el : Z),
           list_el_at three_element_list itr = Some el)
        (list_itr <$> [1; 2; 3]) [10%Z; 20%Z; 30%Z]
      ∧ cc4_list_size three_element_list (blk_list_heap 0) =
        Some (length [10%Z; 20%Z; 30%Z]).
Proof.
  exact (list_for_each_visits_every_element three_element_list (blk_list_heap
           0) [1; 2; 3] [10; 20; 30]%Z 4 three_element_list_wf ltac:(cbn;
           lia)).
Defined.

Lemma list_cleanup_destroys_every_element_witness :
  let evs :=
    flat_map
      (λ i : nat,
         list_dtor_call (Some "el_dtor") (list_itr i) ++
         [list_call_free (list_node_ptr i)])
      [1; 2; 3]
    in
  (∃ h' : gmap nat (list_obj Z),
     cc4_list_clear 4 three_element_list (blk_list_heap 0)
       (Some "el_dtor") =
     Some (h', evs)
     ∧ list_wf h' (blk_list_heap 0) [] []
       ∧ (∀ i : nat, i ∈ [1; 2; 3] → h' !! i = None)
         ∧ ∀ i : nat,
             blk_list_heap i ≠ blk_list_heap 0
             → i ∉ [1; 2; 3] → h' !! i = three_element_list !! i)
  ∧ ∃ h' : gmap nat (list_obj Z),
      cc4_list_cleanup 4 three_element_list (blk_list_heap 0)
        (Some "el_dtor") =
      Some (h', evs ++ [list_call_free (blk_list_heap 0, 0%Z)])
      ∧ (∀ i : nat,
           i ∈ [1; 2; 3] ∨ blk_list_heap 0 = blk_list_heap i
           → h' !! i = None)
        ∧ ∀ i : nat,
            blk_list_heap i ≠ blk_list_heap 0
            → i ∉ [1; 2; 3] → h' !! i = three_element_list !! i.
Proof.
  exact (list_cleanup_destroys_every_element three_element_list
           (blk_list_heap 0) [1; 2; 3] [10; 20; 30]%Z (Some "el_dtor") 4
           three_element_list_wf ltac:(cbn; lia)).
Defined.

Lemma list_init_clone_copies_the_elements_witness :
  ∃ (h' : gmap nat (list_obj Z)) (r : option list_block) 
    (evs : list list_event),
    cc4_list_init_clone 4 three_element_list 
      (blk_list_heap 0) 8 list_alloc_fresh =
    Some (h', r, evs)
    ∧ match r with
      | Some clone =>
          evs = []
          ∧ ([1; 2; 3] = [] → clone = blk_list_placeholder)
            ∧ ∃ cids : list nat,
                list_wf h' clone cids [10%Z; 20%Z; 30%Z]
                ∧ list_wf h' (blk_list_heap 0) [
                    1; 2; 3] [10%Z; 20%Z; 30%Z]
                  ∧ (∀ x : nat,
                       three_element_list !! x ≠ None
                       → h' !! x = three_element_list !! x)
                    ∧ ∀ x : nat,
                        x ∈ cids ∨ clone = blk_list_heap x
                        → three_element_list !! x = None
      | None =>
          h' = three_element_list
          ∧ (∃ (hx : gmap nat (list_obj Z)) (size : Z),
               list_alloc_fresh hx size = None)
            ∧ Forall
                (λ e : list_event, ∃ p : list_ptr, e = list_call_free p)
                evs
      end.
Proof.
  exact (list_init_clone_copies_the_elements three_element_list
           (blk_list_heap 0) [1; 2; 3] [10; 20; 30]%Z 8%Z list_alloc_fresh 4
           three_element_list_wf list_alloc_fresh_ok ltac:(cbn; lia)).
Defined.

Lemma list_splice_moves_witness :
  ∃ (h' : gmap nat (list_obj Z)) (result : cc4_list_allocing_fn_result_ty),
    cc4_list_splice two_lists (blk_list_heap 0)
      (list_itr_at [1; 2; 3] 1) (blk_list_heap 4) 
      (list_itr_at [5; 6] 0) list_alloc_fresh =
    Some (h', result)
    ∧ (blk_list_heap 0 ≠ blk_list_placeholder
       → l_new_cntr result = blk_list_heap 0
         ∧ l_other_ptr result = Some cc4_list_dummy_true_ptr)
      ∧ (blk_list_heap 0 = blk_list_placeholder
         → match list_alloc_fresh two_lists sizeof_cc4_list_hdr_ty with
           | Some c =>
               result =
               {|
                 l_new_cntr := blk_list_heap c;
                 l_other_ptr := Some cc4_list_dummy_true_ptr
               |}
           | None =>
               h' = two_lists
               ∧ result =
                 {|
                   l_new_cntr := blk_list_heap 0; l_other_ptr := None
                 |}
           end)
        ∧ match l_other_ptr result with
          | Some _ =>
              ∃ (x : nat) (ex : Z),
                [5; 6] !! 0 = Some x
                ∧ [50%Z; 60%Z] !! 0 = Some ex
                  ∧ list_wf h' (l_new_cntr result)
                      (take 1 [1; 2; 3] ++ x :: drop 1 [1; 2; 3])
                      (take 1 [10%Z; 20%Z; 30%Z] ++
                       ex :: drop 1 [10%Z; 20%Z; 30%Z])
                    ∧ list_wf h' (blk_list_heap 4) 
                        (delete 0 [5; 6]) (delete 0 [50%Z; 60%Z])
                      ∧ ∀ i : nat,
                          two_lists !! i ≠ None
                          → i ∉ [1; 2; 3]
                            → i ∉ [5; 6]
                              → blk_list_heap 0 ≠ blk_list_heap i
                                → blk_list_heap 4 ≠ blk_list_heap i
                                  → h' !! i = two_lists !! i
          | None =>
              h' = two_lists
              ∧ l_new_cntr result = blk_list_heap 0
                ∧ blk_list_heap 0 = blk_list_placeholder
                  ∧ list_alloc_fresh two_lists sizeof_cc4_list_hdr_ty =
                    None
          end.
Proof.
  exact (list_splice_moves two_lists (blk_list_heap 0) [1; 2; 3] [10; 20;
           30]%Z 1 (blk_list_heap 4) [5; 6] [50; 60]%Z 0 list_alloc_fresh
           (proj1 two_lists_wf) (proj2 two_lists_wf) two_lists_apart
           list_alloc_fresh_ok ltac:(cbn; lia) ltac:(cbn; lia)).
Defined.
